(* ===== verification/_CoqProject ===== *)
-Q . S2P
Prelude.v
Document.v
Query.v
Update.v
Collection.v
Pagination.v
Samples.v
Listing.v
Regex.v
Ties.v
Mutators.v
Machine.v
ReadingStatus.v
Concurrent.v
Snapshot.v
Faults.v
Catalogue.v
Commute.v
Unordered.v
Retry.v
Sessions.v
Validation.v
Patch.v
Boundary.v
