(* ===== verification/Prelude.v ===== *)
(** * A verification development for the book catalogue service

    The program is the book module of a catalogue server: a service layer
    (src/src/app/modules/book/book.service.ts) of eleven operations over a
    document store, and the request shapes declared in front of it
    (src/src/app/modules/book/book.validation.ts).  Every operation is one
    call of the store (two for the paginated listing), so what there is to
    verify is (a) the documents the service builds and hands to the store:
    the filter of [getBooks], its sort and page window, and the update
    documents of the mutators; (b) what those documents do to a record and
    to the collection; and (c) which requests the two schemas let through.

    ** Files, in dependency order

    - [Prelude] (this file): the result type of a store call, the state and
      error monad the service is written in with its notation (scope
      [store_scope]), JavaScript truthiness of an optional string, windows
      of a list (skip then limit) with the page-partition lemmas, the hint
      databases [book] and [book_rw] and the tactics shared by the other
      files.
    - [Document]: the records [IBook], [IBookReview], [PartialBook] and
      [BookDocument]; the four membership lists by name ([membership],
      [get_list], [set_list]); the string values of a field path; the
      static configuration as the class [BookConstant].
    - [Query]: the filter documents of the store ([condition]: the empty
      filter, [$and], [$or], [$regex] with options, equality), their
      evaluation [matches] and the store's refusals [check]; the regular
      expressions of the store as the class [RegexEngine], with
      [literal_engine] for patterns without metacharacters.
    - [Update]: the update documents ([update_op]: plain keys, [$push],
      [$pull], [$addToSet]), [apply_update], and the store's refusal of an
      update that writes a path twice ([check_update]).
    - [Collection]: the collection as a list of documents in insertion
      order, its invariant [wf] (keys are unique), and the methods of the
      model in [Module Book]: the query builder ([find], [sort], [skip],
      [limit], [exec]), [countDocuments], [findById], [create],
      [findOneAndUpdate], [findByIdAndDelete]; the directions of a sort
      ([SortOrder]: the words [asc], [ascending], [desc], [descending]
      and the numbers [1] and [-1], read by [ascends]); the classes
      [IdGenerator] and [FieldOrder] with an instance each.
    - [Pagination]: the options of a listing and the resolver
      [calculate_pagination] as the class [PaginationHelper], whose one law
      is [skip = (page - 1) * limit]; [default_helper] has the defaults of
      the specification (page 1, limit 10).
    - [Samples]: the collections the theorems are applied at.
    - [Listing]: [getBooks] under the name and with the parameters it has
      in book.service.ts, with the documents it builds ([searchTerm],
      [filters_data], [search_condition], [filters_condition],
      [and_conditions], [sort_conditions], [where_condition]) and the
      response envelope ([Meta], [IGenericResponse]).
    - [Regex]: an engine for the search term: patterns ([regex]), the
      reader of a pattern ([parse]: a pattern of the fragment, a pattern
      the store refuses, or one beyond the fragment), the search by
      derivatives ([find]) and the instance [pattern_engine]; [occurs],
      the term appears in a searchable field.
    - [Ties]: the listing on a store that orders records of equal sort
      keys as it likes: the orders a sort may return ([may_sort]), the
      answers a listing may give ([may_list]) and the collections whose
      keys are all different ([distinct_keys]).
    - [Mutators]: the ten operations on a single record, each under its
      name and with its parameters: [getBook], [createBook], [updateBook],
      [deleteBook], [addReview], [addToWishlist], [removeFromWishlist],
      [addToReadSoon], [addToCurrentlyReading], [addToFinished], each
      mutator with its update document ([addReview_update], ...,
      [addToFinished_update]) and the acting user of a transition
      ([acting_email], the last element of the payload).
    - [Machine]: the exported object [BookService] as a dispatcher over
      [request]s; one [step] of the server, the [reachable] collections,
      [run], the execution of a sequence of requests, and [getBooks] split
      at its two awaits ([getBooks_find], [getBooks_count]) with another
      request between them ([getBooks_during]).
    - [ReadingStatus]: the reading status of a user on a book: the
      invariant [exclusive] (a user is on at most one of [read_soon],
      [currently_reading], [finished]), the abstract model of the
      specification's design notes (a map from users to at most one
      status, [status_of], with [assign] and [detach]), and the requests
      that keep the invariant ([polite]).
    - [Concurrent]: the requests in flight on the event loop: a [task] is
      a request before its store call ([Pending]), a listing between its
      two awaits ([Counting]) or a settled promise ([Answered]); [advance]
      resumes a task at its next await; [cstep] is one step of the pool of
      tasks over the shared collection, [pick] and [exec] run a schedule.
    - [Snapshot]: the log of an execution, the requests in the order of
      their first store call, and what a task holds of the collections
      the log went through ([seen], [logged]).
    - [Faults]: store calls that fail: [failing], the operation rejected
      at its await with the failure of the store, and [fstep], a step of
      the server whose store serves a call or fails it.
    - [Catalogue]: the service as the specification describes it, on a
      finite map from keys to books: [contract], what each operation does
      to the record it addresses; [promised_listing], the page and the
      total of a listing; [promise], one promised step; and [abs], which
      reads the collection of the model as such a map.
    - [Commute]: requests on pairwise different records ([key_of],
      [apart]) and the answer of a request that runs alone ([alone]).
    - [Unordered]: records, documents and collections up to the order of
      the membership lists (an [Equiv] with its [Equivalence] and the
      [Proper] instances of the operators of an update and of the readers
      of a status), and the transitions of single users ([reader],
      [moves]).
    - [Retry]: requests that are sent again: the operations that may run
      twice for once ([retriable]) and that answer twice alike
      ([repeatable]), requests on single records sent once or more
      ([resent]), the requests of a pool the store has served ([served]),
      and the creates and deletes among the requests.
    - [Sessions]: clients that await each answer before they send the
      next request: a [session] with its [past], the request in flight
      and the requests still to send, the step relation [sstep] of
      clients and store with its executable form ([turn], [turns]), the
      log of an execution with the client of every request ([mine],
      [ordered]), and the requests that leave a record alone ([quiet],
      [own]).
    - [Validation]: [createBookZodSchema] and [updateBookZodSchema] over a
      model of the validation library: values of a JSON body ([json]),
      schemas as data ([schema], built with the combinators of [Module z]),
      the issues a value raises ([issues]), the value a parse returns
      ([output], [safeParse]) and a reference predicate ([conforms]).
    - [Patch]: the bodies the update schema lets through: a book and a
      review of which any field may be missing ([BookPatch],
      [ReviewPatch]), their encoding ([encode_patch], with [field], a key
      that is there when its value is) and the patches that are valid
      ([valid_patch]).
    - [Boundary]: the requests whose bodies have passed the schema the
      module declares for them ([guarded]), with the body of an update
      ([encode_partial]) and the invariants of the data the specification
      states ([valid_book]).

    ** How the model corresponds to the code

    An [async] function of the service is a computation in [M collection
    store_error]: [await x ← m; k] is [const x = await m; k], an [Err] is a
    rejected promise, which the service never catches.  The collection is
    threaded explicitly and every method of the model is one atomic step on
    it.  Object literals the service passes to the store are values of
    [condition] and [update_document]; the key order of an object is the
    order of the list.  A filter request is an association list (the entries
    of the object); [payload[payload.length - 1]] is [last payload], which
    is [None] ([undefined]) on an empty payload; [$pull] of [undefined]
    removes nothing.  An array given to [$addToSet] is added element by
    element (the model casts it to [$each]), as the specification
    describes the operation.  Keys are strings; numbers ([page], [limit],
    [skip]) are integers in [Z], where a negative skip is the store's
    error.

    What the store, the pagination helper, the configuration and the
    validation library do is not in the sources: they are modelled from the
    specification, behind interfaces (classes) where the service does not
    depend on the detail.  The theorems about the service are proved for
    every instance of the interfaces; the instances are used to evaluate
    the definitions at sample inputs.

    ** What the theorems show

    - Listing ([Listing], section [listing_properties]): [meta.total]
      is the number of records that pass the filter request and does not
      depend on the page; every record returned passes it; with no filter
      the listing is a window of the whole collection; the pages partition
      the matching records and a page holds at most [limit] of them; the
      page is in ascending order of the sort field under an ascending
      direction, in descending order under a descending one, and in the
      order of the collection when the field is missing or empty or the
      direction is missing ([getBooks_sorted], stated on the resolved
      options and the order of the field, not on the sort the listing
      builds); the listing is rejected exactly when the store refuses the
      filter or the skip is negative; the order of the keys of the filter object does
      not matter ([Proper] instances for permutations of the entries).
      [passes] is the reference: the search term is found in a searchable
      field and every field filter is exact.
    - Search terms ([Regex]): [find] decides the language of a pattern
      ([find_spec], by derivatives); a term without metacharacters, and
      every term once escaped, is searched for as [literal_engine]
      searches ([pattern_engine_literal], [pattern_test_escape]), so a
      listing with such a term returns records in which the term appears
      ([literal_term_occurs]); the service does not escape the term: for
      every term the engine reads, the records returned hold a word of
      the language of the term as a pattern, and a malformed term makes
      the listing reject ([search_term_is_a_pattern]); at the sample
      collection a term with metacharacters returns records in which it
      does not appear ([pattern_term_is_a_pattern]).
    - Ties ([Ties]): the answer of [getBooks] is one a store may give
      that orders ties as it likes, and every such answer returns
      records that pass the filter, in the order of the key, and counts
      them ([may_list_sound]); under a sort these answers do not depend
      on the order of insertion ([may_list_Permutation], with [Proper]
      instances for permutations); when no two matching records have the same
      key, as under a sort by [_id] on unique keys, it is the only one
      ([distinct_keys_determine_the_listing]); with ties two pages of one
      listing can hold the same record and miss another
      ([tied_pages_overlap]).
    - Mutators ([Mutators], section [mutator_properties]): what each
      operation returns and leaves behind, fields it does not name
      included; the transitions move the acting user; [removeFromWishlist]
      is idempotent and detaches the user; a key that names no record is a
      soft failure ([null], no error, nothing changed); create followed by
      get, delete followed by get, and create followed by the delete of
      the key returned, which restores the collection.
    - Machine ([Machine]): unique keys are an invariant of every step and
      hold in every reachable collection; a request changes at most the
      record it addresses; only a listing can be rejected; reviews are
      append-only except under a partial update that carries them; a
      listing that is interleaved with another request reads its page
      before and its total after that request.
    - Concurrency ([Concurrent]): every execution ends, after at most
      [work] steps (two per listing, one per other request); an execution
      ends only when every request is answered, and a request that the
      schedule resumes twice is answered; executions are serializable:
      the collection is the one a sequential [run] of the requests that
      have made their call leaves, and the operations on a single record
      have the answers of that run; the invariants of the machine (unique
      keys, reachability, exclusion under polite requests) hold along
      every execution; the schedule [one_by_one] is [run]; the schedule
      that puts a request between the awaits of a listing is
      [getBooks_during] ([exec_during]).
    - Snapshots ([Snapshot]): every execution has a log such that the
      collection is the run of the log, every operation that awaits the
      store once is answered as by its run at its place in the log, and
      a listing is answered with the page of one prefix of the log and
      the count of a longer one ([every_answer_has_its_place], by
      induction on the execution from the right with the invariant
      [logged]); when no request writes in between, the listing is the
      listing of one moment ([undisturbed_listing_is_atomic]).
    - Failures ([Faults]): an execution in which the store fails calls
      is simulated by an execution without failures in which the failed
      requests have not made that call ([failed_calls_leave_no_trace]):
      a failure writes nothing; no call is made again
      ([no_call_is_made_again], the bound [work] still holds); the errors
      the clients see are the failure of the store or the refusal of a
      listing, which is the same on every collection
      ([rejections_are_the_stores]).
    - Contract ([Catalogue]): every step of the server is a step the
      catalogue promises (a forward simulation along [abs], on
      collections with unique keys), so are runs, and so are the
      executions of the concurrent server, in some order of the requests;
      the promise leaves a choice to creates (the key) and listings (the
      enumeration) only ([promise_deterministic]).
    - Commutation ([Commute]): requests on pairwise different records are
      each answered as if alone and leave the same collection in every
      order; every execution of the concurrent server that answers them
      all ends alike; on one record the order matters
      ([same_record_order_matters]).
    - Convergence ([Unordered]): the transitions of two users on one
      record commute up to the order of the lists ([moves_commute]), so
      every two executions that serve the transitions of single users
      end in equivalent collections, in which every user has the same
      status ([moves_converge]); the lists themselves show the order of
      service ([readers_in_order]).
    - Retries ([Retry]): an operation run twice leaves what it leaves run
      once exactly when it is neither [createBook] nor [addReview], and
      answers alike exactly when it is not [deleteBook] either
      ([retriable_iff_idempotent]); for requests on single records that
      are sent once or more, whatever calls the store fails and in
      whatever order it serves the others, once a copy of each has been
      served the collection is the one that one copy of each leaves
      ([retries_take_effect_once], from the simulation of [Faults], the
      log of [Concurrent] and the commutation of [Commute]); a copy that
      arrives after another request on the record undoes it
      ([late_copy_overwrites]); creates add up: the size of the collection
      is bounded by the creates and deletes among the requests
      ([collection_size_bounds]).
    - Sessions ([Sessions]): the server is sequentially consistent: the
      collection is the run of a log in which the requests of every
      client stand in the order the client sent them, and the [j]-th
      request of a client was answered at its place in the log, after
      exactly the [j] requests the client had sent before
      ([sessions_keep_program_order], by the invariant [ordered]); a
      client that is alone on a record reads its own writes, whatever
      the other clients do ([alone_on_a_record_reads_own_writes]), which
      requests in flight at once do not ([in_flight_reads_stale]); every
      execution ends, after at most three steps for every request, and
      ends with every script answered ([every_script_is_answered]); one
      client alone is the run of its script ([one_client_is_run]).
    - Reading status ([ReadingStatus]): a transition keeps the exclusion
      invariant exactly when the payload is [settled]; it then refines the
      abstract assignment, and [removeFromWishlist] refines the abstract
      detach; polite runs keep every record exclusive; the service as
      written does not ([exclusion_can_break]).
    - Validation ([Validation]): the issues are empty exactly on the values
      that conform; the create schema accepts exactly the encodings of
      books with a configured genre and valid review emails, and returns
      them; the update schema accepts whatever the create schema accepts;
      the issues of an empty body; the membership lists are not looked at;
      what a schema returns it accepts and returns again
      ([BookValidation_parse_idempotent], for the schemas that are
      [wf_schema]: no field declared twice).
    - Update schema ([Patch]): the update schema accepts exactly the
      encodings of the valid patches and returns them, and whatever it
      accepts it returns as one: the keys that were present, of their
      types, and no other ([updateBookZodSchema_accepts_patches]).
    - Boundary ([Boundary]): guarded requests keep the genre of every
      record configured along every execution, and the emails of the
      reviews valid as long as the reviews [addReview] brings are; no
      schema checks those: after [addReview] a valid collection is valid
      exactly when the email of the review is an address
      ([addReview_keeps_valid_iff]); the update schema accepts a review
      with no email, the body of no typed payload
      ([unchecked_reviews_reach_the_store]).

    Every theorem with a hypothesis is applied at a sample input by a
    lemma named after it ([..._witness]), at the end of its file.

    ** Bounds and choices

    No definition needs fuel: every function is structural recursion or a
    composition of list functions, so each operation is total in the model
    and the theorems are about every collection, payload and request.
    The concurrent server needs none either: its step relation is
    well founded, by the measure [work], and a schedule is a finite list;
    so is the step relation of the sessions, by the measure [swork].  The
    sort of [exec] is a merge sort under one key, as the service
    never passes more than one; it fixes one order of the records whose
    keys are equal, and [Ties] states what holds under every order.  [literal_engine] folds case for ASCII
    letters only and is defined on patterns without metacharacters;
    [pattern_engine] reads patterns and subjects as sequences of 8-bit
    characters, folds case for ASCII letters, interprets no option but
    [i], and finds nothing for a pattern beyond its fragment.  The
    theorems about [getBooks] in [Listing] take the engine as a parameter
    and do not use it; those in [Regex] are about [pattern_engine] on the
    patterns it reads.  [find] needs no fuel: a derivative is taken for
    each character of the subject.  [long_id_generator] makes a key longer than every key in use.
    [plain_email_syntax] is a plain test (something, an at sign, two parts
    around a dot); the theorems about the schemas hold for every syntax.

    ** Where the model is narrower than the code

    The payload of [addToWishlist] is typed [any] in the source; the
    model takes it for a list of strings, the values the specification
    gives the wishlist.  The payload of [updateBook] is a [PartialBook],
    as the source types it ([Partial<IBook>]): a review in it has an email
    and a comment, so a body that the update schema accepts with a review
    that lacks them is the body of no request of the model; [Patch] has
    such bodies on the side of the schema, and [Boundary] says of its
    theorems that they are about typed payloads.  Page, limit and skip are
    integers: values that are not numbers or not whole are left out.  The
    tasks of [Concurrent] have the stages the awaits of the source give
    them (two store calls in [getBooks], one in every other operation),
    and a store call is one step; [failing] and [may_list] are not
    translations of lines of the service but statements about the store:
    that a failed call writes nothing, and that ties under a sort come in
    any order.

    ** What is not modelled

    Routing, controllers, HTTP transport and authentication, which are not
    among the sources.  Of the store: casting of keys and payloads to the
    schema of the model, schema defaults and validators, timestamps and the
    version key; a failure of the store is the failure of one call, which
    writes nothing ([Faults]), and failures that leave a call half done
    are not modelled; of its pattern language, character
    classes, anchors, counted, lazy and possessive repetition, groups that
    start with [(?] and escapes of letters and digits, and characters
    outside ASCII.  Of concurrency: a store call is
    one atomic step, as the specification states of the store, so
    parallelism inside the store is not modelled; requests that arrive during an execution are tasks of the
    pool that are scheduled late, and clients that wait for an answer
    before they send again are the sessions of [Sessions].  Of the validation library: the texts of the issues other
    than the [required_error] messages the schemas declare, and its own
    pattern for email addresses.
*)

From stdpp Require Export base tactics option list sets strings sorting.

(** ** Results of a store call

    A store call resolves to a value or rejects with an error; the service
    never catches, so a rejection of the store is the rejection of the
    service operation. *)

Inductive result (E A : Type) : Type :=
| Ok (a : A)
| Err (e : E).
Arguments Ok {E A} a.
Arguments Err {E A} e.

Definition is_ok {E A} (r : result E A) : bool :=
  match r with Ok _ => true | Err _ => false end.

Definition result_map {E A B} (f : A → B) (r : result E A) : result E B :=
  match r with Ok a => Ok (f a) | Err e => Err e end.

(** ** The monad of the service: state and errors

    A service operation is an [async] function over the shared collection:
    it reads and writes the collection through the model's methods and
    either returns or throws.  [M S E A] threads the collection [S]
    explicitly; [Err] aborts and leaves no state behind, as a rejected store
    call changes nothing. *)

Definition M (S E A : Type) : Type := S → result E (A * S).

Definition ret {S E A} (a : A) : M S E A := λ s, Ok (a, s).

Definition bind {S E A B} (m : M S E A) (k : A → M S E B) : M S E B :=
  λ s, match m s with
       | Ok (a, s') => k a s'
       | Err e => Err e
       end.

Definition throw {S E A} (e : E) : M S E A := λ _, Err e.

Definition gets {S E A} (f : S → A) : M S E A := λ s, Ok (f s, s).

Definition modify {S E} (f : S → S) : M S E unit := λ s, Ok (tt, f s).

Definition lift_result {S E A} (r : result E A) : M S E A :=
  λ s, match r with Ok a => Ok (a, s) | Err e => Err e end.

(** The value and the final state of a run, when it succeeds. *)
Definition value_of {S E A} (m : M S E A) (s : S) : result E A :=
  result_map fst (m s).

Definition state_of {S E A} (m : M S E A) (s : S) : result E S :=
  result_map snd (m s).

Declare Scope store_scope.
Delimit Scope store_scope with store.
Notation "'await' x ← m ; k" := (bind m (λ x, k))
  (at level 20, x name, m at level 100, k at level 200,
   format "'[v' 'await'  x  ←  m ;  '/' k ']'") : store_scope.
Open Scope store_scope.

(** ** JavaScript truthiness

    [if (searchTerm)] and [if (sortBy && sortOrder)] test an optional string:
    [undefined] and the empty string are falsy, every other string truthy. *)

Definition truthy (o : option string) : bool :=
  match o with
  | Some s => bool_decide (s ≠ "")
  | None => false
  end.

(** ** Windows of a list: skip, then limit *)

Definition window {A} (skip limit : nat) (l : list A) : list A :=
  take limit (drop skip l).

(** The [p]-th page (from 0) of [l] in pages of [n]. *)
Definition page_of {A} (n p : nat) (l : list A) : list A :=
  window (p * n) n l.

(** ** Hint databases and tactics *)

Create HintDb book discriminated.
Create Rewrite HintDb book_rw.

(** stdpp's [naive_solver] clears hypotheses that discrimination already
    consumed; the warning it triggers says nothing about the proofs here. *)
#[export] Set Warnings "-clear-no-such-hyp".

(** [case_result] destructs the first store result the goal matches on. *)
Ltac case_result :=
  match goal with
  | |- context [match ?r with Ok _ => _ | Err _ => _ end] =>
      let E := fresh "Hres" in destruct r as [[? ?]|?] eqn:E
  end.

(** [unfold_store] unfolds the monad's operations in the goal and the
    hypotheses; [run_store] also simplifies. *)
Ltac unfold_store :=
  unfold value_of, state_of, bind, ret, throw, gets, modify, lift_result,
    result_map in *.

Ltac run_store := unfold_store; simpl in *.

(** * Lemmas *)

Section result_lemmas.
Context {E A B : Type}.
Implicit Types (r : result E A) (f : A → B).

Lemma is_ok_Ok r : is_ok r = true ↔ ∃ a, r = Ok a.
Proof. destruct r; naive_solver. Qed.

Lemma is_ok_Err r : is_ok r = false ↔ ∃ e, r = Err e.
Proof. destruct r; naive_solver. Qed.

Lemma result_map_Ok f r b :
  result_map f r = Ok b ↔ ∃ a, r = Ok a ∧ b = f a.
Proof. destruct r; naive_solver. Qed.

Lemma result_map_Err f r e : result_map f r = Err e ↔ r = Err e.
Proof. destruct r; naive_solver. Qed.

End result_lemmas.

Section monad_laws.
Context {S E : Type}.

Lemma bind_ret_l {A B} (a : A) (k : A → M S E B) s : bind (ret a) k s = k a s.
Proof. done. Qed.

Lemma bind_ret_r {A} (m : M S E A) s : bind m ret s = m s.
Proof. unfold bind, ret. by destruct (m s) as [[??]|]. Qed.

Lemma bind_assoc {A B C} (m : M S E A) (k : A → M S E B) (h : B → M S E C) s :
  bind (bind m k) h s = bind m (λ a, bind (k a) h) s.
Proof. unfold bind. by destruct (m s) as [[??]|]. Qed.

Lemma bind_Ok {A B} (m : M S E A) (k : A → M S E B) s b s'' :
  bind m k s = Ok (b, s'') ↔ ∃ a s', m s = Ok (a, s') ∧ k a s' = Ok (b, s'').
Proof. unfold bind. destruct (m s) as [[??]|]; naive_solver. Qed.

Lemma bind_Err {A B} (m : M S E A) (k : A → M S E B) s e :
  bind m k s = Err e ↔
  m s = Err e ∨ ∃ a s', m s = Ok (a, s') ∧ k a s' = Err e.
Proof. unfold bind. destruct (m s) as [[??]|]; naive_solver. Qed.

Lemma gets_run {A} (f : S → A) s : gets (E:=E) f s = Ok (f s, s).
Proof. done. Qed.

End monad_laws.

#[export] Hint Rewrite @bind_ret_l @bind_ret_r @gets_run : book_rw.

Section truthy_lemmas.

Lemma truthy_Some s : truthy (Some s) = true ↔ s ≠ "".
Proof. simpl. by rewrite bool_decide_eq_true. Qed.

Lemma truthy_true o : truthy o = true ↔ ∃ s, o = Some s ∧ s ≠ "".
Proof.
  destruct o as [s|]; simpl; [rewrite bool_decide_eq_true|]; naive_solver.
Qed.

Lemma truthy_None : truthy None = false.
Proof. done. Qed.

Lemma truthy_empty : truthy (Some "") = false.
Proof. done. Qed.

End truthy_lemmas.

Section window_lemmas.
Context {A : Type}.
Implicit Types (l : list A) (x : A).

Lemma window_length skip limit l :
  length (window skip limit l) = limit `min` (length l - skip).
Proof. unfold window. by rewrite length_take, length_drop. Qed.

Lemma window_length_le skip limit l : length (window skip limit l) ≤ limit.
Proof. rewrite window_length. lia. Qed.

Lemma window_sublist skip limit l : window skip limit l `sublist_of` l.
Proof.
  unfold window. etrans; [apply sublist_take|apply sublist_drop].
Qed.

Lemma elem_of_window skip limit l x : x ∈ window skip limit l → x ∈ l.
Proof. intros Hx. eapply elem_of_sublist; [done|apply window_sublist]. Qed.

Lemma window_Forall (P : A → Prop) skip limit l :
  Forall P l → Forall P (window skip limit l).
Proof.
  rewrite !Forall_forall. intros H x Hx. by eapply H, elem_of_window.
Qed.

Lemma window_NoDup skip limit l : NoDup l → NoDup (window skip limit l).
Proof. intros H. eapply sublist_NoDup; [done|apply window_sublist]. Qed.

Lemma window_0_all limit l : length l ≤ limit → window 0 limit l = l.
Proof. intros H. unfold window. rewrite drop_0. by apply take_ge. Qed.

Lemma window_beyond skip limit l : length l ≤ skip → window skip limit l = [].
Proof. intros H. unfold window. by rewrite drop_ge, take_nil. Qed.

Lemma window_lookup skip limit l i :
  i < limit → window skip limit l !! i = l !! (skip + i).
Proof. intros H. unfold window. by rewrite lookup_take_lt, lookup_drop. Qed.

(** A sublist of a sorted list is sorted; so are a window and a suffix. *)
Lemma sublist_StronglySorted (R : relation A) l1 l2 :
  l1 `sublist_of` l2 → StronglySorted R l2 → StronglySorted R l1.
Proof.
  induction 1 as [|x l1 l2 Hsub IH|x l1 l2 Hsub IH]; [done|..];
    intros [Hs Hx]%StronglySorted_inv; [|by apply IH].
  constructor; [by apply IH|]. rewrite Forall_forall in Hx |- *.
  intros y Hy. apply Hx. by eapply elem_of_sublist.
Qed.

Lemma window_StronglySorted (R : relation A) skip limit l :
  StronglySorted R l → StronglySorted R (window skip limit l).
Proof. apply sublist_StronglySorted, window_sublist. Qed.

Lemma drop_StronglySorted (R : relation A) skip l :
  StronglySorted R l → StronglySorted R (drop skip l).
Proof. apply sublist_StronglySorted, sublist_drop. Qed.

(** Consecutive windows concatenate. *)
Lemma window_app skip n m l :
  window skip n l ++ window (skip + n) m l = window skip (n + m) l.
Proof.
  unfold window. rewrite <-(drop_drop l n skip). apply take_take_drop.
Qed.

(** The first [k] pages of [n] records are the first [k * n] records. *)
Lemma pages_concat n k l :
  concat ((λ p, page_of n p l) <$> seq 0 k) = take (k * n) l.
Proof.
  induction k as [|k IH]; [done|].
  rewrite seq_S, fmap_app, concat_app, IH. simpl. rewrite app_nil_r.
  unfold page_of. rewrite <-(drop_0 l) at 1.
  change (take (k * n) (drop 0 l)) with (window 0 (k * n) l).
  rewrite window_app. unfold window. rewrite drop_0. f_equal. lia.
Qed.

(** Enough pages cover the list. *)
Lemma pages_cover n k l :
  length l ≤ k * n → concat ((λ p, page_of n p l) <$> seq 0 k) = l.
Proof. intros H. rewrite pages_concat. by apply take_ge. Qed.

(** Distinct pages of a duplicate-free list share no record. *)
Lemma pages_disjoint n p q l x :
  NoDup l → p ≠ q → x ∈ page_of n p l → x ∉ page_of n q l.
Proof.
  intros Hnd Hpq [i Hi]%list_elem_of_lookup [j Hj]%list_elem_of_lookup.
  unfold page_of in *.
  assert (i < n) by (apply lookup_lt_Some in Hi; rewrite window_length in Hi; lia).
  assert (j < n) by (apply lookup_lt_Some in Hj; rewrite window_length in Hj; lia).
  rewrite window_lookup in Hi, Hj by done.
  pose proof (NoDup_lookup _ _ _ _ Hnd Hi Hj). nia.
Qed.

End window_lemmas.

#[export] Hint Resolve window_length_le window_sublist : book.

(** ** Association lists with each key once *)

Section keyed_lists.
Context {K V : Type}.
Implicit Types (l : list (K * V)).

Lemma NoDup_fst_unique l k v v' :
  NoDup l.*1 → (k, v) ∈ l → (k, v') ∈ l → v = v'.
Proof.
  induction l as [|[k0 v0] l IH]; [by intros _ ?%elem_of_nil|].
  rewrite fmap_cons, NoDup_cons, !elem_of_cons. simpl.
  intros [Hk Hnd] [?|Hv] [?|Hv']; simplify_eq; [done| | |by eapply IH];
    destruct Hk; apply list_elem_of_fmap; by eexists (_, _).
Qed.

End keyed_lists.

Section decoded_lists.
Context {A B C : Type}.

(** A list whose every element is read as the encoding of a value is read
    as the encodings of a list of values. *)
Lemma omap_decoded (f : A → option B) (g : C → B) (P : A → Prop) (Q : C → Prop) l :
  (∀ x, P x → ∃ y, f x = Some (g y) ∧ Q y) →
  Forall P l → ∃ l', omap f l = g <$> l' ∧ Forall Q l'.
Proof.
  intros Hf. induction 1 as [|x l Hx _ (l' & Hl & ?)]; [by exists []|].
  destruct (Hf x Hx) as (y & Hy & ?). exists (y :: l').
  split; [|by constructor]. cbn [omap list_omap]. by rewrite Hy, Hl.
Qed.

End decoded_lists.
