(* ===== verification/Document.v ===== *)
(** * Document: the book record and its fields

    The data the service moves between its callers and the store: a review,
    a book (the payload of [createBook]), a partial book (the payload of
    [updateBook]), a stored document (a book under its store-assigned key),
    the four membership lists addressed by name, and the string values a
    filter sees at a field path.  The static configuration of the module
    (searchable fields, genres) is the class [BookConstant]. *)

From S2P Require Import Prelude.

(** ** Records *)

Record IBookReview : Type := mkReview {
  email : string;
  comment : string;
}.

Record IBook : Type := mkBook {
  title : string;
  author : string;
  genre : string;
  publication_date : string;
  reviews : list IBookReview;
  wishlist : list string;
  read_soon : list string;
  currently_reading : list string;
  finished : list string;
}.

(** [Partial<IBook>]: every field optional; [None] is an absent key. *)
Record PartialBook : Type := mkPartial {
  p_title : option string;
  p_author : option string;
  p_genre : option string;
  p_publication_date : option string;
  p_reviews : option (list IBookReview);
  p_wishlist : option (list string);
  p_read_soon : option (list string);
  p_currently_reading : option (list string);
  p_finished : option (list string);
}.

(** The key the store assigns to a document. *)
Definition ObjectId : Type := string.

(** A stored document: the book under its key. *)
Record BookDocument : Type := mkDoc {
  _id : ObjectId;
  doc : IBook;
}.

#[export] Instance IBookReview_eq_dec : EqDecision IBookReview.
Proof. solve_decision. Defined.
#[export] Instance IBook_eq_dec : EqDecision IBook.
Proof. solve_decision. Defined.
#[export] Instance PartialBook_eq_dec : EqDecision PartialBook.
Proof. solve_decision. Defined.
#[export] Instance BookDocument_eq_dec : EqDecision BookDocument.
Proof. solve_decision. Defined.

(** The payload with no key present. *)
Definition empty_partial : PartialBook :=
  mkPartial None None None None None None None None None.

(** ** The membership lists, by name *)

Inductive membership : Type :=
| Wishlist
| ReadSoon
| CurrentlyReading
| Finished.

#[export] Instance membership_eq_dec : EqDecision membership.
Proof. solve_decision. Defined.

Definition all_memberships : list membership :=
  [Wishlist; ReadSoon; CurrentlyReading; Finished].

(** The three reading-status lists: a user is meant to be in at most one. *)
Definition reading_lists : list membership :=
  [ReadSoon; CurrentlyReading; Finished].

Definition membership_path (m : membership) : string :=
  match m with
  | Wishlist => "wishlist"
  | ReadSoon => "read_soon"
  | CurrentlyReading => "currently_reading"
  | Finished => "finished"
  end.

Definition get_list (m : membership) (b : IBook) : list string :=
  match m with
  | Wishlist => wishlist b
  | ReadSoon => read_soon b
  | CurrentlyReading => currently_reading b
  | Finished => finished b
  end.

Definition set_list (m : membership) (l : list string) (b : IBook) : IBook :=
  match m with
  | Wishlist =>
      mkBook (title b) (author b) (genre b) (publication_date b) (reviews b)
             l (read_soon b) (currently_reading b) (finished b)
  | ReadSoon =>
      mkBook (title b) (author b) (genre b) (publication_date b) (reviews b)
             (wishlist b) l (currently_reading b) (finished b)
  | CurrentlyReading =>
      mkBook (title b) (author b) (genre b) (publication_date b) (reviews b)
             (wishlist b) (read_soon b) l (finished b)
  | Finished =>
      mkBook (title b) (author b) (genre b) (publication_date b) (reviews b)
             (wishlist b) (read_soon b) (currently_reading b) l
  end.

Definition set_reviews (rs : list IBookReview) (b : IBook) : IBook :=
  mkBook (title b) (author b) (genre b) (publication_date b) rs
         (wishlist b) (read_soon b) (currently_reading b) (finished b).

(** The scalar part of a book: what no list operation touches. *)
Definition scalars (b : IBook) : string * string * string * string :=
  (title b, author b, genre b, publication_date b).

(** ** Field paths

    The strings a filter clause on [path] is compared with: the value of a
    string field, the elements of a list of strings, the sub-field of every
    review for a dotted path into [reviews].  Any other path holds no
    string. *)

Definition string_values (path : string) (b : IBook) : list string :=
  if decide (path = "title") then [title b]
  else if decide (path = "author") then [author b]
  else if decide (path = "genre") then [genre b]
  else if decide (path = "publication_date") then [publication_date b]
  else if decide (path = "wishlist") then wishlist b
  else if decide (path = "read_soon") then read_soon b
  else if decide (path = "currently_reading") then currently_reading b
  else if decide (path = "finished") then finished b
  else if decide (path = "reviews.email") then email <$> reviews b
  else if decide (path = "reviews.comment") then comment <$> reviews b
  else [].

(** ** Static configuration (book.constant) *)

Class BookConstant : Type := {
  books_searchable_fields : list string;
  book_genres : list string;
}.

(** The configuration the specification names: title, author and genre are
    searched.  The genre list is a sample; no theorem depends on it. *)
Definition default_constant : BookConstant := {|
  books_searchable_fields := ["title"; "author"; "genre"];
  book_genres := ["Fiction"; "Non-Fiction"; "Science Fiction"; "Fantasy";
                  "Mystery"; "Biography"; "History"];
|}.

(** * Lemmas *)

Section list_fields.
Implicit Types (m : membership) (b : IBook) (l : list string).

Lemma get_set_list m l b : get_list m (set_list m l b) = l.
Proof. by destruct m. Qed.

Lemma get_set_list_ne m m' l b :
  m ≠ m' → get_list m' (set_list m l b) = get_list m' b.
Proof. by destruct m, m'. Qed.

Lemma set_get_list m b : set_list m (get_list m b) b = b.
Proof. by destruct m, b. Qed.

Lemma set_set_list m l l' b : set_list m l (set_list m l' b) = set_list m l b.
Proof. by destruct m. Qed.

Lemma set_list_comm m m' l l' b :
  m ≠ m' →
  set_list m l (set_list m' l' b) = set_list m' l' (set_list m l b).
Proof. by destruct m, m'. Qed.

Lemma reviews_set_list m l b : reviews (set_list m l b) = reviews b.
Proof. by destruct m. Qed.

Lemma scalars_set_list m l b : scalars (set_list m l b) = scalars b.
Proof. by destruct m. Qed.

Lemma scalars_set_reviews rs b : scalars (set_reviews rs b) = scalars b.
Proof. done. Qed.

Lemma get_list_set_reviews m rs b :
  get_list m (set_reviews rs b) = get_list m b.
Proof. by destruct m. Qed.

Lemma reviews_set_reviews rs b : reviews (set_reviews rs b) = rs.
Proof. done. Qed.

(** A book is its scalars, its reviews and its four lists. *)
Lemma book_ext b b' :
  scalars b = scalars b' → reviews b = reviews b' →
  (∀ m, get_list m b = get_list m b') → b = b'.
Proof.
  destruct b, b'; unfold scalars; simpl. intros [= -> -> -> ->] -> H.
  pose proof (H Wishlist). pose proof (H ReadSoon).
  pose proof (H CurrentlyReading). pose proof (H Finished).
  by simplify_eq/=.
Qed.

Lemma elem_of_all_memberships m : m ∈ all_memberships.
Proof. destruct m; unfold all_memberships; repeat constructor. Qed.

Lemma membership_path_inj : Inj (=) (=) membership_path.
Proof. by intros [] [] [=]. Qed.

Lemma string_values_membership m b :
  string_values (membership_path m) b = get_list m b.
Proof. by destruct m. Qed.

End list_fields.

#[export] Hint Rewrite get_set_list reviews_set_list scalars_set_list
  scalars_set_reviews get_list_set_reviews reviews_set_reviews
  set_set_list : book_rw.
#[export] Hint Rewrite get_set_list_ne using done : book_rw.
#[export] Hint Resolve elem_of_all_memberships : book.
