(* ===== verification/Query.v ===== *)
(** * Query: the filter documents of the store

    The fragment of the store's filter language the service builds: the
    empty filter, [$and] and [$or] over a list of clauses, a [$regex] clause
    with [$options] on a field, and an exact-match clause on a field.
    [matches] decides a filter on a document; [check] is what the store
    refuses before it looks at any document: an empty [$and]/[$or] array and
    a pattern the regular-expression engine rejects.

    The regular-expression engine is an interface ([RegexEngine]): the
    service hands the search term to the store unescaped, so what a term
    matches is the engine's business.  [literal_engine] implements it for
    patterns without metacharacters: a case-insensitive (ASCII) substring
    test under option [i].  [Regex] implements it for patterns. *)

From Stdlib Require Import Ascii String.
From S2P Require Import Prelude Document.

(** ** Errors of the store *)

Inductive store_error : Type :=
| EmptyLogicalArray          (* $and/$or/$nor entries need a non-empty array *)
| InvalidRegex (pattern : string)
| NegativeSkip (skip : Z)
| ConflictingUpdate (path : string)    (* two operators of an update on one path *)
| Unavailable.                        (* the store could not be reached *)

#[export] Instance store_error_eq_dec : EqDecision store_error.
Proof. solve_decision. Defined.

(** ** The regular-expression engine *)

Class RegexEngine : Type := {
  (** the engine compiles the pattern under the options *)
  regex_valid : string → string → bool;
  (** pattern, options, subject: the pattern matches somewhere in the subject *)
  regex_test : string → string → string → bool;
}.

(** ** Filters *)

Unset Elimination Schemes.
Inductive condition : Type :=
| CAll                                        (* {} *)
| CAnd (cs : list condition)                  (* { $and: [...] } *)
| COr (cs : list condition)                   (* { $or: [...] } *)
| CRegex (field pattern options : string)     (* { [field]: { $regex, $options } } *)
| CEq (field value : string).                 (* { [field]: value } *)
Set Elimination Schemes.

(** Induction over a filter, with the hypothesis for every clause of an
    [$and] or [$or]. *)
Definition condition_ind (P : condition → Prop)
    (HAll : P CAll)
    (HAnd : ∀ cs, Forall P cs → P (CAnd cs))
    (HOr : ∀ cs, Forall P cs → P (COr cs))
    (HRegex : ∀ f p o, P (CRegex f p o))
    (HEq : ∀ f v, P (CEq f v)) : ∀ c, P c :=
  fix go c :=
    let all := fix all cs : Forall P cs :=
      match cs with
      | [] => Forall_nil_2 P
      | c :: cs => Forall_cons_2 P c cs (go c) (all cs)
      end in
    match c with
    | CAll => HAll
    | CAnd cs => HAnd cs (all cs)
    | COr cs => HOr cs (all cs)
    | CRegex f p o => HRegex f p o
    | CEq f v => HEq f v
    end.

(** The strings an exact-match clause compares with: the key for [_id],
    the field's strings otherwise. *)
Definition eq_values (path : string) (d : BookDocument) : list string :=
  if decide (path = "_id") then [_id d] else string_values path (doc d).

Section matching.
Context `{RegexEngine}.

Fixpoint matches (c : condition) (d : BookDocument) : bool :=
  match c with
  | CAll => true
  | CAnd cs => forallb (λ c, matches c d) cs
  | COr cs => existsb (λ c, matches c d) cs
  | CRegex f p o => existsb (regex_test p o) (string_values f (doc d))
  | CEq f v => bool_decide (v ∈ eq_values f d)
  end.

(** What the store refuses in a filter, in the order it meets them. *)
Fixpoint condition_errors (c : condition) : list store_error :=
  match c with
  | CAll | CEq _ _ => []
  | CRegex _ p o => if regex_valid p o then [] else [InvalidRegex p]
  | CAnd cs | COr cs =>
      (if cs is [] then [EmptyLogicalArray] else [])
      ++ flat_map condition_errors cs
  end.

Definition check (c : condition) : result store_error unit :=
  match condition_errors c with
  | [] => Ok tt
  | e :: _ => Err e
  end.

End matching.

(** ** The literal engine *)

Definition lower_ascii (c : ascii) : ascii :=
  let n := nat_of_ascii c in
  if (65 <=? n) && (n <=? 90) then ascii_of_nat (n + 32) else c.

Fixpoint lower (s : string) : string :=
  match s with
  | EmptyString => EmptyString
  | String c s' => String (lower_ascii c) (lower s')
  end.

(** [contains p s]: [p] occurs in [s]. *)
Fixpoint contains (p s : string) : bool :=
  String.prefix p s ||
  match s with
  | EmptyString => false
  | String _ s' => contains p s'
  end.

(** The characters with a meaning in a pattern. *)
Definition metacharacters : list ascii :=
  list_ascii_of_string "\^$.|?*+()[]{}".

Definition literal_pattern (p : string) : bool :=
  forallb (λ c, bool_decide (c ∉ metacharacters)) (list_ascii_of_string p).

Definition literal_test (p o s : string) : bool :=
  if contains "i" o then contains (lower p) (lower s) else contains p s.

Definition literal_engine : RegexEngine := {|
  regex_valid _ _ := true;
  regex_test := literal_test;
|}.

(** * Lemmas *)

Section matching_lemmas.
Context `{RegexEngine}.
Implicit Types (c : condition) (d : BookDocument) (cs : list condition).

Lemma matches_CAnd cs d :
  matches (CAnd cs) d = true ↔ ∀ c, c ∈ cs → matches c d = true.
Proof.
  simpl. rewrite forallb_forall. by setoid_rewrite list_elem_of_In.
Qed.

Lemma matches_COr cs d :
  matches (COr cs) d = true ↔ ∃ c, c ∈ cs ∧ matches c d = true.
Proof.
  simpl. rewrite existsb_exists. by setoid_rewrite list_elem_of_In.
Qed.

Lemma matches_CRegex f p o d :
  matches (CRegex f p o) d = true ↔
  ∃ s, s ∈ string_values f (doc d) ∧ regex_test p o s = true.
Proof.
  simpl. rewrite existsb_exists. by setoid_rewrite list_elem_of_In.
Qed.

Lemma matches_CEq f v d :
  matches (CEq f v) d = true ↔ v ∈ eq_values f d.
Proof. simpl. by rewrite bool_decide_eq_true. Qed.

Lemma matches_CEq_id i d : matches (CEq "_id" i) d = true ↔ _id d = i.
Proof.
  rewrite matches_CEq. unfold eq_values. simpl.
  rewrite list_elem_of_singleton. naive_solver.
Qed.

(** [$and] of one clause is the clause; [$and] distributes over append. *)
Lemma matches_CAnd_singleton c d : matches (CAnd [c]) d = matches c d.
Proof. simpl. by rewrite andb_true_r. Qed.

Lemma matches_CAnd_app cs cs' d :
  matches (CAnd (cs ++ cs')) d = matches (CAnd cs) d && matches (CAnd cs') d.
Proof. simpl. apply forallb_app. Qed.

Lemma check_Ok c : check c = Ok tt ↔ condition_errors c = [].
Proof. unfold check. destruct (condition_errors c); naive_solver. Qed.

Lemma check_Err c e : check c = Err e ↔ head (condition_errors c) = Some e.
Proof. unfold check. destruct (condition_errors c); naive_solver. Qed.

Lemma check_CAll : check CAll = Ok tt.
Proof. done. Qed.

Lemma check_CEq f v : check (CEq f v) = Ok tt.
Proof. done. Qed.

Lemma errors_CAnd cs :
  condition_errors (CAnd cs) =
  (if cs is [] then [EmptyLogicalArray] else []) ++ flat_map condition_errors cs.
Proof. done. Qed.

Lemma errors_COr cs :
  condition_errors (COr cs) =
  (if cs is [] then [EmptyLogicalArray] else []) ++ flat_map condition_errors cs.
Proof. done. Qed.

Lemma errors_CRegex f p o :
  condition_errors (CRegex f p o) =
  if regex_valid p o then [] else [InvalidRegex p].
Proof. done. Qed.

Lemma errors_CAnd_cons c cs :
  condition_errors (CAnd (c :: cs)) =
  condition_errors c ++ flat_map condition_errors cs.
Proof. done. Qed.

Lemma errors_COr_cons c cs :
  condition_errors (COr (c :: cs)) =
  condition_errors c ++ flat_map condition_errors cs.
Proof. done. Qed.

(** A list of exact-match clauses holds no error. *)
Lemma errors_CEq_list (kvs : list (string * string)) :
  flat_map condition_errors ((λ kv, CEq kv.1 kv.2) <$> kvs) = [].
Proof. by induction kvs. Qed.

(** A list of [$regex] clauses on one pattern holds an error exactly when
    the pattern is invalid and the list is not empty. *)
Lemma errors_CRegex_list (fs : list string) p o :
  flat_map condition_errors ((λ f, CRegex f p o) <$> fs) =
  if regex_valid p o then [] else (λ _, InvalidRegex p) <$> fs.
Proof.
  induction fs as [|f fs IH]; csimpl; [by destruct (regex_valid p o)|].
  rewrite IH. by destruct (regex_valid p o).
Qed.

End matching_lemmas.

Section literal_lemmas.
Implicit Types (p s : string).

Lemma append_nil s : "" +:+ s = s.
Proof. done. Qed.

Lemma append_cons c s s' : String c s +:+ s' = String c (s +:+ s').
Proof. done. Qed.

Lemma prefix_nil s : String.prefix "" s = true.
Proof. by destruct s. Qed.

Lemma prefix_spec p s : String.prefix p s = true ↔ ∃ b, s = p +:+ b.
Proof.
  revert s. induction p as [|a p IH]; intros s.
  - rewrite prefix_nil. split; [exists s; by rewrite append_nil|done].
  - setoid_rewrite append_cons. destruct s as [|c s]; simpl; [naive_solver|].
    destruct (ascii_dec a c) as [->|Hne]; [rewrite IH|]; naive_solver.
Qed.

Lemma contains_cons p c s :
  contains p (String c s) = String.prefix p (String c s) || contains p s.
Proof. done. Qed.

Lemma contains_nil p : contains p "" = String.prefix p "".
Proof. simpl. apply orb_false_r. Qed.

Lemma contains_spec p s : contains p s = true ↔ ∃ a b, s = a +:+ p +:+ b.
Proof.
  induction s as [|c s IH];
    rewrite ?contains_nil, ?contains_cons, ?orb_true_iff, prefix_spec.
  - split.
    + intros [b Hb]; exists "", b; by rewrite append_nil.
    + intros (a & b & Heq). destruct a; [|done].
      exists b. by rewrite append_nil in Heq.
  - rewrite IH. split.
    + intros [[b Hb]|(a & b & ->)].
      * exists "", b. by rewrite append_nil.
      * exists (String c a), b. by rewrite append_cons.
    + intros (a & b & Heq). destruct a as [|c' a].
      * left. exists b. by rewrite append_nil in Heq.
      * right. rewrite append_cons in Heq. injection Heq as -> ->. by exists a, b.
Qed.

Lemma append_nil_r s : s +:+ "" = s.
Proof. induction s; [done|]. by rewrite append_cons, IHs. Qed.

Lemma contains_refl s : contains s s = true.
Proof. apply contains_spec. exists "", "". by rewrite append_nil, append_nil_r. Qed.

Lemma contains_empty s : contains "" s = true.
Proof. apply contains_spec. exists "", s. by rewrite !append_nil. Qed.

Lemma lower_app s s' : lower (s +:+ s') = lower s +:+ lower s'.
Proof. induction s; [done|]. rewrite append_cons. simpl. by rewrite IHs. Qed.

Lemma lower_ascii_idemp c : lower_ascii (lower_ascii c) = lower_ascii c.
Proof.
  unfold lower_ascii.
  destruct ((65 <=? nat_of_ascii c) && (nat_of_ascii c <=? 90)) eqn:E; [|by rewrite E].
  apply andb_true_iff in E as [?%Nat.leb_le ?%Nat.leb_le].
  rewrite nat_ascii_embedding by lia.
  destruct (_ && _) eqn:E'; [|done].
  apply andb_true_iff in E' as [?%Nat.leb_le ?%Nat.leb_le]. lia.
Qed.

Lemma lower_idemp s : lower (lower s) = lower s.
Proof. induction s; simpl; [done|]. by rewrite lower_ascii_idemp, IHs. Qed.

(** Case-insensitive occurrence contains case-sensitive occurrence. *)
Lemma contains_lower p s :
  contains p s = true → contains (lower p) (lower s) = true.
Proof.
  rewrite !contains_spec. intros (a & b & ->).
  exists (lower a), (lower b). by rewrite !lower_app.
Qed.

(** The literal engine under option [i]: the term occurs in the subject up
    to ASCII case. *)
Lemma literal_test_i p s :
  literal_test p "i" s = true ↔
  ∃ a b, lower s = a +:+ lower p +:+ b.
Proof. unfold literal_test. rewrite contains_refl. apply contains_spec. Qed.

End literal_lemmas.

#[export] Hint Rewrite @check_CAll @check_CEq : book_rw.

(** Filters are taken apart by the lemmas above, not by [simpl]. *)
#[global] Arguments matches : simpl never.
#[global] Arguments condition_errors : simpl never.
