(* ===== verification/Update.v ===== *)
(** * Update: the update documents of the store

    What [findOneAndUpdate] is given: plain keys (replace the fields
    present), [$push] of a review, [$pull] of a value from a membership
    list, [$addToSet] of a sequence of values into a membership list.  An
    update document is the list of its operator-and-path entries;
    [apply_update] is what it does to a book, [check_update] what the store
    refuses: two entries on one path. *)

From S2P Require Import Prelude Document Query.

(** ** Operators *)

Inductive update_op : Type :=
| USet (p : PartialBook)                         (* { title: ..., ... } *)
| UPush (r : IBookReview)                        (* $push: { reviews: r } *)
| UPull (m : membership) (e : option string)     (* $pull: { m: e } *)
| UAddToSet (m : membership) (es : list string). (* $addToSet: { m: es } *)

Definition update_document : Type := list update_op.

(** ** Array operators on a list of strings *)

(** [$pull]: every occurrence of the value goes. *)
Definition pull (e : string) (l : list string) : list string :=
  filter (λ x, x ≠ e) l.

(** [$pull] of [undefined]: the list holds strings only, nothing goes. *)
Definition pull_opt (e : option string) (l : list string) : list string :=
  match e with
  | Some e => pull e l
  | None => l
  end.

(** [$addToSet] of one value: appended unless present. *)
Definition add_one (l : list string) (e : string) : list string :=
  if decide (e ∈ l) then l else l ++ [e].

(** [$addToSet] of a sequence: each value in turn. *)
Definition add_to_set (es : list string) (l : list string) : list string :=
  foldl add_one l es.

(** ** Plain keys: the fields present replace the record's *)

Definition apply_partial (p : PartialBook) (b : IBook) : IBook := {|
  title := default (title b) (p_title p);
  author := default (author b) (p_author p);
  genre := default (genre b) (p_genre p);
  publication_date := default (publication_date b) (p_publication_date p);
  reviews := default (reviews b) (p_reviews p);
  wishlist := default (wishlist b) (p_wishlist p);
  read_soon := default (read_soon b) (p_read_soon p);
  currently_reading := default (currently_reading b) (p_currently_reading p);
  finished := default (finished b) (p_finished p);
|}.

(** The keys a partial book holds. *)
Definition partial_paths (p : PartialBook) : list string :=
  (if p_title p is Some _ then ["title"] else []) ++
  (if p_author p is Some _ then ["author"] else []) ++
  (if p_genre p is Some _ then ["genre"] else []) ++
  (if p_publication_date p is Some _ then ["publication_date"] else []) ++
  (if p_reviews p is Some _ then ["reviews"] else []) ++
  (if p_wishlist p is Some _ then ["wishlist"] else []) ++
  (if p_read_soon p is Some _ then ["read_soon"] else []) ++
  (if p_currently_reading p is Some _ then ["currently_reading"] else []) ++
  (if p_finished p is Some _ then ["finished"] else []).

(** ** Applying an update *)

Definition apply_op (o : update_op) (b : IBook) : IBook :=
  match o with
  | USet p => apply_partial p b
  | UPush r => set_reviews (reviews b ++ [r]) b
  | UPull m e => set_list m (pull_opt e (get_list m b)) b
  | UAddToSet m es => set_list m (add_to_set es (get_list m b)) b
  end.

Definition apply_update (u : update_document) (b : IBook) : IBook :=
  foldl (λ b o, apply_op o b) b u.

(** Whether an entry rewrites the reviews as a whole: a plain [reviews]
    key does; [$push] only appends. *)
Definition replaces_reviews (o : update_op) : bool :=
  match o with
  | USet p => bool_decide (is_Some (p_reviews p))
  | _ => false
  end.

(** The paths an entry writes. *)
Definition op_paths (o : update_op) : list string :=
  match o with
  | USet p => partial_paths p
  | UPush _ => ["reviews"]
  | UPull m _ | UAddToSet m _ => [membership_path m]
  end.

Definition update_paths (u : update_document) : list string :=
  u ≫= op_paths.

(** The first path written twice, if any. *)
Fixpoint first_duplicate (l : list string) : option string :=
  match l with
  | [] => None
  | x :: l => if decide (x ∈ l) then Some x else first_duplicate l
  end.

Definition check_update (u : update_document) : result store_error unit :=
  match first_duplicate (update_paths u) with
  | Some p => Err (ConflictingUpdate p)
  | None => Ok tt
  end.

(** * Lemmas *)

Section pull_lemmas.
Implicit Types (e x : string) (l : list string).

Lemma elem_of_pull x e l : x ∈ pull e l ↔ x ∈ l ∧ x ≠ e.
Proof. unfold pull. rewrite list_elem_of_filter. tauto. Qed.

Lemma not_elem_of_pull e l : e ∉ pull e l.
Proof. rewrite elem_of_pull. tauto. Qed.

Lemma pull_nil e : pull e [] = [].
Proof. done. Qed.

Lemma pull_cons e x l :
  pull e (x :: l) = if decide (x = e) then pull e l else x :: pull e l.
Proof.
  unfold pull. rewrite filter_cons.
  destruct (decide (x ≠ e)), (decide (x = e)); naive_solver.
Qed.

Lemma pull_app e l l' : pull e (l ++ l') = pull e l ++ pull e l'.
Proof. apply filter_app. Qed.

Lemma pull_id e l : e ∉ l → pull e l = l.
Proof.
  intros He. unfold pull. induction l as [|x l IH]; [done|].
  apply not_elem_of_cons in He as [??].
  rewrite filter_cons_True by done. f_equal. auto.
Qed.

Lemma pull_idemp e l : pull e (pull e l) = pull e l.
Proof. apply pull_id, not_elem_of_pull. Qed.

Lemma pull_comm e e' l : pull e (pull e' l) = pull e' (pull e l).
Proof.
  unfold pull. rewrite !list_filter_filter. apply list_filter_iff. tauto.
Qed.

Lemma pull_NoDup e l : NoDup l → NoDup (pull e l).
Proof. apply NoDup_filter. Qed.

Lemma pull_sublist e l : pull e l `sublist_of` l.
Proof. apply sublist_filter. Qed.

Lemma pull_length e l : length (pull e l) ≤ length l.
Proof. apply length_filter. Qed.

Lemma elem_of_pull_opt x o l :
  x ∈ pull_opt o l ↔ x ∈ l ∧ o ≠ Some x.
Proof. destruct o; simpl; rewrite ?elem_of_pull; naive_solver. Qed.

Lemma pull_opt_idemp o l : pull_opt o (pull_opt o l) = pull_opt o l.
Proof. destruct o; simpl; [apply pull_idemp|done]. Qed.

Lemma pull_opt_NoDup o l : NoDup l → NoDup (pull_opt o l).
Proof. destruct o; simpl; [apply pull_NoDup|done]. Qed.

End pull_lemmas.

Section add_to_set_lemmas.
Implicit Types (e x : string) (l es : list string).

Lemma add_to_set_nil l : add_to_set [] l = l.
Proof. done. Qed.

Lemma add_to_set_cons e es l :
  add_to_set (e :: es) l = add_to_set es (add_one l e).
Proof. done. Qed.

Lemma add_to_set_snoc e es l :
  add_to_set (es ++ [e]) l = add_one (add_to_set es l) e.
Proof. apply foldl_snoc. Qed.

Lemma add_to_set_app es es' l :
  add_to_set (es ++ es') l = add_to_set es' (add_to_set es l).
Proof. apply foldl_app. Qed.

Lemma elem_of_add_one x e l : x ∈ add_one l e ↔ x ∈ l ∨ x = e.
Proof.
  unfold add_one. case_decide.
  - naive_solver.
  - rewrite elem_of_app, list_elem_of_singleton. tauto.
Qed.

Lemma elem_of_add_to_set x es l : x ∈ add_to_set es l ↔ x ∈ l ∨ x ∈ es.
Proof.
  revert l. induction es as [|e es IH]; intros l.
  - rewrite add_to_set_nil, elem_of_nil. tauto.
  - rewrite add_to_set_cons, IH, elem_of_add_one, elem_of_cons. tauto.
Qed.

Lemma add_one_NoDup e l : NoDup l → NoDup (add_one l e).
Proof.
  intros Hl. unfold add_one. case_decide; [done|].
  apply NoDup_app. split_and!; [done| |apply NoDup_singleton].
  intros x Hx ->%list_elem_of_singleton. done.
Qed.

Lemma add_to_set_NoDup es l : NoDup l → NoDup (add_to_set es l).
Proof.
  revert l. induction es as [|e es IH]; intros l Hl; [done|].
  rewrite add_to_set_cons. by apply IH, add_one_NoDup.
Qed.

Lemma add_one_prefix e l : l `prefix_of` add_one l e.
Proof. unfold add_one. case_decide; [done|]. by apply prefix_app_r. Qed.

(** The members before the call stay where they are. *)
Lemma add_to_set_prefix es l : l `prefix_of` add_to_set es l.
Proof.
  revert l. induction es as [|e es IH]; intros l; [done|].
  rewrite add_to_set_cons. etrans; [apply add_one_prefix|apply IH].
Qed.

Lemma add_one_id e l : e ∈ l → add_one l e = l.
Proof. intros. unfold add_one. by case_decide. Qed.

Lemma add_to_set_id es l : es ⊆ l → add_to_set es l = l.
Proof.
  revert l. induction es as [|e es IH]; intros l Hes; [done|].
  rewrite add_to_set_cons, add_one_id; [apply IH|]; set_unfold; naive_solver.
Qed.

Lemma add_to_set_idemp es l :
  add_to_set es (add_to_set es l) = add_to_set es l.
Proof.
  apply add_to_set_id. intros x Hx. apply elem_of_add_to_set. by right.
Qed.

Lemma add_to_set_length es l : length l ≤ length (add_to_set es l).
Proof. apply prefix_length, add_to_set_prefix. Qed.

(** Adding to an empty list: the values, first occurrences only. *)
Lemma add_to_set_singleton e : add_to_set [e] [] = [e].
Proof. done. Qed.

Lemma pull_add_one e x l :
  pull e (add_one l x) =
  if decide (x = e) then pull e l else add_one (pull e l) x.
Proof.
  unfold add_one. destruct (decide (x ∈ l)) as [Hx|Hx].
  - case_decide; [done|]. rewrite decide_True; [done|]. by apply elem_of_pull.
  - rewrite pull_app, pull_cons, pull_nil. case_decide; [apply app_nil_r|].
    rewrite decide_False; [done|]. rewrite elem_of_pull. tauto.
Qed.

(** [$pull] commutes with [$addToSet] of the values it leaves. *)
Lemma pull_add_to_set e es l :
  pull e (add_to_set es l) = add_to_set (pull e es) (pull e l).
Proof.
  revert l. induction es as [|x es IH]; intros l; [done|].
  rewrite add_to_set_cons, IH, pull_add_one, pull_cons.
  by case_decide.
Qed.

End add_to_set_lemmas.

Section apply_lemmas.
Implicit Types (b : IBook) (m : membership) (p : PartialBook) (u : update_document).

Lemma apply_partial_empty b : apply_partial empty_partial b = b.
Proof. by destruct b. Qed.

Lemma apply_update_nil b : apply_update [] b = b.
Proof. done. Qed.

Lemma apply_update_cons o u b :
  apply_update (o :: u) b = apply_update u (apply_op o b).
Proof. done. Qed.

Lemma apply_update_app u u' b :
  apply_update (u ++ u') b = apply_update u' (apply_update u b).
Proof. apply foldl_app. Qed.

(** Each operator on a membership list leaves the other lists, the
    reviews and the scalars alone. *)
Lemma get_list_UPull m m' e b :
  get_list m' (apply_op (UPull m e) b) =
  if decide (m = m') then pull_opt e (get_list m' b) else get_list m' b.
Proof.
  simpl. case_decide as Hm; [subst; apply get_set_list|by apply get_set_list_ne].
Qed.

Lemma get_list_UAddToSet m m' es b :
  get_list m' (apply_op (UAddToSet m es) b) =
  if decide (m = m') then add_to_set es (get_list m' b) else get_list m' b.
Proof.
  simpl. case_decide as Hm; [subst; apply get_set_list|by apply get_set_list_ne].
Qed.

Lemma get_list_UPush m r b : get_list m (apply_op (UPush r) b) = get_list m b.
Proof. apply get_list_set_reviews. Qed.

Lemma reviews_UPush r b : reviews (apply_op (UPush r) b) = reviews b ++ [r].
Proof. done. Qed.

Lemma reviews_UPull m e b : reviews (apply_op (UPull m e) b) = reviews b.
Proof. apply reviews_set_list. Qed.

Lemma reviews_UAddToSet m es b :
  reviews (apply_op (UAddToSet m es) b) = reviews b.
Proof. apply reviews_set_list. Qed.

(** No operator but plain keys writes a scalar. *)
Lemma scalars_apply_op o b :
  (∀ p, o ≠ USet p) → scalars (apply_op o b) = scalars b.
Proof.
  destruct o as [p|r|m e|m es]; intros Ho; simpl;
    [by destruct (Ho p)|done|apply scalars_set_list..].
Qed.

(** An update that does not write the [reviews] key only extends the
    reviews. *)
Lemma reviews_apply_op_prefix o b :
  replaces_reviews o = false → reviews b `prefix_of` reviews (apply_op o b).
Proof.
  destruct o as [p|r|m e|m es]; simpl; intros Ho.
  - apply bool_decide_eq_false in Ho. destruct p, b; simpl in *.
    destruct p_reviews; [by destruct Ho|done].
  - by apply prefix_app_r.
  - by rewrite reviews_set_list.
  - by rewrite reviews_set_list.
Qed.

Lemma reviews_apply_update_prefix u b :
  Forall (λ o, replaces_reviews o = false) u →
  reviews b `prefix_of` reviews (apply_update u b).
Proof.
  intros Hu. revert b. induction Hu as [|o u Ho _ IH]; intros b; [done|].
  rewrite apply_update_cons. etrans; [by apply reviews_apply_op_prefix|apply IH].
Qed.

End apply_lemmas.

Section check_lemmas.
Implicit Types (p : PartialBook) (u : update_document) (l : list string).

Lemma first_duplicate_None l : first_duplicate l = None ↔ NoDup l.
Proof.
  induction l as [|x l IH]; simpl; [by rewrite NoDup_nil|].
  rewrite NoDup_cons. case_decide; naive_solver.
Qed.

Lemma first_duplicate_Some l x : first_duplicate l = Some x → x ∈ l.
Proof.
  induction l as [|y l IH]; simpl; [done|].
  case_decide; [intros [= ->]; by left|right; auto].
Qed.

Lemma check_update_Ok u : check_update u = Ok tt ↔ NoDup (update_paths u).
Proof.
  unfold check_update. rewrite <-first_duplicate_None.
  destruct (first_duplicate _); naive_solver.
Qed.

Lemma opt_path_sublist {A} (o : option A) (x : string) l k :
  l `sublist_of` k → (if o is Some _ then [x] else []) ++ l `sublist_of` x :: k.
Proof. intros. destruct o; simpl; by [> apply sublist_skip|apply sublist_cons]. Qed.

Lemma opt_path_sublist_last {A} (o : option A) (x : string) :
  (if o is Some _ then [x] else []) `sublist_of` [x].
Proof. destruct o; [done|by apply sublist_cons]. Qed.

(** The keys of a partial book are distinct: it is an object. *)
Lemma partial_paths_NoDup p : NoDup (partial_paths p).
Proof.
  eapply (sublist_NoDup _
    ["title"; "author"; "genre"; "publication_date"; "reviews"; "wishlist";
     "read_soon"; "currently_reading"; "finished"]);
    [by apply (bool_decide_unpack _)|].
  unfold partial_paths. repeat apply opt_path_sublist. apply opt_path_sublist_last.
Qed.

Lemma check_update_USet p : check_update [USet p] = Ok tt.
Proof.
  apply check_update_Ok. unfold update_paths. simpl. rewrite app_nil_r.
  apply partial_paths_NoDup.
Qed.

End check_lemmas.

#[export] Hint Rewrite get_list_UPull get_list_UAddToSet get_list_UPush
  reviews_UPush reviews_UPull reviews_UAddToSet apply_update_cons
  apply_update_nil : book_rw.
#[export] Hint Resolve pull_NoDup add_to_set_NoDup pull_opt_NoDup
  not_elem_of_pull add_to_set_prefix : book.
