(* ===== verification/Collection.v ===== *)
(** * Collection: the book collection and the model's methods

    The store as the service sees it through the model [Book]: a sequence of
    documents in insertion order, with the methods the service calls.  Each
    method is one atomic step of the store, written in the monad of the
    prelude over the collection:

    - a query [find(filter).sort(s).skip(k).limit(n)], built by [find],
      [sort], [skip], [limit] and run by [exec];
    - [countDocuments], [findById], [create], [findOneAndUpdate] (with its
      [new] option) and [findByIdAndDelete].

    Two interfaces stand for what the store decides on its own: the keys it
    assigns ([IdGenerator]: a key that is not in use) and the order it puts
    documents in under a sort key ([FieldOrder]: a decidable total preorder
    per field).  [wf] is the collection's invariant: keys are unique. *)

From Stdlib Require Import Ascii.
From stdpp Require Import sorting.
From S2P Require Import Prelude Document Query Update.

Abbreviation collection := (list BookDocument).
Abbreviation Store := (M (list BookDocument) store_error).

(** The directions the store's sort takes: the four words and the numbers
    [1] ([up]) and [-1] ([down]). *)
Inductive SortOrder : Type := asc | desc | ascending | descending | up | down.

#[export] Instance SortOrder_eq_dec : EqDecision SortOrder.
Proof. solve_decision. Defined.

(** ** What the store decides *)

Class IdGenerator : Type := {
  fresh_id : list ObjectId → ObjectId;
  fresh_id_fresh : ∀ used, fresh_id used ∉ used;
}.

Class FieldOrder : Type := {
  field_le : string → relation BookDocument;
  field_le_dec :: ∀ f, RelDecision (field_le f);
  field_le_total :: ∀ f, Total (field_le f);
  field_le_trans :: ∀ f, Transitive (field_le f);
}.

(** The order a sort specification asks for. *)
Definition ascends (o : SortOrder) : bool :=
  match o with
  | asc | ascending | up => true
  | desc | descending | down => false
  end.

Definition sort_le `{FieldOrder} (s : string * SortOrder) : relation BookDocument :=
  if ascends s.2 then field_le s.1 else flip (field_le s.1).

#[export] Instance sort_le_dec `{FieldOrder} s : RelDecision (sort_le s).
Proof. unfold sort_le. destruct (ascends s.2); apply _. Defined.

(** ** The collection *)

Definition ids (c : collection) : list ObjectId := _id <$> c.

Definition wf (c : collection) : Prop := NoDup (ids c).

#[export] Instance wf_dec c : Decision (wf c).
Proof. unfold wf. apply _. Defined.

(** The document under a key, if any. *)
Definition lookup_id (i : ObjectId) (c : collection) : option BookDocument :=
  snd <$> list_find (λ d, _id d = i) c.

(** The collection after the first document under a key is rewritten by
    [f], and after it is removed; both leave a collection without the key
    as it is. *)
Definition update_id (i : ObjectId) (f : IBook → IBook) (c : collection) : collection :=
  match list_find (λ d, _id d = i) c with
  | None => c
  | Some (n, d) => <[n := mkDoc (_id d) (f (doc d))]> c
  end.

Definition delete_id (i : ObjectId) (c : collection) : collection :=
  match list_find (λ d, _id d = i) c with
  | None => c
  | Some (n, _) => delete n c
  end.

Module Book.

(** ** Queries *)

Record Query : Type := mkQuery {
  q_filter : condition;
  q_sort : option (string * SortOrder);
  q_skip : Z;
  q_limit : Z;
}.

Definition find (c : condition) : Query := mkQuery c None 0 0.

Definition sort (s : option (string * SortOrder)) (q : Query) : Query :=
  mkQuery (q_filter q) s (q_skip q) (q_limit q).

Definition skip (k : Z) (q : Query) : Query :=
  mkQuery (q_filter q) (q_sort q) k (q_limit q).

Definition limit (n : Z) (q : Query) : Query :=
  mkQuery (q_filter q) (q_sort q) (q_skip q) n.

Section methods.
Context `{RegexEngine, FieldOrder, IdGenerator}.

(** The documents a filter selects, in collection order. *)
Definition select (c : condition) (s : collection) : collection :=
  filter (λ d, matches c d = true) s.

Definition sorted (o : option (string * SortOrder)) (l : collection) : collection :=
  match o with
  | None => l
  | Some s => merge_sort (sort_le s) l
  end.

(** Skip, then limit: a negative skip is refused, a limit of 0 is no limit,
    a negative limit is its absolute value. *)
Definition paginate (k n : Z) (l : collection) : result store_error collection :=
  if decide (k < 0)%Z then Err (NegativeSkip k)
  else if decide (n = 0)%Z then Ok (drop (Z.to_nat k) l)
  else Ok (window (Z.to_nat k) (Z.abs_nat n) l).

Definition exec (q : Query) : Store collection :=
  await _ ← lift_result (check (q_filter q));
  await all ← gets (select (q_filter q));
  lift_result (paginate (q_skip q) (q_limit q) (sorted (q_sort q) all)).

Definition countDocuments (c : condition) : Store nat :=
  await _ ← lift_result (check c);
  gets (λ s, length (select c s)).

Definition findOne (c : condition) : Store (option BookDocument) :=
  await _ ← lift_result (check c);
  gets (λ s, head (select c s)).

Definition findById (i : ObjectId) : Store (option BookDocument) :=
  findOne (CEq "_id" i).

Definition create (payload : IBook) : Store BookDocument :=
  await i ← gets (λ s, fresh_id (ids s));
  await _ ← modify (λ s, s ++ [mkDoc i payload]);
  ret (mkDoc i payload).

(** The first document the filter selects is updated in place; [new] picks
    the state returned. *)
Definition findOneAndUpdate (c : condition) (u : update_document) (new : bool)
    : Store (option BookDocument) :=
  await _ ← lift_result (check c);
  await _ ← lift_result (check_update u);
  await hit ← gets (list_find (λ d, matches c d = true));
  match hit with
  | None => ret None
  | Some (i, d) =>
      let d' := mkDoc (_id d) (apply_update u (doc d)) in
      await _ ← modify (λ s, <[i := d']> s);
      ret (Some (if new then d' else d))
  end.

Definition findByIdAndDelete (i : ObjectId) : Store (option BookDocument) :=
  await hit ← gets (list_find (λ d, matches (CEq "_id" i) d = true));
  match hit with
  | None => ret None
  | Some (n, d) =>
      await _ ← modify (λ s, delete n s);
      ret (Some d)
  end.

End methods.
End Book.

(** ** Instances of the interfaces *)

(** A key longer than every key in use. *)
Fixpoint zeros (n : nat) : string :=
  match n with
  | 0 => ""
  | S n => String "0"%char (zeros n)
  end.

Definition long_id (used : list ObjectId) : ObjectId :=
  zeros (S (max_list (String.length <$> used))).

(** The order of a string field is the order of its strings; a document
    without the field comes first; fields that hold lists or reviews do not
    order documents. *)
Definition sort_key (f : string) (d : BookDocument) : option string :=
  if decide (f = "_id") then Some (_id d)
  else if decide (f = "title") then Some (title (doc d))
  else if decide (f = "author") then Some (author (doc d))
  else if decide (f = "genre") then Some (genre (doc d))
  else if decide (f = "publication_date") then Some (publication_date (doc d))
  else None.

Definition key_le (a b : option string) : Prop :=
  match a, b with
  | None, _ => True
  | Some _, None => False
  | Some x, Some y => String.le x y
  end.

Definition string_field_le (f : string) : relation BookDocument :=
  λ d d', key_le (sort_key f d) (sort_key f d').

#[export] Instance key_le_dec : RelDecision key_le.
Proof. intros [x|] [y|]; simpl; apply _. Defined.

#[export] Instance key_le_total : Total key_le.
Proof. intros [x|] [y|]; simpl; auto. apply (total String.le). Qed.

#[export] Instance key_le_trans : Transitive key_le.
Proof.
  intros [x|] [y|] [z|]; simpl; try done. apply (transitivity (R:=String.le)).
Qed.

Lemma length_zeros n : String.length (zeros n) = n.
Proof. induction n; simpl; congruence. Qed.

Lemma long_id_fresh used : long_id used ∉ used.
Proof.
  intros Hin.
  assert (String.length (long_id used) ∈ String.length <$> used) as Hlen
    by (by apply list_elem_of_fmap_2).
  apply max_list_elem_of_le in Hlen.
  unfold long_id in Hlen. rewrite length_zeros in Hlen. lia.
Qed.

Definition long_id_generator : IdGenerator := {|
  fresh_id := long_id;
  fresh_id_fresh := long_id_fresh;
|}.

Definition string_field_order : FieldOrder := {|
  field_le := string_field_le;
  field_le_dec f d d' := key_le_dec (sort_key f d) (sort_key f d');
  field_le_total f d d' := key_le_total (sort_key f d) (sort_key f d');
  field_le_trans f d1 d2 d3 :=
    key_le_trans (sort_key f d1) (sort_key f d2) (sort_key f d3);
|}.

(** * Lemmas *)

Section collection_lemmas.
Implicit Types (c : collection) (d : BookDocument) (i : ObjectId).

Lemma ids_app c c' : ids (c ++ c') = ids c ++ ids c'.
Proof. apply fmap_app. Qed.

Lemma elem_of_ids i c : i ∈ ids c ↔ ∃ d, d ∈ c ∧ _id d = i.
Proof. unfold ids. rewrite list_elem_of_fmap. naive_solver. Qed.

(** Replacing a document by one of the same key keeps the keys. *)
Lemma ids_insert c n d d' :
  c !! n = Some d → _id d' = _id d → ids (<[n := d']> c) = ids c.
Proof.
  intros Hn Hid. unfold ids. rewrite list_fmap_insert, Hid.
  apply list_insert_id. by rewrite list_lookup_fmap, Hn.
Qed.

Lemma ids_delete c n : ids (delete n c) = delete n (ids c).
Proof. unfold ids. revert n. induction c; intros [|n]; simpl; f_equal; auto. Qed.

Lemma wf_nil : wf [].
Proof. constructor. Qed.

Lemma wf_snoc c d : wf c → _id d ∉ ids c → wf (c ++ [d]).
Proof.
  unfold wf. intros Hc Hd. rewrite ids_app. apply NoDup_app.
  split_and!; [done| |apply NoDup_singleton].
  intros i Hi ->%list_elem_of_singleton. done.
Qed.

Lemma wf_insert c n d d' :
  wf c → c !! n = Some d → _id d' = _id d → wf (<[n := d']> c).
Proof. unfold wf. intros Hc Hn Hid. by erewrite ids_insert. Qed.

Lemma wf_delete c n : wf c → wf (delete n c).
Proof.
  unfold wf. rewrite ids_delete. intros Hc.
  eapply sublist_NoDup; [done|apply sublist_delete].
Qed.

(** In a well-formed collection a key names one document. *)
Lemma wf_inj c d d' : wf c → d ∈ c → d' ∈ c → _id d = _id d' → d = d'.
Proof.
  intros Hc [n Hn]%list_elem_of_lookup [n' Hn']%list_elem_of_lookup Hid.
  assert (n = n') as ->; [|congruence].
  eapply (NoDup_lookup (ids c)); [done|..]; unfold ids;
    rewrite list_lookup_fmap; [by rewrite Hn|by rewrite Hn', Hid].
Qed.

Lemma lookup_id_Some i c d :
  lookup_id i c = Some d → d ∈ c ∧ _id d = i.
Proof.
  unfold lookup_id. intros ([n d'] & Hf & ->)%fmap_Some.
  apply list_find_Some in Hf as (Hn & Hid & _).
  split; [by eapply list_elem_of_lookup_2|done].
Qed.

Lemma lookup_id_None i c : lookup_id i c = None ↔ i ∉ ids c.
Proof.
  unfold lookup_id. rewrite fmap_None, list_find_None, Forall_forall, elem_of_ids.
  naive_solver.
Qed.

Lemma lookup_id_elem_of c d : wf c → d ∈ c → lookup_id (_id d) c = Some d.
Proof.
  intros Hc Hd. destruct (lookup_id (_id d) c) as [d'|] eqn:E.
  - apply lookup_id_Some in E as [??]. f_equal. by eapply wf_inj.
  - apply lookup_id_None in E. destruct E. apply elem_of_ids. eauto.
Qed.

Lemma lookup_id_is_Some i c : is_Some (lookup_id i c) ↔ i ∈ ids c.
Proof.
  rewrite <-not_eq_None_Some, lookup_id_None. destruct (decide (i ∈ ids c)); tauto.
Qed.

Lemma lookup_id_nil i : lookup_id i [] = None.
Proof. done. Qed.

Lemma lookup_id_cons i d c :
  lookup_id i (d :: c) = if decide (_id d = i) then Some d else lookup_id i c.
Proof.
  unfold lookup_id. simpl. case_decide; [done|].
  by destruct (list_find _ c) as [[??]|].
Qed.

Lemma lookup_id_app i c c' :
  lookup_id i (c ++ c') = from_option Some (lookup_id i c') (lookup_id i c).
Proof.
  induction c as [|d c IH]; [done|]. simpl. rewrite !lookup_id_cons.
  by case_decide.
Qed.

Lemma lookup_id_snoc_ne i c d :
  _id d ≠ i → lookup_id i (c ++ [d]) = lookup_id i c.
Proof.
  intros Hd. rewrite lookup_id_app, lookup_id_cons, decide_False by done.
  by destruct (lookup_id i c).
Qed.

Lemma lookup_id_snoc i c d : _id d = i → i ∉ ids c → lookup_id i (c ++ [d]) = Some d.
Proof.
  intros Hd Hi. rewrite lookup_id_app, lookup_id_cons, decide_True by done.
  by rewrite (proj2 (lookup_id_None i c)).
Qed.

Lemma update_id_nil i f : update_id i f [] = [].
Proof. done. Qed.

Lemma update_id_cons i f d c :
  update_id i f (d :: c) =
  if decide (_id d = i) then mkDoc (_id d) (f (doc d)) :: c
  else d :: update_id i f c.
Proof.
  unfold update_id. simpl. case_decide; [done|].
  by destruct (list_find _ c) as [[??]|].
Qed.

Lemma delete_id_cons i d c :
  delete_id i (d :: c) = if decide (_id d = i) then c else d :: delete_id i c.
Proof.
  unfold delete_id. simpl. case_decide; [done|].
  by destruct (list_find _ c) as [[??]|].
Qed.

(** The record added last, removed. *)
Lemma delete_id_snoc i c d : _id d = i → i ∉ ids c → delete_id i (c ++ [d]) = c.
Proof.
  intros Hd. induction c as [|d' c IH]; intros Hi; simpl.
  - by rewrite delete_id_cons, decide_True.
  - unfold ids in Hi. rewrite fmap_cons, not_elem_of_cons in Hi. destruct Hi.
    rewrite delete_id_cons, decide_False by done. f_equal. by apply IH.
Qed.

Lemma ids_update_id i f c : ids (update_id i f c) = ids c.
Proof.
  induction c as [|d c IH]; [done|]. rewrite update_id_cons.
  case_decide; unfold ids in *; simpl; by f_equal.
Qed.

Lemma length_update_id i f c : length (update_id i f c) = length c.
Proof.
  induction c as [|d c IH]; [done|]. rewrite update_id_cons.
  case_decide; simpl; by f_equal.
Qed.

Lemma wf_update_id i f c : wf c → wf (update_id i f c).
Proof. unfold wf. by rewrite ids_update_id. Qed.

Lemma update_id_absent i f c : i ∉ ids c → update_id i f c = c.
Proof.
  intros Hi%lookup_id_None. unfold update_id, lookup_id in *.
  by destruct (list_find _ c) as [[??]|].
Qed.

Lemma lookup_update_id i f c :
  lookup_id i (update_id i f c) =
  (λ d, mkDoc (_id d) (f (doc d))) <$> lookup_id i c.
Proof.
  induction c as [|d c IH]; [done|]. rewrite update_id_cons, lookup_id_cons.
  case_decide; rewrite lookup_id_cons; simpl;
    [by rewrite decide_True|by rewrite decide_False].
Qed.

Lemma lookup_update_id_ne i j f c :
  i ≠ j → lookup_id j (update_id i f c) = lookup_id j c.
Proof.
  intros Hij. induction c as [|d c IH]; [done|].
  rewrite update_id_cons, !lookup_id_cons.
  case_decide; subst; rewrite ?lookup_id_cons; simpl;
    [by rewrite !decide_False|by rewrite IH].
Qed.

(** A document under another key is where it was. *)
Lemma elem_of_update_id_ne i f c d :
  _id d ≠ i → d ∈ update_id i f c ↔ d ∈ c.
Proof.
  intros Hd. induction c as [|d' c IH]; [done|]. rewrite update_id_cons.
  case_decide; rewrite !elem_of_cons, ?IH; [|done].
  split; (intros [->|?]; [|by right]); simpl in *; by subst.
Qed.

(** Rewriting twice is rewriting with the composition. *)
Lemma update_id_twice i f g c :
  update_id i g (update_id i f c) = update_id i (g ∘ f) c.
Proof.
  induction c as [|d c IH]; [done|]. rewrite !update_id_cons.
  case_decide; rewrite update_id_cons; simpl;
    [by rewrite decide_True|by rewrite decide_False, IH].
Qed.

Lemma update_id_ext i f g c :
  (∀ d, d ∈ c → _id d = i → f (doc d) = g (doc d)) →
  update_id i f c = update_id i g c.
Proof.
  induction c as [|d c IH]; intros Hfg; [done|]. rewrite !update_id_cons.
  case_decide.
  - rewrite Hfg; [done|by left|done].
  - rewrite IH; [done|]. intros d' ??. apply Hfg; [by right|done].
Qed.

Lemma update_id_id i f c : (∀ b, f b = b) → update_id i f c = c.
Proof.
  intros Hf. induction c as [|[k b] c IH]; [done|]. rewrite update_id_cons.
  case_decide; simpl; by rewrite ?Hf, ?IH.
Qed.

Lemma update_id_idemp i f c :
  (∀ b, f (f b) = f b) →
  update_id i f (update_id i f c) = update_id i f c.
Proof.
  intros Hf. rewrite update_id_twice. apply update_id_ext. intros d _ _. apply Hf.
Qed.

Lemma ids_delete_id i c : ids (delete_id i c) `sublist_of` ids c.
Proof.
  unfold delete_id. destruct (list_find _ c) as [[n ?]|]; [|done].
  rewrite ids_delete. apply sublist_delete.
Qed.

Lemma wf_delete_id i c : wf c → wf (delete_id i c).
Proof. unfold wf. intros Hc. eapply sublist_NoDup; [done|apply ids_delete_id]. Qed.

Lemma delete_id_absent i c : i ∉ ids c → delete_id i c = c.
Proof.
  intros Hi%lookup_id_None. unfold delete_id, lookup_id in *.
  by destruct (list_find _ c) as [[??]|].
Qed.

Lemma elem_of_delete_id_ne i c d : _id d ≠ i → d ∈ delete_id i c ↔ d ∈ c.
Proof.
  intros Hd. induction c as [|d' c IH]; [done|]. rewrite delete_id_cons.
  case_decide; rewrite ?elem_of_cons, ?IH; naive_solver.
Qed.

(** In a well-formed collection the key is gone after the removal. *)
(** A property of every record survives an update by key that keeps it on
    the record updated, and a delete. *)
Lemma Forall_update_id (P : BookDocument → Prop) i f c :
  (∀ d, P d → P (mkDoc (_id d) (f (doc d)))) →
  Forall P c → Forall P (update_id i f c).
Proof.
  intros Hf. induction 1 as [|d c Hd Hc IH]; [done|]. rewrite update_id_cons.
  case_decide; constructor; auto.
Qed.

Lemma Forall_delete_id (P : BookDocument → Prop) i c :
  Forall P c → Forall P (delete_id i c).
Proof.
  induction 1 as [|d c Hd Hc IH]; [done|]. rewrite delete_id_cons.
  case_decide; [done|by constructor].
Qed.

Lemma lookup_delete_id i c : wf c → lookup_id i (delete_id i c) = None.
Proof.
  unfold wf. induction c as [|d c IH]; [done|]. rewrite delete_id_cons.
  unfold ids. rewrite fmap_cons, NoDup_cons. intros [Hd Hc]. case_decide.
  - subst. by apply lookup_id_None.
  - rewrite lookup_id_cons, decide_False by done. auto.
Qed.

Lemma lookup_delete_id_ne i j c :
  i ≠ j → lookup_id j (delete_id i c) = lookup_id j c.
Proof.
  intros Hij. induction c as [|d c IH]; [done|].
  rewrite delete_id_cons, lookup_id_cons.
  case_decide; subst; [by rewrite decide_False|].
  by rewrite lookup_id_cons, IH.
Qed.

(** Rewrites and removals under different keys commute. *)
Lemma update_id_comm i j f g c :
  i ≠ j → update_id i f (update_id j g c) = update_id j g (update_id i f c).
Proof.
  intros Hij. induction c as [|d c IH]; [done|].
  rewrite !update_id_cons. repeat case_decide; simplify_eq;
    rewrite !update_id_cons; simpl; repeat case_decide; simplify_eq; [done..|].
  by rewrite IH.
Qed.

Lemma delete_id_comm i j c :
  delete_id i (delete_id j c) = delete_id j (delete_id i c).
Proof.
  induction c as [|d c IH]; [done|].
  rewrite !delete_id_cons. repeat case_decide; simplify_eq;
    rewrite ?delete_id_cons; repeat case_decide; simplify_eq; [done..|].
  by rewrite IH.
Qed.

Lemma update_delete_id_comm i j f c :
  i ≠ j → update_id i f (delete_id j c) = delete_id j (update_id i f c).
Proof.
  intros Hij. induction c as [|d c IH]; [done|].
  rewrite update_id_cons, delete_id_cons. repeat case_decide; simplify_eq;
    rewrite ?update_id_cons, ?delete_id_cons; simpl; repeat case_decide;
    simplify_eq; [done..|].
  by rewrite IH.
Qed.

Lemma length_delete_id i c :
  length (delete_id i c) = if decide (i ∈ ids c) then pred (length c) else length c.
Proof.
  induction c as [|d c IH]; [done|]. rewrite delete_id_cons.
  unfold ids in *. rewrite fmap_cons.
  destruct (decide (_id d = i)) as [<-|Hne].
  - rewrite decide_True; [reflexivity|by left].
  - simpl. rewrite IH. destruct (decide (i ∈ _id <$> c)) as [Hi|Hi].
    + rewrite decide_True by (by right). destruct c; [by inv Hi|done].
    + rewrite decide_False; [done|]. rewrite not_elem_of_cons. naive_solver.
Qed.

End collection_lemmas.

Section sort_lemmas.
Context `{FieldOrder}.
Implicit Types (s : string * SortOrder) (l : collection).

#[export] Instance sort_le_total s : Total (sort_le s).
Proof.
  unfold sort_le. destruct (ascends s.2); [apply _|].
  intros d d'. destruct (total (field_le s.1) d d'); auto.
Qed.

#[export] Instance sort_le_trans s : Transitive (sort_le s).
Proof.
  unfold sort_le. destruct (ascends s.2); [apply _|].
  intros d1 d2 d3 ??. by trans d2.
Qed.

Lemma sorted_Permutation o l : Book.sorted o l ≡ₚ l.
Proof. destruct o; simpl; [apply merge_sort_Permutation|done]. Qed.

Lemma elem_of_sorted o l d : d ∈ Book.sorted o l ↔ d ∈ l.
Proof. by rewrite sorted_Permutation. Qed.

Lemma length_sorted o l : length (Book.sorted o l) = length l.
Proof. by rewrite sorted_Permutation. Qed.

Lemma sorted_None l : Book.sorted None l = l.
Proof. done. Qed.

(** Under a sort key every document precedes, in the key's order, every
    document after it. *)
Lemma sorted_StronglySorted s l :
  StronglySorted (sort_le s) (Book.sorted (Some s) l).
Proof. apply (StronglySorted_merge_sort _). Qed.

Lemma sorted_lookup_le s l n m d d' :
  Book.sorted (Some s) l !! n = Some d →
  Book.sorted (Some s) l !! m = Some d' →
  n < m → sort_le s d d'.
Proof.
  intros Hn Hm Hlt. pose proof (sorted_StronglySorted s l) as Hs.
  revert Hn Hm Hs. generalize (Book.sorted (Some s) l). clear l.
  intros l. revert m l Hlt. induction n as [|n IH]; intros [|m] [|x l] Hlt;
    try done; try lia; simpl; intros Hn Hm Hs; apply StronglySorted_inv in Hs as [Hs Hx].
  - simplify_eq. rewrite Forall_forall in Hx. by eapply Hx, list_elem_of_lookup_2.
  - eapply IH; [|done..]. lia.
Qed.

End sort_lemmas.

Section method_lemmas.
Context `{RegexEngine, FieldOrder, IdGenerator}.
Implicit Types (c : condition) (s : collection) (d : BookDocument).

Lemma elem_of_select c s d : d ∈ Book.select c s ↔ d ∈ s ∧ matches c d = true.
Proof. unfold Book.select. rewrite list_elem_of_filter. tauto. Qed.

Lemma select_CAll s : Book.select CAll s = s.
Proof. unfold Book.select. induction s; [done|]. rewrite filter_cons_True; [by f_equal|done]. Qed.

Lemma select_sublist c s : Book.select c s `sublist_of` s.
Proof. apply sublist_filter. Qed.

Lemma select_wf c s : wf s → wf (Book.select c s).
Proof.
  unfold wf, ids. intros Hs. eapply sublist_NoDup; [done|].
  apply fmap_sublist, select_sublist.
Qed.

Lemma select_length c s : length (Book.select c s) ≤ length s.
Proof. apply length_filter. Qed.

(** Filters that agree on every document select the same documents. *)
Lemma select_ext c c' s :
  (∀ d, d ∈ s → matches c d = matches c' d) → Book.select c s = Book.select c' s.
Proof.
  intros Hcc. induction s as [|d s IH]; [done|]. unfold Book.select in *.
  rewrite !filter_cons, (Hcc d) by (by left).
  rewrite IH; [done|]. intros ??. apply Hcc. by right.
Qed.

Lemma select_id i s :
  Book.select (CEq "_id" i) s = filter (λ d, _id d = i) s.
Proof. apply list_filter_iff. intros d. apply matches_CEq_id. Qed.

Lemma head_filter_list_find {A} (P : A → Prop) `{∀ x, Decision (P x)} (l : list A) :
  head (filter P l) = snd <$> list_find P l.
Proof.
  induction l as [|x l IH]; [done|]. rewrite filter_cons. simpl.
  case_decide; [done|]. rewrite IH. by destruct (list_find P l) as [[??]|].
Qed.

Lemma paginate_window k n l :
  (0 ≤ k)%Z → (0 < n)%Z →
  Book.paginate k n l = Ok (window (Z.to_nat k) (Z.to_nat n) l).
Proof.
  intros Hk Hn. unfold Book.paginate.
  rewrite decide_False, decide_False by lia. do 2 f_equal. lia.
Qed.

Lemma paginate_negative k n l :
  (k < 0)%Z → Book.paginate k n l = Err (NegativeSkip k).
Proof. intros Hk. unfold Book.paginate. by rewrite decide_True. Qed.

Lemma paginate_Ok k n l r :
  Book.paginate k n l = Ok r → (0 ≤ k)%Z ∧ r `sublist_of` l.
Proof.
  unfold Book.paginate. repeat case_decide; intros [= <-]; (split; [lia|]);
    [apply sublist_drop|apply window_sublist].
Qed.

Lemma paginate_Err k n l e :
  Book.paginate k n l = Err e ↔ (k < 0)%Z ∧ e = NegativeSkip k.
Proof. unfold Book.paginate. repeat case_decide; naive_solver. Qed.

(** ** What the methods return and leave behind *)

Lemma exec_run q s :
  Book.exec q s =
  match check (Book.q_filter q) with
  | Err e => Err e
  | Ok _ =>
      result_map (λ r, (r, s))
        (Book.paginate (Book.q_skip q) (Book.q_limit q)
           (Book.sorted (Book.q_sort q) (Book.select (Book.q_filter q) s)))
  end.
Proof.
  unfold Book.exec. run_store. destruct (check _); [|done].
  by destruct (Book.paginate _ _ _).
Qed.

Lemma countDocuments_run c s :
  Book.countDocuments c s =
  result_map (λ _, (length (Book.select c s), s)) (check c).
Proof. unfold Book.countDocuments. run_store. by destruct (check c). Qed.

Lemma findById_run i s : Book.findById i s = Ok (lookup_id i s, s).
Proof.
  unfold Book.findById, Book.findOne, lookup_id. unfold_store.
  by rewrite check_CEq, select_id, head_filter_list_find.
Qed.

Lemma create_run b s :
  Book.create b s =
  Ok (mkDoc (fresh_id (ids s)) b, s ++ [mkDoc (fresh_id (ids s)) b]).
Proof. done. Qed.

Lemma list_find_id i s :
  list_find (λ d, matches (CEq "_id" i) d = true) s = list_find (λ d, _id d = i) s.
Proof. apply list_find_ext. intros d. apply matches_CEq_id. Qed.

(** An update by key: the document under the key is rewritten by the
    update and returned, after it with [new], before it without; a key that
    is absent gives [null] and changes nothing. *)
Lemma findOneAndUpdate_run i u new s :
  Book.findOneAndUpdate (CEq "_id" i) u new s =
  match check_update u with
  | Err e => Err e
  | Ok _ =>
      Ok ((λ d, if new then mkDoc (_id d) (apply_update u (doc d)) else d)
            <$> lookup_id i s,
          update_id i (apply_update u) s)
  end.
Proof.
  unfold Book.findOneAndUpdate, update_id, lookup_id. unfold_store.
  rewrite check_CEq. cbv beta iota. destruct (check_update u); [|done].
  rewrite list_find_id. by destruct (list_find _ s) as [[??]|].
Qed.

Lemma findByIdAndDelete_run i s :
  Book.findByIdAndDelete i s = Ok (lookup_id i s, delete_id i s).
Proof.
  unfold Book.findByIdAndDelete, delete_id, lookup_id. unfold_store.
  rewrite list_find_id. by destruct (list_find _ s) as [[??]|].
Qed.

(** ** The methods keep keys unique *)

Lemma wf_create b s : wf s → wf (s ++ [mkDoc (fresh_id (ids s)) b]).
Proof. intros Hs. apply wf_snoc; [done|apply fresh_id_fresh]. Qed.

#[local] Hint Resolve wf_create wf_update_id wf_delete_id : book.

Lemma create_wf b s d s' : wf s → Book.create b s = Ok (d, s') → wf s'.
Proof. rewrite create_run. intros Hs [= <- <-]. auto with book. Qed.

Lemma findOneAndUpdate_wf i u new s r s' :
  wf s → Book.findOneAndUpdate (CEq "_id" i) u new s = Ok (r, s') → wf s'.
Proof.
  rewrite findOneAndUpdate_run. destruct (check_update u); [|done].
  intros Hs [= <- <-]. auto with book.
Qed.

Lemma findByIdAndDelete_wf i s r s' :
  wf s → Book.findByIdAndDelete i s = Ok (r, s') → wf s'.
Proof. rewrite findByIdAndDelete_run. intros Hs [= <- <-]. auto with book. Qed.

End method_lemmas.

#[export] Hint Rewrite @findById_run @create_run @findByIdAndDelete_run
  @countDocuments_run : book_rw.
#[export] Hint Resolve wf_update_id wf_delete_id wf_snoc wf_nil wf_create : book.
