(* ===== verification/Pagination.v ===== *)
(** * Pagination: the options of a listing and their resolver

    [IPaginationOptions] is what the caller of [getBooks] supplies, every
    field optional; [calculate_pagination] (helpers/pagination_helpers)
    resolves it to a page, a limit, the number of records to skip and the
    sort key and direction.  The service relies on the resolver through the
    interface [PaginationHelper]: whatever the defaults are, the skip is
    [(page - 1) * limit].  [default_helper] is the resolver with the
    defaults of the specification: page 1, limit 10, no sort of its own. *)

From S2P Require Import Prelude Document Query Update Collection.

Record IPaginationOptions : Type := mkOptions {
  opt_page : option Z;
  opt_limit : option Z;
  opt_sortBy : option string;
  opt_sortOrder : option SortOrder;
}.

#[export] Instance IPaginationOptions_eq_dec : EqDecision IPaginationOptions.
Proof. solve_decision. Defined.

Record Pagination : Type := mkPagination {
  page : Z;
  limit : Z;
  skip : Z;
  sortBy : option string;
  sortOrder : option SortOrder;
}.

Class PaginationHelper : Type := {
  calculate_pagination : IPaginationOptions → Pagination;
  calculate_pagination_skip o :
    skip (calculate_pagination o) =
    ((page (calculate_pagination o) - 1) * limit (calculate_pagination o))%Z;
}.

(** ** The resolver of the specification *)

Definition default_page : Z := 1.
Definition default_limit : Z := 10.

Definition resolve (o : IPaginationOptions) : Pagination :=
  let page := default default_page (opt_page o) in
  let limit := default default_limit (opt_limit o) in
  mkPagination page limit ((page - 1) * limit) (opt_sortBy o) (opt_sortOrder o).

Lemma resolve_skip o :
  skip (resolve o) = ((page (resolve o) - 1) * limit (resolve o))%Z.
Proof. done. Qed.

Definition default_helper : PaginationHelper := {|
  calculate_pagination := resolve;
  calculate_pagination_skip := resolve_skip;
|}.

(** No option at all. *)
Definition no_options : IPaginationOptions := mkOptions None None None None.

(** * Lemmas *)

Section pagination_lemmas.
Context `{PaginationHelper}.
Implicit Types (o : IPaginationOptions).

(** From page 1 on with a positive limit, the skip is a whole number of
    pages and never negative. *)
Lemma skip_nonneg o :
  (1 ≤ page (calculate_pagination o))%Z →
  (0 ≤ limit (calculate_pagination o))%Z →
  (0 ≤ skip (calculate_pagination o))%Z.
Proof. rewrite calculate_pagination_skip. nia. Qed.

Lemma skip_to_nat o :
  (1 ≤ page (calculate_pagination o))%Z →
  (0 ≤ limit (calculate_pagination o))%Z →
  Z.to_nat (skip (calculate_pagination o)) =
  Z.to_nat (page (calculate_pagination o) - 1) * Z.to_nat (limit (calculate_pagination o)).
Proof. intros. rewrite calculate_pagination_skip. by rewrite Z2Nat.inj_mul by lia. Qed.

(** Below page 1 with a positive limit the skip is negative. *)
Lemma skip_negative o :
  (page (calculate_pagination o) < 1)%Z →
  (0 < limit (calculate_pagination o))%Z →
  (skip (calculate_pagination o) < 0)%Z.
Proof. rewrite calculate_pagination_skip. nia. Qed.

End pagination_lemmas.

Section resolve_lemmas.
Implicit Types (o : IPaginationOptions).

Lemma resolve_default : resolve no_options = mkPagination 1 10 0 None None.
Proof. done. Qed.

Lemma resolve_page o p : opt_page o = Some p → page (resolve o) = p.
Proof. unfold resolve. by intros ->. Qed.

Lemma resolve_limit o n : opt_limit o = Some n → limit (resolve o) = n.
Proof. unfold resolve. by intros ->. Qed.

Lemma resolve_sort o :
  sortBy (resolve o) = opt_sortBy o ∧ sortOrder (resolve o) = opt_sortOrder o.
Proof. done. Qed.

End resolve_lemmas.
