(* ===== verification/Samples.v ===== *)
(** * Samples: the collections the theorems are applied at

    Ten books by ten titles, and the book of the specification's scenario
    of readers: a user who plans to read it ("a@x.com" in [read_soon]), one
    who reads it and one who finished.  The witnesses of the other files
    evaluate the definitions at these collections. *)

From S2P Require Import Prelude Document Query Update Collection.

Definition sample_book (t a g y : string) : IBook :=
  mkBook t a g y [] [] [] [] [].

Definition sample_store : collection := [
  mkDoc "b01" (sample_book "The Hobbit" "J.R.R. Tolkien" "Fantasy" "1937-09-21");
  mkDoc "b02" (sample_book "Dune" "Frank Herbert" "Science Fiction" "1965-08-01");
  mkDoc "b03" (sample_book "Emma" "Jane Austen" "Fiction" "1815-12-23");
  mkDoc "b04" (sample_book "Ulysses" "James Joyce" "Fiction" "1922-02-02");
  mkDoc "b05" (sample_book "Neuromancer" "William Gibson" "Science Fiction" "1984-07-01");
  mkDoc "b06" (sample_book "Dracula" "Bram Stoker" "Mystery" "1897-05-26");
  mkDoc "b07" (sample_book "Walden" "Henry David Thoreau" "Non-Fiction" "1854-08-09");
  mkDoc "b08" (sample_book "Beloved" "Toni Morrison" "Fiction" "1987-09-02");
  mkDoc "b09" (sample_book "Solaris" "Stanislaw Lem" "Science Fiction" "1961-01-01");
  mkDoc "b10" (sample_book "Persuasion" "Jane Austen" "Fiction" "1817-12-20")
].

Definition club_book : IBook :=
  mkBook "Emma" "Jane Austen" "Fiction" "1815-12-23"
    [mkReview "a@x.com" "A delight"]
    ["a@x.com"; "b@x.com"] ["a@x.com"] ["b@x.com"] ["c@x.com"].

Definition club_store : collection := [
  mkDoc "b01" (sample_book "The Hobbit" "J.R.R. Tolkien" "Fantasy" "1937-09-21");
  mkDoc "b03" club_book
].

Definition new_title : PartialBook :=
  mkPartial (Some "Emma, a novel") None None None None None None None None.
