(* ===== verification/Listing.v ===== *)
(** * Listing: getBooks, the query builder of book.service.ts

    [getBooks] is translated as it is written: the filter object is taken
    apart ([searchTerm], [filters_data]), the clauses of the filter
    document are built ([search_condition], [filters_condition],
    [and_conditions], [where_condition]) with the sort ([sort_conditions]),
    and the two store calls are made in the monad of the prelude.  The
    collaborators the operation imports are the interfaces of the other
    files: the static configuration ([BookConstant]), the pagination
    resolver ([PaginationHelper]) and, behind the model, the store's regular
    expressions and sort order.

    The lemmas give the listing branch by branch ([getBooks_run]); the
    properties state what a listing returns against [passes], which says
    what the filter request asks of a record without the filter
    document. *)

From S2P Require Import Prelude Document Query Update Collection Pagination.
From S2P Require Import Samples.

(** ** The request and the response of a listing *)

(** [IBookFilterableFields]: the filter object, key by key. *)
Abbreviation IBookFilterableFields := (list (string * string)).

Record Meta : Type := mkMeta {
  meta_page : Z;
  meta_limit : Z;
  total : nat;
}.

Record IGenericResponse (T : Type) : Type := mkResponse {
  meta : Meta;
  data : T;
}.
Arguments mkResponse {T} meta data.
Arguments meta {T} _.
Arguments data {T} _.

(** ** getBooks: the documents it builds *)

(** [{ searchTerm, ...filters_data }]: the value under [searchTerm], and the
    object without that key. *)
Definition searchTerm (filters : IBookFilterableFields) : option string :=
  (λ hit, hit.2.2) <$> list_find (λ kv, kv.1 = "searchTerm") filters.

Definition filters_data (filters : IBookFilterableFields) : IBookFilterableFields :=
  filter (λ kv, kv.1 ≠ "searchTerm") filters.

Section query_builder.
Context `{BookConstant, PaginationHelper, RegexEngine, FieldOrder, IdGenerator}.

(** [{ $or: books_searchable_fields.map(field => ({ [field]: { $regex:
    searchTerm, $options: "i" } })) }] *)
Definition search_condition (term : string) : condition :=
  COr ((λ field, CRegex field term "i") <$> books_searchable_fields).

(** [{ $and: Object.entries(filters_data).map(([field, value]) => ({ [field]:
    value })) }] *)
Definition filters_condition (fd : IBookFilterableFields) : condition :=
  CAnd ((λ kv, CEq kv.1 kv.2) <$> fd).

Definition and_conditions (filters : IBookFilterableFields) : list condition :=
  (if truthy (searchTerm filters)
   then [search_condition (default "" (searchTerm filters))] else []) ++
  (if bool_decide (length (filters_data filters) ≠ 0)
   then [filters_condition (filters_data filters)] else []).

(** [if (sortBy && sortOrder) sort_conditions[sortBy] = sortOrder] *)
Definition sort_conditions (p : Pagination) : option (string * SortOrder) :=
  match sortOrder p with
  | Some o => if truthy (sortBy p) then Some (default "" (sortBy p), o) else None
  | None => None
  end.

(** [and_conditions.length > 0 ? { $and: and_conditions } : {}] *)
Definition where_condition (cs : list condition) : condition :=
  if bool_decide (0 < length cs) then CAnd cs else CAll.

Definition getBooks (filters : IBookFilterableFields)
    (pagination_options : IPaginationOptions)
    : Store (IGenericResponse collection) :=
  let conditions := and_conditions filters in
  let p := calculate_pagination pagination_options in
  let sorting := sort_conditions p in
  let wherec := where_condition conditions in
  await result ←
    Book.exec (Book.limit (limit p) (Book.skip (skip p)
      (Book.sort sorting (Book.find wherec))));
  await total ← Book.countDocuments wherec;
  ret (mkResponse (mkMeta (page p) (limit p) total) result).

End query_builder.

(** ** What a listing asks of a record

    The reference the listing is compared with, stated on the filter
    request and the record, without the filter document. *)

Section listing_reference.
Context `{BookConstant, PaginationHelper, RegexEngine, FieldOrder, IdGenerator}.
Implicit Types (filters : IBookFilterableFields) (d : BookDocument)
  (s : collection) (o : IPaginationOptions).

(** What the search term asks of a document: some searchable field holds a
    string the term matches, case-insensitively. *)
Definition found_in (term : string) (d : BookDocument) : Prop :=
  ∃ field v, field ∈ books_searchable_fields ∧
             v ∈ string_values field (doc d) ∧ regex_test term "i" v = true.

(** What the field filters ask of a document: every one holds exactly. *)
Definition satisfies (fd : IBookFilterableFields) (d : BookDocument) : Prop :=
  ∀ k v, (k, v) ∈ fd → v ∈ eq_values k d.

(** The store accepts the search clause: there is a field to search and the
    term is a pattern. *)
Definition searchable (term : string) : Prop :=
  books_searchable_fields ≠ [] ∧ regex_valid term "i" = true.

(** What a listing asks of a record, stated without the filter document:
    the search term, when there is one, is found in a searchable field, and
    every field filter holds exactly. *)
Definition passes filters d : Prop :=
  (truthy (searchTerm filters) = true →
     found_in (default "" (searchTerm filters)) d) ∧
  satisfies (filters_data filters) d.

(** The records a listing counts: those its filter selects, in collection
    order. *)
Definition matching filters s : collection :=
  Book.select (where_condition (and_conditions filters)) s.

(** The records a listing pages through: the matching records in the order
    of the sort. *)
Definition listed filters o s : collection :=
  Book.sorted (sort_conditions (calculate_pagination o)) (matching filters s).

End listing_reference.

(** * Lemmas *)

(** ** The filter object *)

Section filter_object.
Implicit Types (filters : IBookFilterableFields) (k v t : string).

Lemma searchTerm_Some filters t :
  searchTerm filters = Some t → ("searchTerm", t) ∈ filters.
Proof.
  unfold searchTerm. intros ([n [k v]] & Hf & ->)%fmap_Some.
  apply list_find_Some in Hf as (Hn & Hk & _). simpl in *. subst.
  by eapply list_elem_of_lookup_2.
Qed.

Lemma searchTerm_None filters :
  searchTerm filters = None ↔ ∀ v, ("searchTerm", v) ∉ filters.
Proof.
  unfold searchTerm. rewrite fmap_None, list_find_None, Forall_forall. split.
  - intros Hf v Hv. by apply (Hf _ Hv).
  - intros Hf [k v] Hkv Hk. simpl in *. subst. by apply (Hf v).
Qed.

Lemma elem_of_filters_data filters k v :
  (k, v) ∈ filters_data filters ↔ (k, v) ∈ filters ∧ k ≠ "searchTerm".
Proof. unfold filters_data. rewrite list_elem_of_filter. simpl. tauto. Qed.

(** The rest of the destructuring never holds the search term. *)
Lemma filters_data_no_searchTerm filters v :
  ("searchTerm", v) ∉ filters_data filters.
Proof. rewrite elem_of_filters_data. naive_solver. Qed.

Lemma filters_data_idemp filters :
  filters_data (filters_data filters) = filters_data filters.
Proof. unfold filters_data. by apply list_filter_filter_l. Qed.

Lemma filters_data_nil : filters_data [] = [].
Proof. done. Qed.

Lemma searchTerm_nil : searchTerm [] = None.
Proof. done. Qed.

(** *** The order of the keys

    The filter is an object: each key once, in some order.  What the
    service takes out of it does not depend on the order. *)

Lemma searchTerm_elem_of filters t :
  NoDup filters.*1 → searchTerm filters = Some t ↔ ("searchTerm", t) ∈ filters.
Proof.
  intros Hnd. split; [apply searchTerm_Some|]. intros Ht.
  destruct (searchTerm filters) as [t'|] eqn:E; [|by eapply searchTerm_None in E].
  apply searchTerm_Some in E. f_equal. by eapply NoDup_fst_unique.
Qed.

Lemma searchTerm_Permutation filters filters' :
  NoDup filters.*1 → filters ≡ₚ filters' → searchTerm filters = searchTerm filters'.
Proof.
  intros Hnd Hp. apply option_eq. intros t.
  rewrite !searchTerm_elem_of by (by rewrite <-?Hp). by rewrite Hp.
Qed.

#[export] Instance filters_data_Permutation : Proper ((≡ₚ) ==> (≡ₚ)) filters_data.
Proof. intros ?? Hp. unfold filters_data. by rewrite Hp. Qed.

End filter_object.

(** ** The filter and the sort of a listing *)

Section listing_documents.
Context `{BookConstant, PaginationHelper, RegexEngine, FieldOrder, IdGenerator}.
Implicit Types (filters : IBookFilterableFields) (d : BookDocument)
  (s : collection) (o : IPaginationOptions).

Lemma matches_search_condition term d :
  matches (search_condition term) d = true ↔ found_in term d.
Proof.
  unfold search_condition, found_in. rewrite matches_COr. split.
  - intros (c & (field & -> & Hf)%list_elem_of_fmap & Hm).
    apply matches_CRegex in Hm as (v & ? & ?). eauto.
  - intros (field & v & Hf & Hv & Ht). exists (CRegex field term "i"). split.
    + apply list_elem_of_fmap. eauto.
    + apply matches_CRegex. eauto.
Qed.

Lemma matches_filters_condition fd d :
  matches (filters_condition fd) d = true ↔ satisfies fd d.
Proof.
  unfold filters_condition, satisfies. rewrite matches_CAnd. split.
  - intros Hm k v Hkv. apply matches_CEq.
    apply (Hm (CEq k v)). apply list_elem_of_fmap. by exists (k, v).
  - intros Hs c ([k v] & -> & Hkv)%list_elem_of_fmap.
    apply matches_CEq. by apply Hs.
Qed.

Lemma errors_search_condition term :
  condition_errors (search_condition term) = [] ↔ searchable term.
Proof.
  unfold search_condition, searchable.
  rewrite errors_COr, errors_CRegex_list.
  destruct books_searchable_fields as [|f fs]; [naive_solver|].
  destruct (regex_valid term "i"); naive_solver.
Qed.

(** With a field to search the store refuses a term that is no pattern,
    and names the term. *)
Lemma errors_search_condition_invalid term :
  books_searchable_fields ≠ [] → regex_valid term "i" = false →
  head (condition_errors (search_condition term)) = Some (InvalidRegex term).
Proof.
  intros Hf Hv. unfold search_condition. rewrite errors_COr, errors_CRegex_list, Hv.
  by destruct books_searchable_fields.
Qed.

Lemma errors_filters_condition fd :
  fd ≠ [] → condition_errors (filters_condition fd) = [].
Proof.
  intros Hfd. unfold filters_condition.
  rewrite errors_CAnd, errors_CEq_list. by destruct fd.
Qed.

(** The four shapes of [and_conditions]. *)
Lemma and_conditions_cases filters :
  and_conditions filters =
  match truthy (searchTerm filters), filters_data filters with
  | true, [] => [search_condition (default "" (searchTerm filters))]
  | true, fd => [search_condition (default "" (searchTerm filters));
                 filters_condition fd]
  | false, [] => []
  | false, fd => [filters_condition fd]
  end.
Proof.
  unfold and_conditions.
  destruct (truthy _), (filters_data filters) as [|kv fd]; done.
Qed.

(** The guard on [filters_data] keeps an empty [$and] out of the filter. *)
Lemma and_conditions_no_empty_and filters :
  CAnd [] ∉ and_conditions filters.
Proof.
  rewrite and_conditions_cases. unfold search_condition, filters_condition.
  destruct (truthy _), (filters_data filters); set_solver.
Qed.

Lemma matches_where_condition cs d :
  matches (where_condition cs) d = true ↔ ∀ c, c ∈ cs → matches c d = true.
Proof.
  unfold where_condition. case_bool_decide; [apply matches_CAnd|].
  destruct cs; [|simpl in *; lia]. set_solver.
Qed.

(** A document passes the filter of a listing exactly when the search term,
    if there is one, is found in it and every field filter holds of it. *)
Lemma matches_listing filters d :
  matches (where_condition (and_conditions filters)) d = true ↔
  (truthy (searchTerm filters) = true →
     found_in (default "" (searchTerm filters)) d) ∧
  satisfies (filters_data filters) d.
Proof.
  rewrite matches_where_condition, and_conditions_cases.
  rewrite <-matches_search_condition, <-matches_filters_condition.
  destruct (truthy _), (filters_data filters) as [|kv fd]; set_solver.
Qed.

(** The field filters in any order ask the same of a document. *)
#[export] Instance satisfies_Permutation : Proper ((≡ₚ) ==> (=) ==> iff) satisfies.
Proof. intros fd fd' Hp d ? <-. unfold satisfies. by setoid_rewrite Hp. Qed.

(** What the store refuses in the filter of a listing is what it refuses
    in the search clause. *)
Lemma errors_listing filters :
  condition_errors (where_condition (and_conditions filters)) =
  if truthy (searchTerm filters)
  then condition_errors (search_condition (default "" (searchTerm filters)))
  else [].
Proof.
  rewrite and_conditions_cases. unfold where_condition.
  destruct (truthy _), (filters_data filters) as [|kv fd]; simpl;
    rewrite ?errors_CAnd; simpl;
    by rewrite ?errors_filters_condition, ?app_nil_r by done.
Qed.

(** The store accepts the filter of a listing exactly when it accepts the
    search clause, if there is one. *)
Lemma check_listing filters :
  check (where_condition (and_conditions filters)) = Ok tt ↔
  (truthy (searchTerm filters) = true →
     searchable (default "" (searchTerm filters))).
Proof.
  rewrite check_Ok, and_conditions_cases, <-errors_search_condition.
  unfold where_condition.
  destruct (truthy _), (filters_data filters) as [|kv fd]; simpl;
    rewrite ?errors_CAnd; simpl;
    rewrite ?errors_filters_condition, ?app_nil_r by done; naive_solver.
Qed.

End listing_documents.

(** ** getBooks *)

Section listing.
Context `{BookConstant, PaginationHelper, RegexEngine, FieldOrder, IdGenerator}.
Implicit Types (filters : IBookFilterableFields) (d : BookDocument)
  (s : collection) (o : IPaginationOptions).

(** The listing, branch by branch: the filter refused, the window refused,
    or the page with its meta; the collection is never changed. *)
Lemma getBooks_run filters o s :
  getBooks filters o s =
  let p := calculate_pagination o in
  match check (where_condition (and_conditions filters)) with
  | Err e => Err e
  | Ok _ =>
      match Book.paginate (skip p) (limit p) (listed filters o s) with
      | Err e => Err e
      | Ok r =>
          Ok (mkResponse (mkMeta (page p) (limit p) (length (matching filters s))) r, s)
      end
  end.
Proof.
  unfold getBooks, listed, matching. unfold bind at 1.
  rewrite exec_run. simpl. destruct (check _) as [[]|e] eqn:Hc; [|done].
  destruct (Book.paginate _ _ _) as [r|e]; [|done]. simpl.
  unfold bind. by rewrite countDocuments_run, Hc.
Qed.

(** A listing whose search term the store refuses is rejected. *)
Lemma getBooks_invalid_term filters o s term :
  searchTerm filters = Some term → term ≠ "" →
  books_searchable_fields ≠ [] → regex_valid term "i" = false →
  getBooks filters o s = Err (InvalidRegex term).
Proof.
  intros Ht Hne Hf Hv. rewrite getBooks_run. simpl.
  pose proof (errors_search_condition_invalid term Hf Hv) as He.
  unfold check. rewrite errors_listing, Ht. simpl.
  rewrite bool_decide_eq_true_2 by done.
  by destruct (condition_errors (search_condition term)); simplify_eq/=.
Qed.

Lemma getBooks_Ok filters o s r s' :
  getBooks filters o s = Ok (r, s') ↔
  check (where_condition (and_conditions filters)) = Ok tt ∧
  Book.paginate (skip (calculate_pagination o)) (limit (calculate_pagination o))
    (listed filters o s) = Ok (data r) ∧
  meta r = mkMeta (page (calculate_pagination o)) (limit (calculate_pagination o))
                  (length (matching filters s)) ∧
  s' = s.
Proof.
  rewrite getBooks_run. simpl. destruct (check _) as [[]|e]; [|naive_solver].
  destruct (Book.paginate _ _ _) as [l|e]; [|naive_solver].
  destruct r as [m l']; simpl. naive_solver.
Qed.

Lemma elem_of_matching filters s d :
  d ∈ matching filters s ↔
  d ∈ s ∧
  (truthy (searchTerm filters) = true →
     found_in (default "" (searchTerm filters)) d) ∧
  satisfies (filters_data filters) d.
Proof. unfold matching. by rewrite elem_of_select, matches_listing. Qed.

Lemma matching_no_filter s : matching [] s = s.
Proof. apply select_CAll. Qed.

Lemma elem_of_listed filters o s d : d ∈ listed filters o s ↔ d ∈ matching filters s.
Proof. apply elem_of_sorted. Qed.

(** The records of a page are among those the filter selects. *)
Lemma getBooks_data_matching filters o s r s' d :
  getBooks filters o s = Ok (r, s') → d ∈ data r → d ∈ matching filters s.
Proof.
  intros (_ & [_ Hsub]%paginate_Ok & _)%getBooks_Ok Hd.
  eapply elem_of_sublist in Hd; [|done]. by apply elem_of_listed in Hd.
Qed.

Lemma length_listed filters o s :
  length (listed filters o s) = length (matching filters s).
Proof. apply length_sorted. Qed.

Lemma listed_Permutation filters o s : listed filters o s ≡ₚ matching filters s.
Proof. apply sorted_Permutation. Qed.

End listing.

(** ** Properties of the listing *)

Section listing_properties.
Context `{BookConstant, PaginationHelper, RegexEngine, FieldOrder, IdGenerator}.
Implicit Types (filters : IBookFilterableFields) (d : BookDocument)
  (s : collection) (o : IPaginationOptions).

#[export] Instance passes_dec filters d : Decision (passes filters d).
Proof.
  refine (cast_if (decide (matches (where_condition (and_conditions filters)) d = true)));
    unfold passes; by rewrite <-matches_listing.
Defined.

Lemma matching_passes filters s : matching filters s = filter (passes filters) s.
Proof. apply list_filter_iff. intros d. apply matches_listing. Qed.

(** Permuting the keys of the filter object changes neither what the
    listing asks of a record nor what the store refuses. *)
Lemma passes_Permutation filters filters' d :
  NoDup filters.*1 → filters ≡ₚ filters' → passes filters d ↔ passes filters' d.
Proof.
  intros Hnd Hp. unfold passes.
  by rewrite (searchTerm_Permutation _ _ Hnd Hp), Hp.
Qed.

Lemma check_Permutation filters filters' :
  NoDup filters.*1 → filters ≡ₚ filters' →
  check (where_condition (and_conditions filters)) =
  check (where_condition (and_conditions filters')).
Proof.
  intros Hnd Hp. unfold check.
  by rewrite !errors_listing, (searchTerm_Permutation _ _ Hnd Hp).
Qed.

Lemma matching_Permutation filters filters' s :
  NoDup filters.*1 → filters ≡ₚ filters' → matching filters s = matching filters' s.
Proof.
  intros Hnd Hp. rewrite !matching_passes. apply list_filter_iff.
  intros d. by apply passes_Permutation.
Qed.

(** With page and limit from 1 on and a filter the store accepts, the
    listing answers with the window of the listed records. *)
Lemma getBooks_window filters o s :
  let p := calculate_pagination o in
  (1 ≤ page p)%Z → (1 ≤ limit p)%Z →
  check (where_condition (and_conditions filters)) = Ok tt →
  getBooks filters o s =
  Ok (mkResponse (mkMeta (page p) (limit p) (length (matching filters s)))
        (window (Z.to_nat (page p - 1) * Z.to_nat (limit p)) (Z.to_nat (limit p))
           (listed filters o s)), s).
Proof.
  intros p Hp Hl Hc. subst p. rewrite getBooks_run. simpl. rewrite Hc.
  rewrite paginate_window by (try apply skip_nonneg; lia).
  by rewrite skip_to_nat by lia.
Qed.

(** C1: [meta.total] of a listing is the number of records of the
    collection that pass the filter request, whatever the page, the limit
    and the sort; the listing changes nothing. *)
Theorem getBooks_total_counts_passing filters o s r s' :
  getBooks filters o s = Ok (r, s') →
  total (meta r) = length (filter (passes filters) s) ∧ s' = s.
Proof.
  intros (_ & _ & -> & ->)%getBooks_Ok. by rewrite <-matching_passes.
Qed.

(** Two listings under one filter report the same total, whatever
    their pagination options. *)
Theorem getBooks_total_independent_of_page filters o o' s r r' s1 s2 :
  getBooks filters o s = Ok (r, s1) →
  getBooks filters o' s = Ok (r', s2) →
  total (meta r) = total (meta r').
Proof. by intros (_ & _ & -> & _)%getBooks_Ok (_ & _ & -> & _)%getBooks_Ok. Qed.

(** C2: every record a listing returns is a record of the collection
    that passes the filter request: the search term is found in one of the
    searchable fields and every field filter matches exactly. *)
Theorem getBooks_data_pass filters o s r s' d :
  getBooks filters o s = Ok (r, s') → d ∈ data r →
  d ∈ s ∧ passes filters d.
Proof. intros Hr Hd. by eapply elem_of_matching, getBooks_data_matching. Qed.

(** C33: a listing returns at most [limit] records when the limit is
    positive, and never more than [meta.total]. *)
Theorem getBooks_data_bounded filters o s r s' :
  getBooks filters o s = Ok (r, s') →
  length (data r) ≤ total (meta r) ∧
  ((0 < limit (calculate_pagination o))%Z →
   length (data r) ≤ Z.to_nat (limit (calculate_pagination o))).
Proof.
  intros (_ & Hp & -> & _)%getBooks_Ok. simpl. split.
  - apply paginate_Ok in Hp as [_ Hsub%sublist_length].
    by rewrite length_listed in Hsub.
  - intros Hl. pose proof Hp as [Hk _]%paginate_Ok.
    rewrite paginate_window in Hp by done. injection Hp as <-.
    apply window_length_le.
Qed.

(** C9: with no search term and no field filter, the total is the size
    of the collection and, from page 1 on with a positive limit, the page is
    the window of the whole collection in the order of the sort. *)
Theorem getBooks_no_filter o s :
  let p := calculate_pagination o in
  (1 ≤ page p)%Z → (1 ≤ limit p)%Z →
  getBooks [] o s =
  Ok (mkResponse (mkMeta (page p) (limit p) (length s))
        (window (Z.to_nat (page p - 1) * Z.to_nat (limit p)) (Z.to_nat (limit p))
           (Book.sorted (sort_conditions p) s)), s).
Proof.
  intros p Hp Hl. subst p. rewrite getBooks_window by done.
  unfold listed. by rewrite matching_no_filter.
Qed.

(** The page is in the order of the sort the listing built, or in
    collection order when it built none. *)
Lemma getBooks_data_ordered filters o s r s' :
  getBooks filters o s = Ok (r, s') →
  match sort_conditions (calculate_pagination o) with
  | Some sc => StronglySorted (sort_le sc) (data r)
  | None => data r `sublist_of` s
  end.
Proof.
  intros (_ & Hp & _)%getBooks_Ok. unfold listed in Hp.
  destruct (sort_conditions _) as [sc|].
  - pose proof (sorted_StronglySorted sc (matching filters s)) as Hs.
    unfold Book.paginate in Hp. repeat case_decide; [done|..];
      injection Hp as <-; by [> apply drop_StronglySorted|apply window_StronglySorted].
  - apply paginate_Ok in Hp as [_ Hsub]. etrans; [done|apply select_sublist].
Qed.

(** The sort the listing builds, read off the resolved options. *)
Lemma sort_conditions_Some p f dir :
  sortBy p = Some f → f ≠ "" → sortOrder p = Some dir →
  sort_conditions p = Some (f, dir).
Proof.
  intros Hf ? Hd. unfold sort_conditions. rewrite Hf, Hd. simpl.
  by rewrite bool_decide_eq_true_2.
Qed.

Lemma sort_conditions_None p :
  sortBy p = None ∨ sortBy p = Some "" ∨ sortOrder p = None →
  sort_conditions p = None.
Proof.
  unfold sort_conditions. intros [->|[->| ->]]; [by destruct (sortOrder p)..|done].
Qed.

(** C31: the page comes in the order asked for. When the resolved
    options name a sort field that is not the empty string and an
    ascending direction ([asc], [ascending], [1]), every record of the page
    precedes, in the order of that field, every record after it; with a
    descending direction ([desc], [descending], [-1]) every record follows
    every record after it; without a field, with the empty string for a
    field or without a direction the page keeps the order of the
    collection. *)
Theorem getBooks_sorted filters o s r s' :
  let p := calculate_pagination o in
  getBooks filters o s = Ok (r, s') →
  (∀ f, sortBy p = Some f → f ≠ "" →
     sortOrder p ∈ [Some asc; Some ascending; Some up] →
     StronglySorted (field_le f) (data r)) ∧
  (∀ f, sortBy p = Some f → f ≠ "" →
     sortOrder p ∈ [Some desc; Some descending; Some down] →
     StronglySorted (flip (field_le f)) (data r)) ∧
  (sortBy p = None ∨ sortBy p = Some "" ∨ sortOrder p = None →
     data r `sublist_of` s).
Proof.
  intros p Hr%getBooks_data_ordered. fold p in Hr. split_and!.
  - intros f Hf ? Hd. rewrite !elem_of_cons, elem_of_nil in Hd.
    destruct Hd as [Hd|[Hd|[Hd|[]]]];
      by rewrite (sort_conditions_Some _ _ _ Hf ltac:(done) Hd) in Hr.
  - intros f Hf ? Hd. rewrite !elem_of_cons, elem_of_nil in Hd.
    destruct Hd as [Hd|[Hd|[Hd|[]]]];
      by rewrite (sort_conditions_Some _ _ _ Hf ltac:(done) Hd) in Hr.
  - intros Hn. by rewrite (sort_conditions_None _ Hn) in Hr.
Qed.

(** C29: a listing fails exactly when the store refuses its filter (a
    search term with no field to search or a term that is no pattern) or,
    the filter accepted, when the skip is negative; the error is the
    store's. *)
Theorem getBooks_fails filters o s e :
  getBooks filters o s = Err e ↔
  check (where_condition (and_conditions filters)) = Err e ∨
  (check (where_condition (and_conditions filters)) = Ok tt ∧
   (skip (calculate_pagination o) < 0)%Z ∧
   e = NegativeSkip (skip (calculate_pagination o))).
Proof.
  rewrite getBooks_run. simpl. destruct (check _) as [[]|e']; [|naive_solver].
  destruct (Book.paginate _ _ _) as [l|e'] eqn:Hp.
  - apply paginate_Ok in Hp as [??]. split; [done|]. intros [|(_&?&_)]; [done|lia].
  - apply paginate_Err in Hp as [? ->]. naive_solver.
Qed.

(** C32: the pages of a listing partition it: with a limit of at least
    one, the same filter and the same sort, page [p + 1] is the [p]-th block
    of [limit] records of the matching records in the order of the sort, and
    the pages up to one that reaches the total, concatenated, are all those
    records, each once and in order. *)
Theorem getBooks_pages_partition filters (o : nat → IPaginationOptions) n k s :
  (∀ p, page (calculate_pagination (o p)) = Z.of_nat (S p) ∧
        limit (calculate_pagination (o p)) = Z.of_nat (S n) ∧
        sort_conditions (calculate_pagination (o p)) =
        sort_conditions (calculate_pagination (o 0))) →
  check (where_condition (and_conditions filters)) = Ok tt →
  length (matching filters s) ≤ k * S n →
  (∀ p, getBooks filters (o p) s =
        Ok (mkResponse (mkMeta (Z.of_nat (S p)) (Z.of_nat (S n))
                          (length (matching filters s)))
              (page_of (S n) p (listed filters (o 0) s)), s)) ∧
  concat ((λ p, page_of (S n) p (listed filters (o 0) s)) <$> seq 0 k) =
  listed filters (o 0) s.
Proof.
  intros Ho Hc Hk. split; [|apply pages_cover; by rewrite length_listed].
  intros p. destruct (Ho p) as (Hp & Hn & Hs).
  rewrite getBooks_window by (done || lia). unfold listed, page_of.
  rewrite Hp, Hn, Hs. do 4 f_equal; lia.
Qed.

(** The listing does not depend on the order of the keys of the
    filter object: two filter objects with the same entries, each key
    once, get the same page, the same total and the same refusals. *)
Theorem getBooks_key_order filters filters' o s :
  NoDup filters.*1 → filters ≡ₚ filters' →
  getBooks filters o s = getBooks filters' o s.
Proof.
  intros Hnd Hp. rewrite !getBooks_run. unfold listed.
  by rewrite (check_Permutation _ _ Hnd Hp), (matching_Permutation _ _ _ Hnd Hp).
Qed.

End listing_properties.

(** * The listing at the sample collection

    Under the instances of the interfaces: the configuration of the
    specification, its pagination defaults, the literal engine, the order
    of string fields and the long-key generator. *)

#[local] Existing Instances default_constant default_helper literal_engine
  string_field_order long_id_generator.

Definition page_1_of_10 : IPaginationOptions :=
  mkOptions (Some 1%Z) (Some 10%Z) None None.

Definition page_2_of_5 : IPaginationOptions :=
  mkOptions (Some 2%Z) (Some 5%Z) None None.

Definition by_title_desc : IPaginationOptions :=
  mkOptions (Some 1%Z) (Some 3%Z) (Some "title") (Some desc).

Definition tolkien : IBookFilterableFields := [("searchTerm", "Tolkien")].

Definition austen_fiction : IBookFilterableFields :=
  [("searchTerm", "austen"); ("genre", "Fiction")].

(** The listings the witnesses run. *)
Definition tolkien_listing : IGenericResponse collection :=
  mkResponse (mkMeta 1 10 1)
    [mkDoc "b01" (sample_book "The Hobbit" "J.R.R. Tolkien" "Fantasy" "1937-09-21")].

Definition austen_page_1 : IGenericResponse collection :=
  mkResponse (mkMeta 1 10 2)
    [mkDoc "b03" (sample_book "Emma" "Jane Austen" "Fiction" "1815-12-23");
     mkDoc "b10" (sample_book "Persuasion" "Jane Austen" "Fiction" "1817-12-20")].

Definition austen_page_2 : IGenericResponse collection :=
  mkResponse (mkMeta 2 5 2) [].

(** The scenario of the specification: one book by Tolkien among ten, a
    search for "Tolkien" on page 1 of 10 returns that book and a total of 1. *)
Example getBooks_tolkien :
  getBooks tolkien page_1_of_10 sample_store = Ok (tolkien_listing, sample_store).
Proof. vm_compute. reflexivity. Qed.

Lemma getBooks_total_counts_passing_witness :
  getBooks tolkien page_1_of_10 sample_store = Ok (tolkien_listing, sample_store) ∧
  total (meta tolkien_listing) = length (filter (passes tolkien) sample_store).
Proof.
  split; [vm_compute; reflexivity|].
  apply (getBooks_total_counts_passing tolkien page_1_of_10 sample_store
           tolkien_listing sample_store).
  vm_compute. reflexivity.
Defined.

Lemma getBooks_total_independent_of_page_witness :
  getBooks austen_fiction page_1_of_10 sample_store = Ok (austen_page_1, sample_store) ∧
  getBooks austen_fiction page_2_of_5 sample_store = Ok (austen_page_2, sample_store) ∧
  total (meta austen_page_1) = total (meta austen_page_2).
Proof.
  split_and!; [vm_compute; reflexivity..|].
  apply (getBooks_total_independent_of_page austen_fiction page_1_of_10 page_2_of_5
           sample_store austen_page_1 austen_page_2 sample_store sample_store);
    vm_compute; reflexivity.
Defined.

Lemma getBooks_data_pass_witness :
  let d := mkDoc "b01" (sample_book "The Hobbit" "J.R.R. Tolkien" "Fantasy" "1937-09-21") in
  d ∈ sample_store ∧ passes tolkien d.
Proof.
  apply (getBooks_data_pass tolkien page_1_of_10 sample_store tolkien_listing
           sample_store);
    [vm_compute; reflexivity|apply list_elem_of_here].
Defined.

Lemma getBooks_data_bounded_witness :
  length (data tolkien_listing) ≤ total (meta tolkien_listing) ∧
  ((0 < 10)%Z → length (data tolkien_listing) ≤ Z.to_nat 10).
Proof.
  refine (getBooks_data_bounded tolkien page_1_of_10 sample_store tolkien_listing
            sample_store _).
  vm_compute. reflexivity.
Defined.

Lemma getBooks_no_filter_witness :
  getBooks [] page_2_of_5 sample_store =
  Ok (mkResponse (mkMeta 2 5 10) (drop 5 sample_store), sample_store).
Proof.
  rewrite (getBooks_no_filter page_2_of_5 sample_store); [reflexivity|done..].
Defined.

Lemma getBooks_sorted_witness :
  ∃ r, getBooks [] by_title_desc sample_store = Ok (r, sample_store) ∧
       title ∘ doc <$> data r = ["Walden"; "Ulysses"; "The Hobbit"] ∧
       StronglySorted (flip (field_le "title")) (data r).
Proof.
  eexists. split; [vm_compute; reflexivity|]. split; [reflexivity|].
  refine (proj1 (proj2 (getBooks_sorted [] by_title_desc sample_store _ sample_store _))
            "title" eq_refl _ _); [vm_compute; reflexivity|done|set_solver].
Defined.

Lemma getBooks_fails_witness :
  getBooks tolkien (mkOptions (Some (-1)%Z) (Some 10%Z) None None) sample_store =
  Err (NegativeSkip (-20)).
Proof.
  apply (getBooks_fails tolkien (mkOptions (Some (-1)%Z) (Some 10%Z) None None)
           sample_store (NegativeSkip (-20))).
  right. split_and!; [vm_compute; reflexivity|done..].
Defined.

(** Page [p + 1] in pages of three. *)
Definition page_of_3 (p : nat) : IPaginationOptions :=
  mkOptions (Some (Z.of_nat (S p))) (Some 3%Z) None None.

Lemma getBooks_pages_partition_witness :
  (∀ p, getBooks [] (page_of_3 p) sample_store =
        Ok (mkResponse (mkMeta (Z.of_nat (S p)) 3 10)
              (page_of 3 p (listed [] (page_of_3 0) sample_store)), sample_store)) ∧
  concat ((λ p, page_of 3 p (listed [] (page_of_3 0) sample_store)) <$> seq 0 4) =
  listed [] (page_of_3 0) sample_store.
Proof.
  refine (getBooks_pages_partition [] page_of_3 2 4 sample_store _ _ _);
    [done|done|vm_compute; lia].
Defined.

Lemma getBooks_key_order_witness :
  getBooks austen_fiction page_1_of_10 sample_store =
  getBooks (reverse austen_fiction) page_1_of_10 sample_store.
Proof.
  apply (getBooks_key_order austen_fiction (reverse austen_fiction));
    [by apply (bool_decide_unpack _)|symmetry; apply reverse_Permutation].
Defined.
