(* ===== verification/Regex.v ===== *)
(** * Regex: a regular-expression engine for the search term

    The service hands the search term to the store as the pattern of a
    [$regex] clause, unescaped, with option [i].  This file implements
    the engine interface of [Query] for a fragment of the store's pattern
    language: characters, [.], the escape of a metacharacter, groups,
    alternation and the quantifiers [*], [+] and [?].  [parse] reads a
    pattern of the fragment, says of a pattern with a quantifier that
    repeats nothing, an unbalanced parenthesis or a trailing backslash
    that it is malformed, as the store does, and leaves every other
    pattern (classes, anchors, counted, lazy and possessive repetition,
    [(?] groups, escapes of letters and digits) beyond the fragment.
    [find] searches a subject for a match by derivatives.

    The theorems: [find] decides the language of the pattern; a term
    without metacharacters, and any term after escaping, is searched for
    as the literal engine searches, so for such terms a listing returns
    the records in which the term occurs; every term the engine reads is
    searched for as a pattern, so the records returned hold a word of the
    language of the pattern, and a malformed term rejects the listing; at
    the sample collection the listing returns records in which the term
    does not occur. *)

From Stdlib Require Import Ascii String.
From S2P Require Import Prelude Document Query Update Collection Pagination.
From S2P Require Import Samples Listing.

(** ** Patterns *)

Inductive regex : Type :=
| Void                          (* matches nothing: a derivative that failed *)
| Eps                           (* the empty pattern *)
| Dot                           (* . *)
| Chr (c : ascii)               (* a character, or an escaped metacharacter *)
| Alt (r1 r2 : regex)           (* r1|r2 *)
| Seq (r1 r2 : regex)           (* r1r2 *)
| Star (r : regex).             (* r* *)

(** [.] matches every character but a line feed. *)
Definition newline : ascii := "010"%char.

Section matcher.
(** How characters are compared: up to case under option [i]. *)
Variable fold : ascii → ascii.

Fixpoint folded (s : string) : string :=
  match s with
  | EmptyString => EmptyString
  | String c s' => String (fold c) (folded s')
  end.

(** The strings a pattern matches, from the first character to the last. *)
Inductive lang : regex → string → Prop :=
| lang_eps : lang Eps ""
| lang_dot x : x ≠ newline → lang Dot (String x "")
| lang_chr c x : fold x = fold c → lang (Chr c) (String x "")
| lang_alt_l r1 r2 s : lang r1 s → lang (Alt r1 r2) s
| lang_alt_r r1 r2 s : lang r2 s → lang (Alt r1 r2) s
| lang_seq r1 r2 s1 s2 : lang r1 s1 → lang r2 s2 → lang (Seq r1 r2) (s1 +:+ s2)
| lang_star_nil r : lang (Star r) ""
| lang_star_cons r s1 s2 : lang r s1 → lang (Star r) s2 → lang (Star r) (s1 +:+ s2).

(** The pattern matches the empty string. *)
Fixpoint nullable (r : regex) : bool :=
  match r with
  | Void | Dot | Chr _ => false
  | Eps | Star _ => true
  | Alt r1 r2 => nullable r1 || nullable r2
  | Seq r1 r2 => nullable r1 && nullable r2
  end.

(** What is left of the pattern after the character [x]. *)
Fixpoint der (x : ascii) (r : regex) : regex :=
  match r with
  | Void | Eps => Void
  | Dot => if bool_decide (x ≠ newline) then Eps else Void
  | Chr c => if bool_decide (fold x = fold c) then Eps else Void
  | Alt r1 r2 => Alt (der x r1) (der x r2)
  | Seq r1 r2 =>
      if nullable r1 then Alt (Seq (der x r1) r2) (der x r2) else Seq (der x r1) r2
  | Star r => Seq (der x r) (Star r)
  end.

(** The pattern matches a prefix of the subject. *)
Fixpoint starts (r : regex) (s : string) : bool :=
  nullable r ||
  match s with
  | EmptyString => false
  | String x s' => starts (der x r) s'
  end.

(** The pattern matches somewhere in the subject. *)
Fixpoint find (r : regex) (s : string) : bool :=
  starts r s ||
  match s with
  | EmptyString => false
  | String _ s' => find r s'
  end.

End matcher.

(** ** Reading a pattern *)

Inductive parsed : Type :=
| Pattern (r : regex)
| Malformed                     (* the store refuses the pattern *)
| Beyond.                       (* a pattern outside the fragment *)

(** What a quantifier would repeat: nothing, the atom read last, or an atom
    that is repeated already. *)
Inductive tail : Type :=
| Nothing
| Atom (r : regex)
| Repeated (r : regex).

(** An alternation that is being read: the branches a [|] has closed, the
    branch being read up to its last atom, and that atom. *)
Record frame : Type := Frame {
  branches : option regex;
  before : regex;
  atom : tail;
}.

Definition start : frame := Frame None Eps Nothing.

Definition tail_regex (t : tail) : regex :=
  match t with
  | Nothing => Eps
  | Atom r | Repeated r => r
  end.

Definition branch (f : frame) : regex :=
  match atom f with
  | Nothing => before f
  | Atom r | Repeated r => Seq (before f) r
  end.

Definition close (f : frame) : regex :=
  match branches f with
  | Some a => Alt a (branch f)
  | None => branch f
  end.

(** A new atom, and a [|]. *)
Definition push (f : frame) (r : regex) : frame :=
  Frame (branches f) (branch f) (Atom r).

Definition bar (f : frame) : frame := Frame (Some (close f)) Eps Nothing.

(** The characters of a pattern by what they do. *)
Inductive token : Type :=
| TOpen
| TClose
| TBar
| TDot
| TEscape
| TRepeat (q : regex → regex)
| TBeyond
| TChar.

Definition classify (c : ascii) : token :=
  if decide (c = "("%char) then TOpen
  else if decide (c = ")"%char) then TClose
  else if decide (c = "|"%char) then TBar
  else if decide (c = "."%char) then TDot
  else if decide (c = "\"%char) then TEscape
  else if decide (c = "*"%char) then TRepeat Star
  else if decide (c = "+"%char) then TRepeat (λ r, Seq r (Star r))
  else if decide (c = "?"%char) then TRepeat (λ r, Alt Eps r)
  else if bool_decide (c ∈ metacharacters) then TBeyond
  else TChar.

(** One pass over the pattern, with the alternations of the groups that
    are open on a stack.  A quantifier directly after [(] starts a group
    of the store's own syntax, which is beyond the fragment. *)
Fixpoint parse_go (p : string) (f : frame) (stack : list frame) : parsed :=
  match p with
  | EmptyString => if stack is [] then Pattern (close f) else Malformed
  | String c p' =>
      match classify c with
      | TOpen => parse_go p' start (f :: stack)
      | TClose =>
          match stack with
          | [] => Malformed
          | g :: stack' => parse_go p' (push g (close f)) stack'
          end
      | TBar => parse_go p' (bar f) stack
      | TDot => parse_go p' (push f Dot) stack
      | TEscape =>
          match p' with
          | EmptyString => Malformed
          | String c' p'' =>
              if bool_decide (c' ∈ metacharacters)
              then parse_go p'' (push f (Chr c')) stack
              else Beyond
          end
      | TRepeat q =>
          match atom f with
          | Atom r => parse_go p' (Frame (branches f) (before f) (Repeated (q r))) stack
          | Repeated _ => Beyond
          | Nothing =>
              match stack, branches f with
              | _ :: _, None => Beyond
              | _, _ => Malformed
              end
          end
      | TBeyond => Beyond
      | TChar => parse_go p' (push f (Chr c)) stack
      end
  end.

Definition parse (p : string) : parsed := parse_go p start [].

(** The alternation after the characters of [t], each read as itself. *)
Fixpoint spell (f : frame) (t : string) : frame :=
  match t with
  | EmptyString => f
  | String c t' => spell (push f (Chr c)) t'
  end.

(** A term with its metacharacters escaped. *)
Fixpoint escape (s : string) : string :=
  match s with
  | EmptyString => EmptyString
  | String c s' =>
      if bool_decide (c ∈ metacharacters)
      then String "\"%char (String c (escape s'))
      else String c (escape s')
  end.

(** ** The engine *)

(** Characters are compared up to ASCII case under option [i]. *)
Definition fold_of (o : string) : ascii → ascii :=
  if contains "i" o then lower_ascii else id.

Definition pattern_valid (p : string) : bool :=
  match parse p with
  | Malformed => false
  | _ => true
  end.

(** On a pattern beyond the fragment the engine finds nothing; the
    theorems are about the patterns it reads. *)
Definition pattern_test (p o s : string) : bool :=
  match parse p with
  | Pattern r => find (fold_of o) r s
  | _ => false
  end.

Definition pattern_engine : RegexEngine := {|
  regex_valid p _ := pattern_valid p;
  regex_test := pattern_test;
|}.

(** ** The term occurs in a record

    What the specification promises of a search: the term appears in one
    of the searchable fields, case-insensitively. *)

Section occurs.
Context `{BookConstant}.

Definition occurs (term : string) (d : BookDocument) : Prop :=
  Exists (λ field,
    Exists (λ v, contains (lower term) (lower v) = true) (string_values field (doc d)))
    books_searchable_fields.

#[export] Instance occurs_dec term d : Decision (occurs term d).
Proof. unfold occurs. apply _. Defined.

(** A searchable field of the record holds a word of the pattern, up to
    ASCII case. *)
Definition holds_word (re : regex) (d : BookDocument) : Prop :=
  ∃ field v a w b, field ∈ books_searchable_fields ∧
    v ∈ string_values field (doc d) ∧ v = a +:+ w +:+ b ∧ lang lower_ascii re w.

End occurs.

(** * Lemmas *)

Section string_lemmas.
Implicit Types (s a b : string) (c : ascii).

Lemma append_assoc s1 s2 s3 : (s1 +:+ s2) +:+ s3 = s1 +:+ (s2 +:+ s3).
Proof. induction s1 as [|c s1 IH]; [done|]. by rewrite !append_cons, IH. Qed.

Lemma append_eq_nil s1 s2 : s1 +:+ s2 = "" → s1 = "" ∧ s2 = "".
Proof. by destruct s1. Qed.

(** A string that starts with [c], cut in two: the cut is before [c] or
    after it. *)
Lemma append_eq_cons s1 s2 c s :
  s1 +:+ s2 = String c s →
  (s1 = "" ∧ s2 = String c s) ∨ ∃ s1', s1 = String c s1' ∧ s = s1' +:+ s2.
Proof.
  destruct s1 as [|c' s1]; [by left|]. rewrite append_cons.
  intros [= -> <-]. right. eauto.
Qed.

End string_lemmas.

Section matcher_lemmas.
Variable fold : ascii → ascii.
Implicit Types (r : regex) (s w a b : string) (x c : ascii).
#[local] Abbreviation lang := (lang fold).
#[local] Abbreviation der := (der fold).
#[local] Abbreviation folded := (folded fold).

Lemma folded_app s1 s2 : folded (s1 +:+ s2) = folded s1 +:+ folded s2.
Proof. induction s1 as [|c s1 IH]; [done|]. rewrite append_cons. simpl. by rewrite IH. Qed.

(** A folded string cut in two is the folding of a cut. *)
Lemma folded_eq_app s a b :
  folded s = a +:+ b → ∃ s1 s2, s = s1 +:+ s2 ∧ folded s1 = a ∧ folded s2 = b.
Proof.
  revert s. induction a as [|c a IH]; intros s Hs.
  - exists "", s. by rewrite !append_nil in *.
  - destruct s as [|x s]; [done|]. rewrite append_cons in Hs. injection Hs as <- Hs.
    destruct (IH _ Hs) as (s1 & s2 & -> & <- & <-). by exists (String x s1), s2.
Qed.

(** The language, pattern by pattern. *)
Lemma lang_Void s : ¬ lang Void s.
Proof. inversion 1. Qed.

Lemma lang_Eps s : lang Eps s ↔ s = "".
Proof. split; [by inversion 1|intros ->; constructor]. Qed.

Lemma lang_Dot s : lang Dot s ↔ ∃ x, s = String x "" ∧ x ≠ newline.
Proof. split; [inversion 1; eauto|intros (x & -> & ?); by constructor]. Qed.

Lemma lang_Chr c s : lang (Chr c) s ↔ ∃ x, s = String x "" ∧ fold x = fold c.
Proof. split; [inversion 1; eauto|intros (x & -> & ?); by constructor]. Qed.

Lemma lang_Alt r1 r2 s : lang (Alt r1 r2) s ↔ lang r1 s ∨ lang r2 s.
Proof.
  split; [inversion 1; auto|intros [?|?]; [by apply lang_alt_l|by apply lang_alt_r]].
Qed.

Lemma lang_Seq r1 r2 s :
  lang (Seq r1 r2) s ↔ ∃ s1 s2, s = s1 +:+ s2 ∧ lang r1 s1 ∧ lang r2 s2.
Proof. split; [inversion 1; eauto|intros (s1 & s2 & -> & ? & ?); by constructor]. Qed.

(** A match of [r*] that starts with [x] starts with a match of [r] that
    starts with [x]. *)
Lemma lang_Star_cons r x s :
  lang (Star r) (String x s) ↔
  ∃ s1 s2, s = s1 +:+ s2 ∧ lang r (String x s1) ∧ lang (Star r) s2.
Proof.
  split.
  - remember (Star r) as r' eqn:Hr. remember (String x s) as w eqn:Hw.
    intros Hl. revert Hr Hw.
    induction Hl as [| | | | | | |r0 s1 s2 H1 _ H2 IH2]; try done.
    intros [= ->] [(-> & ->)|(s1' & -> & ->)]%append_eq_cons; [by apply IH2|eauto].
  - intros (s1 & s2 & -> & ? & ?). by apply (lang_star_cons _ _ (String x s1)).
Qed.

Lemma nullable_spec r : nullable r = true ↔ lang r "".
Proof.
  induction r as [| | |c|r1 IH1 r2 IH2|r1 IH1 r2 IH2|r IH]; simpl;
    rewrite ?orb_true_iff, ?andb_true_iff, ?IH1, ?IH2.
  - split; [done|by intros ?%lang_Void].
  - by rewrite lang_Eps.
  - rewrite lang_Dot. naive_solver.
  - rewrite lang_Chr. naive_solver.
  - by rewrite lang_Alt.
  - rewrite lang_Seq. split.
    + intros [??]. by exists "", "".
    + by intros (s1 & s2 & [-> ->]%eq_sym%append_eq_nil & ? & ?).
  - split; [constructor|done].
Qed.

Lemma der_spec x r s : lang (der x r) s ↔ lang r (String x s).
Proof.
  revert s. induction r as [| | |c|r1 IH1 r2 IH2|r1 IH1 r2 IH2|r IH]; intros s; simpl.
  - split; by intros ?%lang_Void.
  - rewrite lang_Eps. split; [by intros ?%lang_Void|done].
  - rewrite lang_Dot. case_bool_decide; [rewrite lang_Eps|]; [naive_solver|].
    split; [by intros ?%lang_Void|naive_solver].
  - rewrite lang_Chr. case_bool_decide; [rewrite lang_Eps|]; [naive_solver|].
    split; [by intros ?%lang_Void|naive_solver].
  - by rewrite !lang_Alt, IH1, IH2.
  - rewrite (lang_Seq r1 r2). destruct (nullable r1) eqn:Hn.
    + rewrite lang_Alt, lang_Seq, IH2. apply nullable_spec in Hn. split.
      * intros [(s1 & s2 & -> & ?%IH1 & ?)|?]; [by exists (String x s1), s2|].
        by exists "", (String x s).
      * intros (s1 & s2 & [[-> ->]|(s1' & -> & ->)]%eq_sym%append_eq_cons & H1 & H2);
          [by right|]. left. exists s1', s2. by rewrite IH1.
    + rewrite lang_Seq. split.
      * intros (s1 & s2 & -> & ?%IH1 & ?). by exists (String x s1), s2.
      * intros (s1 & s2 & [[-> ->]|(s1' & -> & ->)]%eq_sym%append_eq_cons & H1 & H2).
        { apply nullable_spec in H1. congruence. }
        exists s1', s2. by rewrite IH1.
  - rewrite lang_Seq, lang_Star_cons. by setoid_rewrite IH.
Qed.

(** [starts] decides a match at the start of the subject. *)
Lemma starts_spec r s : starts fold r s = true ↔ ∃ w b, s = w +:+ b ∧ lang r w.
Proof.
  revert r. induction s as [|x s IH]; intros r; simpl;
    rewrite orb_true_iff, nullable_spec.
  - split; [intros [?|?]; [by exists "", ""|done]|].
    intros (w & b & [-> _]%eq_sym%append_eq_nil & ?). by left.
  - rewrite IH. setoid_rewrite der_spec. split.
    + intros [?|(w & b & -> & ?)]; [by exists "", (String x s)|by exists (String x w), b].
    + intros (w & b & [[-> _]|(w' & -> & ->)]%eq_sym%append_eq_cons & ?); [by left|].
      right. eauto.
Qed.

(** [find] decides a match somewhere in the subject. *)
Lemma find_spec r s :
  find fold r s = true ↔ ∃ a w b, s = a +:+ w +:+ b ∧ lang r w.
Proof.
  induction s as [|x s IH]; cbn [find]; rewrite orb_true_iff, starts_spec.
  - split; [intros [(w & b & ? & ?)|?]; [by exists "", w, b|done]|].
    intros (a & w & b & [-> ?]%eq_sym%append_eq_nil & ?). left. eauto.
  - rewrite IH. split.
    + intros [(w & b & ? & ?)|(a & w & b & -> & ?)]; [by exists "", w, b|].
      by exists (String x a), w, b.
    + intros (a & w & b & [[-> ?]|(a' & -> & ->)]%eq_sym%append_eq_cons & ?);
        [left|right]; eauto.
Qed.

End matcher_lemmas.

Section parse_lemmas.
Variable fold : ascii → ascii.
Implicit Types (r : regex) (f : frame) (s t w p : string) (c : ascii).
#[local] Abbreviation lang := (lang fold).
#[local] Abbreviation folded := (folded fold).

Lemma classify_char c : c ∉ metacharacters → classify c = TChar.
Proof.
  intros Hc. unfold classify.
  repeat (case_decide; [subst; exfalso; apply Hc; by apply (bool_decide_unpack _)|]).
  by rewrite bool_decide_eq_false_2.
Qed.

(** An escaped term is read character by character. *)
Lemma parse_go_escape t p f stack :
  parse_go (escape t +:+ p) f stack = parse_go p (spell f t) stack.
Proof.
  revert f. induction t as [|c t IH]; intros f; [by rewrite append_nil|].
  simpl. case_bool_decide as Hc; rewrite !append_cons; cbn [parse_go].
  - change (classify "\"%char) with TEscape. cbv iota.
    rewrite bool_decide_eq_true_2 by done. apply IH.
  - rewrite classify_char by done. apply IH.
Qed.

Lemma parse_escape t : parse (escape t) = Pattern (close (spell start t)).
Proof. unfold parse. by rewrite <-(append_nil_r (escape t)), parse_go_escape. Qed.

Lemma escape_literal t : literal_pattern t = true → escape t = t.
Proof.
  unfold literal_pattern. induction t as [|c t IH]; [done|]. simpl.
  intros [Hc%bool_decide_eq_true ?]%andb_true_iff.
  rewrite bool_decide_eq_false_2, IH by done. done.
Qed.

Lemma branches_spell f t : branches (spell f t) = branches f.
Proof. revert f. induction t as [|c t IH]; intros f; [done|]. simpl. by rewrite IH. Qed.

Lemma lang_spell f t w :
  lang (branch (spell f t)) w ↔
  ∃ w1 w2, w = w1 +:+ w2 ∧ lang (branch f) w1 ∧ folded w2 = folded t.
Proof.
  revert f w. induction t as [|c t IH]; intros f w; simpl.
  - split; [intros ?; exists w, ""; by rewrite append_nil_r|].
    intros (w1 & w2 & -> & ? & Hw2). destruct w2; [|done]. by rewrite append_nil_r.
  - rewrite IH. unfold push, branch at 1. simpl. setoid_rewrite lang_Seq.
    setoid_rewrite lang_Chr. split.
    + intros (? & w2 & -> & (w1 & ? & -> & ? & x & -> & Hx) & Hw2).
      exists w1, (String x w2). rewrite append_assoc, append_cons, append_nil.
      simpl. by rewrite Hx, Hw2.
    + intros (w1 & w2 & -> & ? & Hw2). destruct w2 as [|x w2]; [done|].
      injection Hw2 as Hx Hw2. exists (w1 +:+ String x ""), w2.
      rewrite append_assoc, append_cons, append_nil. naive_solver.
Qed.

(** The pattern of an escaped term matches the term, up to folding. *)
Lemma lang_word t w : lang (close (spell start t)) w ↔ folded w = folded t.
Proof.
  unfold close. rewrite branches_spell. simpl. rewrite lang_spell.
  unfold branch. simpl. setoid_rewrite lang_Eps. split.
  - intros (? & w2 & -> & -> & ?). by rewrite append_nil.
  - intros ?. exists "", w. by rewrite append_nil.
Qed.

Lemma find_word t s :
  find fold (close (spell start t)) s = contains (folded t) (folded s).
Proof.
  apply eq_true_iff_eq. rewrite find_spec, contains_spec.
  setoid_rewrite lang_word. split.
  - intros (a & w & b & -> & Hw). exists (folded a), (folded b).
    by rewrite !folded_app, Hw.
  - intros (a & b & (s1 & s' & -> & <- & (s2 & s3 & -> & ? & <-)%folded_eq_app)%folded_eq_app).
    by exists s1, s2, s3.
Qed.

End parse_lemmas.

Section engine_lemmas.
Implicit Types (s t p o : string).

Lemma folded_lower s : folded lower_ascii s = lower s.
Proof. induction s as [|c s IH]; [done|]. simpl. by rewrite IH. Qed.

Lemma folded_id s : folded id s = s.
Proof. induction s as [|c s IH]; [done|]. simpl. by rewrite IH. Qed.

(** An escaped term is a pattern, and is searched for as the literal
    engine searches for the term. *)
Lemma pattern_valid_escape t : pattern_valid (escape t) = true.
Proof. unfold pattern_valid. by rewrite parse_escape. Qed.

Lemma pattern_test_escape t o s : pattern_test (escape t) o s = literal_test t o s.
Proof.
  unfold pattern_test, literal_test, fold_of. rewrite parse_escape, find_word.
  destruct (contains "i" o); by rewrite ?folded_lower, ?folded_id.
Qed.

(** On a term without metacharacters the two engines agree. *)
Lemma pattern_engine_literal p o s :
  literal_pattern p = true →
  pattern_valid p = true ∧ pattern_test p o s = literal_test p o s.
Proof.
  intros Hp%escape_literal. rewrite <-Hp at 1 2.
  by rewrite pattern_valid_escape, pattern_test_escape.
Qed.

End engine_lemmas.

Section literal_search.
Context `{BookConstant, PaginationHelper, FieldOrder, IdGenerator}.
#[local] Existing Instance pattern_engine.
Implicit Types (term : string) (d : BookDocument) (s : collection).

(** A term without metacharacters is found where it occurs. *)
Lemma found_in_literal term d :
  literal_pattern term = true → found_in term d ↔ occurs term d.
Proof.
  intros Hp. unfold found_in, occurs. rewrite Exists_exists.
  setoid_rewrite Exists_exists. simpl.
  setoid_rewrite (proj2 (pattern_engine_literal term "i" _ Hp)). naive_solver.
Qed.

(** The store takes a term without metacharacters for a pattern. *)
Lemma searchable_literal term :
  literal_pattern term = true → books_searchable_fields ≠ [] → searchable term.
Proof. intros Hp ?. split; [done|]. apply (pattern_engine_literal term "i" "" Hp). Qed.

(** A term the engine reads is found where a word of its pattern is. *)
Lemma found_in_pattern term re d :
  parse term = Pattern re → found_in term d ↔ holds_word re d.
Proof.
  intros Hp. unfold found_in, holds_word. simpl. unfold pattern_test. rewrite Hp.
  change (fold_of "i") with lower_ascii. setoid_rewrite find_spec. naive_solver.
Qed.

End literal_search.

(** * Properties *)

Section search_properties.
Context `{BookConstant, PaginationHelper, FieldOrder, IdGenerator}.
#[local] Existing Instance pattern_engine.

(** C20: a search for a term without pattern characters returns records
    in which the term appears. When the search term of a listing is not
    empty and holds no metacharacter of the pattern language, every record
    of the page has the term in one of the searchable fields, up to ASCII
    case. *)
Theorem literal_term_occurs filters o s r s' term d :
  searchTerm filters = Some term → term ≠ "" → literal_pattern term = true →
  getBooks filters o s = Ok (r, s') → d ∈ data r →
  occurs term d.
Proof.
  intros Ht Hne Hp Hr Hd.
  eapply getBooks_data_matching, elem_of_matching in Hd as [_ [Hf _]]; [|done].
  rewrite Ht in Hf. apply found_in_literal; [done|]. apply Hf.
  by apply bool_decide_eq_true.
Qed.

(** C21: the search term is a pattern. The term of a search reaches the
    store as it is: when the engine reads it as a pattern, every record of
    the page has, in one of the searchable fields, a word of the language of
    that pattern up to ASCII case, which for a term such as [emma|dune] is
    not the term; when the term is a malformed pattern, such as [(], and there
    is a field to search, the listing is rejected with the store's error
    for the term. *)
Theorem search_term_is_a_pattern filters o s term :
  searchTerm filters = Some term → term ≠ "" →
  match parse term with
  | Pattern re =>
      ∀ r s' d, getBooks filters o s = Ok (r, s') → d ∈ data r → holds_word re d
  | Malformed =>
      books_searchable_fields ≠ [] → getBooks filters o s = Err (InvalidRegex term)
  | Beyond => True
  end.
Proof.
  intros Ht Hne. destruct (parse term) as [re| |] eqn:Hp; [| |done].
  - intros r s' d Hr Hd.
    eapply getBooks_data_matching, elem_of_matching in Hd as [_ [Hf _]]; [|done].
    rewrite Ht in Hf. apply (found_in_pattern term); [done|].
    by apply Hf, bool_decide_eq_true.
  - intros Hf. apply getBooks_invalid_term; [done..|].
    simpl. unfold pattern_valid. by rewrite Hp.
Qed.

End search_properties.

(** * Searches at the sample collection *)

#[local] Existing Instances default_constant default_helper pattern_engine
  string_field_order long_id_generator.

(** A term that is an alternation, and a term that opens a group. *)
Definition emma_or_dune : IBookFilterableFields := [("searchTerm", "emma|dune")].

Definition open_group : IBookFilterableFields := [("searchTerm", "(")].

Definition emma_and_dune : IGenericResponse collection :=
  mkResponse (mkMeta 1 10 2)
    [mkDoc "b02" (sample_book "Dune" "Frank Herbert" "Science Fiction" "1965-08-01");
     mkDoc "b03" (sample_book "Emma" "Jane Austen" "Fiction" "1815-12-23")].

(** A search term with pattern characters is searched for as a
    pattern. At the sample collection a search for [emma|dune] returns two
    records although the term appears in no field of any record, and a
    search for [(] is rejected with the store's error for a malformed
    pattern. *)
Example pattern_term_is_a_pattern :
  getBooks emma_or_dune page_1_of_10 sample_store = Ok (emma_and_dune, sample_store) ∧
  Forall (λ d, ¬ occurs "emma|dune" d) sample_store ∧
  getBooks open_group page_1_of_10 sample_store = Err (InvalidRegex "(").
Proof.
  split_and!; [vm_compute; reflexivity| |vm_compute; reflexivity].
  apply (bool_decide_unpack _). vm_compute. exact I.
Qed.

Lemma search_term_is_a_pattern_witness :
  holds_word (Alt (close (spell start "emma")) (close (spell start "dune")))
    (mkDoc "b02" (sample_book "Dune" "Frank Herbert" "Science Fiction" "1965-08-01")).
Proof.
  apply (search_term_is_a_pattern emma_or_dune page_1_of_10 sample_store "emma|dune"
           eq_refl ltac:(done) emma_and_dune sample_store);
    [vm_compute; reflexivity|apply list_elem_of_here].
Defined.

Lemma literal_term_occurs_witness :
  getBooks tolkien page_1_of_10 sample_store = Ok (tolkien_listing, sample_store) ∧
  occurs "Tolkien" (mkDoc "b01" (sample_book "The Hobbit" "J.R.R. Tolkien" "Fantasy" "1937-09-21")).
Proof.
  split; [vm_compute; reflexivity|].
  refine (literal_term_occurs tolkien page_1_of_10 sample_store tolkien_listing
            sample_store "Tolkien" _ _ _ _ _ _);
    [reflexivity|done|reflexivity|vm_compute; reflexivity|apply list_elem_of_here].
Defined.
