(* ===== verification/Ties.v ===== *)
(** * Ties: records with equal sort keys

    [getBooks] sorts by one key, the one the request names
    ([sort_conditions]), and pages through the result with skip and
    limit.  A store orders the records by the key; the order of records
    whose keys are equal is its own business, and may differ from one
    call to the next.  The model of the store sorts by a merge, which is
    one of the orders a store may choose.

    This file states what a listing may answer on a store that orders
    ties as it likes ([may_list]), and shows that the answer of the model
    is one of these, that every such answer counts and returns records as
    the model does, that under a sort these answers do not depend on the
    order of insertion, that the answer is the only one when no two matching
    records have the same key (as under a sort by [_id]), and that with
    ties two pages of one listing may hold the same record. *)

From S2P Require Import Prelude Document Query Update Collection Pagination.
From S2P Require Import Samples Listing.

Section ties.
Context `{BookConstant, PaginationHelper, RegexEngine, FieldOrder, IdGenerator}.

(** An order the store may return the records in: by the key, ties in any
    order; the order of the collection when there is no sort. *)
Definition may_sort (o : option (string * SortOrder)) (l l' : collection) : Prop :=
  match o with
  | None => l' = l
  | Some sc => l' ≡ₚ l ∧ StronglySorted (sort_le sc) l'
  end.

(** An answer the listing may give: the window of such an order, with the
    number of the matching records. *)
Definition may_list (filters : IBookFilterableFields) (o : IPaginationOptions)
    (s : collection) (r : IGenericResponse collection) : Prop :=
  let p := calculate_pagination o in
  check (where_condition (and_conditions filters)) = Ok tt ∧
  (∃ l', may_sort (sort_conditions p) (matching filters s) l' ∧
         Book.paginate (skip p) (limit p) l' = Ok (data r)) ∧
  meta r = mkMeta (page p) (limit p) (length (matching filters s)).

(** No two records of the list have the same key. *)
Definition distinct_keys (o : option (string * SortOrder)) (l : collection) : Prop :=
  match o with
  | None => True
  | Some sc => ∀ d d', d ∈ l → d' ∈ l → sort_le sc d d' → sort_le sc d' d → d = d'
  end.

#[export] Instance may_sort_dec o l l' : Decision (may_sort o l l').
Proof. destruct o; simpl; apply _. Defined.

End ties.

(** * Lemmas *)

Section tie_lemmas.
Context `{BookConstant, PaginationHelper, RegexEngine, FieldOrder, IdGenerator}.
Implicit Types (l : collection) (s : collection) (o : option (string * SortOrder)).

Lemma may_sort_sorted o l : may_sort o l (Book.sorted o l).
Proof.
  destruct o as [sc|]; [|done].
  split; [apply sorted_Permutation|apply sorted_StronglySorted].
Qed.

Lemma may_sort_Permutation o l l' : may_sort o l l' → l' ≡ₚ l.
Proof. destruct o; [by intros [??]|by intros ->]. Qed.

(** Without ties the order is the one of the model. *)
Lemma may_sort_determined o l l' :
  distinct_keys o l → may_sort o l l' → l' = Book.sorted o l.
Proof.
  destruct o as [sc|]; [|done]. intros Hd [Hp Hs].
  apply (StronglySorted_unique_strong (sort_le sc));
    [|done|apply sorted_StronglySorted|by rewrite sorted_Permutation].
  intros d d' Hin Hin'. apply Hd; [by rewrite <-Hp|by apply elem_of_sorted in Hin'].
Qed.

(** The listing of the model is one the store may give. *)
Lemma getBooks_may_list filters op s r s' :
  getBooks filters op s = Ok (r, s') → may_list filters op s r.
Proof.
  intros (? & ? & ? & _)%getBooks_Ok. split_and!; [done| |done].
  exists (listed filters op s). split; [apply may_sort_sorted|done].
Qed.

(** Under a sort the answers a listing may give depend on the records of
    the collection, not on the order they were inserted in. *)
#[export] Instance matching_Permutation filters :
  Proper ((≡ₚ) ==> (≡ₚ)) (matching filters).
Proof. intros s s' Hs. unfold matching, Book.select. by rewrite Hs. Qed.

#[export] Instance may_sort_Permutation_Proper sc :
  Proper ((≡ₚ) ==> (=) ==> iff) (may_sort (Some sc)).
Proof. intros l1 l2 Hl l' ? <-. simpl. by rewrite Hl. Qed.

Lemma may_list_Permutation filters op s s' r :
  is_Some (sort_conditions (calculate_pagination op)) → s ≡ₚ s' →
  may_list filters op s r ↔ may_list filters op s' r.
Proof.
  intros [sc Hsc] Hs. unfold may_list. simpl. rewrite Hsc.
  by setoid_rewrite Hs.
Qed.

(** Without ties an answer the store may give is the answer of the model. *)
Lemma may_list_determined filters op s r :
  distinct_keys (sort_conditions (calculate_pagination op)) (matching filters s) →
  may_list filters op s r → getBooks filters op s = Ok (r, s).
Proof.
  intros Hd (Hc & (l' & Hl' & Hp) & Hm). apply getBooks_Ok. split_and!; [done| |done..].
  unfold listed. by rewrite <-(may_sort_determined _ _ _ Hd Hl').
Qed.

End tie_lemmas.

(** * Properties *)

Section tie_properties.
Context `{BookConstant, PaginationHelper, RegexEngine, FieldOrder, IdGenerator}.
Implicit Types (s : collection) (r : IGenericResponse collection).

(** C34: without ties the listing is determined. When no two records
    that pass the filter have the same sort key, or there is no sort, a
    store that orders records of equal keys as it likes has one answer to
    give, and it is the answer of [getBooks]. *)
Theorem distinct_keys_determine_the_listing filters op s r :
  distinct_keys (sort_conditions (calculate_pagination op)) (matching filters s) →
  may_list filters op s r ↔ getBooks filters op s = Ok (r, s).
Proof.
  intros Hd. split; [by apply may_list_determined|apply getBooks_may_list].
Qed.

(** Whatever the order of the ties, a listing returns records that pass
    the filter, in the order of the key, and counts the records that
    pass. *)
Theorem may_list_sound filters op s r :
  may_list filters op s r →
  Forall (λ d, d ∈ s ∧ passes filters d) (data r) ∧
  total (meta r) = length (filter (passes filters) s) ∧
  match sort_conditions (calculate_pagination op) with
  | Some sc => StronglySorted (sort_le sc) (data r)
  | None => data r `sublist_of` s
  end.
Proof.
  intros (_ & (l' & Hl' & [_ Hsub]%paginate_Ok) & ->). split_and!.
  - apply Forall_forall. intros d Hd. eapply elem_of_sublist in Hd; [|done].
    rewrite (may_sort_Permutation _ _ _ Hl') in Hd. by apply elem_of_matching in Hd.
  - simpl. by rewrite matching_passes.
  - destruct (sort_conditions _) as [sc|]; simpl in Hl'.
    + destruct Hl' as [_ Hs]. by eapply sublist_StronglySorted.
    + subst l'. etrans; [done|]. apply select_sublist.
Qed.

End tie_properties.

(** * Ties at the sample collection *)

Section string_order.
Context `{BookConstant, PaginationHelper, RegexEngine, IdGenerator}.
#[local] Existing Instance string_field_order.

(** Under the order of the strings, a sort by [_id] has no ties in a
    collection with unique keys. *)
Lemma distinct_keys_id dir l : wf l → distinct_keys (Some ("_id", dir)) l.
Proof.
  intros Hwf d d' Hd Hd' Hle Hge.
  assert (_id d = _id d') as Hid
    by (destruct dir; apply (anti_symm String.le); done).
  apply (lookup_id_elem_of _ _ Hwf) in Hd, Hd'. rewrite Hid in Hd. congruence.
Qed.

(** A listing sorted by [_id] is determined. *)
Lemma sort_by_id_is_determined filters op s r dir :
  wf s → sort_conditions (calculate_pagination op) = Some ("_id", dir) →
  may_list filters op s r → getBooks filters op s = Ok (r, s).
Proof.
  intros Hwf Hsc. apply may_list_determined. rewrite Hsc.
  by apply distinct_keys_id, select_wf.
Qed.

End string_order.

#[local] Existing Instances default_constant default_helper literal_engine
  string_field_order long_id_generator.

(** Pages of three records, sorted by genre: four books are Fiction. *)
Definition by_genre (page : Z) : IPaginationOptions :=
  mkOptions (Some page) (Some 3%Z) (Some "genre") (Some asc).

(** The first page as the model sorts, and the second page of a store
    that holds the books the other way round. *)
Definition first_by_genre : IGenericResponse collection :=
  mkResponse (mkMeta 1 3 10)
    [mkDoc "b01" (sample_book "The Hobbit" "J.R.R. Tolkien" "Fantasy" "1937-09-21");
     mkDoc "b10" (sample_book "Persuasion" "Jane Austen" "Fiction" "1817-12-20");
     mkDoc "b03" (sample_book "Emma" "Jane Austen" "Fiction" "1815-12-23")].

Definition second_by_genre : IGenericResponse collection :=
  mkResponse (mkMeta 2 3 10)
    [mkDoc "b04" (sample_book "Ulysses" "James Joyce" "Fiction" "1922-02-02");
     mkDoc "b03" (sample_book "Emma" "Jane Austen" "Fiction" "1815-12-23");
     mkDoc "b06" (sample_book "Dracula" "Bram Stoker" "Mystery" "1897-05-26")].

(** With ties two pages can hold the same record. At the sample
    collection, sorted by genre in pages of three, the store may answer
    the first page with Emma on it and the second page with Emma on it
    again, and Beloved on neither: the pages of a listing sorted by a key
    with ties need not partition the records. *)
Example tied_pages_overlap :
  getBooks [] (by_genre 1) sample_store = Ok (first_by_genre, sample_store) ∧
  may_list [] (by_genre 2) sample_store second_by_genre ∧
  ¬ data first_by_genre ## data second_by_genre ∧
  mkDoc "b08" (sample_book "Beloved" "Toni Morrison" "Fiction" "1987-09-02")
    ∉ data first_by_genre ++ data second_by_genre.
Proof.
  split_and!; [vm_compute; reflexivity| | |by apply (bool_decide_unpack _)];
    last first.
  { intros Hd.
    apply (Hd (mkDoc "b03" (sample_book "Emma" "Jane Austen" "Fiction" "1815-12-23")));
      by apply (bool_decide_unpack _). }
  split_and!; [done| |done].
  exists (Book.sorted (Some ("genre", asc)) (reverse sample_store)).
  split; [|vm_compute; reflexivity].
  split; [|apply sorted_StronglySorted].
  rewrite sorted_Permutation. apply reverse_Permutation.
Qed.

(** The second page of three, latest [_id] first. *)
Definition by_id : IPaginationOptions :=
  mkOptions (Some 2%Z) (Some 3%Z) (Some "_id") (Some desc).

Definition second_by_id : IGenericResponse collection :=
  mkResponse (mkMeta 2 3 10)
    [mkDoc "b07" (sample_book "Walden" "Henry David Thoreau" "Non-Fiction" "1854-08-09");
     mkDoc "b06" (sample_book "Dracula" "Bram Stoker" "Mystery" "1897-05-26");
     mkDoc "b05" (sample_book "Neuromancer" "William Gibson" "Science Fiction" "1984-07-01")].

Example second_by_id_listed :
  getBooks [] by_id sample_store = Ok (second_by_id, sample_store).
Proof. vm_compute. reflexivity. Qed.

Lemma distinct_keys_determine_the_listing_witness :
  may_list [] by_id sample_store second_by_id ↔
  getBooks [] by_id sample_store = Ok (second_by_id, sample_store).
Proof.
  apply distinct_keys_determine_the_listing.
  apply distinct_keys_id, select_wf, (bool_decide_unpack _). vm_compute. exact I.
Defined.
