(* ===== verification/Mutators.v ===== *)
(** * Mutators: the operations of book.service.ts on a single record

    [getBook], [createBook], [updateBook], [deleteBook], [addReview],
    [addToWishlist], [removeFromWishlist] and the three reading-status
    transitions [addToReadSoon], [addToCurrentlyReading], [addToFinished],
    each as the one store call the source makes, with the update document
    it passes as a definition of its own and the acting user of a
    transition as [acting_email], the last element of the payload.

    The lemmas give each operation as a step on the collection ([..._run])
    and each update document as a function on a book ([..._effect]); the
    properties state what each operation returns and leaves behind. *)

From S2P Require Import Prelude Document Query Update Collection Pagination.
From S2P Require Import Samples.

Section record_mutator.
Context `{BookConstant, PaginationHelper, RegexEngine, FieldOrder, IdGenerator}.

Definition getBook (id : ObjectId) : Store (option BookDocument) :=
  Book.findById id.

Definition createBook (payload : IBook) : Store BookDocument :=
  Book.create payload.

Definition updateBook (id : ObjectId) (payload : PartialBook)
    : Store (option BookDocument) :=
  Book.findOneAndUpdate (CEq "_id" id) [USet payload] true.

(** The second parameter is not used. *)
Definition deleteBook (id : ObjectId) (book : IBook) : Store (option BookDocument) :=
  Book.findByIdAndDelete id.

(** [{ $push: { reviews: payload } }] *)
Definition addReview_update (payload : IBookReview) : update_document :=
  [UPush payload].

Definition addReview (id : ObjectId) (payload : IBookReview)
    : Store (option BookDocument) :=
  Book.findOneAndUpdate (CEq "_id" id) (addReview_update payload) true.

(** [{ wishlist: payload }] *)
Definition addToWishlist_update (payload : list string) : update_document :=
  [USet (mkPartial None None None None None (Some payload) None None None)].

Definition addToWishlist (id : ObjectId) (payload : list string)
    : Store (option BookDocument) :=
  Book.findOneAndUpdate (CEq "_id" id) (addToWishlist_update payload) true.

(** [{ $pull: { wishlist: email, read_soon: email, currently_reading: email,
    finished: email } }] *)
Definition removeFromWishlist_update (email : string) : update_document :=
  [UPull Wishlist (Some email); UPull ReadSoon (Some email);
   UPull CurrentlyReading (Some email); UPull Finished (Some email)].

Definition removeFromWishlist (id : ObjectId) (email : string)
    : Store (option BookDocument) :=
  Book.findOneAndUpdate (CEq "_id" id) (removeFromWishlist_update email) true.

(** [payload[payload.length - 1]]: the acting user, [undefined] for an empty
    payload. *)
Definition acting_email (payload : list string) : option string :=
  last payload.

(** [{ $pull: { currently_reading: email, finished: email }, $addToSet: {
    read_soon: payload } }] *)
Definition addToReadSoon_update (payload : list string) : update_document :=
  let email := acting_email payload in
  [UPull CurrentlyReading email; UPull Finished email;
   UAddToSet ReadSoon payload].

Definition addToReadSoon (id : ObjectId) (payload : list string)
    : Store (option BookDocument) :=
  Book.findOneAndUpdate (CEq "_id" id) (addToReadSoon_update payload) true.

(** [{ $pull: { read_soon: email, finished: email }, $addToSet: {
    currently_reading: payload } }] *)
Definition addToCurrentlyReading_update (payload : list string) : update_document :=
  let email := acting_email payload in
  [UPull ReadSoon email; UPull Finished email;
   UAddToSet CurrentlyReading payload].

Definition addToCurrentlyReading (id : ObjectId) (payload : list string)
    : Store (option BookDocument) :=
  Book.findOneAndUpdate (CEq "_id" id) (addToCurrentlyReading_update payload) true.

(** [{ $pull: { read_soon: email, currently_reading: email }, $addToSet: {
    finished: payload } }] *)
Definition addToFinished_update (payload : list string) : update_document :=
  let email := acting_email payload in
  [UPull ReadSoon email; UPull CurrentlyReading email;
   UAddToSet Finished payload].

Definition addToFinished (id : ObjectId) (payload : list string)
    : Store (option BookDocument) :=
  Book.findOneAndUpdate (CEq "_id" id) (addToFinished_update payload) true.

End record_mutator.

(** The record an update by key returns: the one under the key, after the
    update. *)
Definition updated (i : ObjectId) (u : update_document) (s : collection)
    : option BookDocument :=
  (λ d, mkDoc (_id d) (apply_update u (doc d))) <$> lookup_id i s.

(** * Lemmas *)

(** ** The mutators: what they return and leave behind *)

Section mutators.
Context `{BookConstant, PaginationHelper, RegexEngine, FieldOrder, IdGenerator}.
Implicit Types (i : ObjectId) (u : update_document) (s : collection)
  (b : IBook) (d : BookDocument) (payload : list string) (e : string).

Lemma update_by_id i u s :
  check_update u = Ok tt →
  Book.findOneAndUpdate (CEq "_id" i) u true s =
  Ok (updated i u s, update_id i (apply_update u) s).
Proof. intros Hu. by rewrite findOneAndUpdate_run, Hu. Qed.

(** The record returned is the record stored. *)
Lemma updated_lookup i u s :
  updated i u s = lookup_id i (update_id i (apply_update u) s).
Proof. unfold updated. by rewrite lookup_update_id. Qed.

Lemma updated_None i u s : updated i u s = None ↔ i ∉ ids s.
Proof. unfold updated. by rewrite fmap_None, lookup_id_None. Qed.

Lemma updated_Some i u s d' :
  updated i u s = Some d' ↔
  ∃ d, lookup_id i s = Some d ∧ _id d' = i ∧ doc d' = apply_update u (doc d).
Proof.
  unfold updated. rewrite fmap_Some. split.
  - intros (d & Hd & ->). exists d. by apply lookup_id_Some in Hd as Hd'; destruct Hd'.
  - intros (d & Hd & <- & Hdoc). exists d. split; [done|].
    apply lookup_id_Some in Hd as [_ Hid]. destruct d'; simpl in *. congruence.
Qed.

(** *** The update documents are accepted by the store *)

Lemma check_addReview r : check_update (addReview_update r) = Ok tt.
Proof. done. Qed.

Lemma check_addToWishlist payload :
  check_update (addToWishlist_update payload) = Ok tt.
Proof. done. Qed.

Lemma check_removeFromWishlist e :
  check_update (removeFromWishlist_update e) = Ok tt.
Proof. done. Qed.

Lemma check_addToReadSoon payload :
  check_update (addToReadSoon_update payload) = Ok tt.
Proof. done. Qed.

Lemma check_addToCurrentlyReading payload :
  check_update (addToCurrentlyReading_update payload) = Ok tt.
Proof. done. Qed.

Lemma check_addToFinished payload :
  check_update (addToFinished_update payload) = Ok tt.
Proof. done. Qed.

(** *** What each update does to a book *)

Lemma updateBook_effect p b : apply_update [USet p] b = apply_partial p b.
Proof. done. Qed.

Lemma addReview_effect r b :
  apply_update (addReview_update r) b = set_reviews (reviews b ++ [r]) b.
Proof. done. Qed.

Lemma addToWishlist_effect payload b :
  apply_update (addToWishlist_update payload) b = set_list Wishlist payload b.
Proof. by destruct b. Qed.

Lemma removeFromWishlist_effect e b :
  apply_update (removeFromWishlist_update e) b =
  mkBook (title b) (author b) (genre b) (publication_date b) (reviews b)
    (pull e (wishlist b)) (pull e (read_soon b))
    (pull e (currently_reading b)) (pull e (finished b)).
Proof. by destruct b. Qed.

Lemma addToReadSoon_effect payload b :
  apply_update (addToReadSoon_update payload) b =
  mkBook (title b) (author b) (genre b) (publication_date b) (reviews b)
    (wishlist b) (add_to_set payload (read_soon b))
    (pull_opt (acting_email payload) (currently_reading b))
    (pull_opt (acting_email payload) (finished b)).
Proof. by destruct b. Qed.

Lemma addToCurrentlyReading_effect payload b :
  apply_update (addToCurrentlyReading_update payload) b =
  mkBook (title b) (author b) (genre b) (publication_date b) (reviews b)
    (wishlist b) (pull_opt (acting_email payload) (read_soon b))
    (add_to_set payload (currently_reading b))
    (pull_opt (acting_email payload) (finished b)).
Proof. by destruct b. Qed.

Lemma addToFinished_effect payload b :
  apply_update (addToFinished_update payload) b =
  mkBook (title b) (author b) (genre b) (publication_date b) (reviews b)
    (wishlist b) (pull_opt (acting_email payload) (read_soon b))
    (pull_opt (acting_email payload) (currently_reading b))
    (add_to_set payload (finished b)).
Proof. by destruct b. Qed.

(** *** The operations, as one step on the collection *)

Lemma getBook_run i s : getBook i s = Ok (lookup_id i s, s).
Proof. apply findById_run. Qed.

Lemma createBook_run b s :
  createBook b s =
  Ok (mkDoc (fresh_id (ids s)) b, s ++ [mkDoc (fresh_id (ids s)) b]).
Proof. done. Qed.

Lemma deleteBook_run i b s : deleteBook i b s = Ok (lookup_id i s, delete_id i s).
Proof. apply findByIdAndDelete_run. Qed.

Lemma updateBook_run i p s :
  updateBook i p s = Ok (updated i [USet p] s, update_id i (apply_partial p) s).
Proof. unfold updateBook. by rewrite update_by_id by apply check_update_USet. Qed.

Lemma addReview_run i r s :
  addReview i r s =
  Ok (updated i (addReview_update r) s,
      update_id i (apply_update (addReview_update r)) s).
Proof. by apply update_by_id. Qed.

Lemma addToWishlist_run i payload s :
  addToWishlist i payload s =
  Ok (updated i (addToWishlist_update payload) s,
      update_id i (apply_update (addToWishlist_update payload)) s).
Proof. by apply update_by_id. Qed.

Lemma removeFromWishlist_run i e s :
  removeFromWishlist i e s =
  Ok (updated i (removeFromWishlist_update e) s,
      update_id i (apply_update (removeFromWishlist_update e)) s).
Proof. by apply update_by_id. Qed.

Lemma addToReadSoon_run i payload s :
  addToReadSoon i payload s =
  Ok (updated i (addToReadSoon_update payload) s,
      update_id i (apply_update (addToReadSoon_update payload)) s).
Proof. by apply update_by_id. Qed.

Lemma addToCurrentlyReading_run i payload s :
  addToCurrentlyReading i payload s =
  Ok (updated i (addToCurrentlyReading_update payload) s,
      update_id i (apply_update (addToCurrentlyReading_update payload)) s).
Proof. by apply update_by_id. Qed.

Lemma addToFinished_run i payload s :
  addToFinished i payload s =
  Ok (updated i (addToFinished_update payload) s,
      update_id i (apply_update (addToFinished_update payload)) s).
Proof. by apply update_by_id. Qed.

Lemma acting_email_snoc payload e : acting_email (payload ++ [e]) = Some e.
Proof. apply last_snoc. Qed.

Lemma acting_email_nil : acting_email [] = None.
Proof. done. Qed.

Lemma acting_email_elem_of payload e : acting_email payload = Some e → e ∈ payload.
Proof.
  unfold acting_email. intros Hl. destruct payload as [|x l _] using rev_ind; [done|].
  rewrite last_snoc in Hl. simplify_eq. set_solver.
Qed.

End mutators.

#[export] Hint Rewrite @getBook_run @createBook_run @deleteBook_run @updateBook_run
  @addReview_run @addToWishlist_run @removeFromWishlist_run @addToReadSoon_run
  @addToCurrentlyReading_run @addToFinished_run : book_rw.
#[export] Hint Rewrite @acting_email_snoc : book_rw.

(** ** Properties of the mutators *)

Section mutator_properties.
Context `{BookConstant, PaginationHelper, RegexEngine, FieldOrder, IdGenerator}.
Implicit Types (i : ObjectId) (u : update_document) (s : collection)
  (b : IBook) (d : BookDocument) (payload : list string) (e : string).

(** C3: after [addToReadSoon] with the acting user's email last in the
    payload, that email is in [read_soon] of the returned record and in
    neither [currently_reading] nor [finished]; the record returned is the
    record now stored under the key. *)
Theorem addToReadSoon_moves_user i payload e s d' s' :
  addToReadSoon i (payload ++ [e]) s = Ok (Some d', s') →
  e ∈ read_soon (doc d') ∧ (e ∉ currently_reading (doc d')) ∧
  (e ∉ finished (doc d')) ∧ lookup_id i s' = Some d'.
Proof.
  rewrite addToReadSoon_run. intros [= Hd <-]. rewrite <-updated_lookup.
  split_and!; [..|done]; apply updated_Some in Hd as (d & _ & _ & ->);
    rewrite addToReadSoon_effect, acting_email_snoc; simpl;
    [apply elem_of_add_to_set; set_solver|auto with book..].
Qed.

(** C4: after [addToCurrentlyReading] with the acting user's email last
    in the payload, that email is in [currently_reading] of the returned
    record and in neither [read_soon] nor [finished]; the record returned is
    the record now stored under the key. *)
Theorem addToCurrentlyReading_moves_user i payload e s d' s' :
  addToCurrentlyReading i (payload ++ [e]) s = Ok (Some d', s') →
  e ∈ currently_reading (doc d') ∧ (e ∉ read_soon (doc d')) ∧
  (e ∉ finished (doc d')) ∧ lookup_id i s' = Some d'.
Proof.
  rewrite addToCurrentlyReading_run. intros [= Hd <-]. rewrite <-updated_lookup.
  split_and!; [..|done]; apply updated_Some in Hd as (d & _ & _ & ->);
    rewrite addToCurrentlyReading_effect, acting_email_snoc; simpl;
    [apply elem_of_add_to_set; set_solver|auto with book..].
Qed.

(** C5: after [addToFinished] with the acting user's email last in the
    payload, that email is in [finished] of the returned record and in
    neither [read_soon] nor [currently_reading]; the record returned is the
    record now stored under the key. *)
Theorem addToFinished_moves_user i payload e s d' s' :
  addToFinished i (payload ++ [e]) s = Ok (Some d', s') →
  e ∈ finished (doc d') ∧ (e ∉ read_soon (doc d')) ∧
  (e ∉ currently_reading (doc d')) ∧ lookup_id i s' = Some d'.
Proof.
  rewrite addToFinished_run. intros [= Hd <-]. rewrite <-updated_lookup.
  split_and!; [..|done]; apply updated_Some in Hd as (d & _ & _ & ->);
    rewrite addToFinished_effect, acting_email_snoc; simpl;
    [apply elem_of_add_to_set; set_solver|auto with book..].
Qed.

(** C25: [removeFromWishlist] is idempotent: a second call with the same
    key and email returns the same record and leaves the collection as the
    first call left it. *)
Theorem removeFromWishlist_idempotent i e s r s' :
  removeFromWishlist i e s = Ok (r, s') →
  removeFromWishlist i e s' = Ok (r, s').
Proof.
  rewrite !removeFromWishlist_run. intros [= <- <-].
  rewrite !updated_lookup, update_id_idemp; [done|].
  intros b. rewrite !removeFromWishlist_effect. simpl. by rewrite !pull_idemp.
Qed.

(** C6: [removeFromWishlist] detaches the user from the book: the email
    is in none of the four lists of the returned record, every other member
    of every list stays, and reviews and scalar fields are untouched. *)
Theorem removeFromWishlist_detaches i e s d d' s' :
  lookup_id i s = Some d →
  removeFromWishlist i e s = Ok (Some d', s') →
  (∀ m x, x ∈ get_list m (doc d') ↔ x ∈ get_list m (doc d) ∧ x ≠ e) ∧
  reviews (doc d') = reviews (doc d) ∧ scalars (doc d') = scalars (doc d).
Proof.
  rewrite removeFromWishlist_run. intros Hd [= Hd' _].
  apply updated_Some in Hd' as (d0 & Hd0 & _ & ->). simplify_eq.
  rewrite removeFromWishlist_effect. split_and!; [|done..].
  intros [] x; simpl; apply elem_of_pull.
Qed.

(** C7: [updateBook] replaces exactly the fields present in the partial
    payload: a field whose key is absent keeps its value, a field whose key
    is present takes the payload's; with only [title] present every other
    field is as before. *)
Theorem updateBook_replaces_present_fields i p s d d' s' :
  lookup_id i s = Some d →
  updateBook i p s = Ok (Some d', s') →
  _id d' = _id d ∧
  title (doc d') = default (title (doc d)) (p_title p) ∧
  author (doc d') = default (author (doc d)) (p_author p) ∧
  genre (doc d') = default (genre (doc d)) (p_genre p) ∧
  publication_date (doc d') = default (publication_date (doc d)) (p_publication_date p) ∧
  reviews (doc d') = default (reviews (doc d)) (p_reviews p) ∧
  wishlist (doc d') = default (wishlist (doc d)) (p_wishlist p) ∧
  read_soon (doc d') = default (read_soon (doc d)) (p_read_soon p) ∧
  currently_reading (doc d') = default (currently_reading (doc d)) (p_currently_reading p) ∧
  finished (doc d') = default (finished (doc d)) (p_finished p).
Proof.
  rewrite updateBook_run. intros Hd [= Hd' _].
  apply updated_Some in Hd' as (d0 & Hd0 & Hid & ->). simplify_eq.
  apply lookup_id_Some in Hd as [_ ?]. by split_and!.
Qed.

(** C11: [addReview] appends the review at the end of the record's
    reviews and changes nothing else of the record. *)
Theorem addReview_appends i r s d d' s' :
  lookup_id i s = Some d →
  addReview i r s = Ok (Some d', s') →
  reviews (doc d') = reviews (doc d) ++ [r] ∧
  scalars (doc d') = scalars (doc d) ∧
  (∀ m, get_list m (doc d') = get_list m (doc d)) ∧
  lookup_id i s' = Some d'.
Proof.
  rewrite addReview_run. intros Hd [= Hd' <-]. rewrite <-updated_lookup.
  split_and!; [..|done]; apply updated_Some in Hd' as (d0 & Hd0 & _ & ->);
    simplify_eq; rewrite addReview_effect; [done..|by intros []].
Qed.

(** C12: [addToWishlist] replaces the wishlist by the payload as a whole:
    earlier members not in the payload are gone; the other three lists,
    the reviews and the scalar fields stay. *)
Theorem addToWishlist_replaces i payload s d d' s' :
  lookup_id i s = Some d →
  addToWishlist i payload s = Ok (Some d', s') →
  wishlist (doc d') = payload ∧
  (∀ m, m ≠ Wishlist → get_list m (doc d') = get_list m (doc d)) ∧
  reviews (doc d') = reviews (doc d) ∧ scalars (doc d') = scalars (doc d).
Proof.
  rewrite addToWishlist_run. intros Hd [= Hd' _].
  apply updated_Some in Hd' as (d0 & Hd0 & _ & ->). simplify_eq.
  rewrite addToWishlist_effect. split_and!; [done| |done..].
  by intros [] ?.
Qed.

(** C10: a record created is stored under a key no record had, at the end
    of the collection, every earlier record kept; it is returned with that
    key and [getBook] on the key finds it. *)
Theorem createBook_then_getBook b s d s' :
  wf s →
  createBook b s = Ok (d, s') →
  doc d = b ∧ (_id d ∉ ids s) ∧ s' = s ++ [d] ∧ wf s' ∧
  getBook (_id d) s' = Ok (Some d, s').
Proof.
  rewrite createBook_run. intros Hs [= <- <-]. simpl.
  pose proof (fresh_id_fresh (ids s)) as Hfresh.
  assert (wf (s ++ [mkDoc (fresh_id (ids s)) b])) as Hwf by by apply wf_snoc.
  split_and!; [done..|]. rewrite getBook_run. f_equal. f_equal.
  apply (lookup_id_elem_of _ (mkDoc _ _)); [done|set_solver].
Qed.

(** C13: [deleteBook] returns the record as it was stored and removes it:
    afterwards [getBook] on the key finds nothing, and every record under
    another key is still there. *)
Theorem deleteBook_then_getBook i b s d s' :
  wf s →
  deleteBook i b s = Ok (Some d, s') →
  lookup_id i s = Some d ∧
  getBook i s' = Ok (None, s') ∧
  (∀ j, j ≠ i → lookup_id j s' = lookup_id j s) ∧
  length s' = pred (length s).
Proof.
  rewrite deleteBook_run. intros Hs [= Hd <-]. rewrite getBook_run.
  split_and!; [done| |by intros; apply lookup_delete_id_ne|].
  - by rewrite lookup_delete_id.
  - rewrite length_delete_id, decide_True; [done|].
    apply elem_of_ids. apply lookup_id_Some in Hd. naive_solver.
Qed.

(** A create is undone by the delete of the key it returned: the
    delete returns the record as it was created and leaves the collection
    as it was before the create, every record at its place. *)
Theorem createBook_then_deleteBook b b' s d s' :
  createBook b s = Ok (d, s') → deleteBook (_id d) b' s' = Ok (Some d, s).
Proof.
  rewrite createBook_run. intros [= <- <-]. simpl.
  pose proof (fresh_id_fresh (ids s)).
  by rewrite deleteBook_run, lookup_id_snoc, delete_id_snoc.
Qed.

(** The second argument of [deleteBook] is not used: two calls that
    differ in it only have the same outcome. *)
Theorem deleteBook_ignores_book i b b' s :
  deleteBook i b s = deleteBook i b' s.
Proof. done. Qed.

(** C26: a key that names no record is a soft failure in every operation
    on a single record: the operation returns [null] without an error and
    the collection is unchanged. *)
Theorem absent_key_returns_null i s :
  i ∉ ids s →
  getBook i s = Ok (None, s) ∧
  (∀ p, updateBook i p s = Ok (None, s)) ∧
  (∀ b, deleteBook i b s = Ok (None, s)) ∧
  (∀ r, addReview i r s = Ok (None, s)) ∧
  (∀ payload, addToWishlist i payload s = Ok (None, s)) ∧
  (∀ e, removeFromWishlist i e s = Ok (None, s)) ∧
  (∀ payload, addToReadSoon i payload s = Ok (None, s)) ∧
  (∀ payload, addToCurrentlyReading i payload s = Ok (None, s)) ∧
  (∀ payload, addToFinished i payload s = Ok (None, s)).
Proof.
  intros Hi. pose proof (proj2 (lookup_id_None i s) Hi) as Hl.
  split_and!; intros; autorewrite with book_rw;
    rewrite ?(proj2 (updated_None _ _ _) Hi), ?update_id_absent,
      ?delete_id_absent, ?Hl by done; done.
Qed.

(** No single-record operation is ever rejected by the store: the
    update documents the service builds write every path once. *)
Theorem mutators_never_throw i s :
  (∀ p, is_ok (updateBook i p s) = true) ∧
  (∀ r, is_ok (addReview i r s) = true) ∧
  (∀ payload, is_ok (addToWishlist i payload s) = true) ∧
  (∀ e, is_ok (removeFromWishlist i e s) = true) ∧
  (∀ payload, is_ok (addToReadSoon i payload s) = true) ∧
  (∀ payload, is_ok (addToCurrentlyReading i payload s) = true) ∧
  (∀ payload, is_ok (addToFinished i payload s) = true).
Proof.
  split_and!; intros; by autorewrite with book_rw.
Qed.

End mutator_properties.

(** * The mutators at the sample collections *)

#[local] Existing Instances default_constant default_helper literal_engine
  string_field_order long_id_generator.

Lemma addToReadSoon_moves_user_witness :
  ∃ d' s',
    addToReadSoon "b03" (["a@x.com"] ++ ["b@x.com"]) club_store = Ok (Some d', s') ∧
    read_soon (doc d') = ["a@x.com"; "b@x.com"] ∧
    "b@x.com" ∈ read_soon (doc d') ∧ ("b@x.com" ∉ currently_reading (doc d')) ∧
    ("b@x.com" ∉ finished (doc d')) ∧ lookup_id "b03" s' = Some d'.
Proof.
  eexists _, _. split; [vm_compute; reflexivity|]. split; [reflexivity|].
  refine (addToReadSoon_moves_user "b03" ["a@x.com"] "b@x.com" club_store _ _ _).
  vm_compute. reflexivity.
Defined.

(** The scenario of the specification: "a@x.com" plans to read the book and
    starts it; afterwards the email is in [currently_reading] only. *)
Lemma addToCurrentlyReading_moves_user_witness :
  ∃ d' s',
    addToCurrentlyReading "b03" (["b@x.com"] ++ ["a@x.com"]) club_store
      = Ok (Some d', s') ∧
    read_soon (doc d') = [] ∧
    currently_reading (doc d') = ["b@x.com"; "a@x.com"] ∧
    "a@x.com" ∈ currently_reading (doc d') ∧ ("a@x.com" ∉ read_soon (doc d')) ∧
    ("a@x.com" ∉ finished (doc d')) ∧ lookup_id "b03" s' = Some d'.
Proof.
  eexists _, _. split; [vm_compute; reflexivity|]. do 2 (split; [reflexivity|]).
  refine (addToCurrentlyReading_moves_user "b03" ["b@x.com"] "a@x.com"
            club_store _ _ _).
  vm_compute. reflexivity.
Defined.

Lemma addToFinished_moves_user_witness :
  ∃ d' s',
    addToFinished "b03" (["c@x.com"] ++ ["b@x.com"]) club_store = Ok (Some d', s') ∧
    currently_reading (doc d') = [] ∧
    finished (doc d') = ["c@x.com"; "b@x.com"] ∧
    "b@x.com" ∈ finished (doc d') ∧ ("b@x.com" ∉ read_soon (doc d')) ∧
    ("b@x.com" ∉ currently_reading (doc d')) ∧ lookup_id "b03" s' = Some d'.
Proof.
  eexists _, _. split; [vm_compute; reflexivity|]. do 2 (split; [reflexivity|]).
  refine (addToFinished_moves_user "b03" ["c@x.com"] "b@x.com" club_store _ _ _).
  vm_compute. reflexivity.
Defined.

Lemma removeFromWishlist_idempotent_witness :
  ∃ d' s',
    removeFromWishlist "b03" "a@x.com" club_store = Ok (Some d', s') ∧
    wishlist (doc d') = ["b@x.com"] ∧
    removeFromWishlist "b03" "a@x.com" s' = Ok (Some d', s').
Proof.
  eexists _, _. split; [vm_compute; reflexivity|]. split; [reflexivity|].
  refine (removeFromWishlist_idempotent "b03" "a@x.com" club_store _ _ _).
  vm_compute. reflexivity.
Defined.

Lemma removeFromWishlist_detaches_witness :
  ∃ d' s',
    removeFromWishlist "b03" "b@x.com" club_store = Ok (Some d', s') ∧
    ((∀ m x, x ∈ get_list m (doc d') ↔ x ∈ get_list m club_book ∧ x ≠ "b@x.com") ∧
     reviews (doc d') = reviews club_book ∧ scalars (doc d') = scalars club_book).
Proof.
  eexists _, _. split; [vm_compute; reflexivity|].
  refine (removeFromWishlist_detaches "b03" "b@x.com" club_store
            (mkDoc "b03" club_book) _ _ _ _); vm_compute; reflexivity.
Defined.

Lemma updateBook_replaces_present_fields_witness :
  ∃ d' s',
    updateBook "b03" new_title club_store = Ok (Some d', s') ∧
    _id d' = "b03" ∧
    title (doc d') = "Emma, a novel" ∧
    author (doc d') = author club_book ∧
    genre (doc d') = genre club_book ∧
    publication_date (doc d') = publication_date club_book ∧
    reviews (doc d') = reviews club_book ∧
    wishlist (doc d') = wishlist club_book ∧
    read_soon (doc d') = read_soon club_book ∧
    currently_reading (doc d') = currently_reading club_book ∧
    finished (doc d') = finished club_book.
Proof.
  eexists _, _. split; [vm_compute; reflexivity|].
  refine (updateBook_replaces_present_fields "b03" new_title club_store
            (mkDoc "b03" club_book) _ _ _ _); vm_compute; reflexivity.
Defined.

Lemma addReview_appends_witness :
  ∃ d' s',
    addReview "b03" (mkReview "b@x.com" "Sharp") club_store = Ok (Some d', s') ∧
    reviews (doc d') = reviews club_book ++ [mkReview "b@x.com" "Sharp"] ∧
    scalars (doc d') = scalars club_book ∧
    (∀ m, get_list m (doc d') = get_list m club_book) ∧
    lookup_id "b03" s' = Some d'.
Proof.
  eexists _, _. split; [vm_compute; reflexivity|].
  refine (addReview_appends "b03" (mkReview "b@x.com" "Sharp") club_store
            (mkDoc "b03" club_book) _ _ _ _); vm_compute; reflexivity.
Defined.

Lemma addToWishlist_replaces_witness :
  ∃ d' s',
    addToWishlist "b03" ["c@x.com"] club_store = Ok (Some d', s') ∧
    wishlist (doc d') = ["c@x.com"] ∧
    (∀ m, m ≠ Wishlist → get_list m (doc d') = get_list m club_book) ∧
    reviews (doc d') = reviews club_book ∧ scalars (doc d') = scalars club_book.
Proof.
  eexists _, _. split; [vm_compute; reflexivity|].
  refine (addToWishlist_replaces "b03" ["c@x.com"] club_store
            (mkDoc "b03" club_book) _ _ _ _); vm_compute; reflexivity.
Defined.

Lemma createBook_then_getBook_witness :
  ∃ d s',
    createBook club_book sample_store = Ok (d, s') ∧
    doc d = club_book ∧ (_id d ∉ ids sample_store) ∧ s' = sample_store ++ [d] ∧
    wf s' ∧ getBook (_id d) s' = Ok (Some d, s').
Proof.
  eexists _, _. split; [vm_compute; reflexivity|].
  refine (createBook_then_getBook club_book sample_store _ _ _ _);
    [by apply (bool_decide_unpack _)|vm_compute; reflexivity].
Defined.

Lemma deleteBook_then_getBook_witness :
  ∃ s',
    deleteBook "b03" club_book club_store = Ok (Some (mkDoc "b03" club_book), s') ∧
    lookup_id "b03" club_store = Some (mkDoc "b03" club_book) ∧
    getBook "b03" s' = Ok (None, s') ∧
    (∀ j, j ≠ "b03" → lookup_id j s' = lookup_id j club_store) ∧
    length s' = pred (length club_store).
Proof.
  eexists. split; [vm_compute; reflexivity|].
  refine (deleteBook_then_getBook "b03" club_book club_store _ _ _ _);
    [by apply (bool_decide_unpack _)|vm_compute; reflexivity].
Defined.

Lemma absent_key_returns_null_witness :
  getBook "b99" club_store = Ok (None, club_store) ∧
  (∀ p, updateBook "b99" p club_store = Ok (None, club_store)) ∧
  (∀ b, deleteBook "b99" b club_store = Ok (None, club_store)) ∧
  (∀ r, addReview "b99" r club_store = Ok (None, club_store)) ∧
  (∀ payload, addToWishlist "b99" payload club_store = Ok (None, club_store)) ∧
  (∀ e, removeFromWishlist "b99" e club_store = Ok (None, club_store)) ∧
  (∀ payload, addToReadSoon "b99" payload club_store = Ok (None, club_store)) ∧
  (∀ payload, addToCurrentlyReading "b99" payload club_store = Ok (None, club_store)) ∧
  (∀ payload, addToFinished "b99" payload club_store = Ok (None, club_store)).
Proof.
  apply (absent_key_returns_null "b99" club_store).
  by apply (bool_decide_unpack _).
Defined.

Lemma createBook_then_deleteBook_witness :
  deleteBook "0000" club_book
    (club_store ++ [mkDoc "0000" (sample_book "Ubik" "Philip K. Dick" "Science Fiction" "1969-05-01")]) =
  Ok (Some (mkDoc "0000" (sample_book "Ubik" "Philip K. Dick" "Science Fiction" "1969-05-01")),
      club_store).
Proof.
  refine (createBook_then_deleteBook
    (sample_book "Ubik" "Philip K. Dick" "Science Fiction" "1969-05-01") club_book club_store
    (mkDoc "0000" _) _ _).
  vm_compute. reflexivity.
Defined.
