(* ===== verification/Machine.v ===== *)
(** * Machine: the service as a state machine over the collection

    [BookService] is the object the module exports (book.service.ts, lines
    182-194): eleven operations under their names.  A caller picks one and
    supplies its arguments; here that choice is a [request], the value the
    promise resolves to a [response], and [BookService] runs the operation
    named.  On top of it: one [step] of the server, the collections
    [reachable] from the empty one, runs of a sequence of requests, the
    invariants of the collection by induction on steps, and the listing
    with the store call of another request between its two awaits. *)

From S2P Require Import Prelude Document Query Update Collection Pagination.
From S2P Require Import Samples Listing Mutators.

(** ** Requests and responses *)

Inductive request : Type :=
| GetBooks (filters : IBookFilterableFields) (pagination_options : IPaginationOptions)
| GetBook (id : ObjectId)
| CreateBook (book : IBook)
| UpdateBook (id : ObjectId) (payload : PartialBook)
| DeleteBook (id : ObjectId) (book : IBook)
| AddReview (id : ObjectId) (payload : IBookReview)
| AddToWishlist (id : ObjectId) (payload : list string)
| RemoveFromWishlist (id : ObjectId) (payload : string)
| AddToReadSoon (id : ObjectId) (payload : list string)
| AddToCurrentlyReading (id : ObjectId) (payload : list string)
| AddToFinished (id : ObjectId) (payload : list string).

#[export] Instance request_eq_dec : EqDecision request.
Proof. solve_decision. Defined.

Inductive response : Type :=
| Listing (r : IGenericResponse collection)
| Created (d : BookDocument)
| Found (d : option BookDocument).

(** The update document a request hands to the store, with the key it
    addresses; [None] for the requests that are not updates. *)
Definition update_of (r : request) : option (ObjectId * update_document) :=
  match r with
  | UpdateBook i p => Some (i, [USet p])
  | AddReview i p => Some (i, addReview_update p)
  | AddToWishlist i p => Some (i, addToWishlist_update p)
  | RemoveFromWishlist i p => Some (i, removeFromWishlist_update p)
  | AddToReadSoon i p => Some (i, addToReadSoon_update p)
  | AddToCurrentlyReading i p => Some (i, addToCurrentlyReading_update p)
  | AddToFinished i p => Some (i, addToFinished_update p)
  | _ => None
  end.

(** Whether a request only reads. *)
Definition read_only (r : request) : bool :=
  match r with GetBooks _ _ | GetBook _ => true | _ => false end.

Section machine.
Context `{BookConstant, PaginationHelper, RegexEngine, FieldOrder, IdGenerator}.
Implicit Types (r : request) (a : response) (s : collection) (i j : ObjectId).

Definition BookService (r : request) : Store response :=
  match r with
  | GetBooks f o => await x ← getBooks f o; ret (Listing x)
  | GetBook i => await x ← getBook i; ret (Found x)
  | CreateBook b => await x ← createBook b; ret (Created x)
  | UpdateBook i p => await x ← updateBook i p; ret (Found x)
  | DeleteBook i b => await x ← deleteBook i b; ret (Found x)
  | AddReview i p => await x ← addReview i p; ret (Found x)
  | AddToWishlist i p => await x ← addToWishlist i p; ret (Found x)
  | RemoveFromWishlist i p => await x ← removeFromWishlist i p; ret (Found x)
  | AddToReadSoon i p => await x ← addToReadSoon i p; ret (Found x)
  | AddToCurrentlyReading i p => await x ← addToCurrentlyReading i p; ret (Found x)
  | AddToFinished i p => await x ← addToFinished i p; ret (Found x)
  end.

(** The collection a request leaves, when it succeeds. *)
Definition next (r : request) (s : collection) : collection :=
  match r with
  | CreateBook b => s ++ [mkDoc (fresh_id (ids s)) b]
  | DeleteBook i _ => delete_id i s
  | _ => match update_of r with
         | Some (i, u) => update_id i (apply_update u) s
         | None => s
         end
  end.

(** The key whose record a request may change. *)
Definition touched (r : request) (s : collection) : option ObjectId :=
  match r with
  | CreateBook _ => Some (fresh_id (ids s))
  | DeleteBook i _ => Some i
  | _ => fst <$> update_of r
  end.

(** One step of the server: a request runs to its outcome.  A rejected
    request leaves the collection as it was. *)
Inductive step (s : collection) :
  request → result store_error response → collection → Prop :=
| step_resolve r a s' : BookService r s = Ok (a, s') → step s r (Ok a) s'
| step_reject r e : BookService r s = Err e → step s r (Err e) s.

(** The collections the server can be in, started empty. *)
Inductive reachable : collection → Prop :=
| reachable_empty : reachable []
| reachable_step s r o s' : reachable s → step s r o s' → reachable s'.

(** A sequence of requests, run in order; a rejected request is answered
    with its error and the next one runs on the collection unchanged. *)
Fixpoint run (rs : list request) (s : collection) :
  list (result store_error response) * collection :=
  match rs with
  | [] => ([], s)
  | r :: rs =>
      match BookService r s with
      | Ok (a, s') => let '(os, s'') := run rs s' in (Ok a :: os, s'')
      | Err e => let '(os, s'') := run rs s in (Err e :: os, s'')
      end
  end.

(** ** The listing between its two awaits

    [getBooks] awaits the store twice: the page, then the count.  The
    store call of another request can land between the two. *)

(** [await Book.find(where_condition).sort(...).skip(skip).limit(limit)] *)
Definition getBooks_find (filters : IBookFilterableFields)
    (pagination_options : IPaginationOptions) : Store collection :=
  let p := calculate_pagination pagination_options in
  Book.exec (Book.limit (limit p) (Book.skip (skip p)
    (Book.sort (sort_conditions p)
       (Book.find (where_condition (and_conditions filters)))))).

(** [await Book.countDocuments(where_condition)] and the return. *)
Definition getBooks_count (filters : IBookFilterableFields)
    (pagination_options : IPaginationOptions) (result : collection)
    : Store (IGenericResponse collection) :=
  let p := calculate_pagination pagination_options in
  await total ← Book.countDocuments (where_condition (and_conditions filters));
  ret (mkResponse (mkMeta (page p) (limit p) total) result).

(** Another request, whatever its outcome. *)
Definition meanwhile (r : request) : Store unit :=
  λ s, Ok (tt, (run [r] s).2).

(** The listing with the store call of [r] between its two awaits. *)
Definition getBooks_during (filters : IBookFilterableFields)
    (pagination_options : IPaginationOptions) (r : request)
    : Store (IGenericResponse collection) :=
  await result ← getBooks_find filters pagination_options;
  await _ ← meanwhile r;
  getBooks_count filters pagination_options result.

End machine.

(** * Lemmas *)

Section machine_lemmas.
Context `{BookConstant, PaginationHelper, RegexEngine, FieldOrder, IdGenerator}.
Implicit Types (r : request) (a : response) (s : collection) (i j : ObjectId)
  (u : update_document) (o : result store_error response).

(** ** What each request does *)

Lemma BookService_update r i u s :
  update_of r = Some (i, u) →
  BookService r s = Ok (Found (updated i u s), update_id i (apply_update u) s).
Proof.
  destruct r; intros [= <- <-]; simpl; unfold bind, ret;
    by autorewrite with book_rw.
Qed.

Lemma BookService_GetBooks f op s :
  BookService (GetBooks f op) s =
  match getBooks f op s with
  | Ok (x, _) => Ok (Listing x, s)
  | Err e => Err e
  end.
Proof.
  simpl. unfold bind, ret. destruct (getBooks f op s) as [[x s']|e] eqn:E; [|done].
  by apply getBooks_Ok in E as (_ & _ & _ & ->).
Qed.

Lemma next_update r i u s :
  update_of r = Some (i, u) → next r s = update_id i (apply_update u) s.
Proof. intros Hu. unfold next. rewrite Hu. by destruct r. Qed.

(** Every request but a listing resolves, and every request that resolves
    leaves the collection [next] says. *)
Lemma BookService_resolves r s :
  (∀ f op, r ≠ GetBooks f op) → ∃ a, BookService r s = Ok (a, next r s).
Proof.
  intros Hr. destruct (update_of r) as [[i u]|] eqn:Hu.
  - eexists. by erewrite BookService_update, next_update.
  - destruct r; try done; simpl; unfold bind, ret;
      [by destruct (Hr filters pagination_options)
      |autorewrite with book_rw; eauto..].
Qed.

Lemma BookService_Ok r s a s' : BookService r s = Ok (a, s') → s' = next r s.
Proof.
  intros Hr.
  assert ((∃ f op, r = GetBooks f op) ∨ (∀ f op, r ≠ GetBooks f op))
    as [(f & op & ->)|Hn] by (destruct r; eauto).
  - rewrite BookService_GetBooks in Hr.
    destruct (getBooks f op s) as [[??]|]; by simplify_eq.
  - destruct (BookService_resolves r s Hn) as [a' Ha]. congruence.
Qed.

Lemma step_next s r o s' : step s r o s' → s' = next r s ∨ s' = s.
Proof. intros [r' a s'' Hr|]; [left; by eapply BookService_Ok|by right]. Qed.

(** ** What [next] keeps *)

Lemma next_read_only r s : read_only r = true → next r s = s.
Proof. by destruct r. Qed.

Lemma next_wf r s : wf s → wf (next r s).
Proof. intros Hs. destruct r; simpl; auto with book. Qed.

Lemma next_lookup_ne r s j :
  touched r s ≠ Some j → lookup_id j (next r s) = lookup_id j s.
Proof.
  destruct r; simpl; intros Hj; try done;
    try (apply lookup_update_id_ne; congruence).
  - apply lookup_id_snoc_ne. simpl. congruence.
  - apply lookup_delete_id_ne. congruence.
Qed.

Lemma next_ids r s :
  ids (next r s) =
  match r with
  | CreateBook _ => ids s ++ [fresh_id (ids s)]
  | DeleteBook i _ => ids (delete_id i s)
  | _ => ids s
  end.
Proof. destruct r; simpl; by rewrite ?ids_update_id, ?ids_app. Qed.

(** The update documents of the service never write the [reviews] key,
    a partial update with that key apart. *)
Lemma update_of_keeps_reviews r i u :
  update_of r = Some (i, u) →
  (∀ i' p, r = UpdateBook i' p → p_reviews p = None) →
  Forall (λ x, replaces_reviews x = false) u.
Proof.
  destruct r; intros [= <- <-] Hr; repeat constructor.
  simpl. by rewrite (Hr _ _ eq_refl).
Qed.

Lemma next_reviews r s j d :
  (∀ i p, r = UpdateBook i p → p_reviews p = None) →
  (∀ b, r ≠ DeleteBook j b) →
  lookup_id j s = Some d →
  ∃ d', lookup_id j (next r s) = Some d' ∧
        reviews (doc d) `prefix_of` reviews (doc d').
Proof.
  intros Hr Hdel Hd. destruct (decide (touched r s = Some j)) as [Ht|Ht];
    [|exists d; by rewrite next_lookup_ne].
  destruct (update_of r) as [[i u]|] eqn:Hu.
  - assert (i = j) as -> by (destruct r; simplify_eq/=; done).
    rewrite (next_update _ _ _ _ Hu), lookup_update_id, Hd. eexists. split; [done|]. simpl.
    eapply reviews_apply_update_prefix, update_of_keeps_reviews; eauto.
  - destruct r; simplify_eq/=.
    + pose proof (fresh_id_fresh (ids s)) as Hf.
      destruct Hf. apply elem_of_ids. apply lookup_id_Some in Hd. eauto.
    + by destruct (Hdel book).
Qed.

(** ** Runs *)

Lemma run_cons r rs s :
  run (r :: rs) s =
  let s1 := match BookService r s with Ok (_, s') => s' | Err _ => s end in
  (result_map fst (BookService r s) :: (run rs s1).1, (run rs s1).2).
Proof.
  simpl. destruct (BookService r s) as [[a s']|e]; simpl;
    by destruct (run rs _).
Qed.

Lemma run_step r s :
  step s r (result_map fst (BookService r s))
    (match BookService r s with Ok (_, s') => s' | Err _ => s end).
Proof.
  destruct (BookService r s) as [[a s']|e] eqn:E; simpl; by constructor.
Qed.

Lemma step_run s r o s' : step s r o s' → run [r] s = ([o], s').
Proof. intros [r' a s'' Hr|r' e Hr]; simpl; by rewrite Hr. Qed.

Lemma run_app rs rs' s :
  run (rs ++ rs') s =
  ((run rs s).1 ++ (run rs' (run rs s).2).1, (run rs' (run rs s).2).2).
Proof.
  revert s. induction rs as [|r rs IH]; intros s.
  - simpl. by destruct (run rs' s).
  - rewrite <-app_comm_cons, !run_cons. simpl. by rewrite IH.
Qed.

Lemma run_reachable rs s : reachable s → reachable (run rs s).2.
Proof.
  revert s. induction rs as [|r rs IH]; intros s Hs; [done|].
  rewrite run_cons. simpl. apply IH. eapply reachable_step; [done|apply run_step].
Qed.

(** ** The listing between its awaits *)

Lemma getBooks_split filters op :
  getBooks filters op =
  (await result ← getBooks_find filters op; getBooks_count filters op result).
Proof. done. Qed.

Lemma getBooks_find_run filters op s :
  getBooks_find filters op s =
  match check (where_condition (and_conditions filters)) with
  | Err e => Err e
  | Ok _ =>
      result_map (λ l, (l, s))
        (Book.paginate (skip (calculate_pagination op))
           (limit (calculate_pagination op)) (listed filters op s))
  end.
Proof. unfold getBooks_find. by rewrite exec_run. Qed.

Lemma getBooks_count_run filters op l s :
  check (where_condition (and_conditions filters)) = Ok tt →
  getBooks_count filters op l s =
  Ok (mkResponse (mkMeta (page (calculate_pagination op))
                    (limit (calculate_pagination op))
                    (length (matching filters s))) l, s).
Proof.
  intros Hc. unfold getBooks_count, bind, ret. by rewrite countDocuments_run, Hc.
Qed.

Lemma run_singleton r s : (run [r] s).2 = next r s ∨ (run [r] s).2 = s.
Proof. rewrite run_cons. simpl. exact (step_next _ _ _ _ (run_step r s)). Qed.

(** The invariant rule for runs: a property of the collection that every
    request of a class keeps holds after every run of such requests. *)
Lemma run_invariant (P : collection → Prop) (Q : request → Prop) rs s :
  (∀ r s, Q r → P s → P (next r s)) →
  Forall Q rs → P s → P (run rs s).2.
Proof.
  intros Hnext Hrs. revert s. induction Hrs as [|r rs Hr _ IH]; intros s Hs; [done|].
  rewrite run_cons. simpl. apply IH.
  destruct (step_next _ _ _ _ (run_step r s)) as [-> | ->]; auto.
Qed.

End machine_lemmas.

(** * Properties of the machine *)

Section machine_properties.
Context `{BookConstant, PaginationHelper, RegexEngine, FieldOrder, IdGenerator}.
Implicit Types (r : request) (a : response) (s : collection) (i j : ObjectId)
  (o : result store_error response).

(** A step of the server keeps the keys of the collection unique,
    whatever the request and whether it resolves or is rejected. *)
Theorem step_preserves_wf s r o s' : wf s → step s r o s' → wf s'.
Proof. intros Hs [->| ->]%step_next; [by apply next_wf|done]. Qed.

(** In every collection the server can reach from the empty one the
    keys are unique, and [getBook] on the key of a stored record returns
    that record. *)
Theorem reachable_wf s :
  reachable s → wf s ∧ ∀ d, d ∈ s → getBook (_id d) s = Ok (Some d, s).
Proof.
  intros Hs. assert (wf s) as Hwf.
  { induction Hs as [|s r o s' _ IH Hstep]; [apply wf_nil|].
    apply step_next in Hstep as [->| ->]; [by apply next_wf|done]. }
  split; [done|]. intros d Hd. by rewrite getBook_run, lookup_id_elem_of.
Qed.

(** A request changes at most the record under the key it addresses
    (for a create, the fresh key): the record under every other key is
    after the step what it was before. *)
Theorem step_frame s r o s' j :
  step s r o s' → touched r s ≠ Some j → lookup_id j s' = lookup_id j s.
Proof. intros [->| ->]%step_next ?; [by apply next_lookup_ne|done]. Qed.

(** The only operation the store can reject is the listing: a
    request that is rejected is a [getBooks] whose filter or window the
    store refused; every other request resolves. *)
Theorem only_listing_rejects r s e :
  BookService r s = Err e → ∃ f op, r = GetBooks f op ∧ getBooks f op s = Err e.
Proof.
  intros Hr.
  assert ((∃ f op, r = GetBooks f op) ∨ (∀ f op, r ≠ GetBooks f op))
    as [(f & op & ->)|Hn] by (destruct r; eauto).
  - exists f, op. split; [done|]. rewrite BookService_GetBooks in Hr.
    destruct (getBooks f op s) as [[??]|]; by simplify_eq.
  - destruct (BookService_resolves r s Hn) as [a' Ha]. congruence.
Qed.

(** [getBooks] and [getBook] only read: a step on either leaves
    the collection as it was. *)
Theorem reads_do_not_write s r o s' : read_only r = true → step s r o s' → s' = s.
Proof. intros Hr [->| ->]%step_next; [by apply next_read_only|done]. Qed.

(** The collections reachable by steps are the final collections of
    the runs of a sequence of requests from the empty collection. *)
Theorem reachable_iff_run s : reachable s ↔ ∃ rs, (run rs []).2 = s.
Proof.
  split.
  - induction 1 as [|s r o s' _ [rs Hrs] Hstep]; [by exists []|].
    exists (rs ++ [r]). by rewrite run_app, Hrs, (step_run _ _ _ _ Hstep).
  - intros [rs <-]. apply run_reachable. constructor.
Qed.

(** The set of keys changes only by [createBook], which adds the
    fresh key at the end, and [deleteBook], which removes its key; every
    other step leaves the keys and their order. *)
Theorem step_keys s r o s' :
  step s r o s' →
  ids s' = ids s ∨
  (∃ b, r = CreateBook b ∧ ids s' = ids s ++ [fresh_id (ids s)]) ∨
  (∃ i b, r = DeleteBook i b ∧ ids s' = ids (delete_id i s) ∧
          ids s' `sublist_of` ids s).
Proof.
  intros [->| ->]%step_next; [|by left]. rewrite next_ids.
  destruct r; eauto 8 using ids_delete_id.
Qed.

(** Reviews are append-only under every request that is neither a
    delete of the record nor a partial update carrying the [reviews] key:
    the record stays and its reviews before the step are a prefix of its
    reviews after. *)
Theorem reviews_append_only s r o s' j d :
  step s r o s' →
  (∀ i p, r = UpdateBook i p → p_reviews p = None) →
  (∀ b, r ≠ DeleteBook j b) →
  lookup_id j s = Some d →
  ∃ d', lookup_id j s' = Some d' ∧ reviews (doc d) `prefix_of` reviews (doc d').
Proof.
  intros [->| ->]%step_next ???; [by apply next_reviews|by exists d].
Qed.

(** When the store call of another request lands between the two
    awaits of [getBooks], the listing returns the page of the collection
    before that request and the count of the collection after it: the
    total is the number of matching records once the other request has
    run, whatever the page holds. *)
Theorem getBooks_during_reads_two_states filters op r s resp s' :
  getBooks_during filters op r s = Ok (resp, s') →
  s' = (run [r] s).2 ∧
  Book.paginate (skip (calculate_pagination op)) (limit (calculate_pagination op))
    (listed filters op s) = Ok (data resp) ∧
  total (meta resp) = length (matching filters s').
Proof.
  unfold getBooks_during, bind, meanwhile. rewrite getBooks_find_run.
  destruct (check _) as [[]|] eqn:Hc; [|done].
  destruct (Book.paginate _ _ _) as [l|]; [simpl|done].
  rewrite getBooks_count_run by done. by intros [= <- <-].
Qed.

End machine_properties.

(** * The machine at the sample collections *)

#[local] Existing Instances default_constant default_helper literal_engine
  string_field_order long_id_generator.

Definition sharp_review : IBookReview := mkReview "b@x.com" "Sharp".

(** An evening at the club: two books are created, the second is reviewed, put on a
    reading list and listed; the first is deleted. *)
Definition club_evening : list request := [
  CreateBook (sample_book "Dune" "Frank Herbert" "Science Fiction" "1965-08-01");
  CreateBook club_book;
  AddReview "00" sharp_review;
  AddToFinished "00" ["a@x.com"];
  GetBooks [("searchTerm", "austen")] no_options;
  DeleteBook "0" club_book
].

Lemma step_preserves_wf_witness :
  wf (next (AddToFinished "b03" ["a@x.com"]) club_store).
Proof.
  refine (step_preserves_wf club_store (AddToFinished "b03" ["a@x.com"]) (Ok _) _ _ _);
    [by apply (bool_decide_unpack _)|].
  apply step_resolve. vm_compute. reflexivity.
Defined.

Lemma reachable_wf_witness :
  ids (run club_evening []).2 = ["00"] ∧
  wf (run club_evening []).2 ∧
  ∀ d, d ∈ (run club_evening []).2 →
       getBook (_id d) (run club_evening []).2 = Ok (Some d, (run club_evening []).2).
Proof.
  split; [vm_compute; reflexivity|].
  apply (reachable_wf (run club_evening []).2), run_reachable, reachable_empty.
Defined.

Lemma step_frame_witness :
  lookup_id "b01" (next (AddToFinished "b03" ["a@x.com"]) club_store) =
  lookup_id "b01" club_store.
Proof.
  refine (step_frame club_store (AddToFinished "b03" ["a@x.com"]) (Ok _) _ "b01" _ _);
    [apply step_resolve; vm_compute; reflexivity|done].
Defined.

Lemma only_listing_rejects_witness :
  ∃ f op, GetBooks tolkien (mkOptions (Some (-1)%Z) None None None) = GetBooks f op ∧
          getBooks f op club_store = Err (NegativeSkip (-20)).
Proof.
  apply (only_listing_rejects _ club_store). vm_compute. reflexivity.
Defined.

Lemma reads_do_not_write_witness :
  next (GetBook "b03") club_store = club_store.
Proof.
  refine (reads_do_not_write club_store (GetBook "b03") (Ok _) _ _ _);
    [done|apply step_resolve; vm_compute; reflexivity].
Defined.

Lemma step_keys_witness :
  ids (next (CreateBook club_book) club_store) = ids club_store ∨
  (∃ b, CreateBook club_book = CreateBook b ∧
        ids (next (CreateBook club_book) club_store) =
        ids club_store ++ [fresh_id (ids club_store)]) ∨
  (∃ i b, CreateBook club_book = DeleteBook i b ∧
          ids (next (CreateBook club_book) club_store) = ids (delete_id i club_store) ∧
          ids (next (CreateBook club_book) club_store) `sublist_of` ids club_store).
Proof.
  refine (step_keys club_store (CreateBook club_book) (Ok _) _ _).
  apply step_resolve. vm_compute. reflexivity.
Defined.

Lemma reviews_append_only_witness :
  ∃ d', lookup_id "b03" (next (AddReview "b03" sharp_review) club_store) = Some d' ∧
        reviews club_book `prefix_of` reviews (doc d').
Proof.
  refine (reviews_append_only club_store (AddReview "b03" sharp_review) (Ok _) _
            "b03" (mkDoc "b03" club_book) _ _ _ _);
    [apply step_resolve; vm_compute; reflexivity|done..].
Defined.

(** A listing of the books by Tolkien while the one book by Tolkien is
    deleted: the page holds the book, the total is 0. *)
Lemma getBooks_during_reads_two_states_witness :
  ∃ resp s',
    getBooks_during tolkien page_1_of_10 (DeleteBook "b01" club_book) sample_store
      = Ok (resp, s') ∧
    length (data resp) = 1 ∧ total (meta resp) = 0 ∧
    s' = (run [DeleteBook "b01" club_book] sample_store).2 ∧
    Book.paginate (skip (calculate_pagination page_1_of_10))
      (limit (calculate_pagination page_1_of_10))
      (listed tolkien page_1_of_10 sample_store) = Ok (data resp) ∧
    total (meta resp) = length (matching tolkien s').
Proof.
  eexists _, _. split; [vm_compute; reflexivity|]. do 2 (split; [reflexivity|]).
  refine (getBooks_during_reads_two_states tolkien page_1_of_10
            (DeleteBook "b01" club_book) sample_store _ _ _).
  vm_compute. reflexivity.
Defined.
