(* ===== verification/ReadingStatus.v ===== *)
(** * ReadingStatus: the reading status of a user on a book

    The three lists [read_soon], [currently_reading] and [finished] of a
    record are meant to hold a user's email in at most one of them: the
    user's reading status on the book.  The service keeps no such invariant
    in the store; it relies on the three transitions of book.service.ts
    ([addToReadSoon], [addToCurrentlyReading], [addToFinished]) pulling the
    acting user from the other two lists.  This file states the invariant
    ([exclusive]), the abstract model the specification proposes (a map from
    users to at most one status, [status_of]), says exactly when a
    transition keeps the invariant and shows that it then refines the
    abstract assignment, and lifts the invariant to the runs of the server
    whose requests carry the acting user only. *)

From S2P Require Import Prelude Document Query Update Collection Pagination.
From S2P Require Import Samples Listing Mutators Machine.

(** ** Statuses and shelves *)

Inductive reading_status : Type := WillRead | IsReading | HasRead.

#[export] Instance reading_status_eq_dec : EqDecision reading_status.
Proof. solve_decision. Defined.

Definition all_statuses : list reading_status := [WillRead; IsReading; HasRead].

Definition list_of (st : reading_status) : membership :=
  match st with
  | WillRead => ReadSoon
  | IsReading => CurrentlyReading
  | HasRead => Finished
  end.

(** The users with a status on a book. *)
Definition shelf (st : reading_status) (b : IBook) : list string :=
  get_list (list_of st) b.

(** The update document of the transition into a status, and the request
    that performs it. *)
Definition transition_update (st : reading_status) (payload : list string)
    : update_document :=
  match st with
  | WillRead => addToReadSoon_update payload
  | IsReading => addToCurrentlyReading_update payload
  | HasRead => addToFinished_update payload
  end.

Definition transition_request (st : reading_status) (i : ObjectId)
    (payload : list string) : request :=
  match st with
  | WillRead => AddToReadSoon i payload
  | IsReading => AddToCurrentlyReading i payload
  | HasRead => AddToFinished i payload
  end.

(** ** The invariant *)

(** A user is on at most one shelf. *)
Definition exclusive (b : IBook) : Prop :=
  ∀ x st st', x ∈ shelf st b → x ∈ shelf st' b → st = st'.

(** The same, as three disjointness tests that evaluate. *)
Definition exclusiveb (b : IBook) : bool :=
  forallb (λ x, negb (bool_decide (x ∈ currently_reading b))
                && negb (bool_decide (x ∈ finished b))) (read_soon b)
  && forallb (λ x, negb (bool_decide (x ∈ finished b))) (currently_reading b).

(** Every shelf is a set. *)
Definition shelves_are_sets (b : IBook) : Prop :=
  ∀ st, NoDup (shelf st b).

(** ** The abstract model: a map from users to at most one status *)

Definition status_map : Type := string → option reading_status.

(** The status the record gives a user: the first shelf the user is on. *)
Definition status_of (b : IBook) : status_map :=
  λ x, head (filter (λ st, x ∈ shelf st b) all_statuses).

(** The abstract operations: give a status to some users, take a user's
    status away. *)
Definition assign (es : list string) (st : reading_status) (σ : status_map)
    : status_map :=
  λ x, if decide (x ∈ es) then Some st else σ x.

Definition detach (e : string) (σ : status_map) : status_map :=
  λ x, if decide (x = e) then None else σ x.

(** ** When a transition is safe

    The members of the payload other than the acting user are on no other
    shelf: a transition pulls the acting user only. *)
Definition settled (st : reading_status) (payload : list string) (b : IBook) : Prop :=
  ∀ x st', x ∈ payload → acting_email payload ≠ Some x → x ∈ shelf st' b → st' = st.

(** A request that keeps the invariant whatever the collection: a create
    of an exclusive record, a partial update that leaves the shelves, a
    transition whose payload is the acting user alone. *)
Definition polite (r : request) : Prop :=
  match r with
  | CreateBook b => exclusive b
  | UpdateBook _ p =>
      p_read_soon p = None ∧ p_currently_reading p = None ∧ p_finished p = None
  | AddToReadSoon _ payload | AddToCurrentlyReading _ payload
  | AddToFinished _ payload => length payload ≤ 1
  | _ => True
  end.

(** * Lemmas *)

Section shelves.
Implicit Types (b : IBook) (st : reading_status) (x e : string)
  (payload : list string) (p : PartialBook).

Lemma elem_of_all_statuses st : st ∈ all_statuses.
Proof. destruct st; set_solver. Qed.

#[export] Instance list_of_inj : Inj (=) (=) list_of.
Proof. by intros [] [] ?. Qed.

Lemma list_of_not_wishlist st : list_of st ≠ Wishlist.
Proof. by destruct st. Qed.

(** ** The shelves after each update *)

Lemma shelf_transition st st' payload b :
  shelf st' (apply_update (transition_update st payload) b) =
  if decide (st' = st) then add_to_set payload (shelf st b)
  else pull_opt (acting_email payload) (shelf st' b).
Proof. by destruct st, st', b. Qed.

Lemma elem_of_shelf_transition x st st' payload b :
  x ∈ shelf st' (apply_update (transition_update st payload) b) ↔
  if decide (st' = st) then x ∈ shelf st b ∨ x ∈ payload
  else x ∈ shelf st' b ∧ acting_email payload ≠ Some x.
Proof.
  rewrite shelf_transition.
  case_decide; [apply elem_of_add_to_set|apply elem_of_pull_opt].
Qed.

Lemma rest_transition st payload b :
  wishlist (apply_update (transition_update st payload) b) = wishlist b ∧
  reviews (apply_update (transition_update st payload) b) = reviews b ∧
  scalars (apply_update (transition_update st payload) b) = scalars b.
Proof. by destruct st, b. Qed.

Lemma shelf_removeFromWishlist st e b :
  shelf st (apply_update (removeFromWishlist_update e) b) = pull e (shelf st b).
Proof. by destruct st, b. Qed.

Lemma shelf_addReview st r b :
  shelf st (apply_update (addReview_update r) b) = shelf st b.
Proof. by destruct st, b. Qed.

Lemma shelf_addToWishlist st payload b :
  shelf st (apply_update (addToWishlist_update payload) b) = shelf st b.
Proof. by destruct st, b. Qed.

Lemma shelf_apply_partial st p b :
  p_read_soon p = None → p_currently_reading p = None → p_finished p = None →
  shelf st (apply_partial p b) = shelf st b.
Proof. destruct p, st, b; simpl; by intros -> -> ->. Qed.

(** A transition with nothing in the payload writes nothing. *)
Lemma transition_update_nil st b : apply_update (transition_update st []) b = b.
Proof. by destruct st, b. Qed.

(** ** The invariant *)

Lemma exclusive_disjoint b :
  exclusive b ↔
  read_soon b ## currently_reading b ∧ read_soon b ## finished b ∧
  currently_reading b ## finished b.
Proof.
  split.
  - intros Hb. split_and!; intros x H1 H2.
    + by pose proof (Hb x WillRead IsReading H1 H2).
    + by pose proof (Hb x WillRead HasRead H1 H2).
    + by pose proof (Hb x IsReading HasRead H1 H2).
  - intros (H1 & H2 & H3) x [] [] ??; unfold shelf in *; simpl in *;
      try done; exfalso; set_solver.
Qed.

Lemma exclusiveb_spec b : exclusiveb b = true ↔ exclusive b.
Proof.
  rewrite exclusive_disjoint. unfold exclusiveb.
  rewrite andb_true_iff, !forallb_forall.
  setoid_rewrite andb_true_iff. setoid_rewrite negb_true_iff.
  setoid_rewrite bool_decide_eq_false. setoid_rewrite <-list_elem_of_In.
  set_solver.
Qed.

#[export] Instance exclusive_dec b : Decision (exclusive b).
Proof.
  refine (cast_if (decide (exclusiveb b = true))); by rewrite <-exclusiveb_spec.
Defined.

Lemma exclusive_subset b b' :
  (∀ st x, x ∈ shelf st b' → x ∈ shelf st b) → exclusive b → exclusive b'.
Proof. intros Hsub Hb x st st' ??. eapply Hb; eauto. Qed.

(** ** The status of a user *)

Lemma status_of_unfold b x :
  status_of b x =
  if decide (x ∈ read_soon b) then Some WillRead
  else if decide (x ∈ currently_reading b) then Some IsReading
  else if decide (x ∈ finished b) then Some HasRead
  else None.
Proof.
  unfold status_of, all_statuses. rewrite !filter_cons, filter_nil.
  unfold shelf. simpl. by repeat case_decide.
Qed.

Lemma status_of_elem_of b x st : status_of b x = Some st → x ∈ shelf st b.
Proof. rewrite status_of_unfold. repeat case_decide; by intros [= <-]. Qed.

Lemma status_of_None b x : status_of b x = None ↔ ∀ st, x ∉ shelf st b.
Proof.
  rewrite status_of_unfold. split.
  - repeat case_decide; [done..|]. by intros _ [].
  - intros Hx. pose proof (Hx WillRead). pose proof (Hx IsReading).
    pose proof (Hx HasRead). by repeat case_decide.
Qed.

Lemma status_of_unique b x st :
  x ∈ shelf st b → (∀ st', x ∈ shelf st' b → st' = st) → status_of b x = Some st.
Proof.
  intros Hx Hu. destruct (status_of b x) as [st'|] eqn:E.
  - f_equal. by apply Hu, status_of_elem_of.
  - by destruct (proj1 (status_of_None b x) E st).
Qed.

Lemma status_of_Some b x st :
  exclusive b → status_of b x = Some st ↔ x ∈ shelf st b.
Proof.
  intros Hb. split; [apply status_of_elem_of|].
  intros Hx. apply status_of_unique; [done|]. intros st' ?. by apply (Hb x).
Qed.

(** The status depends on the shelves the user is on only. *)
Lemma status_of_ext b b' x :
  (∀ st, x ∈ shelf st b ↔ x ∈ shelf st b') → status_of b x = status_of b' x.
Proof.
  intros He. rewrite !status_of_unfold.
  pose proof (He WillRead). pose proof (He IsReading). pose proof (He HasRead).
  unfold shelf in *. simpl in *. repeat case_decide; naive_solver.
Qed.

(** ** Safe transitions *)

Lemma settled_short st payload b : length payload ≤ 1 → settled st payload b.
Proof.
  destruct payload as [|e [|??]]; simpl; [| |lia]; intros _ x st' Hx Hne.
  - by apply elem_of_nil in Hx.
  - apply list_elem_of_singleton in Hx as ->. by destruct Hne.
Qed.

Lemma transition_exclusive st payload b :
  exclusive b → settled st payload b →
  exclusive (apply_update (transition_update st payload) b).
Proof.
  intros Hb Hs x st1 st2. rewrite !elem_of_shelf_transition.
  destruct (decide (st1 = st)) as [->|], (decide (st2 = st)) as [->|]; [done|..].
  - intros [?|?] [??]; [by apply (Hb x)|symmetry; by eapply Hs].
  - intros [??] [?|?]; [by apply (Hb x)|by eapply Hs].
  - intros [??] [??]. by apply (Hb x).
Qed.

Lemma transition_exclusive_inv st payload b :
  exclusive (apply_update (transition_update st payload) b) → settled st payload b.
Proof.
  intros Ha x st' Hx Hne Hin. destruct (decide (st' = st)) as [|Hst]; [done|].
  apply (Ha x); rewrite elem_of_shelf_transition;
    [by rewrite decide_False by done|rewrite decide_True by done; by right].
Qed.

(** ** Polite requests keep the invariant *)

Lemma polite_update r i u b :
  update_of r = Some (i, u) → polite r → exclusive b → exclusive (apply_update u b).
Proof.
  destruct r; intros [= <- <-] Hp; simpl in Hp.
  - destruct Hp as (?&?&?). apply exclusive_subset. intros st x.
    by rewrite updateBook_effect, shelf_apply_partial.
  - apply exclusive_subset. intros st x. by rewrite shelf_addReview.
  - apply exclusive_subset. intros st x. by rewrite shelf_addToWishlist.
  - apply exclusive_subset. intros st x.
    rewrite shelf_removeFromWishlist, elem_of_pull. tauto.
  - intros ?. by apply (transition_exclusive WillRead), settled_short.
  - intros ?. by apply (transition_exclusive IsReading), settled_short.
  - intros ?. by apply (transition_exclusive HasRead), settled_short.
Qed.

End shelves.

Section polite_machine.
Context `{IdGenerator}.

Lemma polite_next r s :
  polite r → Forall (exclusive ∘ doc) s → Forall (exclusive ∘ doc) (next r s).
Proof.
  intros Hp Hs. destruct (update_of r) as [[i u]|] eqn:Hu.
  - rewrite (next_update _ _ _ _ Hu). apply Forall_update_id; [|done].
    intros d Hd. simpl. by eapply polite_update.
  - destruct r; simplify_eq/=; [done..| |by apply Forall_delete_id].
    apply Forall_app. split; [done|by constructor].
Qed.

End polite_machine.

(** * Properties of the reading status *)

Section status_properties.
Context `{BookConstant, PaginationHelper, RegexEngine, FieldOrder, IdGenerator}.
Implicit Types (b : IBook) (st : reading_status) (x e : string)
  (payload : list string) (s : collection) (i : ObjectId).

(** C8: on a record whose three status lists are disjoint, a transition
    ([addToReadSoon], [addToCurrentlyReading], [addToFinished]) leaves them
    disjoint exactly when every member of the payload other than the acting
    user (the last element) is on no other list: the transition pulls the
    acting user only. *)
Theorem transition_keeps_exclusive_iff st payload b :
  exclusive b →
  exclusive (apply_update (transition_update st payload) b) ↔ settled st payload b.
Proof.
  intros Hb. split; [apply transition_exclusive_inv|by apply transition_exclusive].
Qed.

(** C27: a transition whose payload is settled implements the abstract
    assignment of the status map: afterwards every member of the payload has
    the target status and every other user the status they had; wishlist,
    reviews and scalar fields are as before. *)
Theorem transition_refines_assign st payload b :
  settled st payload b →
  (∀ x, status_of (apply_update (transition_update st payload) b) x =
        assign payload st (status_of b) x) ∧
  wishlist (apply_update (transition_update st payload) b) = wishlist b ∧
  reviews (apply_update (transition_update st payload) b) = reviews b ∧
  scalars (apply_update (transition_update st payload) b) = scalars b.
Proof.
  intros Hs. split; [|apply rest_transition]. intros x. unfold assign.
  destruct (decide (x ∈ payload)) as [Hx|Hx].
  - apply status_of_unique.
    + rewrite elem_of_shelf_transition, decide_True by done. by right.
    + intros st'. rewrite elem_of_shelf_transition.
      case_decide; [done|]. intros [??]. by eapply Hs.
  - apply status_of_ext. intros st'. rewrite elem_of_shelf_transition.
    case_decide; [subst; tauto|]. split; [tauto|]. intros ?. split; [done|].
    by intros ?%acting_email_elem_of.
Qed.

(** [removeFromWishlist] implements the abstract detach: afterwards
    the user has no status and is not on the wishlist, and every other user
    has the status and the wishlist membership they had. *)
Theorem removeFromWishlist_refines_detach e b :
  (∀ x, status_of (apply_update (removeFromWishlist_update e) b) x =
        detach e (status_of b) x) ∧
  (∀ x, x ∈ wishlist (apply_update (removeFromWishlist_update e) b) ↔
        x ∈ wishlist b ∧ x ≠ e).
Proof.
  split; intros x; [|rewrite removeFromWishlist_effect; apply elem_of_pull].
  unfold detach. case_decide as Hx.
  - subst. apply status_of_None. intros st.
    rewrite shelf_removeFromWishlist. apply not_elem_of_pull.
  - apply status_of_ext. intros st.
    rewrite shelf_removeFromWishlist, elem_of_pull. tauto.
Qed.

(** The shelves stay sets: on a record whose three status lists have
    no duplicates a transition and [removeFromWishlist] leave them without
    duplicates, whatever the payload repeats. *)
Theorem transitions_keep_sets st payload e b :
  shelves_are_sets b →
  shelves_are_sets (apply_update (transition_update st payload) b) ∧
  shelves_are_sets (apply_update (removeFromWishlist_update e) b).
Proof.
  intros Hb. split; intros st'.
  - rewrite shelf_transition. case_decide; auto with book.
  - rewrite shelf_removeFromWishlist. auto with book.
Qed.

(** C28: a transition with an empty payload has no acting user
    ([payload[payload.length - 1]] is [undefined]): it pulls nothing and
    adds nothing, and returns the record as stored without an error. *)
Theorem empty_payload_changes_nothing i s :
  addToReadSoon i [] s = Ok (lookup_id i s, s) ∧
  addToCurrentlyReading i [] s = Ok (lookup_id i s, s) ∧
  addToFinished i [] s = Ok (lookup_id i s, s).
Proof.
  autorewrite with book_rw. rewrite !updated_lookup.
  rewrite (update_id_id _ _ _ (transition_update_nil WillRead)),
    (update_id_id _ _ _ (transition_update_nil IsReading)),
    (update_id_id _ _ _ (transition_update_nil HasRead)). done.
Qed.

(** In every run of polite requests (creates of exclusive records,
    partial updates that leave the three lists, transitions whose payload
    is the acting user alone, and anything else) from a collection of
    exclusive records, every record stays exclusive. *)
Theorem polite_runs_keep_exclusive rs s :
  Forall polite rs →
  Forall (exclusive ∘ doc) s →
  Forall (exclusive ∘ doc) (run rs s).2.
Proof. apply run_invariant. intros r s'. apply polite_next. Qed.

End status_properties.

(** * The reading status at the sample collections *)

#[local] Existing Instances default_constant default_helper literal_engine
  string_field_order long_id_generator.

(** The payload of a client that sends another reader with the acting
    user: "b@x.com" is reading the book, "a@x.com" acts. *)
Definition unsettled_payload : list string := ["b@x.com"; "a@x.com"].

(** A partial update that writes a status list directly. *)
Definition shelf_overwrite : PartialBook :=
  mkPartial None None None None None None None None (Some ["a@x.com"]).

(** Exclusion is not an invariant of the service.  A transition
    whose payload carries a user of another list besides the acting user
    leaves that user on two lists, and so does a partial update that
    writes a status list; both on a record whose lists were disjoint. *)
Theorem exclusion_can_break :
  exclusive club_book ∧
  (∃ d' s', addToReadSoon "b03" unsettled_payload club_store = Ok (Some d', s') ∧
            "b@x.com" ∈ read_soon (doc d') ∧ "b@x.com" ∈ currently_reading (doc d') ∧
            ¬ exclusive (doc d')) ∧
  (∃ d' s', updateBook "b03" shelf_overwrite club_store = Ok (Some d', s') ∧
            "a@x.com" ∈ read_soon (doc d') ∧ "a@x.com" ∈ finished (doc d') ∧
            ¬ exclusive (doc d')).
Proof.
  split; [by apply (bool_decide_unpack _)|].
  split; eexists _, _; (split; [vm_compute; reflexivity|]);
    (split_and!; [set_solver..|by apply (bool_decide_unpack _)]).
Qed.

Lemma transition_keeps_exclusive_iff_witness :
  exclusive (apply_update (transition_update IsReading ["a@x.com"]) club_book) ↔
  settled IsReading ["a@x.com"] club_book.
Proof.
  apply (transition_keeps_exclusive_iff IsReading ["a@x.com"] club_book).
  by apply (bool_decide_unpack _).
Defined.

Lemma transition_refines_assign_witness :
  (∀ x, status_of (apply_update (transition_update IsReading ["a@x.com"]) club_book) x =
        assign ["a@x.com"] IsReading (status_of club_book) x) ∧
  wishlist (apply_update (transition_update IsReading ["a@x.com"]) club_book) =
    wishlist club_book ∧
  reviews (apply_update (transition_update IsReading ["a@x.com"]) club_book) =
    reviews club_book ∧
  scalars (apply_update (transition_update IsReading ["a@x.com"]) club_book) =
    scalars club_book.
Proof.
  apply (transition_refines_assign IsReading ["a@x.com"] club_book).
  by apply settled_short.
Defined.

Lemma transitions_keep_sets_witness :
  shelves_are_sets
    (apply_update (transition_update HasRead ["c@x.com"; "c@x.com"]) club_book) ∧
  shelves_are_sets (apply_update (removeFromWishlist_update "a@x.com") club_book).
Proof.
  apply (transitions_keep_sets HasRead ["c@x.com"; "c@x.com"] "a@x.com" club_book).
  intros []; by apply (bool_decide_unpack _).
Defined.

Lemma polite_runs_keep_exclusive_witness :
  Forall (exclusive ∘ doc) (run club_evening []).2.
Proof.
  apply (polite_runs_keep_exclusive club_evening []); [|done].
  repeat constructor; by apply (bool_decide_unpack _).
Defined.
