(* ===== verification/Concurrent.v ===== *)
(** * Concurrent: requests in flight

    The server runs on an event loop: an operation of the service runs
    until its next [await], hands its store call to the store and yields;
    the store performs the calls of all the requests in flight one at a
    time, in an order the service does not control.  Ten of the eleven
    operations await the store once; [getBooks] awaits it twice.

    A request in flight is a [task]: [Pending] before its first store call,
    [Counting] for a listing between its two awaits (it holds the page it
    read), [Answered] once its promise is settled.  [advance] performs the
    next store call of a task; a configuration is the pool of tasks with
    the collection, and a step of the server ([cstep]) advances one task of
    the pool that is not answered.  [pick] and [exec] run a schedule, the
    list of the positions of the tasks in the order the store serves them.

    A request that arrives later is a [Pending] task that is scheduled
    later: a pending task has no effect before its first call, so closed
    pools lose nothing. *)

From stdpp Require Import relations.
From S2P Require Import Prelude Document Query Update Collection Pagination.
From S2P Require Import Samples Listing Mutators Machine ReadingStatus.

(** ** Tasks *)

Inductive task : Type :=
| Pending (r : request)
| Counting (filters : IBookFilterableFields)
    (pagination_options : IPaginationOptions) (result : collection)
| Answered (r : request) (o : result store_error response).

Definition answered (t : task) : bool :=
  match t with Answered _ _ => true | _ => false end.

(** The store calls a task has still to make, at most. *)
Definition calls_left (t : task) : nat :=
  match t with
  | Pending (GetBooks _ _) => 2
  | Pending _ | Counting _ _ _ => 1
  | Answered _ _ => 0
  end.

(** The request a task serves, at every stage of it. *)
Definition task_request (t : task) : request :=
  match t with
  | Pending r | Answered r _ => r
  | Counting filters pagination_options _ => GetBooks filters pagination_options
  end.

(** The request of a task that has made no store call yet. *)
Definition pending_request (t : task) : option request :=
  match t with Pending r => Some r | _ => None end.

Definition pending (ts : list task) : list request := omap pending_request ts.

(** Whether an operation awaits the store once: all but the listing. *)
Definition atomic (r : request) : bool :=
  match r with GetBooks _ _ => false | _ => true end.

(** The requests of a pool that await the store once and are answered,
    with their answers. *)
Definition atomic_answer (t : task)
    : option (request * result store_error response) :=
  match t with
  | Answered r o => if atomic r then Some (r, o) else None
  | _ => None
  end.

Definition answers (ts : list task)
    : list (request * result store_error response) :=
  omap atomic_answer ts.

(** A configuration: the pool and the collection. *)
Definition cfg : Type := list task * collection.

Definition work (c : cfg) : nat := sum_list_with calls_left c.1.

(** The calls the task at a position has still to make. *)
Definition turns_left (c : cfg) (i : nat) : nat :=
  from_option calls_left 0 (c.1 !! i).

Section concurrent.
Context `{BookConstant, PaginationHelper, RegexEngine, FieldOrder, IdGenerator}.

(** The promise of an operation settles with the outcome of its last store
    call; a rejected call leaves the collection. *)
Definition settle (r : request) (m : result store_error (response * collection))
    (s : collection) : task * collection :=
  match m with
  | Ok (a, s') => (Answered r (Ok a), s')
  | Err e => (Answered r (Err e), s)
  end.

(** The next store call of a task. *)
Definition advance (t : task) (s : collection) : task * collection :=
  match t with
  | Pending (GetBooks f o) =>
      match getBooks_find f o s with
      | Ok (l, s') => (Counting f o l, s')
      | Err e => (Answered (GetBooks f o) (Err e), s)
      end
  | Pending r => settle r (BookService r s) s
  | Counting f o l =>
      settle (GetBooks f o) ((await x ← getBooks_count f o l; ret (Listing x)) s) s
  | Answered r o => (Answered r o, s)
  end.

(** One step of the server: the store serves the call of one task in
    flight. *)
Inductive cstep : relation cfg :=
| cstep_task ts1 t ts2 s t' s' :
    answered t = false →
    advance t s = (t', s') →
    cstep (ts1 ++ t :: ts2, s) (ts1 ++ t' :: ts2, s').

(** The store serves the task at position [i]; nothing happens when there
    is none or it is answered. *)
Definition pick (i : nat) (c : cfg) : cfg :=
  match c.1 !! i with
  | Some t => (<[i := (advance t c.2).1]> c.1, (advance t c.2).2)
  | None => c
  end.

(** A schedule, run from the left. *)
Definition exec (schedule : list nat) (c : cfg) : cfg :=
  foldl (λ c i, pick i c) c schedule.

(** [serial c c' rs]: [c'] is [c] after the requests [rs] have run one
    after the other: they are no longer pending, the collection is the one
    their run leaves, and those that await the store once are answered as
    in the run. *)
Definition serial (c c' : cfg) (rs : list request) : Prop :=
  pending c.1 ≡ₚ rs ++ pending c'.1 ∧
  c'.2 = (run rs c.2).2 ∧
  answers c'.1 ≡ₚ answers c.1 ++ filter (λ ro, atomic ro.1 = true) (zip rs (run rs c.2).1).

End concurrent.

(** The schedule that serves every task to its end before the next. *)
Definition one_by_one (n : nat) : list nat :=
  i ← seq 0 n; [i; i].

(** The pool of a list of requests that have just arrived. *)
Definition arrivals (rs : list request) : list task := Pending <$> rs.

Definition all_answered (c : cfg) : Prop :=
  Forall (λ t, answered t = true) c.1.

#[export] Instance all_answered_dec c : Decision (all_answered c).
Proof. unfold all_answered. apply _. Defined.

(** * Lemmas *)

Section pool_lemmas.
Implicit Types (t : task) (ts : list task) (s : collection) (c : cfg).

Lemma pending_app ts1 ts2 : pending (ts1 ++ ts2) = pending ts1 ++ pending ts2.
Proof. apply omap_app. Qed.

Lemma pending_cons t ts :
  pending (t :: ts) = option_list (pending_request t) ++ pending ts.
Proof. unfold pending. simpl. by destruct (pending_request t). Qed.

Lemma pending_arrivals rs : pending (arrivals rs) = rs.
Proof. induction rs as [|r rs IH]; [done|]. simpl. by f_equal. Qed.

Lemma pending_all_answered c : all_answered c → pending c.1 = [].
Proof.
  unfold all_answered. induction 1 as [|[] ts]; simplify_eq/=; done.
Qed.

Lemma answers_app ts1 ts2 : answers (ts1 ++ ts2) = answers ts1 ++ answers ts2.
Proof. apply omap_app. Qed.

Lemma answers_cons t ts :
  answers (t :: ts) = option_list (atomic_answer t) ++ answers ts.
Proof. unfold answers. simpl. by destruct (atomic_answer t). Qed.

Lemma answers_arrivals rs : answers (arrivals rs) = [].
Proof. by induction rs. Qed.

Lemma atomic_answer_answered t : answered t = false → atomic_answer t = None.
Proof. by destruct t. Qed.

Lemma work_app ts1 ts2 s : work (ts1 ++ ts2, s) = work (ts1, s) + work (ts2, s).
Proof. apply sum_list_with_app. Qed.

Lemma work_all_answered c : all_answered c ↔ work c = 0.
Proof.
  unfold all_answered, work. induction c.1 as [|t ts IH]; [done|].
  rewrite Forall_cons, IH. simpl. destruct t as [[]| |]; simpl; lia.
Qed.

Lemma answered_calls_left t : answered t = true ↔ calls_left t = 0.
Proof. by destruct t as [[]| |]. Qed.

End pool_lemmas.

Section concurrent_lemmas.
Context `{BookConstant, PaginationHelper, RegexEngine, FieldOrder, IdGenerator}.
Implicit Types (t : task) (ts : list task) (s : collection) (c : cfg)
  (r : request) (i : nat).

(** ** One store call *)

Lemma settle_answered r m s : answered (settle r m s).1 = true.
Proof. by destruct m as [[??]|]. Qed.

Lemma settle_run r s :
  settle r (BookService r s) s =
  (Answered r (result_map fst (BookService r s)), (run [r] s).2).
Proof. rewrite run_cons. simpl. by destruct (BookService r s) as [[??]|]. Qed.

Lemma advance_answered t s : answered t = true → advance t s = (t, s).
Proof. by destruct t. Qed.

Lemma advance_pending r s :
  (∀ f o, r ≠ GetBooks f o) → advance (Pending r) s = settle r (BookService r s) s.
Proof. intros Hr. destruct r; [by destruct (Hr filters pagination_options)|done..]. Qed.

(** The first call of a listing leaves the collection; the second, on the
    same collection, settles it as the listing in one piece would. *)
Lemma getBooks_find_state f o s l s' : getBooks_find f o s = Ok (l, s') → s' = s.
Proof.
  rewrite getBooks_find_run. destruct (check _); [|done].
  destruct (Book.paginate _ _ _); by intros [= _ <-].
Qed.

Lemma getBooks_find_then_count f o s l :
  getBooks_find f o s = Ok (l, s) →
  (await x ← getBooks_count f o l; ret (Listing x)) s = BookService (GetBooks f o) s.
Proof.
  intros Hf. simpl. rewrite getBooks_split. unfold bind. by rewrite Hf.
Qed.

Lemma getBooks_find_Err f o s e :
  getBooks_find f o s = Err e → BookService (GetBooks f o) s = Err e.
Proof. intros Hf. simpl. rewrite getBooks_split. unfold bind. by rewrite Hf. Qed.

Lemma getBooks_count_state f o l s x s' : getBooks_count f o l s = Ok (x, s') → s' = s.
Proof.
  unfold getBooks_count, bind, ret. rewrite countDocuments_run.
  destruct (check _); by intros [= _ <-].
Qed.

Lemma run_listing f o s : (run [GetBooks f o] s).2 = s.
Proof. by destruct (run_singleton (GetBooks f o) s) as [-> | ->]. Qed.

(** Whatever the task, its call leaves the collection a run of at most
    its own request would. *)
Lemma advance_run t s :
  (advance t s).2 = (run (option_list (pending_request t)) s).2.
Proof.
  destruct t as [r|f o l|]; [| |done]; simpl (option_list _).
  - destruct r as [f o| | | | | | | | | |];
      [|by rewrite advance_pending, settle_run by done..].
    rewrite run_listing. simpl.
    destruct (getBooks_find f o s) as [[??]|] eqn:E; [simpl|done].
    by rewrite (getBooks_find_state _ _ _ _ _ E).
  - simpl. unfold bind, ret.
    destruct (getBooks_count f o l s) as [[??]|] eqn:E; [simpl|done].
    by rewrite (getBooks_count_state _ _ _ _ _ _ E).
Qed.

(** After its call a task is not pending, and has fewer calls to make. *)
Lemma advance_not_pending t s :
  answered t = false → pending_request (advance t s).1 = None.
Proof.
  destruct t as [r|f o l|]; simpl; [| |done]; intros _.
  - destruct r; try (by destruct (BookService _ s) as [[??]|]).
    by destruct (getBooks_find _ _ s) as [[??]|].
  - unfold bind, ret. by destruct (getBooks_count f o l s) as [[??]|].
Qed.

Lemma advance_calls_left t s :
  answered t = false → calls_left (advance t s).1 < calls_left t.
Proof.
  destruct t as [r|f o l|]; simpl; [| |done]; intros _.
  - destruct r; try (by destruct (BookService _ s) as [[??]|]; simpl; lia).
    destruct (getBooks_find _ _ s) as [[??]|]; simpl; lia.
  - unfold bind, ret. destruct (getBooks_count f o l s) as [[??]|]; simpl; lia.
Qed.

(** ** Steps and picks *)

Lemma pick_middle ts1 t ts2 s :
  pick (length ts1) (ts1 ++ t :: ts2, s) =
  (ts1 ++ (advance t s).1 :: ts2, (advance t s).2).
Proof.
  unfold pick. simpl. rewrite list_lookup_middle by done.
  by rewrite insert_app_r_alt, Nat.sub_diag by done.
Qed.

Lemma cstep_pick c c' :
  cstep c c' ↔ ∃ i t, c.1 !! i = Some t ∧ answered t = false ∧ c' = pick i c.
Proof.
  split.
  - intros [ts1 t ts2 s t' s' Ht Ha]. exists (length ts1), t.
    rewrite pick_middle, Ha. simpl. by rewrite list_lookup_middle.
  - intros (i & t & Hi & Ht & ->). destruct c as [ts s]. simpl in Hi.
    apply list_elem_of_split_length in Hi as (ts1 & ts2 & -> & ->).
    rewrite pick_middle. apply cstep_task; [done|by destruct (advance t s)].
Qed.

Lemma pick_answered i c t :
  c.1 !! i = Some t → answered t = true → pick i c = c.
Proof.
  intros Hi Ht. unfold pick. rewrite Hi, advance_answered by done. simpl.
  rewrite list_insert_id by done. by destruct c.
Qed.

Lemma pick_length i c : length (pick i c).1 = length c.1.
Proof. unfold pick. destruct (c.1 !! i); simpl; by rewrite ?length_insert. Qed.

Lemma pick_lookup i c t :
  c.1 !! i = Some t → (pick i c).1 !! i = Some (advance t c.2).1.
Proof.
  intros Hi. unfold pick. rewrite Hi. simpl.
  apply list_lookup_insert_eq. by eapply lookup_lt_Some.
Qed.

Lemma pick_lookup_ne i j c : i ≠ j → (pick j c).1 !! i = c.1 !! i.
Proof.
  intros Hij. unfold pick. destruct (c.1 !! j); [|done]. simpl.
  by apply list_lookup_insert_ne.
Qed.

Lemma exec_app l1 l2 c : exec (l1 ++ l2) c = exec l2 (exec l1 c).
Proof. apply foldl_app. Qed.

Lemma exec_length l c : length (exec l c).1 = length c.1.
Proof.
  revert c. induction l as [|i l IH]; intros c; [done|].
  simpl. by rewrite IH, pick_length.
Qed.

(** A schedule is an execution. *)
Lemma pick_rtc i c : rtc cstep c (pick i c).
Proof.
  destruct (c.1 !! i) as [t|] eqn:Hi; [|unfold pick; by rewrite Hi].
  destruct (answered t) eqn:Ht; [by erewrite pick_answered|].
  apply rtc_once, cstep_pick. eauto.
Qed.

Lemma exec_rtc l c : rtc cstep c (exec l c).
Proof.
  revert c. induction l as [|i l IH]; intros c; [done|].
  simpl. etrans; [apply pick_rtc|apply IH].
Qed.

(** ** Work decreases *)

Lemma cstep_work c c' : cstep c c' → work c' < work c.
Proof.
  intros [ts1 t ts2 s t' s' Ht Ha]. rewrite !work_app. unfold work. simpl.
  pose proof (advance_calls_left t s Ht) as Hlt. rewrite Ha in Hlt. simpl in Hlt. lia.
Qed.

Lemma work_sn n c : work c < n → sn cstep c.
Proof.
  revert c. induction n as [|n IH]; intros c Hn; [lia|].
  constructor. intros c' Hc%cstep_work. apply IH. lia.
Qed.

Lemma server_sn c : sn cstep c.
Proof. apply (work_sn (S (work c))). lia. Qed.

Lemma nsteps_work n c c' : nsteps cstep n c c' → n + work c' ≤ work c.
Proof. induction 1 as [|n c1 c2 c3 Hc%cstep_work _ IH]; lia. Qed.

(** Nothing blocks: a configuration can step as long as a task is not
    answered. *)
Lemma nf_all_answered c : nf cstep c ↔ all_answered c.
Proof.
  split.
  - intros Hnf. apply Forall_forall. intros t Ht.
    destruct (answered t) eqn:Ha; [done|]. destruct Hnf.
    apply list_elem_of_lookup in Ht as [i Hi].
    exists (pick i c). apply cstep_pick. eauto.
  - intros Hc [c' Hstep]. unfold all_answered in Hc.
    destruct Hstep as [ts1 t ts2 s t' s' Ht _]. simpl in Hc.
    apply Forall_app in Hc as [_ [Hc _]%Forall_cons]. congruence.
Qed.

Lemma not_all_answered_red c : ¬ all_answered c → red cstep c.
Proof.
  intros Hc. apply not_Forall_Exists in Hc; [|apply _].
  apply Exists_exists in Hc as (t & [i Hi]%list_elem_of_lookup & Ht).
  simpl in Ht. exists (pick i c). apply cstep_pick. exists i, t.
  by destruct (answered t).
Qed.

#[export] Instance red_cstep_dec c : Decision (red cstep c).
Proof.
  refine (cast_if_not (decide (all_answered c)));
    [by apply nf_all_answered|by apply not_all_answered_red].
Defined.

(** ** Every execution is a run of the requests in some order *)

Lemma run_cons_first r rs s :
  run (r :: rs) s =
  (result_map fst (BookService r s) :: (run rs (run [r] s).2).1,
   (run rs (run [r] s).2).2).
Proof. by rewrite (run_cons r rs), (run_cons r []). Qed.

Lemma run_length rs s : length (run rs s).1 = length rs.
Proof.
  revert s. induction rs as [|r rs IH]; intros s; [done|].
  rewrite run_cons_first. simpl. by rewrite IH.
Qed.

Lemma serial_refl c : serial c c [].
Proof. split_and!; simpl; by rewrite ?app_nil_r. Qed.

Lemma serial_trans c1 c2 c3 rs1 rs2 :
  serial c1 c2 rs1 → serial c2 c3 rs2 → serial c1 c3 (rs1 ++ rs2).
Proof.
  intros (Hp1 & Hs1 & Ha1) (Hp2 & Hs2 & Ha2). split_and!.
  - by rewrite Hp1, Hp2, (assoc (++)).
  - by rewrite run_app, <-Hs1.
  - rewrite Ha2, Ha1, run_app, <-Hs1. simpl.
    rewrite zip_with_app, filter_app by (by rewrite run_length).
    by rewrite (assoc (++)).
Qed.

(** The answer of the call of a task, as its request alone would be
    answered. *)
Lemma advance_answer t s :
  answered t = false →
  option_list (atomic_answer (advance t s).1) =
  filter (λ ro, atomic ro.1 = true)
    (zip (option_list (pending_request t))
       (run (option_list (pending_request t)) s).1).
Proof.
  destruct t as [r|f o l|]; [| |done]; intros _; simpl (option_list (pending_request _)).
  - rewrite run_cons_first. simpl (zip _ _). rewrite filter_cons, filter_nil.
    destruct r as [f o| | | | | | | | | |];
      [|by rewrite advance_pending, settle_run by done..].
    simpl. by destruct (getBooks_find f o s) as [[??]|].
  - simpl. unfold bind, ret. by destruct (getBooks_count f o l s) as [[??]|].
Qed.

(** The call of a task is the run of its request, if it had made none. *)
Lemma advance_serial ts1 t ts2 s :
  answered t = false →
  serial (ts1 ++ t :: ts2, s) (ts1 ++ (advance t s).1 :: ts2, (advance t s).2)
    (option_list (pending_request t)).
Proof.
  intros Ht. pose proof (advance_run t s) as Hrun.
  pose proof (advance_not_pending t s Ht) as Hp.
  pose proof (advance_answer t s Ht) as Hans.
  unfold serial. cbn [fst snd] in *. split_and!; [|done|].
  - rewrite !pending_app, !pending_cons, Hp. simpl. apply Permutation_app_swap_app.
  - rewrite !answers_app, !answers_cons, (atomic_answer_answered t Ht), Hans. simpl.
    rewrite <-(assoc (++)). apply Permutation_app_head, Permutation_app_comm.
Qed.

Lemma cstep_serial c c' : cstep c c' → ∃ rs, serial c c' rs.
Proof.
  intros [ts1 t ts2 s t' s' Ht Ha]. exists (option_list (pending_request t)).
  pose proof (advance_serial ts1 t ts2 s Ht) as Hs. by rewrite Ha in Hs.
Qed.

Lemma rtc_cstep_serial c c' : rtc cstep c c' → ∃ rs, serial c c' rs.
Proof.
  induction 1 as [c|c1 c2 c3 [rs1 Hs1]%cstep_serial _ [rs2 Hs2]].
  - exists []. apply serial_refl.
  - exists (rs1 ++ rs2). by eapply serial_trans.
Qed.

(** The invariant rule for executions: what every request of a class
    keeps when it runs alone, every execution of requests of the class
    keeps. *)
Lemma rtc_cstep_invariant (P : collection → Prop) (Q : request → Prop) c c' :
  (∀ r s, Q r → P s → P (next r s)) →
  rtc cstep c c' →
  Forall Q (pending c.1) → P c.2 →
  Forall Q (pending c'.1) ∧ P c'.2.
Proof.
  intros Hnext (rs & Hp & -> & _)%rtc_cstep_serial HQ HP.
  rewrite Hp in HQ. apply Forall_app in HQ as [??].
  split; [done|]. by eapply run_invariant.
Qed.

(** ** One task after the other *)

Lemma pick_settled ts1 t ts2 s :
  answered t = true → pick (length ts1) (ts1 ++ t :: ts2, s) = (ts1 ++ t :: ts2, s).
Proof.
  intros Ht. apply (pick_answered _ _ t); [simpl; by rewrite list_lookup_middle|done].
Qed.

Lemma pick_twice_pending ts1 r ts2 s :
  pick (length ts1) (pick (length ts1) (ts1 ++ Pending r :: ts2, s)) =
  (ts1 ++ Answered r (result_map fst (BookService r s)) :: ts2, (run [r] s).2).
Proof.
  pose proof (settle_run r s) as Hs. rewrite pick_middle.
  destruct r as [f o| | | | | | | | | |];
    [|rewrite advance_pending, Hs by done; simpl; by apply pick_settled..].
  rewrite run_listing. simpl (advance _ _).
  destruct (getBooks_find f o s) as [[l s']|e] eqn:E; cbn [fst snd].
  - apply getBooks_find_state in E as Hs'. subst s'. rewrite pick_middle.
    simpl (advance _ _). by rewrite (getBooks_find_then_count _ _ _ _ E), Hs, run_listing.
  - rewrite pick_settled by done. by rewrite (getBooks_find_Err _ _ _ _ E).
Qed.

Lemma exec_one_by_one_from settled rs s :
  exec (i ← seq (length settled) (length rs); [i; i]) (settled ++ arrivals rs, s) =
  (settled ++ zip_with Answered rs (run rs s).1, (run rs s).2).
Proof.
  revert settled s. induction rs as [|r rs IH]; intros settled s; [done|].
  cbn [length seq arrivals fmap list_fmap]. rewrite bind_cons, exec_app.
  cbn [exec foldl app]. fold (arrivals rs). rewrite pick_twice_pending.
  rewrite cons_middle, (assoc (++)).
  replace (S (length settled)) with (length (settled ++ [Answered r (result_map fst (BookService r s))]))
    by (rewrite length_app; simpl; lia).
  rewrite IH, (run_cons_first r rs). simpl. by rewrite <-(assoc (++)).
Qed.

(** ** A request between the two awaits of a listing *)

Lemma advance_atomic r s :
  atomic r = true →
  advance (Pending r) s = (Answered r (result_map fst (BookService r s)), (run [r] s).2).
Proof. intros Hr. rewrite advance_pending, settle_run; [done|]. by intros ?? ->. Qed.

(** The schedule that resumes another request between the find and the
    count of a listing runs [getBooks_during]. *)
Lemma exec_during f o r s :
  atomic r = true →
  exec [0; 1; 0] (arrivals [GetBooks f o; r], s) =
  ([Answered (GetBooks f o) (result_map (Listing ∘ fst) (getBooks_during f o r s));
    Answered r (result_map fst (BookService r s))], (run [r] s).2).
Proof.
  intros Hr. cbn [exec foldl arrivals fmap list_fmap].
  pose proof (λ t1 t2, pick_middle [] t1 [t2]) as Hfirst.
  pose proof (λ t1 t2, pick_middle [t1] t2 []) as Hsecond.
  pose proof (λ t1 t2, pick_settled [] t1 [t2]) as Hsettled.
  cbn [length app] in Hfirst, Hsecond, Hsettled.
  rewrite Hfirst. unfold getBooks_during, bind, meanwhile.
  simpl (advance (Pending (GetBooks _ _)) _).
  destruct (getBooks_find f o s) as [[l s']|e] eqn:E; cbn [fst snd].
  - apply getBooks_find_state in E as ->.
    rewrite Hsecond, advance_atomic, Hfirst by done. simpl (advance _ _).
    unfold bind, ret. destruct (getBooks_count f o l _) as [[x s']|e'] eqn:E'; [|done].
    by apply getBooks_count_state in E' as ->.
  - by rewrite Hsecond, advance_atomic, Hsettled by done.
Qed.

(** ** Turns *)

Lemma turns_left_pick_ne i j c : i ≠ j → turns_left (pick j c) i = turns_left c i.
Proof. intros. unfold turns_left. by rewrite pick_lookup_ne. Qed.

Lemma turns_left_pick i c : turns_left (pick i c) i ≤ pred (turns_left c i).
Proof.
  unfold turns_left. destruct (c.1 !! i) as [t|] eqn:Hi.
  - rewrite (pick_lookup _ _ _ Hi). simpl. destruct (answered t) eqn:Ht.
    + rewrite advance_answered by done. simpl. apply answered_calls_left in Ht. lia.
    + pose proof (advance_calls_left t c.2 Ht). lia.
  - unfold pick. by rewrite Hi, Hi.
Qed.

Lemma turns_left_exec l c i :
  turns_left (exec l c) i ≤ turns_left c i - length (filter (λ j, j = i) l).
Proof.
  revert c. induction l as [|j l IH]; intros c; [simpl; lia|].
  simpl. etrans; [apply IH|]. rewrite filter_cons. case_decide as Hj.
  - subst. pose proof (turns_left_pick i c). simpl. lia.
  - by rewrite turns_left_pick_ne by done.
Qed.

Lemma turns_left_le_2 c i : turns_left c i ≤ 2.
Proof. unfold turns_left. destruct (c.1 !! i) as [[[]| |]|]; simpl; lia. Qed.

Lemma turns_left_0 c i t :
  c.1 !! i = Some t → turns_left c i = 0 → ∃ o, t = Answered (task_request t) o.
Proof. unfold turns_left. intros ->. destruct t as [[]| |]; by eauto. Qed.

(** A task serves one request from its arrival to its answer. *)
Lemma advance_request_of t s : task_request (advance t s).1 = task_request t.
Proof.
  destruct t as [r|f o l|]; [| |done].
  - destruct r as [f o| | | | | | | | | |];
      [|by rewrite advance_pending, settle_run by done..].
    simpl. by destruct (getBooks_find f o s) as [[??]|].
  - simpl. unfold bind, ret. by destruct (getBooks_count f o l s) as [[??]|].
Qed.

Lemma pick_request_of i c : task_request <$> (pick i c).1 = task_request <$> c.1.
Proof.
  unfold pick. destruct (c.1 !! i) as [t|] eqn:Hi; [simpl|done].
  rewrite list_fmap_insert, advance_request_of.
  apply list_insert_id. by rewrite list_lookup_fmap, Hi.
Qed.

Lemma exec_request_of l c : task_request <$> (exec l c).1 = task_request <$> c.1.
Proof.
  revert c. induction l as [|i l IH]; intros c; [done|].
  simpl. by rewrite IH, pick_request_of.
Qed.

End concurrent_lemmas.

(** * Properties of the concurrent server *)

Section concurrent_properties.
Context `{!BookConstant, !PaginationHelper, !RegexEngine, !FieldOrder, !IdGenerator}.
Implicit Types (c : cfg) (rs : list request) (s : collection).

(** The server terminates. No execution goes on for ever, whatever
    the order in which the event loop resumes the requests, and an
    execution is never longer than the store calls its requests await: two
    for a listing (find, then countDocuments), one for every other
    request. *)
Theorem server_terminates c :
  sn cstep c ∧ ∀ n c', nsteps cstep n c c' → n + work c' ≤ work c.
Proof. split; [apply server_sn|intros n c'; apply nsteps_work]. Qed.

(** Every request is answered. An execution that cannot go on has
    answered every request, one such execution exists from every pool, and
    under any schedule that resumes a request twice the request is
    answered, whatever else the schedule runs in between. *)
Theorem every_request_is_answered c :
  (∀ c', rtc cstep c c' → nf cstep c' → all_answered c') ∧
  (∃ c', rtc cstep c c' ∧ all_answered c') ∧
  (∀ schedule i t,
     c.1 !! i = Some t → 2 ≤ length (filter (λ j, j = i) schedule) →
     ∃ o, (exec schedule c).1 !! i = Some (Answered (task_request t) o)).
Proof.
  split_and!.
  - intros c' _. apply nf_all_answered.
  - destruct (sn_wn (R:=cstep) c (server_sn c)) as (c' & ? & ?%nf_all_answered).
    by eauto.
  - intros l i t Hi Hl. pose proof (turns_left_exec l c i) as Hturns.
    pose proof (turns_left_le_2 c i).
    pose proof (f_equal (.!! i) (exec_request_of l c)) as Hreq.
    rewrite !list_lookup_fmap, Hi in Hreq.
    destruct ((exec l c).1 !! i) as [t'|] eqn:Hi'; [injection Hreq as <-|done].
    destruct (turns_left_0 _ _ _ Hi') as [o Ho]; [lia|]. exists o. by f_equal.
Qed.

(** C14: executions are serializable. Whatever the interleaving of the
    store calls, the collection it leaves is the one that the requests
    that have made their call leave when they run one after the other in
    some order, the requests still pending are the others, and every
    request that awaits the store once has the answer of that run. *)
Theorem executions_are_serializable rs s c' :
  rtc cstep (arrivals rs, s) c' →
  ∃ rs', rs ≡ₚ rs' ++ pending c'.1 ∧ c'.2 = (run rs' s).2 ∧
         answers c'.1 ≡ₚ filter (λ ro, atomic ro.1 = true) (zip rs' (run rs' s).1).
Proof.
  intros (rs' & Hp & Hs & Ha)%rtc_cstep_serial. exists rs'. simpl in *.
  by rewrite pending_arrivals in Hp; rewrite answers_arrivals in Ha.
Qed.

(** The invariants of the sequential machine hold of the concurrent
    server: along every execution the collection stays one that the
    service can produce from the empty one, its [_id]s stay unique, and
    when the pending requests are polite no user comes to stand on two
    status lists of a record. *)
Theorem concurrent_invariants c c' :
  rtc cstep c c' →
  (reachable c.2 → reachable c'.2) ∧
  (wf c.2 → wf c'.2) ∧
  (Forall polite (pending c.1) → Forall (exclusive ∘ doc) c.2 →
   Forall (exclusive ∘ doc) c'.2).
Proof.
  intros Hc. split_and!.
  - destruct (rtc_cstep_serial _ _ Hc) as (rs & _ & -> & _). apply run_reachable.
  - intros Hwf. eapply proj2, (rtc_cstep_invariant wf (λ _, True)); eauto using next_wf.
    by apply Forall_true.
  - intros Hp Hs.
    eapply proj2, (rtc_cstep_invariant _ polite); eauto using polite_next.
Qed.

(** The schedule that resumes each request twice before the next is
    the sequential machine: it answers every request as [run] does and
    leaves the collection [run] leaves. *)
Theorem one_by_one_is_run rs s :
  exec (one_by_one (length rs)) (arrivals rs, s) =
  (zip_with Answered rs (run rs s).1, (run rs s).2).
Proof. apply (exec_one_by_one_from [] rs s). Qed.

End concurrent_properties.

(** * The server at the sample requests *)

#[local] Existing Instances default_constant default_helper literal_engine
  string_field_order long_id_generator.

(** The requests of [club_evening] arrive together at an empty collection. *)
Definition rush : cfg := (arrivals club_evening, []).

(** The delete and the find of the listing go first, the two creates
    follow, then the count of the listing and the transition; the review
    is still pending. *)
Definition eager_delete : list nat := [5; 4; 0; 1; 4; 3].

Lemma server_terminates_witness :
  sn cstep rush ∧ ∀ n c', nsteps cstep n rush c' → n ≤ 7.
Proof.
  destruct (server_terminates rush) as [Hsn Hn]. split; [done|].
  intros n c' Hc. specialize (Hn n c' Hc). change (work rush) with 7 in Hn. lia.
Defined.

Lemma every_request_is_answered_witness :
  ∃ o, (exec eager_delete rush).1 !! 4 =
       Some (Answered (GetBooks [("searchTerm", "austen")] no_options) o).
Proof.
  destruct (every_request_is_answered rush) as (_ & _ & Hfair).
  apply (Hfair eager_delete 4 (Pending (GetBooks [("searchTerm", "austen")] no_options)));
    [reflexivity|vm_compute; lia].
Defined.

Lemma executions_are_serializable_witness :
  ∃ rs', club_evening ≡ₚ rs' ++ pending (exec eager_delete rush).1 ∧
         (exec eager_delete rush).2 = (run rs' []).2 ∧
         answers (exec eager_delete rush).1 ≡ₚ
           filter (λ ro, atomic ro.1 = true) (zip rs' (run rs' []).1).
Proof. apply (executions_are_serializable club_evening [] _ (exec_rtc eager_delete rush)). Defined.

Lemma concurrent_invariants_witness :
  reachable (exec eager_delete rush).2 ∧ wf (exec eager_delete rush).2 ∧
  Forall (exclusive ∘ doc) (exec eager_delete rush).2.
Proof.
  destruct (concurrent_invariants _ _ (exec_rtc eager_delete rush)) as (Hr & Hw & He).
  split_and!; [apply Hr, reachable_empty|apply Hw, wf_nil|apply He; [|done]].
  repeat constructor; by apply (bool_decide_unpack _).
Defined.
