(* ===== verification/Snapshot.v ===== *)
(** * Snapshot: what a request sees of a concurrent execution

    [getBooks] reads the page at its first await and the count at its
    second, and the store serves the calls of other requests in between.
    This file follows every request of the pool through an execution.
    The log of an execution is the list of the requests in the order of
    their first store call; the collection goes through the runs of the
    prefixes of the log.  Every operation that awaits the store once is
    answered as by its run at its place in the log; a listing holds the
    page of the collection at its place in the log, and is answered with
    that page and the count of a collection later in the log.  When no
    write is logged between the two, the listing is answered as at one
    place of the log. *)

From stdpp Require Import relations.
From S2P Require Import Prelude Document Query Update Collection Pagination.
From S2P Require Import Samples Listing Mutators Machine ReadingStatus Concurrent.

Section snapshot.
Context `{BookConstant, PaginationHelper, RegexEngine, FieldOrder, IdGenerator}.

(** The collection after the requests of a log, from [s]. *)
Definition at_log (s : collection) (log : list request) : collection := (run log s).2.

(** [seen s log t]: what the task [t] holds of the store, it has read from
    the collections the log went through from [s]. *)
Inductive seen (s : collection) (log : list request) : task → Prop :=
| seen_pending r : seen s log (Pending r)
| seen_counting f o l l1 :
    l1 `prefix_of` log →
    getBooks_find f o (at_log s l1) = Ok (l, at_log s l1) →
    seen s log (Counting f o l)
| seen_listing f o x l1 l2 :
    l1 ++ l2 `prefix_of` log →
    getBooks_find f o (at_log s l1) = Ok (data x, at_log s l1) →
    getBooks_count f o (data x) (at_log s (l1 ++ l2)) = Ok (x, at_log s (l1 ++ l2)) →
    seen s log (Answered (GetBooks f o) (Ok (Listing x)))
| seen_refused f o e l1 :
    l1 `prefix_of` log →
    getBooks_find f o (at_log s l1) = Err e →
    seen s log (Answered (GetBooks f o) (Err e))
| seen_atomic r a l1 :
    atomic r = true →
    l1 ++ [r] `prefix_of` log →
    a = result_map fst (BookService r (at_log s l1)) →
    seen s log (Answered r a).

(** [logged c c' log]: [c'] is [c] after the requests of the log have made
    their first call in that order, and every task has seen the collections
    of the log. *)
Definition logged (c c' : cfg) (log : list request) : Prop :=
  serial c c' log ∧ Forall (seen c.2 log) c'.1.

End snapshot.

(** * Lemmas *)

Section snapshot_lemmas.
Context `{BookConstant, PaginationHelper, RegexEngine, FieldOrder, IdGenerator}.
Implicit Types (t : task) (ts : list task) (s : collection) (c : cfg)
  (r : request) (log : list request).

Lemma at_log_app s log log' : at_log s (log ++ log') = at_log (at_log s log) log'.
Proof. unfold at_log. by rewrite run_app. Qed.

Lemma seen_mono s log log' t : log `prefix_of` log' → seen s log t → seen s log' t.
Proof.
  intros Hp.
  destruct 1 as [r|f o l l1 Hl Hf|f o x l1 l2 Hl Hf Hc|f o e l1 Hl Hf|r a l1 Hr Hl Ha];
    [constructor|apply (seen_counting _ _ _ _ _ l1)|apply (seen_listing _ _ _ _ _ l1 l2)
    |apply (seen_refused _ _ _ _ _ l1)|apply (seen_atomic _ _ _ _ l1)];
    first [done|by etrans].
Qed.

Lemma seen_arrivals s rs : Forall (seen s []) (arrivals rs).
Proof. apply Forall_fmap, Forall_true. intros r. constructor. Qed.

(** A count after a find of the same listing is not refused. *)
Lemma getBooks_count_after_find f o s l s1 s' :
  getBooks_find f o s = Ok (l, s1) →
  ∃ x, getBooks_count f o l s' = Ok (x, s') ∧ data x = l.
Proof.
  rewrite getBooks_find_run. destruct (check _) as [[]|] eqn:Hc; [|done].
  intros _. eexists. by rewrite getBooks_count_run.
Qed.

(** The next call of a task is made at the end of the log. *)
Lemma advance_seen s log t :
  answered t = false → seen s log t →
  seen s (log ++ option_list (pending_request t)) (advance t (at_log s log)).1.
Proof.
  intros Ht Hseen. destruct t as [r|f o l|]; [| |done].
  - simpl (option_list _). destruct (atomic r) eqn:Hr.
    + rewrite advance_atomic by done. by econstructor.
    + destruct r as [f o| | | | | | | | | |]; try done. simpl.
      destruct (getBooks_find f o (at_log s log)) as [[l s']|e] eqn:E; simpl.
      * apply getBooks_find_state in E as Hs. subst s'.
        econstructor; [by apply prefix_app_r|done].
      * econstructor; [by apply prefix_app_r|done].
  - simpl (option_list _). rewrite app_nil_r.
    inversion Hseen as [|? ? ? l1 [l2 ->] Hfind| | |]; subst.
    destruct (getBooks_count_after_find _ _ _ _ _ (at_log s (l1 ++ l2)) Hfind)
      as (x & Hx & <-).
    simpl. unfold bind, ret. rewrite Hx. simpl. by econstructor.
Qed.

Lemma logged_refl c : Forall (seen c.2 []) c.1 → logged c c [].
Proof. intros ?. split; [apply serial_refl|done]. Qed.

(** One step of the server extends the log by the request of the task, if
    the call is its first. *)
Lemma logged_step c c1 c2 log :
  logged c c1 log → cstep c1 c2 → ∃ log', logged c c2 (log ++ log').
Proof.
  intros Hlog Hc. destruct Hc as [ts1 t ts2 s t' s' Ht Ha]. destruct Hlog as [Hs Hseen].
  exists (option_list (pending_request t)).
  pose proof (advance_serial ts1 t ts2 s Ht) as Hstep. rewrite Ha in Hstep.
  split; [by eapply serial_trans|]. cbn [fst snd] in *.
  apply Forall_app in Hseen as [Hts1 [Ht' Hts2]%Forall_cons].
  assert (s = at_log c.2 log) as -> by (by destruct Hs as (_ & ? & _)).
  pose proof (advance_seen _ _ _ Ht Ht') as Hadv. rewrite Ha in Hadv.
  apply Forall_app. split; [|apply Forall_cons; split; [done|]];
    (eapply Forall_impl; [done|]); intros ?; by apply seen_mono, prefix_app_r.
Qed.

(** Every execution has a log. *)
Lemma rtc_cstep_logged c c' :
  Forall (seen c.2 []) c.1 → rtc cstep c c' → ∃ log, logged c c' log.
Proof.
  intros Hc. revert c'. apply rtc_ind_r.
  - exists []. by apply logged_refl.
  - intros c1 c2 _ Hstep [log Hlog].
    destruct (logged_step _ _ _ _ Hlog Hstep) as [log' ?]. eauto.
Qed.

(** ** What a listing that was answered has seen *)

(** The page is the page of the listing at the find, the envelope the
    envelope of the listing at the count. *)
Lemma find_count_getBooks f o x s1 s2 :
  getBooks_find f o s1 = Ok (data x, s1) →
  getBooks_count f o (data x) s2 = Ok (x, s2) →
  ∃ x1 x2, getBooks f o s1 = Ok (x1, s1) ∧ getBooks f o s2 = Ok (x2, s2) ∧
           data x = data x1 ∧ meta x = meta x2.
Proof.
  rewrite getBooks_find_run, !getBooks_run. cbv zeta.
  destruct (check _) as [[]|] eqn:Hc; [|done]. rewrite getBooks_count_run by done.
  destruct (Book.paginate _ _ (listed f o s1)) as [l|] eqn:Hp1; [|done].
  intros [= <-] [= <-].
  destruct (Book.paginate _ _ (listed f o s2)) as [l2|e] eqn:Hp2;
    [eexists _, _; split_and!; reflexivity|].
  apply paginate_Ok in Hp1 as [? _]. apply paginate_Err in Hp2 as [? _]. lia.
Qed.

(** Requests that only read leave the collection. *)
Lemma at_log_read_only s log : Forall (λ r, read_only r = true) log → at_log s log = s.
Proof.
  unfold at_log. induction 1 as [|r log Hr _ IH]; [done|].
  rewrite run_cons_first. cbn [snd].
  by destruct (run_singleton r s) as [-> | ->]; rewrite ?next_read_only.
Qed.

End snapshot_lemmas.

Section listing_lemmas.
Context `{BookConstant, PaginationHelper, RegexEngine, FieldOrder, IdGenerator}.
Implicit Types (s : collection) (log : list request).

(** A listing with no write between its find and its count is the
    listing at the find. *)
Lemma seen_listing_quiet f o x s l1 l2 :
  Forall (λ r, read_only r = true) l2 →
  getBooks_find f o (at_log s l1) = Ok (data x, at_log s l1) →
  getBooks_count f o (data x) (at_log s (l1 ++ l2)) = Ok (x, at_log s (l1 ++ l2)) →
  getBooks f o (at_log s l1) = Ok (x, at_log s l1).
Proof.
  intros Hq Hf. rewrite at_log_app, at_log_read_only by done. intros Hc.
  rewrite getBooks_split. unfold bind. by rewrite Hf.
Qed.

(** The cases of [seen], task by task. *)
Lemma seen_answered_atomic s log r a :
  atomic r = true → seen s log (Answered r a) →
  ∃ l1, l1 ++ [r] `prefix_of` log ∧ a = result_map fst (BookService r (at_log s l1)).
Proof. intros Hr. inversion 1; subst; by eauto. Qed.

Lemma seen_answered_listing s log f o x :
  seen s log (Answered (GetBooks f o) (Ok (Listing x))) →
  ∃ l1 l2, l1 ++ l2 `prefix_of` log ∧
    getBooks_find f o (at_log s l1) = Ok (data x, at_log s l1) ∧
    getBooks_count f o (data x) (at_log s (l1 ++ l2)) = Ok (x, at_log s (l1 ++ l2)).
Proof. inversion 1; subst; by eauto. Qed.

Lemma seen_answered_refused s log f o e :
  seen s log (Answered (GetBooks f o) (Err e)) →
  ∃ l1, l1 `prefix_of` log ∧ getBooks f o (at_log s l1) = Err e.
Proof.
  inversion 1 as [| | |? ? ? l1 ? Hf|]; subst; [|done]. exists l1. split; [done|].
  rewrite getBooks_split. unfold bind. by rewrite Hf.
Qed.

End listing_lemmas.

(** * Properties *)

Section snapshot_properties.
Context `{BookConstant, PaginationHelper, RegexEngine, FieldOrder, IdGenerator}.
Implicit Types (s : collection) (log : list request) (c : cfg).

(** C15: every answer has its place in the log. Every execution of the
    concurrent server has a log, the requests that have made a store call
    in the order of their first call, such that the collection is the one
    the run of the log leaves; every operation that awaits the store once
    was answered as by its run after the requests logged before it; every
    listing that was answered holds the page the listing returns after a
    prefix of the log and the envelope (page, limit and total) the listing
    returns after a longer prefix; and a listing that was rejected was
    rejected as the listing is after a prefix of the log. *)
Theorem every_answer_has_its_place rs s c' :
  rtc cstep (arrivals rs, s) c' →
  ∃ log,
    rs ≡ₚ log ++ pending c'.1 ∧ c'.2 = at_log s log ∧
    (∀ r a, atomic r = true → Answered r a ∈ c'.1 →
       ∃ l1, l1 ++ [r] `prefix_of` log ∧
             a = result_map fst (BookService r (at_log s l1))) ∧
    (∀ f o x, Answered (GetBooks f o) (Ok (Listing x)) ∈ c'.1 →
       ∃ l1 l2 x1 x2,
         l1 ++ l2 `prefix_of` log ∧
         getBooks f o (at_log s l1) = Ok (x1, at_log s l1) ∧
         getBooks f o (at_log s (l1 ++ l2)) = Ok (x2, at_log s (l1 ++ l2)) ∧
         data x = data x1 ∧ meta x = meta x2) ∧
    (∀ f o e, Answered (GetBooks f o) (Err e) ∈ c'.1 →
       ∃ l1, l1 `prefix_of` log ∧ getBooks f o (at_log s l1) = Err e).
Proof.
  intros [log [(Hp & Hs & _) Hseen]]%rtc_cstep_logged; [|apply seen_arrivals].
  simpl in Hp, Hs, Hseen. rewrite pending_arrivals in Hp. rewrite Forall_forall in Hseen.
  exists log. split_and!; [done..| | |].
  - intros r a Hr Ht%Hseen. by apply seen_answered_atomic.
  - intros f o x (l1 & l2 & ? & Hf & Hc)%Hseen%seen_answered_listing.
    destruct (find_count_getBooks _ _ _ _ _ Hf Hc) as (x1 & x2 & ? & ? & ? & ?).
    by exists l1, l2, x1, x2.
  - intros f o e Ht%Hseen. by apply seen_answered_refused.
Qed.

(** A listing that no write disturbs is atomic. In an execution in
    which no request writes, every listing is answered as [getBooks]
    answers on the collection the execution started from, although its
    two store calls are served at different times. *)
Theorem undisturbed_listing_is_atomic rs s c' f o x :
  Forall (λ r, read_only r = true) rs →
  rtc cstep (arrivals rs, s) c' →
  Answered (GetBooks f o) (Ok (Listing x)) ∈ c'.1 →
  getBooks f o s = Ok (x, s).
Proof.
  intros Hrs [log [(Hp & _ & _) Hseen]]%rtc_cstep_logged Ht; [|apply seen_arrivals].
  simpl in Hp, Hseen. rewrite pending_arrivals in Hp. rewrite Forall_forall in Hseen.
  apply Hseen, seen_answered_listing in Ht as (l1 & l2 & [l3 ->] & Hf & Hc).
  rewrite Hp, !Forall_app in Hrs. destruct Hrs as [[[Hl1 Hl2] _] _].
  pose proof (seen_listing_quiet _ _ _ _ _ _ Hl2 Hf Hc) as Hx.
  by rewrite (at_log_read_only s l1) in Hx.
Qed.

End snapshot_properties.

(** * A listing and a delete at the sample collection *)

#[local] Existing Instances default_constant default_helper literal_engine
  string_field_order long_id_generator.

(** A search for Tolkien and the removal of the one book by Tolkien; the
    store serves the delete between the two calls of the listing. *)
Definition overtaken : cfg :=
  exec [0; 1; 0]
    (arrivals [GetBooks tolkien page_1_of_10; DeleteBook "b01" club_book], sample_store).

(** Two fetches and a listing, in some order. *)
Definition readers : list request :=
  [GetBook "b01"; GetBooks tolkien page_1_of_10; GetBook "b02"].

(** The listing holds the book and counts none. *)
Example overtaken_listing :
  ∃ x, overtaken.1 !! 0 = Some (Answered (GetBooks tolkien page_1_of_10) (Ok (Listing x))) ∧
       length (data x) = 1 ∧ total (meta x) = 0.
Proof. eexists. split; [vm_compute; reflexivity|done]. Qed.

Lemma every_answer_has_its_place_witness :
  ∃ log,
    [GetBooks tolkien page_1_of_10; DeleteBook "b01" club_book] ≡ₚ log ++ pending overtaken.1 ∧
    overtaken.2 = at_log sample_store log ∧
    (∀ r a, atomic r = true → Answered r a ∈ overtaken.1 →
       ∃ l1, l1 ++ [r] `prefix_of` log ∧
             a = result_map fst (BookService r (at_log sample_store l1))) ∧
    (∀ f o x, Answered (GetBooks f o) (Ok (Listing x)) ∈ overtaken.1 →
       ∃ l1 l2 x1 x2,
         l1 ++ l2 `prefix_of` log ∧
         getBooks f o (at_log sample_store l1) = Ok (x1, at_log sample_store l1) ∧
         getBooks f o (at_log sample_store (l1 ++ l2)) =
           Ok (x2, at_log sample_store (l1 ++ l2)) ∧
         data x = data x1 ∧ meta x = meta x2) ∧
    (∀ f o e, Answered (GetBooks f o) (Err e) ∈ overtaken.1 →
       ∃ l1, l1 `prefix_of` log ∧ getBooks f o (at_log sample_store l1) = Err e).
Proof. apply every_answer_has_its_place, exec_rtc. Defined.

Lemma undisturbed_listing_is_atomic_witness :
  getBooks tolkien page_1_of_10 sample_store = Ok (tolkien_listing, sample_store).
Proof.
  apply (undisturbed_listing_is_atomic readers sample_store
           (exec [1; 0; 2; 1] (arrivals readers, sample_store)));
    [by apply (bool_decide_unpack _)|apply exec_rtc|].
  apply list_elem_of_lookup. exists 1. vm_compute. reflexivity.
Defined.
