(* ===== verification/Faults.v ===== *)
(** * Faults: store calls that fail

    The specification has the failures of the store (the store cannot be
    reached, a call times out) propagate unchanged: book.service.ts awaits
    every store call without a [try], so an operation whose call is
    rejected is rejected with the error of the store, at that await, and
    makes no further call.  A call that fails writes nothing.

    [failing] is a task whose call was rejected; [fstep] is a step of the
    server whose store may fail the call it serves.  The theorems: an
    execution with failures is an execution without them in which the
    requests whose call failed have not made that call, so a failure
    leaves no trace in the collection; no call is made again; and the
    errors the clients see are the failure of the store or the refusal of
    a listing, which does not depend on the collection. *)

From stdpp Require Import relations.
From S2P Require Import Prelude Document Query Update Collection Pagination.
From S2P Require Import Samples Listing Mutators Machine ReadingStatus Concurrent.
From S2P Require Import Snapshot.

(** The promise of the operation is rejected with the failure of the
    store. *)
Definition failing (t : task) : task :=
  Answered (task_request t) (Err Unavailable).

(** The call of the task at a position fails; nothing happens when there
    is no task or it is answered. *)
Definition fail_at (i : nat) (c : cfg) : cfg :=
  match c.1 !! i with
  | Some t => if answered t then c else (<[i := failing t]> c.1, c.2)
  | None => c
  end.

(** [stuck_before t' t]: the task [t'] is [t], or [t] with its next call
    failed. *)
Definition stuck_before (t' t : task) : Prop :=
  t' = t ∨ (answered t = false ∧ t' = failing t).

(** A pool with failures and the pool without them. *)
Definition covers (c d : cfg) : Prop :=
  c.2 = d.2 ∧ Forall2 stuck_before c.1 d.1.

Section faults.
Context `{BookConstant, PaginationHelper, RegexEngine, FieldOrder, IdGenerator}.

(** One step of the server: the store serves the call of a task, or fails
    it. *)
Inductive fstep : relation cfg :=
| fstep_served c c' : cstep c c' → fstep c c'
| fstep_failed ts1 t ts2 s :
    answered t = false →
    fstep (ts1 ++ t :: ts2, s) (ts1 ++ failing t :: ts2, s).

End faults.

(** * Lemmas *)

Section fault_lemmas.
Context `{BookConstant, PaginationHelper, RegexEngine, FieldOrder, IdGenerator}.
Implicit Types (t u : task) (ts : list task) (s : collection) (c d : cfg)
  (r : request).

Lemma failing_answered t : answered (failing t) = true.
Proof. done. Qed.

Lemma stuck_before_refl t : stuck_before t t.
Proof. by left. Qed.

(** A task with a call to make is stuck before itself only. *)
Lemma stuck_before_unanswered t u : stuck_before t u → answered t = false → u = t.
Proof. by intros [->|[_ ->]]. Qed.

Lemma covers_refl c : covers c c.
Proof. split; [done|]. apply Forall_Forall2_diag, Forall_true, stuck_before_refl. Qed.

(** The pool without failures at the task that steps. *)
Lemma covers_middle ts1 t ts2 s d :
  covers (ts1 ++ t :: ts2, s) d → answered t = false →
  ∃ ds1 ds2, d = (ds1 ++ t :: ds2, s) ∧
    Forall2 stuck_before ts1 ds1 ∧ Forall2 stuck_before ts2 ds2.
Proof.
  destruct d as [ds s']. intros [Hs Hts] Ht. simpl in *. subst s'.
  apply Forall2_app_inv_l in Hts as (ds1 & ds' & ? & Hts & ->).
  apply Forall2_cons_inv_l in Hts as (u & ds2 & Hu & ? & ->).
  apply stuck_before_unanswered in Hu as ->; [|done]. eauto.
Qed.

Lemma covers_replace ts1 t' ts2 ds1 t ds2 s :
  Forall2 stuck_before ts1 ds1 → Forall2 stuck_before ts2 ds2 → stuck_before t' t →
  covers (ts1 ++ t' :: ts2, s) (ds1 ++ t :: ds2, s).
Proof. intros. split; [done|]. apply Forall2_app; [done|by constructor]. Qed.

(** A step with failures is a step without, or none. *)
Lemma fstep_simulated c c' d :
  covers c d → fstep c c' → ∃ d', rtc cstep d d' ∧ covers c' d'.
Proof.
  intros Hcov Hstep. destruct Hstep as [? ? Hc|ts1 t ts2 s Ht];
    [destruct Hc as [ts1 t ts2 s t' s' Ht Ha]|];
    destruct (covers_middle _ _ _ _ _ Hcov Ht) as (ds1 & ds2 & -> & ? & ?).
  - exists (ds1 ++ t' :: ds2, s'). split; [by apply rtc_once, cstep_task|].
    apply covers_replace; [done..|apply stuck_before_refl].
  - exists (ds1 ++ t :: ds2, s). split; [done|].
    apply covers_replace; [done..|by right].
Qed.

Lemma rtc_fstep_simulated c c' d :
  covers c d → rtc fstep c c' → ∃ d', rtc cstep d d' ∧ covers c' d'.
Proof.
  intros Hcov Hrtc. revert d Hcov.
  induction Hrtc as [c|c1 c2 c3 Hstep _ IH]; intros d Hcov; [by exists d|].
  destruct (fstep_simulated _ _ _ Hcov Hstep) as (d1 & ? & Hcov1).
  destruct (IH _ Hcov1) as (d2 & ? & ?). exists d2. split; [by etrans|done].
Qed.

(** ** No call is made again *)

Lemma fstep_work c c' : fstep c c' → work c' < work c.
Proof.
  intros [? ? ?|ts1 t ts2 s Ht]; [by apply cstep_work|].
  rewrite !work_app. unfold work. simpl.
  assert (calls_left t ≠ 0) by (by destruct t as [[]| |]). lia.
Qed.

Lemma faulty_sn c : sn fstep c.
Proof.
  assert (∀ n c, work c < n → sn fstep c) as Hsn; [|apply (Hsn (S (work c))); lia].
  clear c. induction n as [|n IH]; intros c Hn; [lia|].
  constructor. intros c' Hc%fstep_work. apply IH. lia.
Qed.

Lemma nsteps_fstep_work n c c' : nsteps fstep n c c' → n + work c' ≤ work c.
Proof. induction 1 as [|n c1 c2 c3 Hc%fstep_work _ IH]; lia. Qed.

(** ** The failure of a position *)

Lemma fail_at_rtc i c : rtc fstep c (fail_at i c).
Proof.
  unfold fail_at. destruct (c.1 !! i) as [t|] eqn:Hi; [|done].
  destruct (answered t) eqn:Ht; [done|]. destruct c as [ts s]. simpl in *.
  apply list_elem_of_split_length in Hi as (ts1 & ts2 & -> & ->).
  rewrite insert_app_r_alt, Nat.sub_diag by done.
  by apply rtc_once, fstep_failed.
Qed.

Lemma cstep_rtc_fstep c c' : rtc cstep c c' → rtc fstep c c'.
Proof. induction 1; [done|]. eapply rtc_l; [by apply fstep_served|done]. Qed.

(** A task serves one request, served or failed. *)
Lemma fstep_request_of c c' :
  fstep c c' → task_request <$> c'.1 = task_request <$> c.1.
Proof.
  intros [? ? Hc|ts1 t ts2 s Ht]; [destruct Hc as [ts1 t ts2 s t' s' Ht Ha]|];
    simpl; rewrite !fmap_app, !fmap_cons; [|done].
  by rewrite <-(advance_request_of t s), Ha.
Qed.

Lemma rtc_fstep_request_of c c' :
  rtc fstep c c' → task_request <$> c'.1 = task_request <$> c.1.
Proof.
  induction 1 as [|c1 c2 c3 Hstep _ IH]; [done|]. by rewrite IH, (fstep_request_of c1 c2).
Qed.

Lemma task_request_arrivals rs : task_request <$> arrivals rs = rs.
Proof. induction rs as [|r rs IH]; [done|]. simpl. by f_equal. Qed.

(** ** The refusals of a listing *)

(** A listing is refused for its filter or its window, whatever the
    collection. *)
Lemma getBooks_Err_any f o s s' e : getBooks f o s = Err e → getBooks f o s' = Err e.
Proof.
  rewrite !getBooks_run. cbv zeta. destruct (check _) as [[]|]; [|done].
  destruct (Book.paginate _ _ (listed f o s)) as [|e1] eqn:E; [done|].
  intros [= ->]. apply paginate_Err in E as [? ->].
  destruct (Book.paginate _ _ (listed f o s')) as [|e2] eqn:E'.
  - apply paginate_Ok in E' as [? _]. lia.
  - by apply paginate_Err in E' as [_ ->].
Qed.

(** Without failures the only requests that are rejected are listings. *)
Lemma logged_rejected s log r e :
  seen s log (Answered r (Err e)) → ∃ f o, r = GetBooks f o ∧ getBooks f o s = Err e.
Proof.
  destruct (atomic r) eqn:Hr.
  - intros (l1 & _ & Ha)%seen_answered_atomic; [|done].
    destruct (BookService_resolves r (at_log s l1)) as [a Hres];
      [by intros ?? ->|]. by rewrite Hres in Ha.
  - destruct r; try done. intros (l1 & _ & He)%seen_answered_refused.
    eauto using getBooks_Err_any.
Qed.

End fault_lemmas.

(** * Properties *)

Section fault_properties.
Context `{BookConstant, PaginationHelper, RegexEngine, FieldOrder, IdGenerator}.
Implicit Types (s : collection) (c d : cfg) (r : request).

(** A call that fails leaves no trace. Every execution in which
    the store fails calls is an execution without failures in which the
    requests whose call failed have not made that call: the collection is
    the same, every other request is at the same stage with the same
    answer, and the collection is the one the run of the requests whose
    first call was served leaves, in the order of those calls. *)
Theorem failed_calls_leave_no_trace rs s c' :
  rtc fstep (arrivals rs, s) c' →
  ∃ d log,
    rtc cstep (arrivals rs, s) d ∧
    c'.2 = d.2 ∧ Forall2 stuck_before c'.1 d.1 ∧
    rs ≡ₚ log ++ pending d.1 ∧ c'.2 = at_log s log.
Proof.
  intros (d & Hd & Hs & Hts)%(rtc_fstep_simulated _ _ _ (covers_refl _)).
  apply rtc_cstep_serial in Hd as Hlog. destruct Hlog as (log & Hp & Hrun & _).
  simpl in Hp, Hrun. rewrite pending_arrivals in Hp.
  exists d, log. split_and!; [done..|by rewrite Hs].
Qed.

(** No call is made again: an execution with failures ends, after at most
    as many steps as the requests have store calls to make. *)
Theorem no_call_is_made_again c :
  sn fstep c ∧ ∀ n c', nsteps fstep n c c' → n + work c' ≤ work c.
Proof. split; [apply faulty_sn|intros n c'; apply nsteps_fstep_work]. Qed.

(** C30: the errors are the store's. A request is rejected with the
    failure of the store, or it is a listing that the store refuses for
    its filter or its window, on every collection: the service raises no
    error of its own, and no operation on a single record is rejected
    while the store can be reached. *)
Theorem rejections_are_the_stores rs s c' r e :
  rtc fstep (arrivals rs, s) c' → Answered r (Err e) ∈ c'.1 →
  e = Unavailable ∨ ∃ f o, r = GetBooks f o ∧ ∀ s', getBooks f o s' = Err e.
Proof.
  intros (d & Hd & _ & Hts)%(rtc_fstep_simulated _ _ _ (covers_refl _))
    [i Hi]%list_elem_of_lookup.
  destruct (Forall2_lookup_l _ _ _ _ _ Hts Hi) as (t & Ht & [<-|[_ [= _ ->]]]);
    [right|by left].
  apply rtc_cstep_logged in Hd as [log [_ Hseen]]; [|apply seen_arrivals].
  rewrite Forall_forall in Hseen.
  destruct (logged_rejected s log r e) as (f & o & -> & He);
    [by eapply Hseen, list_elem_of_lookup_2|].
  exists f, o. split; [done|]. intros s'. by eapply getBooks_Err_any.
Qed.

End fault_properties.

(** * An outage at the sample collection *)

#[local] Existing Instances default_constant default_helper literal_engine
  string_field_order long_id_generator.

(** A listing, a delete and a transition.  The store serves the find of
    the listing and the delete, then fails the count of the listing and
    the call of the transition. *)
Definition errands_in_outage : list request :=
  [GetBooks tolkien page_1_of_10; DeleteBook "b01" club_book;
   AddToFinished "b03" ["a@x.com"]].

Definition outage : cfg :=
  fail_at 2 (fail_at 0 (exec [0; 1] (arrivals errands_in_outage, sample_store))).

Lemma outage_rtc : rtc fstep (arrivals errands_in_outage, sample_store) outage.
Proof.
  unfold outage. etrans; [apply cstep_rtc_fstep, exec_rtc|].
  etrans; apply fail_at_rtc.
Qed.

(** The delete is the only request that has left a trace. *)
Example outage_answers :
  outage =
  ([Answered (GetBooks tolkien page_1_of_10) (Err Unavailable);
    Answered (DeleteBook "b01" club_book)
      (Ok (Found (Some (mkDoc "b01"
         (sample_book "The Hobbit" "J.R.R. Tolkien" "Fantasy" "1937-09-21")))));
    Answered (AddToFinished "b03" ["a@x.com"]) (Err Unavailable)],
   at_log sample_store [DeleteBook "b01" club_book]).
Proof. vm_compute. reflexivity. Qed.

Lemma failed_calls_leave_no_trace_witness :
  ∃ d log,
    rtc cstep (arrivals errands_in_outage, sample_store) d ∧
    outage.2 = d.2 ∧ Forall2 stuck_before outage.1 d.1 ∧
    errands_in_outage ≡ₚ log ++ pending d.1 ∧ outage.2 = at_log sample_store log.
Proof. apply failed_calls_leave_no_trace, outage_rtc. Defined.

Lemma rejections_are_the_stores_witness :
  Unavailable = Unavailable ∨
  ∃ f o, AddToFinished "b03" ["a@x.com"] = GetBooks f o ∧
         ∀ s', getBooks f o s' = Err Unavailable.
Proof.
  apply (rejections_are_the_stores errands_in_outage sample_store outage);
    [apply outage_rtc|].
  apply list_elem_of_lookup. exists 2. vm_compute. reflexivity.
Defined.
