(* ===== verification/Catalogue.v ===== *)
(** * Catalogue: what the service promises, on a finite map

    The specification describes the service as operations on a catalogue
    of records found by key; it says nothing of the order in which the
    store keeps them.  Here the catalogue is a finite map from keys to
    books, and what each operation promises is a relation on it
    ([promise]): a record fetched, inserted under a key not in use,
    rewritten in place by the function the specification gives for the
    operation ([contract]), or removed; a listing as a window of some
    enumeration of the records that pass the filter, in the order of the
    sort when there is one.

    The collection of the model is a list in insertion order.  [abs] reads
    it as a catalogue, and the section on refinement shows that every step
    of the server is a step the catalogue promises, for single steps, for
    runs and for the executions of the concurrent server. *)

From stdpp Require Import gmap.
From S2P Require Import Prelude Document Query Update Collection Pagination.
From S2P Require Import Samples Listing Mutators Machine Concurrent.

Abbreviation catalogue := (gmap ObjectId IBook).

(** ** The abstraction *)

Definition entry (d : BookDocument) : ObjectId * IBook := (_id d, doc d).

Definition record (kb : ObjectId * IBook) : BookDocument := mkDoc kb.1 kb.2.

Definition abs (s : collection) : catalogue := list_to_map (entry <$> s).

(** ** The contract of the single-record operations

    Each list operation rewrites some of the four lists of a record, each
    from the value it had. *)

Definition status_lists : list membership := [ReadSoon; CurrentlyReading; Finished].

Definition rewrite_lists (ms : list membership)
    (f : membership → list string → list string) (b : IBook) : IBook :=
  foldr (λ m b', set_list m (f m (get_list m b)) b') b ms.

(** The payload joins the target list as a set; the acting user, the last
    of the payload, leaves the other two. *)
Definition move_to (target : membership) (payload : list string) : IBook → IBook :=
  rewrite_lists status_lists
    (λ m l, if decide (m = target) then add_to_set payload l
            else pull_opt (last payload) l).

(** The user leaves all four lists. *)
Definition leave (email : string) : IBook → IBook :=
  rewrite_lists (Wishlist :: status_lists) (λ _, pull email).

(** The record an operation addresses and what it does to it. *)
Definition contract (r : request) : option (ObjectId * (IBook → IBook)) :=
  match r with
  | UpdateBook i p => Some (i, apply_partial p)
  | AddReview i review => Some (i, λ b, set_reviews (reviews b ++ [review]) b)
  | AddToWishlist i payload => Some (i, set_list Wishlist payload)
  | RemoveFromWishlist i email => Some (i, leave email)
  | AddToReadSoon i payload => Some (i, move_to ReadSoon payload)
  | AddToCurrentlyReading i payload => Some (i, move_to CurrentlyReading payload)
  | AddToFinished i payload => Some (i, move_to Finished payload)
  | GetBooks _ _ | GetBook _ | CreateBook _ | DeleteBook _ _ => None
  end.

Section catalogue.
Context `{BookConstant, PaginationHelper, RegexEngine, FieldOrder, IdGenerator}.
Implicit Types (m : catalogue) (r : request) (s : collection) (i k : ObjectId)
  (b : IBook) (filters : IBookFilterableFields) (o : IPaginationOptions).

(** ** The contract of the listing *)

(** The records of the catalogue that pass a filter request. *)
Definition passing filters m : catalogue :=
  filter (λ kb, passes filters (record kb)) m.

Definition in_order o (l : collection) : Prop :=
  match sort_conditions (calculate_pagination o) with
  | Some sc => StronglySorted (sort_le sc) l
  | None => True
  end.

(** The page is the window [skip], [limit] of an enumeration of the
    passing records, each once, in the order of the sort; the total is
    their number. *)
Definition promised_listing m filters o (x : IGenericResponse collection) : Prop :=
  let p := calculate_pagination o in
  ∃ l : collection,
    entry <$> l ≡ₚ map_to_list (passing filters m) ∧
    in_order o l ∧
    Book.paginate (skip p) (limit p) l = Ok (data x) ∧
    meta x = mkMeta (page p) (limit p) (size (passing filters m)).

(** A listing is refused when the store refuses its filter or its skip. *)
Definition refused filters o (e : store_error) : Prop :=
  check (where_condition (and_conditions filters)) = Err e ∨
  (check (where_condition (and_conditions filters)) = Ok tt ∧
   (skip (calculate_pagination o) < 0)%Z ∧
   e = NegativeSkip (skip (calculate_pagination o))).

(** ** The promise of the service *)

Inductive promise m : request → result store_error response → catalogue → Prop :=
| promise_listing filters o x :
    promised_listing m filters o x →
    promise m (GetBooks filters o) (Ok (Listing x)) m
| promise_refused filters o e :
    refused filters o e → promise m (GetBooks filters o) (Err e) m
| promise_get i :
    promise m (GetBook i) (Ok (Found (mkDoc i <$> m !! i))) m
| promise_create b k :
    m !! k = None →
    promise m (CreateBook b) (Ok (Created (mkDoc k b))) (<[k := b]> m)
| promise_delete i b :
    promise m (DeleteBook i b) (Ok (Found (mkDoc i <$> m !! i))) (delete i m)
| promise_change r i f :
    contract r = Some (i, f) →
    promise m r (Ok (Found (mkDoc i ∘ f <$> m !! i))) (alter f i m).

(** Requests answered one after the other. *)
Inductive promises : catalogue → list request →
    list (result store_error response) → catalogue → Prop :=
| promises_nil m : promises m [] [] m
| promises_cons m r a m' rs answers m'' :
    promise m r a m' → promises m' rs answers m'' →
    promises m (r :: rs) (a :: answers) m''.

End catalogue.

(** * Lemmas *)

Section abstraction.
Implicit Types (m : catalogue) (s : collection) (i k : ObjectId) (b : IBook)
  (d : BookDocument).

Lemma record_entry d : record (entry d) = d.
Proof. by destruct d. Qed.

Lemma abs_nil : abs [] = ∅.
Proof. done. Qed.

Lemma abs_cons d s : abs (d :: s) = <[_id d := doc d]> (abs s).
Proof. done. Qed.

Lemma abs_lookup s i : abs s !! i = doc <$> lookup_id i s.
Proof.
  induction s as [|d s IH]; [done|]. rewrite abs_cons, lookup_id_cons.
  case_decide; subst; [by rewrite lookup_insert_eq|by rewrite lookup_insert_ne].
Qed.

Lemma lookup_id_abs s i : lookup_id i s = mkDoc i <$> abs s !! i.
Proof.
  rewrite abs_lookup. destruct (lookup_id i s) as [d|] eqn:E; [simpl|done].
  apply lookup_id_Some in E as [_ <-]. by destruct d.
Qed.

Lemma abs_fresh s i : i ∉ ids s → abs s !! i = None.
Proof. intros Hi%lookup_id_None. by rewrite abs_lookup, Hi. Qed.

Lemma abs_snoc s i b : i ∉ ids s → abs (s ++ [mkDoc i b]) = <[i := b]> (abs s).
Proof.
  intros Hi. apply map_eq. intros j. rewrite abs_lookup, lookup_id_app.
  destruct (decide (i = j)) as [->|].
  - apply lookup_id_None in Hi. rewrite Hi, lookup_insert_eq. simpl.
    by rewrite lookup_id_cons, decide_True.
  - rewrite lookup_insert_ne, abs_lookup by done.
    destruct (lookup_id j s); [done|]. simpl.
    by rewrite lookup_id_cons, decide_False.
Qed.

Lemma abs_update_id s i f : abs (update_id i f s) = alter f i (abs s).
Proof.
  apply map_eq. intros j. rewrite abs_lookup. destruct (decide (i = j)) as [->|].
  - rewrite lookup_update_id, lookup_alter_eq, abs_lookup.
    by destruct (lookup_id j s).
  - by rewrite lookup_update_id_ne, lookup_alter_ne, abs_lookup.
Qed.

Lemma abs_delete_id s i : wf s → abs (delete_id i s) = delete i (abs s).
Proof.
  intros Hs. apply map_eq. intros j. rewrite abs_lookup.
  destruct (decide (i = j)) as [->|].
  - by rewrite lookup_delete_id, lookup_delete_eq.
  - by rewrite lookup_delete_id_ne, lookup_delete_ne, abs_lookup.
Qed.

Lemma entries_fst s : (entry <$> s).*1 = ids s.
Proof. unfold ids. by rewrite <-list_fmap_compose. Qed.

(** The catalogue of a collection with unique keys holds its records and
    no other. *)
Lemma map_to_list_filter_abs (P : ObjectId * IBook → Prop) `{!∀ x, Decision (P x)} s :
  wf s → map_to_list (filter P (abs s)) ≡ₚ entry <$> filter (P ∘ entry) s.
Proof.
  intros Hs. apply NoDup_Permutation; [apply NoDup_map_to_list| |].
  - apply NoDup_fmap_2_strong; [|by eapply NoDup_filter, NoDup_fmap_1].
    intros d d' [_ Hd]%list_elem_of_filter [_ Hd']%list_elem_of_filter Heq.
    apply (wf_inj s); [done..|]. by injection Heq.
  - intros [k b]. rewrite elem_of_map_to_list, map_lookup_filter_Some.
    unfold abs. rewrite <-elem_of_list_to_map by (by rewrite entries_fst).
    rewrite !list_elem_of_fmap. setoid_rewrite list_elem_of_filter.
    split; [intros [(d & -> & ?) ?]|intros (d & -> & ? & ?)]; eauto.
Qed.

End abstraction.

(** * The promise determines the service *)

Section promise_lemmas.
Context `{BookConstant, PaginationHelper, RegexEngine, FieldOrder, IdGenerator}.
Implicit Types (m : catalogue) (r : request).

(** Nothing but a create or a listing leaves the service a choice: the
    answer and the catalogue are determined.  A create chooses the key, a
    listing the enumeration; neither chooses the catalogue it leaves
    beyond the key. *)
Lemma promise_deterministic m r a1 m1 a2 m2 :
  atomic r = true → (∀ b, r ≠ CreateBook b) →
  promise m r a1 m1 → promise m r a2 m2 → a1 = a2 ∧ m1 = m2.
Proof.
  intros Hr Hb. destruct 1; inversion 1; simplify_eq/=; try done.
  by destruct (Hb b).
Qed.

Lemma promise_listing_reads m filters o a m' :
  promise m (GetBooks filters o) a m' → m' = m.
Proof. by inversion 1. Qed.

(** A promised step changes at most the record it addresses. *)
Lemma promise_frame m r a m' j :
  promise m r a m' →
  (∀ b, r ≠ DeleteBook j b) → (∀ f, contract r ≠ Some (j, f)) →
  m !! j = None ∨ m' !! j = m !! j.
Proof.
  destruct 1 as [| | |b k Hk|i b|r i f Hc]; intros Hd Hf; try by right.
  - destruct (decide (k = j)) as [->|]; [by left|right; by rewrite lookup_insert_ne].
  - right. rewrite lookup_delete_ne; [done|]. intros ->. by destruct (Hd b).
  - right. rewrite lookup_alter_ne; [done|]. intros ->. by destruct (Hf f).
Qed.

End promise_lemmas.

(** * The service implements the contract *)

Section refinement.
Context `{BookConstant, PaginationHelper, RegexEngine, FieldOrder, IdGenerator}.
Implicit Types (m : catalogue) (r : request) (s : collection) (i k : ObjectId)
  (b : IBook) (filters : IBookFilterableFields) (o : IPaginationOptions).

(** ** Single records: the update documents do what the contract says *)

Lemma contract_update_of r i u :
  update_of r = Some (i, u) →
  ∃ f, contract r = Some (i, f) ∧ ∀ b, apply_update u b = f b.
Proof.
  destruct r; intros [= <- <-]; eexists; (split; [done|]); by intros [].
Qed.

Lemma updated_abs i u f s :
  (∀ b, apply_update u b = f b) →
  updated i u s = mkDoc i ∘ f <$> abs s !! i.
Proof.
  intros Hf. unfold updated. rewrite lookup_id_abs, <-!option_fmap_compose.
  apply option_fmap_ext. intros b. simpl. by rewrite Hf.
Qed.

Lemma update_promise r i u s :
  update_of r = Some (i, u) →
  promise (abs s) r (Ok (Found (updated i u s))) (abs (update_id i (apply_update u) s)).
Proof.
  intros Hu. destruct (contract_update_of _ _ _ Hu) as (f & Hc & Hf).
  rewrite (updated_abs _ _ f), abs_update_id by done.
  rewrite (alter_ext _ f) by (intros; apply Hf). by constructor.
Qed.

(** ** The listing *)

Lemma passing_abs filters s :
  wf s → map_to_list (passing filters (abs s)) ≡ₚ entry <$> matching filters s.
Proof.
  intros Hs. unfold passing. rewrite map_to_list_filter_abs, matching_passes by done.
  erewrite list_filter_iff; [done|]. intros d. simpl. by rewrite record_entry.
Qed.

Lemma size_passing_abs filters s :
  wf s → size (passing filters (abs s)) = length (matching filters s).
Proof.
  intros Hs. by rewrite <-length_map_to_list, passing_abs, length_fmap.
Qed.

Lemma listed_in_order filters o s : in_order o (listed filters o s).
Proof.
  unfold in_order, listed. destruct (sort_conditions _) as [sc|]; [|done].
  apply sorted_StronglySorted.
Qed.

Lemma getBooks_promised filters o s x s' :
  wf s → getBooks filters o s = Ok (x, s') → promised_listing (abs s) filters o x.
Proof.
  intros Hs (_ & Hp & Hm & _)%getBooks_Ok. exists (listed filters o s).
  split_and!; [|apply listed_in_order|done|by rewrite size_passing_abs].
  by rewrite passing_abs, listed_Permutation.
Qed.

Lemma getBooks_refused filters o s e :
  getBooks filters o s = Err e → refused filters o e.
Proof.
  rewrite getBooks_run. unfold refused. simpl.
  destruct (check _) as [[]|e']; [|naive_solver].
  destruct (Book.paginate _ _ _) as [l|e'] eqn:Hp; [done|].
  apply paginate_Err in Hp as [? ->]. naive_solver.
Qed.

(** ** One request *)

Lemma resolve_promise r s a s' :
  wf s → BookService r s = Ok (a, s') → promise (abs s) r (Ok a) (abs s').
Proof.
  intros Hs Hr. destruct (update_of r) as [[i u]|] eqn:Hu.
  { rewrite (BookService_update _ _ _ _ Hu) in Hr. injection Hr as <- <-.
    by apply update_promise. }
  destruct r as [f o|i|b|?|i b|?|?|?|?|?|?]; try done.
  - rewrite BookService_GetBooks in Hr.
    destruct (getBooks f o s) as [[x s'']|e] eqn:E; simplify_eq.
    constructor. by eapply getBooks_promised.
  - cbn [BookService] in Hr. unfold bind, ret in Hr. rewrite getBook_run in Hr.
    simplify_eq. rewrite lookup_id_abs. constructor.
  - cbn [BookService] in Hr. unfold bind, ret in Hr. rewrite createBook_run in Hr.
    simplify_eq. rewrite abs_snoc by apply fresh_id_fresh.
    constructor. apply abs_fresh, fresh_id_fresh.
  - cbn [BookService] in Hr. unfold bind, ret in Hr. rewrite deleteBook_run in Hr.
    simplify_eq. rewrite lookup_id_abs, abs_delete_id by done. constructor.
Qed.

Lemma reject_promise r s e :
  BookService r s = Err e → promise (abs s) r (Err e) (abs s).
Proof.
  intros Hr.
  assert ((∃ f o, r = GetBooks f o) ∨ (∀ f o, r ≠ GetBooks f o))
    as [(f & o & ->)|Hn] by (destruct r; eauto).
  - rewrite BookService_GetBooks in Hr.
    destruct (getBooks f o s) as [[??]|e'] eqn:E; simplify_eq.
    constructor. by eapply getBooks_refused.
  - destruct (BookService_resolves r s Hn) as [a Ha]. congruence.
Qed.

Lemma step_promise s r answer s' :
  wf s → step s r answer s' → promise (abs s) r answer (abs s').
Proof.
  intros Hs [r' a s'' Hr|r' e Hr]; [by apply resolve_promise|by apply reject_promise].
Qed.

Lemma step_wf s r answer s' : wf s → step s r answer s' → wf s'.
Proof. intros Hs [->| ->]%step_next; [by apply next_wf|done]. Qed.

Lemma run_promises rs s :
  wf s → promises (abs s) rs (run rs s).1 (abs (run rs s).2).
Proof.
  revert s. induction rs as [|r rs IH]; intros s Hs; [constructor|].
  rewrite run_cons_first. pose proof (run_step r s) as Hstep.
  rewrite (run_cons r []). simpl.
  econstructor; [by eapply step_promise|]. by eapply IH, step_wf.
Qed.

End refinement.

(** * Properties *)

Section catalogue_properties.
Context `{BookConstant, PaginationHelper, RegexEngine, FieldOrder, IdGenerator}.
Implicit Types (r : request) (s : collection) (rs : list request).

(** C22: the service keeps its promise. On a collection with unique keys,
    every step of the server, resolved or rejected, is a step the
    catalogue promises: the answer is the promised answer and the
    collection the step leaves reads as the promised catalogue; its keys
    are unique again, so the next step is promised too. *)
Theorem service_keeps_its_promise s r answer s' :
  wf s → step s r answer s' →
  wf s' ∧ promise (abs s) r answer (abs s').
Proof. intros Hs Hstep. split; [by eapply step_wf|by apply step_promise]. Qed.

(** The concurrent server keeps the promise. Whatever the order in
    which the event loop resumes the requests in flight, the catalogue is
    the one promised to the requests that have made their store call,
    answered one after the other in some order, and every operation on a
    single record has the answer promised to it in that order. *)
Theorem executions_keep_the_promise rs s c' :
  wf s → rtc cstep (arrivals rs, s) c' →
  ∃ rs' answers',
    rs ≡ₚ rs' ++ pending c'.1 ∧
    promises (abs s) rs' answers' (abs c'.2) ∧
    answers c'.1 ≡ₚ filter (λ ro, atomic ro.1 = true) (zip rs' answers').
Proof.
  intros Hs (rs' & Hp & -> & Ha)%rtc_cstep_serial. simpl in *.
  rewrite pending_arrivals in Hp. rewrite answers_arrivals in Ha.
  exists rs', (run rs' s).1. split_and!; [done|by apply run_promises|done].
Qed.

End catalogue_properties.

(** * The promise at the sample collections *)

#[local] Existing Instances default_constant default_helper literal_engine
  string_field_order long_id_generator.

Lemma service_keeps_its_promise_witness :
  wf (next (AddToFinished "b03" ["a@x.com"]) club_store) ∧
  promise (abs club_store) (AddToFinished "b03" ["a@x.com"])
    (result_map fst (BookService (AddToFinished "b03" ["a@x.com"]) club_store))
    (abs (next (AddToFinished "b03" ["a@x.com"]) club_store)).
Proof.
  refine (service_keeps_its_promise club_store (AddToFinished "b03" ["a@x.com"]) _ _ _ _);
    [by apply (bool_decide_unpack _)|].
  apply step_resolve. vm_compute. reflexivity.
Defined.

Lemma executions_keep_the_promise_witness :
  ∃ rs' answers',
    club_evening ≡ₚ rs' ++ pending (exec eager_delete rush).1 ∧
    promises (abs []) rs' answers' (abs (exec eager_delete rush).2) ∧
    answers (exec eager_delete rush).1 ≡ₚ
      filter (λ ro, atomic ro.1 = true) (zip rs' answers').
Proof.
  apply (executions_keep_the_promise club_evening [] _ wf_nil (exec_rtc eager_delete rush)).
Defined.
