(* ===== verification/Commute.v ===== *)
(** * Commute: requests on different records

    Ten of the eleven operations address one record by its key and look
    at no other, and eight of them write it.  Two requests that address
    different records do not see each other: run in either order they
    are answered the same and leave the same collection.  So for requests
    on pairwise different records the order in which the store serves
    them does not matter: each is answered as if it ran alone on the
    collection the requests found, and every schedule of the concurrent
    server that answers them all ends in the same collection.

    A create is left out: the key it is given depends on the keys in use,
    and a request that addresses that key sees it.  A listing is left
    out: it reads every record. *)

From stdpp Require Import relations.
From S2P Require Import Prelude Document Query Update Collection Pagination.
From S2P Require Import Samples Listing Mutators Machine ReadingStatus Concurrent.

(** The record a request addresses, for the operations on a record that
    is there or not whatever the other requests do. *)
Definition key_of (r : request) : option ObjectId :=
  match r with
  | GetBook i | DeleteBook i _ => Some i
  | GetBooks _ _ | CreateBook _ => None
  | _ => fst <$> update_of r
  end.

Definition keys (rs : list request) : list ObjectId := omap key_of rs.

(** Requests on single records, no two on the same. *)
Definition apart (rs : list request) : Prop :=
  Forall (λ r, is_Some (key_of r)) rs ∧ NoDup (keys rs).

#[export] Instance apart_dec rs : Decision (apart rs).
Proof. unfold apart. apply _. Defined.

Section commute.
Context `{BookConstant, PaginationHelper, RegexEngine, FieldOrder, IdGenerator}.

(** The answer of a request that runs alone on a collection. *)
Definition alone (s : collection) (r : request) : result store_error response :=
  result_map fst (BookService r s).

End commute.

(** * Lemmas *)

Section apart_lemmas.
Implicit Types (r : request) (rs : list request) (i j : ObjectId).

Lemma keys_cons r rs : keys (r :: rs) = option_list (key_of r) ++ keys rs.
Proof. unfold keys. simpl. by destruct (key_of r). Qed.

Lemma apart_cons r rs :
  apart (r :: rs) ↔ ∃ i, key_of r = Some i ∧ (i ∉ keys rs) ∧ apart rs.
Proof.
  unfold apart. rewrite Forall_cons, keys_cons. split.
  - intros [[[i Hi] ?] Hnd]. rewrite Hi in Hnd. apply NoDup_cons in Hnd as [??]. eauto.
  - intros (i & Hi & ? & ? & ?). rewrite Hi. split; [eauto|]. by apply NoDup_cons.
Qed.

Lemma apart_Permutation rs rs' : rs ≡ₚ rs' → apart rs → apart rs'.
Proof. intros Hp. unfold apart, keys. by rewrite Hp. Qed.

Lemma elem_of_keys i rs : i ∈ keys rs ↔ ∃ r, r ∈ rs ∧ key_of r = Some i.
Proof. apply list_elem_of_omap. Qed.

Lemma key_of_atomic r i : key_of r = Some i → atomic r = true.
Proof. by destruct r. Qed.

Lemma key_of_not_listing r i f o : key_of r = Some i → r ≠ GetBooks f o.
Proof. by intros ? ->. Qed.

End apart_lemmas.

Section commute_lemmas.
Context `{BookConstant, PaginationHelper, RegexEngine, FieldOrder, IdGenerator}.
Implicit Types (r : request) (rs : list request) (s : collection) (i j : ObjectId).

Lemma touched_keyed r i s : key_of r = Some i → touched r s ≠ Some i → touched r s = None.
Proof. destruct r; intros [= <-]; simpl; congruence. Qed.

Lemma next_keyed_lookup r i j s :
  key_of r = Some i → i ≠ j → lookup_id j (next r s) = lookup_id j s.
Proof.
  intros Hr Hij. apply next_lookup_ne. destruct r; simplify_eq/=; congruence.
Qed.

(** The answer of a request on a record is read off the record. *)
Lemma alone_frame r i s s' :
  key_of r = Some i → lookup_id i s = lookup_id i s' → alone s r = alone s' r.
Proof.
  intros Hr Hi. unfold alone. destruct (update_of r) as [[j u]|] eqn:Hu.
  - rewrite !(BookService_update _ _ _ _ Hu). simpl. unfold updated.
    assert (j = i) as -> by (destruct r; simplify_eq/=; done). by rewrite Hi.
  - destruct r; simpl in Hr, Hu; simplify_eq; cbn [BookService]; unfold bind, ret;
      autorewrite with book_rw; simpl; by rewrite Hi.
Qed.

(** A request on a record resolves, as [next] says. *)
Lemma run_keyed r i rs s :
  key_of r = Some i →
  run (r :: rs) s = (alone s r :: (run rs (next r s)).1, (run rs (next r s)).2).
Proof.
  intros Hr. rewrite run_cons_first, (run_cons r []). unfold alone.
  destruct (BookService_resolves r s) as [a ->]; [|done].
  intros ?? ->. done.
Qed.

(** Two requests on different records, in either order. *)
Lemma next_comm r1 r2 i j s :
  key_of r1 = Some i → key_of r2 = Some j → i ≠ j →
  next r1 (next r2 s) = next r2 (next r1 s).
Proof.
  intros Hr1 Hr2 Hij. destruct r1, r2; simplify_eq/=; try done;
    by first [apply update_id_comm|apply delete_id_comm
             |apply update_delete_id_comm|symmetry; apply update_delete_id_comm].
Qed.

(** Requests on other records leave a record as it is. *)
Lemma run_keyed_lookup rs j s :
  apart rs → j ∉ keys rs → lookup_id j (run rs s).2 = lookup_id j s.
Proof.
  revert s. induction rs as [|r rs IH]; intros s Hrs Hj; [done|].
  apply apart_cons in Hrs as (i & Hi & _ & Hrs).
  rewrite keys_cons, Hi in Hj. apply not_elem_of_cons in Hj as [??].
  rewrite (run_keyed _ i) by done. simpl.
  rewrite IH by done. by apply (next_keyed_lookup _ i).
Qed.

(** Each is answered as if it ran alone. *)
Lemma run_apart_answers rs s : apart rs → (run rs s).1 = alone s <$> rs.
Proof.
  revert s. induction rs as [|r rs IH]; intros s Hrs; [done|].
  apply apart_cons in Hrs as (i & Hi & Hn & Hrs).
  rewrite (run_keyed _ i), fmap_cons by done. simpl. f_equal.
  rewrite IH by done. apply Forall_fmap_ext_1, Forall_forall. intros r' Hr'.
  destruct Hrs as [Hk _]. rewrite Forall_forall in Hk.
  destruct (Hk r' Hr') as [j Hj]. apply (alone_frame _ j); [done|].
  apply (next_keyed_lookup _ i); [done|]. intros ->.
  apply Hn, elem_of_keys. eauto.
Qed.

(** The collection they leave does not depend on their order. *)
Lemma run_apart_Permutation rs rs' s :
  rs ≡ₚ rs' → apart rs → (run rs s).2 = (run rs' s).2.
Proof.
  intros Hp. revert s.
  induction Hp as [|r rs rs' Hp IH|r1 r2 rs|rs1 rs2 rs3 Hp1 IH1 Hp2 IH2];
    intros s Hrs; [done|..].
  - apply apart_cons in Hrs as (i & Hi & _ & Hrs).
    rewrite !(run_keyed _ i) by done. simpl. by apply IH.
  - apply apart_cons in Hrs as (i & Hi & Hn & (j & Hj & _ & _)%apart_cons).
    rewrite keys_cons, Hj in Hn. apply not_elem_of_cons in Hn as [Hij _].
    rewrite (run_keyed _ i), (run_keyed _ j), (run_keyed r1 j), (run_keyed r2 i) by done.
    simpl. by rewrite (next_comm r2 r1 i j).
  - rewrite IH1 by done. apply IH2. by eapply apart_Permutation.
Qed.

(** The requests with the answers they have alone. *)
Lemma zip_alone rs s : zip rs (alone s <$> rs) = (λ r, (r, alone s r)) <$> rs.
Proof. induction rs as [|r rs IH]; [done|]. simpl. f_equal. exact IH. Qed.

Lemma filter_atomic_apart {A} rs (f : request → A) :
  apart rs →
  filter (λ ro, atomic ro.1 = true) ((λ r, (r, f r)) <$> rs) = (λ r, (r, f r)) <$> rs.
Proof.
  intros [Hk _]. induction Hk as [|r rs [i Hi] _ IH]; [done|].
  rewrite fmap_cons, filter_cons_True by (by eapply key_of_atomic). by rewrite IH.
Qed.

End commute_lemmas.

(** * Properties *)

Section commute_properties.
Context `{BookConstant, PaginationHelper, RegexEngine, FieldOrder, IdGenerator}.
Implicit Types (r : request) (rs : list request) (s : collection).

(** Requests on different records commute. Run one after the other
    in any order, requests that address pairwise different records are
    each answered as if it ran alone on the collection they found, and
    they leave the same collection whatever the order. *)
Theorem requests_apart_commute rs rs' s :
  apart rs → rs ≡ₚ rs' →
  (run rs s).1 = alone s <$> rs ∧
  (run rs' s).1 = alone s <$> rs' ∧
  (run rs s).2 = (run rs' s).2.
Proof.
  intros Hrs Hp. split_and!; [by apply run_apart_answers| |by apply run_apart_Permutation].
  by eapply run_apart_answers, apart_Permutation.
Qed.

(** C23: the schedule does not matter. When the requests in flight
    address pairwise different records, every execution of the concurrent
    server that answers them all ends in the collection that their run in
    the order of arrival leaves, with each request answered as if it ran
    alone. *)
Theorem every_schedule_ends_alike rs s c' :
  apart rs → rtc cstep (arrivals rs, s) c' → all_answered c' →
  c'.2 = (run rs s).2 ∧ answers c'.1 ≡ₚ (λ r, (r, alone s r)) <$> rs.
Proof.
  intros Hrs (rs' & Hp & -> & Ha)%rtc_cstep_serial Hc'. simpl in *.
  rewrite pending_arrivals, (pending_all_answered c'), app_nil_r in Hp by done.
  rewrite answers_arrivals in Ha. pose proof (apart_Permutation _ _ Hp Hrs) as Hrs'.
  split; [symmetry; by apply run_apart_Permutation|].
  by rewrite Ha, run_apart_answers, zip_alone, filter_atomic_apart, Hp.
Qed.

End commute_properties.

(** * Requests apart at the sample collection *)

#[local] Existing Instances default_constant default_helper literal_engine
  string_field_order long_id_generator.

(** A fetch of one book, a review of another, a reader of a third and the
    removal of a fourth. *)
Definition errands : list request := [
  GetBook "b01";
  AddReview "b02" (mkReview "b@x.com" "Sharp");
  AddToFinished "b03" ["a@x.com"];
  DeleteBook "b04" club_book
].

(** On the same record the order matters: the later wishlist stays. *)
Example same_record_order_matters :
  (run [AddToWishlist "b03" ["a@x.com"]; AddToWishlist "b03" ["b@x.com"]] sample_store).2 ≠
  (run [AddToWishlist "b03" ["b@x.com"]; AddToWishlist "b03" ["a@x.com"]] sample_store).2.
Proof. by apply (bool_decide_unpack _). Qed.

Lemma requests_apart_commute_witness :
  (run errands sample_store).1 = alone sample_store <$> errands ∧
  (run (reverse errands) sample_store).1 = alone sample_store <$> reverse errands ∧
  (run errands sample_store).2 = (run (reverse errands) sample_store).2.
Proof.
  apply (requests_apart_commute errands (reverse errands) sample_store);
    [by apply (bool_decide_unpack _)|symmetry; apply reverse_Permutation].
Defined.

Lemma every_schedule_ends_alike_witness :
  (exec [3; 1; 0; 2] (arrivals errands, sample_store)).2 = (run errands sample_store).2 ∧
  answers (exec [3; 1; 0; 2] (arrivals errands, sample_store)).1 ≡ₚ
    (λ r, (r, alone sample_store r)) <$> errands.
Proof.
  apply (every_schedule_ends_alike errands sample_store);
    [by apply (bool_decide_unpack _)|apply exec_rtc|by apply (bool_decide_unpack _)].
Defined.
