(* ===== verification/Unordered.v ===== *)
(** * Unordered: records up to the order of their membership lists

    [$addToSet] appends, so the order in which two users are moved to a
    list is the order in which the store served them.  The lists are
    sets to the specification: two records that differ in the order of
    their membership lists are the same record to every reader of a
    status.  This file gives records, documents and collections that
    equivalence, shows that the operators of an update, the shelves, the
    status of a user and the exclusion invariant respect it, and that the
    transitions of different users on one record commute up to it: the
    server converges whatever the order in which it serves them. *)

From stdpp Require Import relations.
From S2P Require Import Prelude Document Query Update Collection Pagination.
From S2P Require Import Samples Listing Mutators Machine ReadingStatus Concurrent Commute.

(** ** The equivalence *)

(** The same fields and reviews, and the same members of each list. *)
Definition same_members (b b' : IBook) : Prop :=
  scalars b = scalars b' ∧ reviews b = reviews b' ∧
  ∀ m, get_list m b ≡ₚ get_list m b'.

#[export] Instance book_equiv : Equiv IBook := same_members.

#[export] Instance document_equiv : Equiv BookDocument :=
  λ d d', _id d = _id d' ∧ doc d ≡ doc d'.

(** ** Transitions of single users *)

(** The record and the user of a transition whose payload is the acting
    user alone. *)
Definition reader (r : request) : option (ObjectId * string) :=
  match r with
  | AddToReadSoon i [e] | AddToCurrentlyReading i [e] | AddToFinished i [e] =>
      Some (i, e)
  | _ => None
  end.

(** Transitions of single users, no user moved twice on a record. *)
Definition moves (rs : list request) : Prop :=
  Forall (λ r, is_Some (reader r)) rs ∧ NoDup (omap reader rs).

#[export] Instance moves_dec rs : Decision (moves rs).
Proof. unfold moves. apply _. Defined.

(** * Lemmas *)

Section equivalence.
Implicit Types (b : IBook) (d : BookDocument) (s : collection)
  (l : list string) (e x : string) (m : membership).

#[export] Instance book_equivalence : Equivalence (≡@{IBook}).
Proof.
  split.
  - by intros b.
  - intros b b' (? & ? & ?). by split_and!.
  - intros b1 b2 b3 (? & ? & Hl) (? & ? & Hl'). split_and!; [congruence..|].
    intros m. by rewrite Hl.
Qed.

#[export] Instance document_equivalence : Equivalence (≡@{BookDocument}).
Proof.
  split.
  - by intros d.
  - by intros d d' [??].
  - intros d1 d2 d3 [? Hd] [? Hd']. split; [congruence|by rewrite Hd].
Qed.

(** ** The readers of a record respect it *)

#[export] Instance get_list_proper m : Proper ((≡) ==> (≡ₚ)) (get_list m).
Proof. by intros b b' (_ & _ & Hl). Qed.

#[export] Instance shelf_proper st : Proper ((≡) ==> (≡ₚ)) (shelf st).
Proof. intros b b' Hb. unfold shelf. by rewrite Hb. Qed.

#[export] Instance exclusive_proper : Proper ((≡) ==> iff) exclusive.
Proof.
  intros b b' Hb. unfold exclusive.
  by setoid_rewrite (shelf_proper _ _ _ Hb).
Qed.

(** The status of a user. *)
Lemma status_of_equiv b b' x : b ≡ b' → status_of b x = status_of b' x.
Proof.
  intros Hb. unfold status_of. f_equal. apply list_filter_iff.
  intros st. by rewrite Hb.
Qed.

#[export] Instance doc_proper : Proper ((≡) ==> (≡)) doc.
Proof. by intros d d' [_ ?]. Qed.

#[export] Instance id_proper : Proper ((≡) ==> (=)) _id.
Proof. by intros d d' [? _]. Qed.

#[export] Instance ids_proper : Proper ((≡) ==> (=)) ids.
Proof.
  intros s s' Hs%list_equiv_Forall2. unfold ids.
  induction Hs as [|d d' s s' [Hi _] _ IH]; [done|]. by rewrite !fmap_cons, Hi, IH.
Qed.

(** ** The operators of an update respect it *)

#[export] Instance pull_proper e : Proper ((≡ₚ) ==> (≡ₚ)) (pull e).
Proof. intros l l' Hl. unfold pull. by rewrite Hl. Qed.

#[export] Instance pull_opt_proper o : Proper ((≡ₚ) ==> (≡ₚ)) (pull_opt o).
Proof. destruct o; [apply _|]. by intros l l' Hl. Qed.

#[export] Instance add_one_proper : Proper ((≡ₚ) ==> (=) ==> (≡ₚ)) add_one.
Proof.
  intros l l' Hl e ? <-. unfold add_one.
  destruct (decide (e ∈ l)) as [He|He]; rewrite Hl in He.
  - by rewrite decide_True.
  - by rewrite decide_False, Hl.
Qed.

#[export] Instance add_to_set_proper es : Proper ((≡ₚ) ==> (≡ₚ)) (add_to_set es).
Proof.
  induction es as [|e es IH]; intros l l' Hl; [done|].
  rewrite !add_to_set_cons. by apply IH, add_one_proper.
Qed.

Lemma set_list_equiv m l l' b b' :
  l ≡ₚ l' → b ≡ b' → set_list m l b ≡ set_list m l' b'.
Proof.
  intros Hl (Hs & Hr & Hb). split_and!; rewrite ?scalars_set_list, ?reviews_set_list;
    [done..|].
  intros m'. destruct (decide (m = m')) as [->|];
    by rewrite ?get_set_list, ?get_set_list_ne.
Qed.

Lemma apply_partial_equiv p b b' : b ≡ b' → apply_partial p b ≡ apply_partial p b'.
Proof.
  intros (Hs & Hr & Hb). split_and!.
  - injection Hs as ????. unfold scalars. simpl. congruence.
  - simpl. by rewrite Hr.
  - intros m. pose proof (Hb m) as Hm.
    destruct m, p as [? ? ? ? ? [?|] [?|] [?|] [?|]]; done.
Qed.

#[export] Instance apply_op_proper o : Proper ((≡) ==> (≡)) (apply_op o).
Proof.
  intros b b' Hb. destruct o as [p|r|m e|m es]; simpl.
  - by apply apply_partial_equiv.
  - destruct Hb as (? & Hr & ?). split_and!; [done|simpl; by rewrite Hr|].
    intros m. by rewrite !get_list_set_reviews.
  - apply set_list_equiv; [|done]. by rewrite Hb.
  - apply set_list_equiv; [|done]. by rewrite Hb.
Qed.

#[export] Instance apply_update_proper u : Proper ((≡) ==> (≡)) (apply_update u).
Proof.
  induction u as [|o u IH]; intros b b' Hb; [done|].
  rewrite !apply_update_cons. by apply IH, apply_op_proper.
Qed.

(** ** Rewriting a record of a collection *)

Lemma update_id_equiv i f g s s' :
  (∀ b b', b ≡ b' → f b ≡ g b') → s ≡ s' → update_id i f s ≡ update_id i g s'.
Proof.
  intros Hfg Hs%list_equiv_Forall2. apply list_equiv_Forall2.
  induction Hs as [|d d' s s' [Hi Hd] Hs IH]; [done|].
  rewrite !update_id_cons, <-Hi. case_decide; constructor; try done.
  split; [done|]. by apply Hfg.
Qed.

End equivalence.

Section commutation.
Context `{BookConstant, PaginationHelper, RegexEngine, FieldOrder, IdGenerator}.
Implicit Types (b : IBook) (s : collection) (l : list string) (x y : string)
  (st : reading_status) (r : request) (rs : list request) (i j : ObjectId).

(** Two values added to a set, in either order. *)
Lemma add_one_comm l x y : add_one (add_one l x) y ≡ₚ add_one (add_one l y) x.
Proof.
  destruct (decide (x = y)) as [->|Hxy]; [done|]. unfold add_one.
  destruct (decide (x ∈ l)), (decide (y ∈ l));
    rewrite ?decide_True, ?decide_False
      by (rewrite ?elem_of_app, ?list_elem_of_singleton; naive_solver); try done.
  rewrite <-!(assoc (++)). apply Permutation_app_head, Permutation_swap.
Qed.

Lemma membership_cases m : m = Wishlist ∨ ∃ st, m = list_of st.
Proof.
  destruct m; [by left|right; by exists WillRead|right; by exists IsReading
              |right; by exists HasRead].
Qed.

(** The shelf of a record after the transition of one user. *)
Lemma shelf_move st st' x b :
  shelf st' (apply_update (transition_update st [x]) b) =
  if decide (st' = st) then add_one (shelf st b) x else pull x (shelf st' b).
Proof. by rewrite shelf_transition. Qed.

(** The transitions of two users on a record, in either order. *)
Lemma moves_commute st1 st2 x y b :
  x ≠ y →
  apply_update (transition_update st1 [x]) (apply_update (transition_update st2 [y]) b) ≡
  apply_update (transition_update st2 [y]) (apply_update (transition_update st1 [x]) b).
Proof.
  intros Hxy. split_and!.
  - by rewrite !(proj2 (proj2 (rest_transition _ _ _))).
  - by rewrite !(proj1 (proj2 (rest_transition _ _ _))).
  - intros m. destruct (membership_cases m) as [->|[st ->]].
    { simpl. by rewrite !(proj1 (rest_transition _ _ _)). }
    change (get_list (list_of st)) with (shelf st). rewrite !shelf_move.
    repeat case_decide; simplify_eq; rewrite ?shelf_move, ?decide_True, ?decide_False by done.
    + apply add_one_comm.
    + by rewrite pull_add_one, decide_False.
    + by rewrite pull_add_one, decide_False.
    + by rewrite pull_comm.
Qed.

(** ** Requests *)

Lemma reader_transition r i x :
  reader r = Some (i, x) → ∃ st, r = transition_request st i [x].
Proof.
  destruct r as [| | | | | | | |? [|? []]|? [|? []]|? [|? []]]; intros [= <- <-];
    [by exists WillRead|by exists IsReading|by exists HasRead].
Qed.

Lemma next_transition st i payload s :
  next (transition_request st i payload) s =
  update_id i (apply_update (transition_update st payload)) s.
Proof. by destruct st. Qed.

Lemma key_of_transition st i payload : key_of (transition_request st i payload) = Some i.
Proof. by destruct st. Qed.

(** A transition respects the equivalence. *)
Lemma next_move_equiv r s s' : is_Some (reader r) → s ≡ s' → next r s ≡ next r s'.
Proof.
  intros [[i x] [st ->]%reader_transition] Hs. rewrite !next_transition.
  apply update_id_equiv; [|done]. intros b b' Hb. by rewrite Hb.
Qed.

(** Two transitions, in either order. *)
Lemma next_moves_comm r1 r2 i j x y s :
  reader r1 = Some (i, x) → reader r2 = Some (j, y) → (i, x) ≠ (j, y) →
  next r1 (next r2 s) ≡ next r2 (next r1 s).
Proof.
  intros [st1 ->]%reader_transition [st2 ->]%reader_transition Hne.
  destruct (decide (i = j)) as [->|Hij].
  - rewrite !next_transition, !update_id_twice.
    apply update_id_equiv; [|done]. intros b b' Hb. simpl. rewrite Hb.
    apply moves_commute. congruence.
  - by rewrite (next_comm _ _ i j) by (by rewrite ?key_of_transition).
Qed.

End commutation.

Section convergence.
Context `{BookConstant, PaginationHelper, RegexEngine, FieldOrder, IdGenerator}.
Implicit Types (s : collection) (r : request) (rs : list request) (i : ObjectId).

Lemma moves_cons r rs :
  moves (r :: rs) ↔ ∃ k, reader r = Some k ∧ (k ∉ omap reader rs) ∧ moves rs.
Proof.
  unfold moves. rewrite Forall_cons. split.
  - intros [[[k Hk] ?] Hnd]. simpl in Hnd. rewrite Hk in Hnd.
    apply NoDup_cons in Hnd as [??]. eauto.
  - intros (k & Hk & ? & ? & ?). simpl. rewrite Hk. split; [eauto|]. by apply NoDup_cons.
Qed.

Lemma moves_Permutation rs rs' : rs ≡ₚ rs' → moves rs → moves rs'.
Proof. intros Hp. unfold moves. by rewrite Hp. Qed.

Lemma reader_key_of r i x : reader r = Some (i, x) → key_of r = Some i.
Proof. intros [st ->]%reader_transition. apply key_of_transition. Qed.

Lemma run_move r rs s :
  is_Some (reader r) → (run (r :: rs) s).2 = (run rs (next r s)).2.
Proof. intros [[i x] Hr%reader_key_of]. by rewrite (run_keyed _ i). Qed.

(** A run of transitions respects the equivalence. *)
Lemma run_moves_equiv rs s s' :
  Forall (λ r, is_Some (reader r)) rs → s ≡ s' → (run rs s).2 ≡ (run rs s').2.
Proof.
  intros Hrs. revert s s'. induction Hrs as [|r rs Hr _ IH]; intros s s' Hs; [done|].
  rewrite !run_move by done. by apply IH, next_move_equiv.
Qed.

(** The order of the transitions does not matter. *)
Lemma run_moves_Permutation rs rs' s s' :
  rs ≡ₚ rs' → moves rs → s ≡ s' → (run rs s).2 ≡ (run rs' s').2.
Proof.
  intros Hp. revert s s'.
  induction Hp as [|r rs rs' Hp IH|r1 r2 rs|rs1 rs2 rs3 Hp1 IH1 Hp2 IH2];
    intros s s' Hrs Hs; [done|..].
  - apply moves_cons in Hrs as (k & Hk & _ & Hrs).
    rewrite !run_move by eauto. by apply IH, next_move_equiv.
  - apply moves_cons in Hrs as ([i x] & Hr2 & Hn & ([j y] & Hr1 & _ & [Hrs _])%moves_cons).
    simpl in Hn. rewrite Hr1 in Hn. apply not_elem_of_cons in Hn as [Hne _].
    rewrite !run_move by eauto. apply run_moves_equiv; [done|].
    rewrite (next_moves_comm r1 r2 j i y x) by done.
    by do 2 (apply next_move_equiv; [eauto|]).
  - etrans; [by apply IH1|]. apply IH2; [by eapply moves_Permutation|done].
Qed.

(** The record under a key, in equivalent collections. *)
Lemma lookup_id_equiv i s s' : s ≡ s' → lookup_id i s ≡ lookup_id i s'.
Proof.
  intros Hs%list_equiv_Forall2.
  induction Hs as [|d d' s s' Hd _ IH]; [done|].
  rewrite !lookup_id_cons, <-(id_proper _ _ Hd). case_decide; [by constructor|done].
Qed.

End convergence.

(** * Properties *)

Section unordered_properties.
Context `{BookConstant, PaginationHelper, RegexEngine, FieldOrder, IdGenerator}.
Implicit Types (s : collection) (rs : list request).

(** C24: the transitions of different users converge. When the requests
    in flight are transitions of single users, no user moved twice on a
    record, every two executions of the concurrent server that answer
    them all end in the same collection up to the order of the membership
    lists: every record has the same fields, the same reviews and the
    same members on each list, and every user has the same status on it. *)
Theorem moves_converge rs s c1 c2 :
  moves rs →
  rtc cstep (arrivals rs, s) c1 → all_answered c1 →
  rtc cstep (arrivals rs, s) c2 → all_answered c2 →
  c1.2 ≡ c2.2 ∧
  ∀ i x, (λ d, status_of (doc d) x) <$> lookup_id i c1.2 =
         (λ d, status_of (doc d) x) <$> lookup_id i c2.2.
Proof.
  intros Hrs (rs1 & Hp1 & -> & _)%rtc_cstep_serial Hc1
    (rs2 & Hp2 & -> & _)%rtc_cstep_serial Hc2. simpl in *.
  rewrite pending_arrivals, (pending_all_answered c1), app_nil_r in Hp1 by done.
  rewrite pending_arrivals, (pending_all_answered c2), app_nil_r in Hp2 by done.
  assert ((run rs1 s).2 ≡ (run rs2 s).2) as Heq.
  { apply run_moves_Permutation; [by rewrite <-Hp1, <-Hp2|by eapply moves_Permutation|done]. }
  split; [done|]. intros i x.
  destruct (lookup_id_equiv i _ _ Heq) as [d d' Hd|]; [simpl|done].
  f_equal. apply status_of_equiv, Hd.
Qed.

End unordered_properties.

(** * Two readers of one book *)

#[local] Existing Instances default_constant default_helper literal_engine
  string_field_order long_id_generator.

Definition two_readers : list request :=
  [AddToReadSoon "b03" ["c@x.com"]; AddToReadSoon "b03" ["d@x.com"];
   AddToFinished "b01" ["c@x.com"]].

(** The order in which the two are served shows in the list. *)
Example readers_in_order :
  read_soon ∘ doc <$> lookup_id "b03" (exec [0; 1; 2] (arrivals two_readers, club_store)).2
    = Some ["a@x.com"; "c@x.com"; "d@x.com"] ∧
  read_soon ∘ doc <$> lookup_id "b03" (exec [1; 2; 0] (arrivals two_readers, club_store)).2
    = Some ["a@x.com"; "d@x.com"; "c@x.com"].
Proof. split; vm_compute; reflexivity. Qed.

Lemma moves_converge_witness :
  (exec [0; 1; 2] (arrivals two_readers, club_store)).2 ≡
  (exec [1; 2; 0] (arrivals two_readers, club_store)).2 ∧
  ∀ i x,
    (λ d, status_of (doc d) x) <$>
      lookup_id i (exec [0; 1; 2] (arrivals two_readers, club_store)).2 =
    (λ d, status_of (doc d) x) <$>
      lookup_id i (exec [1; 2; 0] (arrivals two_readers, club_store)).2.
Proof.
  apply (moves_converge two_readers club_store);
    [by apply (bool_decide_unpack _)|apply exec_rtc|by apply (bool_decide_unpack _)
    |apply exec_rtc|by apply (bool_decide_unpack _)].
Defined.
