(* ===== verification/Retry.v ===== *)
(** * Retry: requests that are sent again

    The service performs no retry of its own and gives a caller no way to
    tell a request from its copy: a caller whose request was not
    answered, or was answered with a failure of the store, sends it
    again, and the service runs it again.  This file says of which
    operations a second copy is harmless.

    [retriable] are the operations that leave the collection, run twice,
    as they leave it run once: every operation but [createBook] and
    [addReview], which add to what is stored each time they run;
    [repeatable] are the operations that also answer the same each time,
    which [deleteBook] does not (it answers with the record the first
    time and with [null] after).  Both classes are exact.

    For requests on single records that are sent once or more ([resent]:
    [retriable], and no two different requests on one record), every
    execution of the concurrent server in which the store fails calls as
    it likes and serves one copy of each request at least ([served])
    leaves the collection that one copy of each leaves, and answers every
    copy of a [repeatable] request alike.  Creates are not absorbed: the
    collection grows by one record for every copy that is served
    ([creates], [deletes] bound its size along every execution). *)

From stdpp Require Import relations.
From S2P Require Import Prelude Document Query Update Collection Pagination.
From S2P Require Import Samples Listing Mutators Machine ReadingStatus Concurrent.
From S2P Require Import Snapshot Faults Commute.

(** The operations that may run twice for once: all but the two that add
    to what is stored. *)
Definition retriable (r : request) : bool :=
  match r with CreateBook _ | AddReview _ _ => false | _ => true end.

(** The operations that also answer twice what they answer once. *)
Definition repeatable (r : request) : bool :=
  match r with
  | CreateBook _ | AddReview _ _ | DeleteBook _ _ => false
  | _ => true
  end.

(** Requests on single records, each sent once or more: a request on the
    record of another is that request. *)
Definition resent (rs : list request) : Prop :=
  Forall (λ r, retriable r = true ∧ is_Some (key_of r) ∧
               Forall (λ r', key_of r' = key_of r → r' = r) rs) rs.

#[export] Instance resent_dec rs : Decision (resent rs).
Proof. unfold resent. apply _. Defined.

(** The requests of a pool that the store has served and answered. *)
Definition served_request (t : task) : option request :=
  match t with Answered r (Ok _) => Some r | _ => None end.

Definition served (ts : list task) : list request := omap served_request ts.

(** The creates and the deletes among the requests. *)
Definition is_create (r : request) : bool :=
  match r with CreateBook _ => true | _ => false end.

Definition is_delete (r : request) : bool :=
  match r with DeleteBook _ _ => true | _ => false end.

Definition creates (rs : list request) : nat :=
  length (filter (λ r, is_create r = true) rs).

Definition deletes (rs : list request) : nat :=
  length (filter (λ r, is_delete r = true) rs).

(** * Lemmas *)

(** ** Updates applied twice *)

Section twice.
Implicit Types (b : IBook) (p : PartialBook) (payload : list string).

Lemma default_idemp {A} (x : A) (o : option A) :
  default (default x o) o = default x o.
Proof. by destruct o. Qed.

Lemma apply_partial_idemp p b :
  apply_partial p (apply_partial p b) = apply_partial p b.
Proof. unfold apply_partial. simpl. by rewrite !default_idemp. Qed.

Lemma transition_update_idemp st payload b :
  apply_update (transition_update st payload)
    (apply_update (transition_update st payload) b) =
  apply_update (transition_update st payload) b.
Proof.
  destruct st, b; cbn; f_equal; by rewrite ?pull_opt_idemp, ?add_to_set_idemp.
Qed.

Lemma removeFromWishlist_update_idemp e b :
  apply_update (removeFromWishlist_update e)
    (apply_update (removeFromWishlist_update e) b) =
  apply_update (removeFromWishlist_update e) b.
Proof. rewrite !removeFromWishlist_effect. simpl. by rewrite !pull_idemp. Qed.

(** The update document of a request that may run twice. *)
Lemma update_of_idemp r i u b :
  retriable r = true → update_of r = Some (i, u) →
  apply_update u (apply_update u b) = apply_update u b.
Proof.
  destruct r; intros ? [= <- <-]; try done.
  - apply apply_partial_idemp.
  - apply removeFromWishlist_update_idemp.
  - apply (transition_update_idemp WillRead).
  - apply (transition_update_idemp IsReading).
  - apply (transition_update_idemp HasRead).
Qed.

End twice.

(** ** Requests run twice *)

Section retry_lemmas.
Context `{BookConstant, PaginationHelper, RegexEngine, FieldOrder, IdGenerator}.
Implicit Types (r : request) (rs : list request) (s : collection) (i j : ObjectId).

Lemma delete_id_idemp i s : wf s → delete_id i (delete_id i s) = delete_id i s.
Proof. intros Hs. apply delete_id_absent, lookup_id_None. by apply lookup_delete_id. Qed.

(** A request leaves the collection [next] gives, answered or rejected. *)
Lemma run_next r rs s :
  run (r :: rs) s = (alone s r :: (run rs (next r s)).1, (run rs (next r s)).2).
Proof.
  rewrite run_cons. unfold alone.
  destruct (BookService r s) as [[a s']|e] eqn:E; simpl.
  - by rewrite (BookService_Ok _ _ _ _ E).
  - apply only_listing_rejects in E as (f & op & -> & _). done.
Qed.

Lemma next_idemp r s : retriable r = true → wf s → next r (next r s) = next r s.
Proof.
  intros Hr Hs. destruct (update_of r) as [[i u]|] eqn:Hu.
  - rewrite !(next_update _ _ _ _ Hu). apply update_id_idemp.
    intros b. by eapply update_of_idemp.
  - destruct r; try done. by apply delete_id_idemp.
Qed.

(** The answer of a request that has run before. *)
Lemma alone_next r s : repeatable r = true → wf s → alone (next r s) r = alone s r.
Proof.
  intros Hr Hs. destruct (update_of r) as [[i u]|] eqn:Hu.
  - unfold alone. rewrite !(BookService_update _ _ _ _ Hu), (next_update _ _ _ _ Hu).
    simpl. rewrite !updated_lookup, update_id_idemp; [done|].
    intros b. eapply update_of_idemp; [|done]. by destruct r.
  - by destruct r.
Qed.

(** A create adds a record each time it runs, a review each time it
    finds the record. *)
Lemma next_create_twice b s :
  next (CreateBook b) (next (CreateBook b) s) ≠ next (CreateBook b) s.
Proof. intros Heq%(f_equal length). simpl in Heq. rewrite !length_app in Heq. simpl in *. lia. Qed.

Lemma next_addReview_twice i p b :
  next (AddReview i p) (next (AddReview i p) [mkDoc i b]) ≠
  next (AddReview i p) [mkDoc i b].
Proof.
  rewrite !(next_update _ i (addReview_update p)) by done.
  do 2 (rewrite update_id_cons; simpl; rewrite decide_True by done).
  destruct b. intros [= Heq%(f_equal length)]. rewrite !length_app in Heq. simpl in *. lia.
Qed.

(** The other requests do not: a collection on which a second copy shows. *)
Lemma not_retriable_differs r :
  retriable r = false → ∃ s, wf s ∧ next r (next r s) ≠ next r s.
Proof.
  destruct r as [| |b| | |i p| | | | |]; intros ?; try done.
  - exists []. split; [by apply (bool_decide_unpack _)|apply next_create_twice].
  - exists [mkDoc i (sample_book "" "" "" "")].
    split; [by apply (bool_decide_unpack _)|apply next_addReview_twice].
Qed.

Lemma not_repeatable_differs r :
  repeatable r = false → ∃ s, wf s ∧ alone (next r s) r ≠ alone s r.
Proof.
  destruct r as [| |b| |i b|i p| | | | |]; intros ?; try done.
  - exists []. split; [by apply (bool_decide_unpack _)|]. unfold alone. simpl.
    intros [= Heq]. by destruct (fresh_id_fresh [fresh_id []]); rewrite Heq; left.
  - exists [mkDoc i b]. split; [by apply (bool_decide_unpack _)|].
    unfold alone. cbn [BookService]. unfold bind, ret. rewrite !deleteBook_run. simpl.
    rewrite delete_id_cons, decide_True, lookup_id_cons, decide_True by done. done.
  - exists [mkDoc i (sample_book "" "" "" "")]. split; [by apply (bool_decide_unpack _)|].
    unfold alone. rewrite !(BookService_update _ i (addReview_update p)) by done.
    rewrite (next_update _ i (addReview_update p)) by done. simpl.
    rewrite !updated_lookup. do 2 (rewrite update_id_cons; simpl; rewrite decide_True by done).
    rewrite !lookup_id_cons, !decide_True by done. by intros [= Heq%(f_equal length)].
Qed.

End retry_lemmas.

(** ** Requests sent once or more *)

Section resent_lemmas.
Context `{BookConstant, PaginationHelper, RegexEngine, FieldOrder, IdGenerator}.
Implicit Types (r : request) (rs : list request) (s : collection) (i j : ObjectId).

Lemma resent_alt rs :
  resent rs ↔
  (∀ r, r ∈ rs → retriable r = true ∧ is_Some (key_of r)) ∧
  (∀ r r', r ∈ rs → r' ∈ rs → key_of r' = key_of r → r' = r).
Proof.
  unfold resent. rewrite Forall_forall. setoid_rewrite Forall_forall. naive_solver.
Qed.

Lemma resent_retriable rs r : resent rs → r ∈ rs → retriable r = true.
Proof. intros [Hk _]%resent_alt Hr. by destruct (Hk r Hr). Qed.

Lemma resent_subseteq rs rs' : rs' ⊆ rs → resent rs → resent rs'.
Proof. rewrite !resent_alt. intros Hsub [Hk Heq]. split; intros; auto. Qed.

Lemma resent_tail r rs : resent (r :: rs) → resent rs.
Proof. apply resent_subseteq. set_solver. Qed.

(** Two of them are the same request or address different records. *)
Lemma resent_cases rs r r' :
  resent rs → r ∈ rs → r' ∈ rs →
  r' = r ∨ ∃ i j, key_of r = Some i ∧ key_of r' = Some j ∧ i ≠ j.
Proof.
  intros [Hk Heq]%resent_alt Hr Hr'. destruct (decide (r' = r)) as [|Hne]; [by left|].
  destruct (Hk r Hr) as [_ [i Hi]], (Hk r' Hr') as [_ [j Hj]].
  right. exists i, j. split_and!; [done..|]. intros ->. apply Hne, Heq; congruence.
Qed.

(** A copy of a request that is still to come changes nothing. *)
Lemma next_absorbed r rs s :
  resent (r :: rs) → r ∈ rs → wf s →
  (run rs (next r s)).2 = (run rs s).2.
Proof.
  revert s. induction rs as [|r' rs IH]; intros s Hrs Hin Hs; [by apply elem_of_nil in Hin|].
  rewrite !run_next. simpl.
  destruct (resent_cases _ r r' Hrs) as [->|(i & j & Hi & Hj & Hij)];
    [by left|by right; left| |].
  - rewrite next_idemp; [done| |done]. eapply resent_retriable; [done|by left].
  - rewrite (next_comm r' r j i) by done. apply elem_of_cons in Hin as [->|Hin]; [congruence|].
    apply IH; [|done|by apply next_wf]. eapply resent_subseteq; [|done]. set_solver.
Qed.

(** The copies of a request leave what one copy leaves. *)
Lemma run_resent_dedup rs s :
  resent rs → wf s → (run rs s).2 = (run (remove_dups rs) s).2.
Proof.
  revert s. induction rs as [|r rs IH]; intros s Hrs Hs; [done|].
  pose proof (resent_tail _ _ Hrs). cbn [remove_dups].
  destruct (decide_rel _ r rs); rewrite !run_next; cbn [snd].
  - rewrite next_absorbed by done. by apply IH.
  - apply IH; [done|by apply next_wf].
Qed.

(** One copy of each: requests on pairwise different records. *)
Lemma resent_apart rs : resent rs → NoDup rs → apart rs.
Proof.
  intros Hrs Hnd. induction Hnd as [|r rs Hr Hnd IH]; [by split; constructor|].
  pose proof (resent_tail _ _ Hrs) as Hrs'.
  apply resent_alt in Hrs as [Hk Heq]. destruct (Hk r) as [_ [i Hi]]; [by left|].
  apply apart_cons. exists i. split_and!; [done| |by apply IH].
  intros (r' & Hr' & Hi')%elem_of_keys. rewrite (Heq r r') in Hr'; [done|by left|by right|congruence].
Qed.

(** The answer of a request is not changed by the others, nor by a copy
    of its own. *)
Lemma alone_next_resent rs r0 r s :
  resent rs → r0 ∈ rs → r ∈ rs → repeatable r = true → wf s →
  alone (next r0 s) r = alone s r.
Proof.
  intros Hrs Hr0 Hr Hrep Hs.
  destruct (resent_cases _ r0 r Hrs) as [->|(i & j & Hi & Hj & Hij)]; [done..| |].
  - by apply alone_next.
  - apply (alone_frame _ j); [done|]. by apply (next_keyed_lookup _ i).
Qed.

Lemma run_resent_answers rs s r a :
  resent rs → wf s → (r, a) ∈ zip rs (run rs s).1 → repeatable r = true →
  a = alone s r.
Proof.
  revert s. induction rs as [|r0 rs IH]; intros s Hrs Hs Hin Hr; [by apply elem_of_nil in Hin|].
  rewrite run_next in Hin. simpl in Hin. apply elem_of_cons in Hin as [[= -> ->]|Hin]; [done|].
  pose proof (elem_of_zip_l _ _ _ _ Hin) as Hr'.
  apply IH in Hin; [|by eapply resent_tail|by apply next_wf|done].
  rewrite Hin. eapply alone_next_resent; [done|by left|by right|done..].
Qed.

(** What matters is which requests are served, not how often. *)
Lemma run_resent_same rs rs' s :
  resent rs → wf s → (∀ r, r ∈ rs ↔ r ∈ rs') →
  (run rs s).2 = (run (remove_dups rs') s).2.
Proof.
  intros Hrs Hs Hsame. rewrite run_resent_dedup by done.
  assert (remove_dups rs ⊆ rs) by (intros r; by rewrite elem_of_remove_dups).
  apply run_apart_Permutation.
  - apply NoDup_Permutation; [apply NoDup_remove_dups..|].
    intros r. by rewrite !elem_of_remove_dups.
  - apply resent_apart; [by eapply resent_subseteq|apply NoDup_remove_dups].
Qed.

Lemma zip_atomic rs (os : list (result store_error response)) :
  Forall (λ r, atomic r = true) rs →
  filter (λ ro, atomic ro.1 = true) (zip rs os) = zip rs os.
Proof.
  intros Hrs. revert os. induction Hrs as [|r rs Hr _ IH]; intros [|o os]; [done..|].
  simpl. rewrite filter_cons_True by done. by rewrite IH.
Qed.

Lemma resent_atomic rs : resent rs → Forall (λ r, atomic r = true) rs.
Proof.
  intros [Hk _]%resent_alt. apply Forall_forall. intros r [_ [i Hi]]%Hk.
  by eapply key_of_atomic.
Qed.

(** ** Copies whose call failed *)

Lemma elem_of_served r ts : r ∈ served ts ↔ ∃ a, Answered r (Ok a) ∈ ts.
Proof.
  unfold served. rewrite list_elem_of_omap. split.
  - intros ([|?|? [a|]] & Ht & [= <-]). eauto.
  - intros [a Ha]. by exists (Answered r (Ok a)).
Qed.

Lemma elem_of_answers r o ts :
  (r, o) ∈ answers ts ↔ atomic r = true ∧ Answered r o ∈ ts.
Proof.
  unfold answers. rewrite list_elem_of_omap. split.
  - intros ([|?|r' o'] & Ht & Ha); simplify_eq/=. by case_match; simplify_eq.
  - intros [Hr Ht]. exists (Answered r o). simpl. by rewrite Hr.
Qed.

(** An answer of the store is no failure of a call. *)
Lemma stuck_before_answered ts ds r a :
  Forall2 stuck_before ts ds → Answered r (Ok a) ∈ ts → Answered r (Ok a) ∈ ds.
Proof.
  intros Hts [i Hi]%list_elem_of_lookup.
  destruct (Forall2_lookup_l _ _ _ _ _ Hts Hi) as (t & Ht & [->|[_ ?]]); [|done].
  by eapply list_elem_of_lookup_2.
Qed.

(** The requests the store has served are in the log, with their
    answers. *)
Lemma served_in_log rs s (d c' : cfg) log r a :
  resent rs → serial (arrivals rs, s) d log → Forall2 stuck_before c'.1 d.1 →
  Answered r (Ok a) ∈ c'.1 → r ∈ rs → (r, Ok a) ∈ zip log (run log s).1.
Proof.
  intros Hrs (Hp & _ & Ha) Hts Hra Hr. simpl in *.
  rewrite pending_arrivals in Hp. rewrite answers_arrivals, app_nil_l in Ha.
  rewrite zip_atomic in Ha.
  - rewrite <-Ha. apply elem_of_answers. split; [|by eapply stuck_before_answered].
    pose proof (resent_atomic _ Hrs) as Hat. rewrite Forall_forall in Hat. auto.
  - apply resent_atomic. eapply resent_subseteq; [|done]. rewrite Hp. set_solver.
Qed.

End resent_lemmas.

(** ** The size of the collection *)

Section size_lemmas.
Context `{BookConstant, PaginationHelper, RegexEngine, FieldOrder, IdGenerator}.
Implicit Types (r : request) (rs : list request) (s : collection).

Lemma creates_cons r rs : creates (r :: rs) = (if is_create r then 1 else 0) + creates rs.
Proof. unfold creates. rewrite filter_cons. by destruct r. Qed.

Lemma deletes_cons r rs : deletes (r :: rs) = (if is_delete r then 1 else 0) + deletes rs.
Proof. unfold deletes. rewrite filter_cons. by destruct r. Qed.

Lemma creates_app rs rs' : creates (rs ++ rs') = creates rs + creates rs'.
Proof. unfold creates. by rewrite filter_app, length_app. Qed.

Lemma deletes_app rs rs' : deletes (rs ++ rs') = deletes rs + deletes rs'.
Proof. unfold deletes. by rewrite filter_app, length_app. Qed.

#[export] Instance creates_Permutation : Proper ((≡ₚ) ==> (=)) creates.
Proof. intros rs rs' Hp. unfold creates. by rewrite Hp. Qed.

#[export] Instance deletes_Permutation : Proper ((≡ₚ) ==> (=)) deletes.
Proof. intros rs rs' Hp. unfold deletes. by rewrite Hp. Qed.

(** A create adds a record, a delete removes at most one, every other
    request keeps the number of records. *)
Lemma length_next_bounds r s :
  length (next r s) ≤ length s + (if is_create r then 1 else 0) ∧
  length s + (if is_create r then 1 else 0) ≤
    length (next r s) + (if is_delete r then 1 else 0).
Proof.
  destruct r; simpl; rewrite ?length_update_id, ?length_app, ?length_delete_id;
    try case_decide; simpl; lia.
Qed.

Lemma length_run rs s :
  length (run rs s).2 ≤ length s + creates rs ∧
  length s + creates rs ≤ length (run rs s).2 + deletes rs.
Proof.
  revert s. induction rs as [|r rs IH]; intros s; [cbn; lia|].
  rewrite run_next, creates_cons, deletes_cons. cbn [snd].
  pose proof (IH (next r s)). pose proof (length_next_bounds r s). lia.
Qed.

End size_lemmas.

(** * Properties *)

Section retry_properties.
Context `{BookConstant, PaginationHelper, RegexEngine, FieldOrder, IdGenerator}.
Implicit Types (r : request) (rs : list request) (s : collection).

(** C19: the operations that may be sent again. An operation run twice
    in a row leaves the collection as it leaves it run once, on every
    collection with unique keys, exactly when it is neither [createBook]
    nor [addReview]; it answers the second time what it answered the first
    exactly when it is not [deleteBook] either. *)
Theorem retriable_iff_idempotent r :
  (retriable r = true ↔ ∀ s, wf s → (run [r; r] s).2 = (run [r] s).2) ∧
  (repeatable r = true ↔ ∀ s, wf s → (run [r; r] s).1 = [alone s r; alone s r]).
Proof.
  split; (split; [intros Hr s Hs; rewrite !run_next; simpl|intros Hrun]).
  - by apply next_idemp.
  - destruct (retriable r) eqn:Hr; [done|].
    destruct (not_retriable_differs r Hr) as (s & Hs & []).
    specialize (Hrun s Hs). by rewrite !run_next in Hrun.
  - by rewrite alone_next.
  - destruct (repeatable r) eqn:Hr; [done|].
    destruct (not_repeatable_differs r Hr) as (s & Hs & []).
    specialize (Hrun s Hs). rewrite !run_next in Hrun. simpl in Hrun. congruence.
Qed.

(** C18: requests sent again take effect once. When the requests in
    flight address single records, may be sent again, and those on one
    record are copies of one request, then whatever calls the store fails
    and in whatever order it serves the others, once a copy of every
    request has been served the collection is the one that one copy of
    each leaves, and every copy served of a request other than a delete
    was answered as if it had run alone on the collection the requests
    found. *)
Theorem retries_take_effect_once rs s c' :
  resent rs → wf s → rtc fstep (arrivals rs, s) c' →
  Forall (λ r, r ∈ served c'.1) rs →
  c'.2 = (run (remove_dups rs) s).2 ∧
  ∀ r a, Answered r (Ok a) ∈ c'.1 → repeatable r = true → Ok a = alone s r.
Proof.
  intros Hrs Hs Hc' Hall. pose proof (rtc_fstep_request_of _ _ Hc') as Hrq.
  apply (rtc_fstep_simulated _ _ _ (covers_refl _)) in Hc' as (d & Hd & Hs' & Hts).
  apply rtc_cstep_serial in Hd as (log & Hlog). simpl in Hrq.
  rewrite task_request_arrivals in Hrq.
  assert (∀ r a, Answered r (Ok a) ∈ c'.1 → (r, Ok a) ∈ zip log (run log s).1) as Hin.
  { intros r a Hra. eapply served_in_log; [done..|].
    rewrite <-Hrq. by apply (list_elem_of_fmap_2 task_request _ _ Hra). }
  destruct Hlog as (Hp & Hd & _). simpl in Hp, Hd. rewrite pending_arrivals in Hp.
  assert (log ⊆ rs) as Hsub by (rewrite Hp; set_solver).
  pose proof (resent_subseteq _ _ Hsub Hrs). split.
  - rewrite Hs', Hd. apply run_resent_same; [done..|]. intros r. split; [apply Hsub|].
    intros Hr. rewrite Forall_forall in Hall.
    destruct (proj1 (elem_of_served _ _) (Hall r Hr)) as [a Ha].
    by eapply elem_of_zip_l, Hin.
  - intros r a Hra Hrep. by eapply run_resent_answers; [..|apply Hin|].
Qed.

(** C35: creates add up. Along every execution of the concurrent server
    the collection holds at most one record more for every create among
    the requests and at most one less for every delete; when all are
    answered and none is a delete it has grown by exactly the number of
    creates, copies of one create included. *)
Theorem collection_size_bounds rs s c' :
  rtc cstep (arrivals rs, s) c' →
  length c'.2 ≤ length s + creates rs ∧
  length s ≤ length c'.2 + deletes rs ∧
  (all_answered c' → length s + creates rs ≤ length c'.2 + deletes rs).
Proof.
  intros (log & Hp & -> & _)%rtc_cstep_serial. simpl in *.
  rewrite pending_arrivals in Hp. destruct (length_run log s) as [Hle Hge].
  rewrite Hp, creates_app, deletes_app. split_and!; [lia..|].
  intros ->%pending_all_answered. cbn. lia.
Qed.

End retry_properties.

(** * Copies at the sample collections *)

#[local] Existing Instances default_constant default_helper literal_engine
  string_field_order long_id_generator.

(** A reader who moves a book to finished and sends the request twice
    more, a delete sent twice, and a fetch. *)
Definition impatient : list request := [
  AddToFinished "b03" ["a@x.com"];
  DeleteBook "b01" club_book;
  AddToFinished "b03" ["a@x.com"];
  GetBook "b02";
  DeleteBook "b01" club_book;
  AddToFinished "b03" ["a@x.com"]
].

(** A book sent for creation three times, and a delete. *)
Definition thrice : list request := [
  CreateBook club_book; DeleteBook "b09" club_book;
  CreateBook club_book; CreateBook club_book
].

(** The second copy of a delete is answered with [null]. *)
Example delete_answers_once :
  (run [DeleteBook "b01" club_book; DeleteBook "b01" club_book] club_store).1 =
  [Ok (Found (Some (mkDoc "b01"
     (sample_book "The Hobbit" "J.R.R. Tolkien" "Fantasy" "1937-09-21"))));
   Ok (Found None)].
Proof. vm_compute. reflexivity. Qed.

(** A copy that arrives after another request on the record undoes that
    request: the wishlist of the first request is back. *)
Example late_copy_overwrites :
  ¬ resent [AddToWishlist "b03" ["c@x.com"]; AddToWishlist "b03" [];
            AddToWishlist "b03" ["c@x.com"]] ∧
  (wishlist ∘ doc) <$> lookup_id "b03"
    (run [AddToWishlist "b03" ["c@x.com"]; AddToWishlist "b03" [];
          AddToWishlist "b03" ["c@x.com"]] club_store).2 = Some ["c@x.com"] ∧
  (wishlist ∘ doc) <$> lookup_id "b03"
    (run [AddToWishlist "b03" ["c@x.com"]; AddToWishlist "b03" []] club_store).2 = Some [].
Proof. split_and!; [by apply (bool_decide_unpack _)|vm_compute; reflexivity..]. Qed.

(** The store fails the first copy of the move and of the delete and
    serves the others, last to first. *)
Definition impatient_served : cfg :=
  exec [5; 4; 3; 2] (fail_at 1 (fail_at 0 (arrivals impatient, club_store))).

Lemma impatient_served_rtc : rtc fstep (arrivals impatient, club_store) impatient_served.
Proof.
  unfold impatient_served. etrans; [apply fail_at_rtc|].
  etrans; [apply fail_at_rtc|apply cstep_rtc_fstep, exec_rtc].
Qed.

Lemma retries_take_effect_once_witness :
  impatient_served.2 = (run (remove_dups impatient) club_store).2 ∧
  ∀ r a, Answered r (Ok a) ∈ impatient_served.1 →
    repeatable r = true → Ok a = alone club_store r.
Proof.
  apply (retries_take_effect_once impatient club_store);
    [by apply (bool_decide_unpack _)..|apply impatient_served_rtc
    |by apply (bool_decide_unpack _)].
Defined.

(** The two failures show in the answers, not in the collection. *)
Example impatient_answers :
  (λ t, match t with Answered _ (Err e) => Some e | _ => None end) <$> impatient_served.1 =
    [Some Unavailable; Some Unavailable; None; None; None; None] ∧
  shelf HasRead <$> (doc <$> lookup_id "b03" impatient_served.2) =
    Some ["c@x.com"; "a@x.com"] ∧
  lookup_id "b01" impatient_served.2 = None.
Proof. vm_compute. done. Qed.

Lemma collection_size_bounds_witness :
  length (exec [3; 0; 1; 2] (arrivals thrice, sample_store)).2 ≤
    length sample_store + creates thrice ∧
  length sample_store ≤
    length (exec [3; 0; 1; 2] (arrivals thrice, sample_store)).2 + deletes thrice ∧
  (all_answered (exec [3; 0; 1; 2] (arrivals thrice, sample_store)) →
   length sample_store + creates thrice ≤
     length (exec [3; 0; 1; 2] (arrivals thrice, sample_store)).2 + deletes thrice).
Proof. apply (collection_size_bounds thrice sample_store), exec_rtc. Defined.

(** The three copies left three records. *)
Example thrice_stored :
  length (exec [3; 0; 1; 2] (arrivals thrice, sample_store)).2 = 12.
Proof. vm_compute. reflexivity. Qed.
