(* ===== verification/Sessions.v ===== *)
(** * Sessions: clients that wait for their answers

    In [Concurrent] every request is in flight from the start, so nothing
    is known of the order in which two requests of one client reach the
    store.  A client of the service is a program of its own: it sends a
    request, awaits the answer, and sends the next.  Here each client has
    a script; a [session] holds the requests answered so far with their
    answers ([past]), the request in flight ([now]) and the requests
    still to send ([todo]); [sstep] lets a client send its next request
    when none of its own is in flight, or the store serve the call of a
    request in flight, as [advance] does.

    The log of an execution holds the requests in the order of their
    first store call, each with the client it came from.  The theorems:
    the collection is the run of the log and the log keeps the order of
    every script (the server is sequentially consistent); the request a
    client sent as its [j]-th was answered on a collection that its first
    [j] requests, and no later one, had reached; a client that is alone
    on a record reads its own writes: its requests on the record are
    answered as in the run of its own script. *)

From stdpp Require Import relations.
From S2P Require Import Prelude Document Query Update Collection Pagination.
From S2P Require Import Samples Listing Mutators Machine ReadingStatus Concurrent.
From S2P Require Import Snapshot Commute Retry.

(** A request with its answer. *)
Definition outcome : Type := request * result store_error response.

Record session : Type := mkSession {
  past : list outcome;
  now : option task;
  todo : list request;
}.

(** The clients and the shared collection. *)
Definition scfg : Type := list session * collection.

(** A client that has sent nothing yet. *)
Definition opens (script : list request) : session := mkSession [] None script.

Definition sessions (scripts : list (list request)) : list session := opens <$> scripts.

(** The session after a call of its task: an answer ends the request. *)
Definition resume (p : list outcome) (t : task) (rs : list request) : session :=
  match t with
  | Answered r o => mkSession (p ++ [(r, o)]) None rs
  | _ => mkSession p (Some t) rs
  end.

(** What a session has sent and will send. *)
Definition script_of (x : session) : list request :=
  (past x).*1 ++ from_option (λ t, [task_request t]) [] (now x) ++ todo x.

(** The requests of a session that have made their first call. *)
Definition begun (x : session) : list request :=
  (past x).*1 ++
  match now x with
  | Some (Pending _) | None => []
  | Some t => [task_request t]
  end.

(** Whether every client has its last answer. *)
Definition finished_all (c : scfg) : Prop :=
  Forall (λ x, now x = None ∧ todo x = []) c.1.

#[export] Instance finished_all_dec c : Decision (finished_all c).
Proof. unfold finished_all. apply _. Defined.

(** The store calls a session has still to make, at most three for a
    request it has not sent: the send and the two calls of a listing. *)
Definition effort (x : session) : nat :=
  from_option calls_left 0 (now x) + 3 * length (todo x).

Definition swork (c : scfg) : nat := sum_list_with effort c.1.

(** The request in flight of a session is not answered yet. *)
Definition waiting (x : session) : Prop :=
  from_option (λ t, answered t = false) True (now x).

(** The requests of a client in a log, in the order of the log. *)
Definition mine (k : nat) (log : list (nat * request)) : list request :=
  (filter (λ x, x.1 = k) log).*2.

(** A request that leaves the record under a key as it is: a read, or a
    request on another record. *)
Definition quiet (i : ObjectId) (r : request) : Prop :=
  read_only r = true ∨ ∃ i', key_of r = Some i' ∧ i' ≠ i.

#[export] Instance quiet_dec i r : Decision (quiet i r).
Proof.
  unfold quiet. destruct (key_of r) as [i'|].
  - destruct (decide (i' = i)) as [->|]; [|left; eauto].
    destruct (read_only r); [by left; left|right; naive_solver].
  - destruct (read_only r); [by left; left|right; naive_solver].
Defined.

(** The requests of the scripts, each with its client. *)
Definition stamped (scripts : list (list request)) : list (nat * request) :=
  mjoin (imap (λ k script, (k,.) <$> script) scripts).

(** [own k i log]: among the requests of [log] those of the client [k]
    are the only ones that write the record [i]. *)
Definition own (k : nat) (i : ObjectId) (log : list (nat * request)) : Prop :=
  Forall (λ e, quiet i e.2 ∨ (e.1 = k ∧ key_of e.2 = Some i)) log.

#[export] Instance own_dec k i log : Decision (own k i log).
Proof. unfold own. apply _. Defined.

Section sessions.
Context `{BookConstant, PaginationHelper, RegexEngine, FieldOrder, IdGenerator}.

(** One step: a client sends its next request, or the store serves the
    call of a request in flight. *)
Inductive sstep : relation scfg :=
| sstep_send k c p r rs :
    c.1 !! k = Some (mkSession p None (r :: rs)) →
    sstep c (<[k := mkSession p (Some (Pending r)) rs]> c.1, c.2)
| sstep_call k c p t rs :
    c.1 !! k = Some (mkSession p (Some t) rs) → answered t = false →
    sstep c (<[k := resume p (advance t c.2).1 rs]> c.1, (advance t c.2).2).

(** The step of the client at a position; nothing happens when there is
    none or it has finished. *)
Definition turn (k : nat) (c : scfg) : scfg :=
  match c.1 !! k with
  | Some (mkSession p None (r :: rs)) =>
      (<[k := mkSession p (Some (Pending r)) rs]> c.1, c.2)
  | Some (mkSession p (Some t) rs) =>
      if answered t then c
      else (<[k := resume p (advance t c.2).1 rs]> c.1, (advance t c.2).2)
  | _ => c
  end.

(** A schedule of clients, run from the left. *)
Definition turns (schedule : list nat) (c : scfg) : scfg :=
  foldl (λ c k, turn k c) c schedule.

(** [answered_at s log k p]: the requests of [p] that await the store once
    were answered at their place in the log, after the requests the
    client had sent before. *)
Definition answered_at (s : collection) (log : list (nat * request)) (k : nat)
    (p : list outcome) : Prop :=
  ∀ j r a, p !! j = Some (r, a) → atomic r = true →
    ∃ l1 l2, log = l1 ++ (k, r) :: l2 ∧ mine k l1 = take j p.*1 ∧
             a = result_map fst (BookService r (at_log s l1.*2)).

(** [placed s log k x]: the log holds the requests of the client that have
    made their first call, in the order it sent them. *)
Definition placed (s : collection) (log : list (nat * request)) (k : nat)
    (x : session) : Prop :=
  mine k log = begun x ∧ answered_at s log k (past x).

(** [ordered s c log]: [c] is reached from the collection [s] by the calls
    of the log, which are calls of its clients. *)
Definition ordered (s : collection) (c : scfg) (log : list (nat * request)) : Prop :=
  c.2 = at_log s log.*2 ∧
  (∀ k x, c.1 !! k = Some x → placed s log k x) ∧
  Forall (λ e, is_Some (c.1 !! e.1)) log.

End sessions.

(** * Lemmas *)

(** ** The requests of a client in a log *)

Section mine_lemmas.
Implicit Types (k : nat) (r : request) (log : list (nat * request)).

Lemma mine_app k log log' : mine k (log ++ log') = mine k log ++ mine k log'.
Proof. unfold mine. by rewrite filter_app, fmap_app. Qed.

Lemma mine_snoc k log r : mine k (log ++ [(k, r)]) = mine k log ++ [r].
Proof. rewrite mine_app. unfold mine at 2. by rewrite filter_cons_True. Qed.

Lemma mine_tagged_ne k k' (rs : list request) : k' ≠ k → mine k' ((k,.) <$> rs) = [].
Proof.
  intros Hk. unfold mine. induction rs as [|r rs IH]; [done|].
  by rewrite fmap_cons, filter_cons_False by (simpl; congruence).
Qed.

(** The log of one client is its own. *)
Lemma mine_all k log : Forall (λ x, x.1 = k) log → mine k log = log.*2.
Proof.
  unfold mine. induction 1 as [|x log Hx _ IH]; [done|].
  by rewrite filter_cons_True, !fmap_cons, IH.
Qed.

End mine_lemmas.

(** ** The place of an answer in the log *)

Section placed_lemmas.
Context `{BookConstant, PaginationHelper, RegexEngine, FieldOrder, IdGenerator}.
Implicit Types (k : nat) (r : request) (log : list (nat * request))
  (p : list outcome) (t : task) (s : collection) (x : session).

Lemma answered_at_mono s log l k p :
  answered_at s log k p → answered_at s (log ++ l) k p.
Proof.
  intros Hp j r a Hj Hr. destruct (Hp j r a Hj Hr) as (l1 & l2 & -> & ? & ?).
  exists l1, (l2 ++ l). by rewrite <-app_assoc.
Qed.

(** One more answer: a request that awaits the store once has its place. *)
Lemma answered_at_push s log k p r o :
  answered_at s log k p →
  (atomic r = true → ∃ l1 l2, log = l1 ++ (k, r) :: l2 ∧ mine k l1 = p.*1 ∧
     o = result_map fst (BookService r (at_log s l1.*2))) →
  answered_at s log k (p ++ [(r, o)]).
Proof.
  intros Hp Hnew j r' a Hj Hr'. rewrite fmap_app.
  apply lookup_app_Some in Hj as [Hj|[Hge Hj]].
  - rewrite take_app_le by (rewrite length_fmap; by eapply Nat.lt_le_incl, lookup_lt_Some).
    by apply Hp.
  - apply list_lookup_singleton_Some in Hj as [Hj [= <- <-]].
    assert (j = length p) as ->
      by (apply Nat.le_antisymm; [apply Nat.sub_0_le, Hj|exact Hge]).
    rewrite take_app_length' by by rewrite length_fmap. by apply Hnew.
Qed.

(** The call of a task of the client. *)
Lemma placed_call s log k p t rs :
  answered t = false → placed s log k (mkSession p (Some t) rs) →
  placed s (log ++ ((k,.) <$> option_list (pending_request t))) k
    (resume p (advance t (at_log s log.*2)).1 rs).
Proof.
  intros Ht [Hmine Hp]. unfold begun in Hmine. simpl in *.
  destruct t as [r|f o l|]; [| |done]; simpl (option_list _); rewrite ?fmap_cons, ?fmap_nil.
  - rewrite app_nil_r in Hmine. destruct (atomic r) eqn:Hr.
    + rewrite advance_atomic by done. split; unfold begun; simpl.
      * by rewrite mine_snoc, Hmine, fmap_app, app_nil_r.
      * apply answered_at_push; [by apply answered_at_mono|]. intros _. by exists log, [].
    + destruct r as [f o| | | | | | | | | |]; try done. simpl.
      destruct (getBooks_find f o _) as [[l s']|e]; (split; unfold begun; simpl;
        [by rewrite mine_snoc, Hmine, ?fmap_app, ?app_nil_r|]).
      * by apply answered_at_mono.
      * apply answered_at_push; [by apply answered_at_mono|done].
  - rewrite app_nil_r. simpl. unfold bind, ret.
    destruct (getBooks_count f o l _) as [[??]|]; (split; unfold begun; simpl;
      [by rewrite Hmine, fmap_app, app_nil_r|by apply answered_at_push]).
Qed.

(** The call of a task of another client. *)
Lemma placed_other s log rs k k' x :
  k' ≠ k → placed s log k' x → placed s (log ++ ((k,.) <$> rs)) k' x.
Proof.
  intros Hk [Hmine Hp]. split; [|by apply answered_at_mono].
  by rewrite mine_app, mine_tagged_ne, app_nil_r.
Qed.

End placed_lemmas.

(** ** Executions and their logs *)

Section ordered_lemmas.
Context `{BookConstant, PaginationHelper, RegexEngine, FieldOrder, IdGenerator}.
Implicit Types (k : nat) (r : request) (log : list (nat * request))
  (t : task) (s : collection) (x : session) (c : scfg).

Lemma tagged_requests k (rs : list request) : ((k,.) <$> rs).*2 = rs.
Proof. rewrite <-list_fmap_compose. apply list_fmap_id. Qed.

(** A property of every client after the step of one. *)
Lemma lookup_insert_client (P : nat → session → Prop) (l : list session) k y :
  (∀ k' x, k' ≠ k → l !! k' = Some x → P k' x) → P k y →
  ∀ k' x, <[k:=y]> l !! k' = Some x → P k' x.
Proof.
  intros Hl Hy k' x [(-> & <- & _)|[??]]%list_lookup_insert_Some; [done|]. by apply Hl.
Qed.

(** The clients stay. *)
Lemma clients_insert (l : list session) k y log :
  Forall (λ e, is_Some (l !! e.1)) log → Forall (λ e, is_Some (<[k:=y]> l !! e.1)) log.
Proof.
  intros Hl. eapply Forall_impl; [done|]. intros e. by rewrite list_lookup_insert_is_Some.
Qed.

Lemma ordered_start s scripts : ordered s (sessions scripts, s) [].
Proof.
  split_and!; [done| |done]. intros k x (script & -> & _)%list_lookup_fmap_Some.
  split; [done|]. by intros j r a ?.
Qed.

(** One step extends the log by the request of the task, if the call is its
    first. *)
Lemma ordered_step s c c' log :
  ordered s c log → sstep c c' → ∃ log', ordered s c' (log ++ log').
Proof.
  intros (Hs & Hpl & Hin) Hstep. destruct Hstep as [k c p r rs Hk|k c p t rs Hk Ht].
  - exists []. rewrite app_nil_r. split_and!; [done| |by apply clients_insert]. simpl.
    apply lookup_insert_client; [by auto|]. by destruct (Hpl _ _ Hk).
  - exists ((k,.) <$> option_list (pending_request t)). split_and!; simpl.
    + by rewrite fmap_app, tagged_requests, at_log_app, <-Hs, advance_run.
    + apply lookup_insert_client; [by intros; apply placed_other; auto|].
      rewrite Hs. apply placed_call; auto.
    + apply Forall_app. split; [by apply clients_insert|].
      apply Forall_fmap, Forall_true. intros r. simpl.
      by rewrite list_lookup_insert_is_Some, Hk.
Qed.

(** Every execution has a log. *)
Lemma rtc_sstep_ordered s c c' log :
  ordered s c log → rtc sstep c c' → ∃ log', ordered s c' (log ++ log').
Proof.
  intros Hc Hrtc. revert log Hc.
  induction Hrtc as [c|c1 c2 c3 Hstep _ IH]; intros log Hc.
  - exists []. by rewrite app_nil_r.
  - destruct (ordered_step _ _ _ _ Hc Hstep) as [l1 Hc2].
    destruct (IH _ Hc2) as [l2 Hc3]. exists (l1 ++ l2). by rewrite app_assoc.
Qed.

(** ** Scripts *)

Lemma script_of_resume p t rs :
  script_of (resume p t rs) = p.*1 ++ task_request t :: rs.
Proof. destruct t; unfold script_of; simpl; [done..|]. by rewrite fmap_app, <-app_assoc. Qed.

(** A client follows its script. *)
Lemma sstep_script c c' : sstep c c' → script_of <$> c'.1 = script_of <$> c.1.
Proof.
  destruct 1 as [k c p r rs Hk|k c p t rs Hk Ht]; simpl; rewrite list_fmap_insert;
    apply list_insert_id; rewrite list_lookup_fmap, Hk; simpl; [done|].
  by rewrite script_of_resume, advance_request_of.
Qed.

Lemma rtc_sstep_script c c' : rtc sstep c c' → script_of <$> c'.1 = script_of <$> c.1.
Proof. induction 1 as [|c1 c2 c3 Hstep _ IH]; [done|]. by rewrite IH, (sstep_script c1 c2). Qed.

Lemma script_of_sessions scripts : script_of <$> sessions scripts = scripts.
Proof.
  unfold sessions. rewrite <-list_fmap_compose. apply list_fmap_id.
Qed.

(** What has begun is the beginning of the script. *)
Lemma begun_prefix x : begun x `prefix_of` script_of x.
Proof.
  destruct x as [p [[]|] rs]; unfold begun, script_of; apply prefix_app; simpl;
    by eexists.
Qed.

(** ** Schedules *)

Lemma turn_rtc k c : rtc sstep c (turn k c).
Proof.
  unfold turn. destruct (c.1 !! k) as [[p [t|] rs]|] eqn:Hk; [|destruct rs|]; try done.
  - destruct (answered t) eqn:Ht; [done|]. by eapply rtc_once, sstep_call.
  - by eapply rtc_once, sstep_send.
Qed.

Lemma turns_rtc l c : rtc sstep c (turns l c).
Proof.
  revert c. induction l as [|k l IH]; intros c; [done|].
  simpl. etrans; [apply turn_rtc|apply IH].
Qed.

End ordered_lemmas.

(** ** Every execution ends, with every script answered *)

Section progress_lemmas.
Context `{BookConstant, PaginationHelper, RegexEngine, FieldOrder, IdGenerator}.
Implicit Types (k : nat) (x y : session) (c : scfg) (l : list session).

Lemma sum_list_with_insert (f : session → nat) l k x y :
  l !! k = Some x → sum_list_with f (<[k:=y]> l) + f x = sum_list_with f l + f y.
Proof.
  revert k. induction l as [|z l IH]; intros [|k] Hk; simplify_eq/=; [lia|].
  specialize (IH k Hk). lia.
Qed.

Lemma effort_resume p t rs : effort (resume p t rs) = calls_left t + 3 * length rs.
Proof. by destruct t. Qed.

Lemma effort_send p r rs :
  effort (mkSession p (Some (Pending r)) rs) < effort (mkSession p None (r :: rs)).
Proof. unfold effort. destruct r; simpl; lia. Qed.

Lemma sstep_swork c c' : sstep c c' → swork c' < swork c.
Proof.
  destruct 1 as [k c p r rs Hk|k c p t rs Hk Ht]; unfold swork; simpl.
  - pose proof (sum_list_with_insert effort _ _ _ (mkSession p (Some (Pending r)) rs) Hk).
    pose proof (effort_send p r rs). lia.
  - pose proof (sum_list_with_insert effort _ _ _ (resume p (advance t c.2).1 rs) Hk) as Hsum.
    rewrite effort_resume in Hsum. pose proof (advance_calls_left t c.2 Ht).
    assert (effort (mkSession p (Some t) rs) = calls_left t + 3 * length rs) by done. lia.
Qed.

Lemma swork_sn n c : swork c < n → sn sstep c.
Proof.
  revert c. induction n as [|n IH]; intros c Hn; [lia|].
  constructor. intros c' Hc%sstep_swork. apply IH. lia.
Qed.

Lemma nsteps_swork n c c' : nsteps sstep n c c' → n + swork c' ≤ swork c.
Proof. induction 1 as [|n c1 c2 c3 Hc%sstep_swork _ IH]; lia. Qed.

(** No session holds an answer back. *)
Lemma waiting_resume p t rs : waiting (resume p t rs).
Proof. by destruct t. Qed.

Lemma sstep_waiting c c' : Forall waiting c.1 → sstep c c' → Forall waiting c'.1.
Proof.
  intros Hc. destruct 1 as [k c p r rs Hk|k c p t rs Hk Ht]; simpl;
    (apply Forall_insert; [done|]); [done|apply waiting_resume].
Qed.

Lemma rtc_sstep_waiting c c' : Forall waiting c.1 → rtc sstep c c' → Forall waiting c'.1.
Proof. induction 2 as [|c1 c2 c3 Hstep _ IH]; [done|]. eauto using sstep_waiting. Qed.

Lemma swork_sessions scripts s : swork (sessions scripts, s) = 3 * length (mjoin scripts).
Proof.
  unfold swork, sessions. simpl. induction scripts as [|script scripts IH]; [done|].
  rewrite fmap_cons. simpl. rewrite length_app, IH. unfold effort. simpl. lia.
Qed.

Lemma sessions_waiting scripts : Forall waiting (sessions scripts).
Proof. by apply Forall_fmap, Forall_true. Qed.

(** A session that waits and cannot step has finished. *)
Lemma nf_finished c : Forall waiting c.1 → nf sstep c → finished_all c.
Proof.
  intros Hc Hnf. apply Forall_lookup. intros k [p [t|] rs] Hk.
  - destruct Hnf. eexists. eapply sstep_call; [done|].
    by apply (Forall_lookup_1 _ _ _ _ Hc Hk).
  - destruct rs as [|r rs]; [done|]. destruct Hnf. eexists. by eapply sstep_send.
Qed.

End progress_lemmas.

(** ** One record under the requests of many clients *)

Section record_lemmas.
Context `{BookConstant, PaginationHelper, RegexEngine, FieldOrder, IdGenerator}.
Implicit Types (k : nat) (i : ObjectId) (r : request) (log : list (nat * request))
  (s : collection).

Lemma next_quiet i r s : quiet i r → lookup_id i (next r s) = lookup_id i s.
Proof.
  intros [Hr|(i' & Hi' & Hne)]; [by rewrite next_read_only|].
  by apply (next_keyed_lookup _ i').
Qed.

(** What a request does to its record depends on the record only. *)
Lemma next_lookup_same r i s s' :
  key_of r = Some i → wf s → wf s' → lookup_id i s = lookup_id i s' →
  lookup_id i (next r s) = lookup_id i (next r s').
Proof.
  intros Hr Hs Hs' Heq. destruct (update_of r) as [[j u]|] eqn:Hu.
  - rewrite !(next_update _ _ _ _ Hu).
    assert (j = i) as -> by (destruct r; simplify_eq/=; done).
    by rewrite !lookup_update_id, Heq.
  - destruct r; simplify_eq/=; [done|]. by rewrite !lookup_delete_id.
Qed.

(** The record of a client that is alone on it is the record its own
    requests leave. *)
Lemma lookup_own k i log s s' :
  own k i log → wf s → wf s' → lookup_id i s = lookup_id i s' →
  lookup_id i (at_log s log.*2) = lookup_id i (at_log s' (mine k log)).
Proof.
  intros Hlog. revert s s'.
  induction Hlog as [|[k' r] log Hr _ IH]; intros s s' Hs Hs' Heq; [done|].
  rewrite fmap_cons. unfold at_log, mine in *. rewrite run_next. cbn [snd].
  destruct (decide (k' = k)) as [->|Hne].
  - rewrite filter_cons_True, fmap_cons, run_next by done. cbn [snd].
    apply IH; [by apply next_wf..|]. destruct Hr as [Hq|[_ Hi]].
    + by rewrite !next_quiet.
    + by apply next_lookup_same.
  - rewrite filter_cons_False by done. apply IH; [by apply next_wf|done|].
    destruct Hr as [Hq|[? _]]; [by rewrite next_quiet|done].
Qed.

Lemma own_subseteq k i log log' : log ⊆ log' → own k i log' → own k i log.
Proof. unfold own. rewrite !Forall_forall. auto. Qed.

Lemma elem_of_stamped k r scripts :
  (k, r) ∈ stamped scripts ↔ ∃ script, scripts !! k = Some script ∧ r ∈ script.
Proof.
  unfold stamped. rewrite list_elem_of_join. setoid_rewrite elem_of_lookup_imap. split.
  - intros (l & Hr & k' & script & -> & Hk). apply list_elem_of_fmap in Hr as (r' & [= -> ->] & ?).
    eauto.
  - intros (script & Hk & Hr). eexists. split; [|by eauto]. by apply list_elem_of_fmap_2.
Qed.

Lemma elem_of_mine k r log : (k, r) ∈ log → r ∈ mine k log.
Proof.
  intros Hin. unfold mine. apply (list_elem_of_fmap_2 snd _ (k, r)).
  by apply list_elem_of_filter.
Qed.

End record_lemmas.

(** * Properties *)

Section session_properties.
Context `{BookConstant, PaginationHelper, RegexEngine, FieldOrder, IdGenerator}.
Implicit Types (k : nat) (i : ObjectId) (r : request) (s : collection) (c : scfg).

(** Every execution has a log that follows the scripts. *)
Lemma sessions_ordered scripts s c' :
  rtc sstep (sessions scripts, s) c' →
  ∃ log, ordered s c' log ∧ script_of <$> c'.1 = scripts.
Proof.
  intros Hrtc. destruct (rtc_sstep_ordered s _ _ [] (ordered_start s scripts) Hrtc) as [log ?].
  exists log. split; [done|]. rewrite (rtc_sstep_script _ _ Hrtc). apply script_of_sessions.
Qed.

Lemma lookup_script scripts c k x :
  script_of <$> c.1 = scripts → c.1 !! k = Some x → scripts !! k = Some (script_of x).
Proof. intros <- Hk. by rewrite list_lookup_fmap, Hk. Qed.

Lemma take_past x j o : past x !! j = Some o → take j (past x).*1 = take j (script_of x).
Proof.
  intros Hj%lookup_lt_Some. unfold script_of.
  by rewrite take_app_le by (rewrite length_fmap; by apply Nat.lt_le_incl).
Qed.

(** The requests of the log are requests of the scripts. *)
Lemma log_stamped scripts s c log :
  ordered s c log → script_of <$> c.1 = scripts → log ⊆ stamped scripts.
Proof.
  intros (_ & Hpl & Hin) Hsc [k r] Hr.
  rewrite Forall_forall in Hin. destruct (Hin _ Hr) as [x Hx]. simpl in *.
  apply elem_of_stamped. exists (script_of x). split; [by eapply lookup_script|].
  destruct (Hpl _ _ Hx) as [Hm _]. apply elem_of_mine in Hr. rewrite Hm in Hr.
  by eapply elem_of_prefix, begun_prefix.
Qed.

(** C16: the server is sequentially consistent. Whatever the clients send
    and in whatever order the store serves their calls, the collection is
    the one the requests leave when run one after the other in some order
    in which the requests of every client stand in the order the client
    sent them; and the request a client sent as its [j]-th, when it awaits
    the store once, was answered by its run on the collection at its place
    in that order, after the [j] requests the client had sent before. *)
Theorem sessions_keep_program_order scripts s c' :
  rtc sstep (sessions scripts, s) c' →
  ∃ log, c'.2 = at_log s log.*2 ∧
    (∀ k script, scripts !! k = Some script → mine k log `prefix_of` script) ∧
    ∀ k x j r a, c'.1 !! k = Some x → past x !! j = Some (r, a) → atomic r = true →
      ∃ l1 l2 script, log = l1 ++ (k, r) :: l2 ∧ scripts !! k = Some script ∧
        mine k l1 = take j script ∧
        a = result_map fst (BookService r (at_log s l1.*2)).
Proof.
  intros (log & (Hs & Hpl & _) & Hsc)%sessions_ordered. exists log. split_and!; [done|..].
  - intros k script Hk. rewrite <-Hsc, list_lookup_fmap in Hk.
    destruct (c'.1 !! k) as [x|] eqn:Hx; simplify_eq/=.
    destruct (Hpl _ _ Hx) as [-> _]. apply begun_prefix.
  - intros k x j r a Hx Hj Hr. destruct (Hpl _ _ Hx) as [_ Hp].
    destruct (Hp j r a Hj Hr) as (l1 & l2 & ? & Hm & ?).
    exists l1, l2, (script_of x). rewrite Hm, (take_past _ _ _ Hj).
    split_and!; [done|by eapply lookup_script|done..].
Qed.

(** C17: a client that is alone on a record reads its own writes. When
    the requests of the other clients are reads or address other
    records, every request of the client on the record is answered as in
    the run of its own script, one request after the other, up to that
    request: whatever the other clients do and however the store
    interleaves the calls. *)
Theorem alone_on_a_record_reads_own_writes scripts s c' k i :
  wf s → rtc sstep (sessions scripts, s) c' → own k i (stamped scripts) →
  ∀ x j r a, c'.1 !! k = Some x → past x !! j = Some (r, a) → key_of r = Some i →
    ∃ script, scripts !! k = Some script ∧ a = alone (at_log s (take j script)) r.
Proof.
  intros Hs (log & Hlog & Hsc)%sessions_ordered Hown x j r a Hx Hj Hr.
  pose proof (log_stamped _ _ _ _ Hlog Hsc) as Hsub.
  destruct Hlog as (_ & Hpl & _). destruct (Hpl _ _ Hx) as [_ Hp].
  destruct (Hp j r a Hj (key_of_atomic _ _ Hr)) as (l1 & l2 & -> & Hm & ->).
  exists (script_of x). split; [by eapply lookup_script|].
  apply (alone_frame _ i); [done|]. rewrite <-(take_past _ _ _ Hj), <-Hm.
  apply lookup_own; [|done..]. eapply own_subseteq; [|done]. set_solver.
Qed.

(** Every execution ends, after at most [swork] steps (three for every
    request of a script, at most), and it ends only when every client has
    the answers of its whole script. *)
Theorem every_script_is_answered scripts s :
  sn sstep (sessions scripts, s) ∧
  (∀ n c', nsteps sstep n (sessions scripts, s) c' → n ≤ 3 * length (mjoin scripts)) ∧
  ∀ c', rtc sstep (sessions scripts, s) c' → nf sstep c' →
    finished_all c' ∧ (λ x, (past x).*1) <$> c'.1 = scripts.
Proof.
  split_and!.
  - apply (swork_sn (S (swork (sessions scripts, s)))). lia.
  - intros n c' Hn%nsteps_swork. rewrite swork_sessions in Hn. lia.
  - intros c' Hrtc Hnf.
    pose proof (rtc_sstep_waiting (_, s) _ (sessions_waiting scripts) Hrtc) as Hw.
    pose proof (nf_finished _ Hw Hnf) as Hfin. split; [done|].
    pose proof (rtc_sstep_script _ _ Hrtc) as Hsc. simpl in Hsc.
    rewrite script_of_sessions in Hsc. rewrite <-Hsc.
    apply Forall_fmap_ext_1. eapply Forall_impl; [done|]. intros x [Hn Ht].
    unfold script_of. by rewrite Hn, Ht, !app_nil_r.
Qed.

(** One client alone is the run of its script. *)
Theorem one_client_is_run script s c' :
  rtc sstep (sessions [script], s) c' → nf sstep c' → c'.2 = (run script s).2.
Proof.
  intros Hrtc Hnf. destruct (sessions_ordered _ _ _ Hrtc) as (log & (Hs & Hpl & Hin) & Hsc).
  destruct (proj2 (proj2 (every_script_is_answered [script] s)) c' Hrtc Hnf) as [Hfin Hp].
  destruct c' as [[|x [|??]] s']; simplify_eq/=.
  apply Forall_singleton in Hfin as [Hn _]. destruct (Hpl 0 x eq_refl) as [Hm _].
  unfold begun in Hm. rewrite Hn, app_nil_r in Hm. rewrite <-Hm, mine_all; [done|].
  eapply Forall_impl; [done|]. intros [k r] [y Hy]. by destruct k.
Qed.

End session_properties.

(** * Two clients at the sample collection *)

#[local] Existing Instances default_constant default_helper literal_engine
  string_field_order long_id_generator.

(** A reader who puts a book on a wishlist, fetches it and moves it to
    finished. *)
Definition reader_script : list request := [
  AddToWishlist "b03" ["d@x.com"];
  GetBook "b03";
  AddToFinished "b03" ["d@x.com"]
].

(** An editor who lists the books, reviews another book and removes it. *)
Definition editor_script : list request := [
  GetBooks [] no_options;
  AddReview "b01" (mkReview "b@x.com" "Sharp");
  DeleteBook "b01" club_book
].

(** The store serves the two clients in turns. *)
Definition in_turns : scfg :=
  turns [1; 0; 1; 0; 1; 1; 0; 0; 1; 1; 0; 0; 1]
    (sessions [reader_script; editor_script], club_store).

Lemma in_turns_rtc :
  rtc sstep (sessions [reader_script; editor_script], club_store) in_turns.
Proof. apply turns_rtc. Qed.

(** Both clients have their answers, the reader the wishlist it wrote. *)
Example in_turns_answers :
  finished_all in_turns ∧
  (λ x, (past x).*1) <$> in_turns.1 = [reader_script; editor_script] ∧
  (in_turns.1 !! 0) ≫= (λ x, past x !! 1) =
    Some (GetBook "b03",
          Ok (Found (Some (mkDoc "b03" (set_list Wishlist ["d@x.com"] club_book))))).
Proof.
  split_and!; [apply (bool_decide_unpack _); vm_compute; exact I|vm_compute; reflexivity..].
Qed.

(** With both requests in flight at once the fetch can overtake the
    write and return the wishlist as it was. *)
Example in_flight_reads_stale :
  (exec [1; 0] (arrivals [AddToWishlist "b03" ["d@x.com"]; GetBook "b03"], club_store)).1 !! 1 =
  Some (Answered (GetBook "b03") (Ok (Found (Some (mkDoc "b03" club_book))))).
Proof. vm_compute. reflexivity. Qed.

Lemma sessions_keep_program_order_witness :
  ∃ log, in_turns.2 = at_log club_store log.*2 ∧
    (∀ k script, [reader_script; editor_script] !! k = Some script →
       mine k log `prefix_of` script) ∧
    ∀ k x j r a, in_turns.1 !! k = Some x → past x !! j = Some (r, a) →
      atomic r = true →
      ∃ l1 l2 script, log = l1 ++ (k, r) :: l2 ∧
        [reader_script; editor_script] !! k = Some script ∧
        mine k l1 = take j script ∧
        a = result_map fst (BookService r (at_log club_store l1.*2)).
Proof. apply (sessions_keep_program_order _ club_store), in_turns_rtc. Defined.

Lemma alone_on_a_record_reads_own_writes_witness :
  ∃ script, [reader_script; editor_script] !! 0 = Some script ∧
    Ok (Found (Some (mkDoc "b03" (set_list Wishlist ["d@x.com"] club_book)))) =
    alone (at_log club_store (take 1 script)) (GetBook "b03").
Proof.
  eapply (alone_on_a_record_reads_own_writes _ club_store in_turns 0 "b03");
    [by apply (bool_decide_unpack _)|apply in_turns_rtc|by apply (bool_decide_unpack _)
    |vm_compute; reflexivity..].
Defined.
