(* ===== verification/Validation.v ===== *)
(** * Validation: the request shapes in front of the service

    book.validation.ts declares two schemas with the validation library:
    [createBookZodSchema] for the request that creates a book and
    [updateBookZodSchema] for the one that updates it.  The library is
    modelled here as far as the two schemas use it: values as they arrive
    from a JSON body ([json]), schemas as data ([schema], built with the
    combinators of [Module z] under the library's names), the issues a value
    raises against a schema ([issues]) and the value a successful parse
    returns ([output]: objects reduced to the keys of their shape).  The
    syntax of email addresses is an interface ([EmailSyntax]); the genres
    come from the configuration ([BookConstant]). *)

From Stdlib Require Import Ascii.
From S2P Require Import Prelude Document.

(** ** Values *)

Unset Elimination Schemes.
Inductive json : Type :=
| JNull
| JBool (b : bool)
| JNum (n : Z)
| JStr (s : string)
| JArr (l : list json)
| JObj (o : list (string * json)).
Set Elimination Schemes.

(** The name [typeof]-like the library reports for a value, [undefined] for
    a key that is absent. *)
Definition type_name (v : option json) : string :=
  match v with
  | None => "undefined"
  | Some JNull => "null"
  | Some (JBool _) => "boolean"
  | Some (JNum _) => "number"
  | Some (JStr _) => "string"
  | Some (JArr _) => "array"
  | Some (JObj _) => "object"
  end.

(** The value under a key of an object: the first entry of that key. *)
Fixpoint assoc {A} (k : string) (o : list (string * A)) : option A :=
  match o with
  | [] => None
  | (k', v) :: o => if decide (k' = k) then Some v else assoc k o
  end.

(** ** Schemas *)

Inductive string_check : Type := Email.

Unset Elimination Schemes.
Inductive schema : Type :=
| ZString (required_error : option string) (checks : list string_check)
| ZEnum (values : list string)
| ZArray (item : schema)
| ZObject (shape : list (string * schema))
| ZOptional (inner : schema).
Set Elimination Schemes.

(** The combinators, under the names the source calls them by. *)
Module z.

Definition object (shape : list (String.string * schema)) : schema := ZObject shape.

Definition string (required_error : option String.string) : schema :=
  ZString required_error [].

Definition enum (values : list String.string) : schema := ZEnum values.

Definition array (item : schema) : schema := ZArray item.

(** [.email()], a method of string schemas. *)
Definition email (s : schema) : schema :=
  match s with
  | ZString m cs => ZString m (cs ++ [Email])
  | _ => s
  end.

(** [.optional()] *)
Definition optional (s : schema) : schema := ZOptional s.

End z.

(** ** Issues *)

Inductive segment : Type := Key (k : string) | Index (n : nat).

Inductive issue_code : Type :=
| invalid_type (expected received : string)
| invalid_enum_value (options : list string) (received : string)
| invalid_string (validation : string_check).

Record issue : Type := mkIssue {
  code : issue_code;
  path : list segment;
  message : string
}.

#[export] Instance string_check_eq_dec : EqDecision string_check.
Proof. solve_decision. Defined.
#[export] Instance segment_eq_dec : EqDecision segment.
Proof. solve_decision. Defined.
#[export] Instance issue_code_eq_dec : EqDecision issue_code.
Proof. solve_decision. Defined.
#[export] Instance issue_eq_dec : EqDecision issue.
Proof. solve_decision. Defined.

(** The syntax of email addresses the library checks. *)
Class EmailSyntax : Type := {
  is_email : string → bool
}.

(** A plain syntax for the samples: something before an at sign, and after
    it two parts around a dot, none empty. *)
Fixpoint split_at (c : ascii) (s : string) : option (string * string) :=
  match s with
  | EmptyString => None
  | String a s' =>
      if Ascii.eqb a c then Some (EmptyString, s')
      else (λ lr, (String a lr.1, lr.2)) <$> split_at c s'
  end.

Definition plain_email (s : string) : bool :=
  match split_at "@" s with
  | Some (l, d) =>
      negb (String.eqb l "")
      && match split_at "." d with
         | Some (d1, d2) => negb (String.eqb d1 "") && negb (String.eqb d2 "")
         | None => false
         end
  | None => false
  end.

Definition plain_email_syntax : EmailSyntax := {| is_email := plain_email |}.

Section validation.
Context `{BookConstant, EmailSyntax}.

Definition check_ok (c : string_check) (x : string) : bool :=
  match c with Email => is_email x end.

Definition check_issue (p : list segment) (x : string) (c : string_check)
    : list issue :=
  if check_ok c x then []
  else [mkIssue (invalid_string c) p
          match c with Email => "Invalid email" end].

Definition type_issue (expected : string) (p : list segment) (v : option json)
    (required_error : option string) : issue :=
  mkIssue (invalid_type expected (type_name v)) p
    match v with
    | None => default "Required" required_error
    | Some _ => "Expected " +:+ expected +:+ ", received " +:+ type_name v
    end.

(** The issues a value raises against a schema, at a path; every issue
    is reported, none stops the parse. *)
Fixpoint issues (s : schema) (p : list segment) (v : option json) : list issue :=
  match s with
  | ZString m cs =>
      match v with
      | Some (JStr x) => cs ≫= check_issue p x
      | _ => [type_issue "string" p v m]
      end
  | ZEnum vs =>
      match v with
      | Some (JStr x) =>
          if decide (x ∈ vs) then []
          else [mkIssue (invalid_enum_value vs x) p "Invalid enum value"]
      | _ => [type_issue "enum" p v None]
      end
  | ZArray item =>
      match v with
      | Some (JArr l) =>
          concat (imap (λ n w, issues item (p ++ [Index n]) (Some w)) l)
      | _ => [type_issue "array" p v None]
      end
  | ZObject shape =>
      match v with
      | Some (JObj o) =>
          shape ≫= λ ks, issues ks.2 (p ++ [Key ks.1]) (assoc ks.1 o)
      | _ => [type_issue "object" p v None]
      end
  | ZOptional inner =>
      match v with
      | None => []
      | Some _ => issues inner p v
      end
  end.

(** The value a parse returns when there is no issue: strings and arrays
    as they are, objects reduced to the keys of the shape that are
    present. *)
Fixpoint output (s : schema) (v : option json) : option json :=
  match s with
  | ZString _ _ | ZEnum _ => v
  | ZArray item =>
      match v with
      | Some (JArr l) => Some (JArr (omap (λ w, output item (Some w)) l))
      | _ => v
      end
  | ZObject shape =>
      match v with
      | Some (JObj o) =>
          Some (JObj (omap (λ ks, pair ks.1 <$> output ks.2 (assoc ks.1 o)) shape))
      | _ => v
      end
  | ZOptional inner =>
      match v with
      | None => None
      | Some _ => output inner v
      end
  end.

(** [schema.safeParse(v)] *)
Definition safeParse (s : schema) (v : json) : result (list issue) json :=
  match issues s [] (Some v), output s (Some v) with
  | [], Some w => Ok w
  | errors, _ => Err errors
  end.

(** Whether a value conforms to a schema: the reference the issues are
    compared with. *)
Fixpoint conforms (s : schema) (v : option json) : bool :=
  match s with
  | ZString _ cs =>
      match v with
      | Some (JStr x) => forallb (λ c, check_ok c x) cs
      | _ => false
      end
  | ZEnum vs =>
      match v with
      | Some (JStr x) => bool_decide (x ∈ vs)
      | _ => false
      end
  | ZArray item =>
      match v with
      | Some (JArr l) => forallb (λ w, conforms item (Some w)) l
      | _ => false
      end
  | ZObject shape =>
      match v with
      | Some (JObj o) => forallb (λ ks, conforms ks.2 (assoc ks.1 o)) shape
      | _ => false
      end
  | ZOptional inner =>
      match v with
      | None => true
      | Some _ => conforms inner v
      end
  end.

(** A schema whose object shapes name each key once, as the object
    literals of the source do. *)
Fixpoint wf_schema (s : schema) : bool :=
  match s with
  | ZString _ _ | ZEnum _ => true
  | ZArray item => wf_schema item
  | ZObject shape =>
      bool_decide (NoDup shape.*1) && forallb (λ ks, wf_schema ks.2) shape
  | ZOptional inner => wf_schema inner
  end.

(** ** The schemas of the module *)

Definition create_review_schema : schema :=
  z.object [
    ("email", z.email (z.string (Some "Email is required !!")));
    ("comment", z.string (Some "Comment is required !!"))
  ].

Definition createBookZodSchema : schema :=
  z.object [
    ("body", z.object [
      ("title", z.string (Some "Title is required !!"));
      ("author", z.string (Some "Authore is required !!"));
      ("genre", z.enum book_genres);
      ("publication_date", z.string (Some "Date is required !!"));
      ("reviews", z.array create_review_schema)
    ])
  ].

Definition update_review_schema : schema :=
  z.object [
    ("email", z.optional (z.email (z.string None)));
    ("comment", z.optional (z.string None))
  ].

Definition updateBookZodSchema : schema :=
  z.object [
    ("body", z.object [
      ("title", z.optional (z.string None));
      ("author", z.optional (z.string None));
      ("genre", z.optional (z.enum book_genres));
      ("publication_date", z.optional (z.string None));
      ("reviews", z.optional (z.array update_review_schema))
    ])
  ].

(** [export const BookValidation = { createBookZodSchema, updateBookZodSchema }] *)
Inductive schema_name : Type := CreateBookZodSchema | UpdateBookZodSchema.

Definition BookValidation (n : schema_name) : schema :=
  match n with
  | CreateBookZodSchema => createBookZodSchema
  | UpdateBookZodSchema => updateBookZodSchema
  end.

End validation.

(** ** Encoding a book as the body of a request *)

Definition encode_review (r : IBookReview) : json :=
  JObj [("email", JStr (email r)); ("comment", JStr (comment r))].

(** The five keys the create schema knows. *)
Definition encode_book (b : IBook) : json :=
  JObj [("title", JStr (title b)); ("author", JStr (author b));
        ("genre", JStr (genre b)); ("publication_date", JStr (publication_date b));
        ("reviews", JArr (encode_review <$> reviews b))].

Definition request_of (body : json) : json := JObj [("body", body)].

(** A book read back from a body of those keys, its lists empty. *)
Definition new_book (t a g y : string) (rs : list IBookReview) : IBook :=
  mkBook t a g y rs [] [] [] [].

(** * Lemmas *)

(** Induction on schemas, through the shapes of objects. *)
Lemma schema_ind (P : schema → Prop) :
  (∀ m cs, P (ZString m cs)) →
  (∀ vs, P (ZEnum vs)) →
  (∀ item, P item → P (ZArray item)) →
  (∀ shape, Forall (λ ks, P ks.2) shape → P (ZObject shape)) →
  (∀ inner, P inner → P (ZOptional inner)) →
  ∀ s, P s.
Proof.
  intros Hs He Ha Ho Hopt. fix IH 1.
  intros [m cs|vs|item|shape|inner];
    [apply Hs|apply He|apply Ha, IH| |apply Hopt, IH].
  apply Ho. induction shape as [|[k s] shape IHs]; constructor; [apply IH|done].
Qed.

Section list_lemmas.
Context {A B : Type}.

Lemma concat_nil_Forall (ls : list (list B)) : concat ls = [] ↔ Forall (λ l, l = []) ls.
Proof.
  induction ls as [|l ls IH]; simpl; [by split|].
  rewrite Forall_cons, <-IH. split; [by intros [??]%app_eq_nil|by intros [-> ->]].
Qed.

Lemma concat_imap_nil (f : nat → A → list B) (l : list A) :
  concat (imap f l) = [] ↔ ∀ n x, l !! n = Some x → f n x = [].
Proof.
  revert f. induction l as [|a l IH]; intros f; simpl; [by split|].
  rewrite app_nil, IH. split.
  - intros [Ha Hl] [|n] x; simpl; [by intros [= <-]|apply Hl].
  - intros Hl. split; [by apply (Hl 0)|]. intros n x. apply (Hl (S n)).
Qed.

Lemma forallb_lookup (f : A → bool) (l : list A) :
  forallb f l = true ↔ ∀ n x, l !! n = Some x → f x = true.
Proof.
  rewrite forallb_forall. setoid_rewrite <-list_elem_of_In.
  setoid_rewrite list_elem_of_lookup. naive_solver.
Qed.

Lemma forallb_Forall (f : A → bool) (l : list A) :
  forallb f l = true ↔ Forall (λ x, f x = true) l.
Proof.
  rewrite forallb_forall, Forall_forall. by setoid_rewrite <-list_elem_of_In.
Qed.

Lemma bind_nil_Forall (f : A → list B) (l : list A) :
  l ≫= f = [] ↔ Forall (λ x, f x = []) l.
Proof.
  induction l as [|a l IH]; [by split|].
  rewrite bind_cons, Forall_cons, <-IH.
  split; [by intros [??]%app_eq_nil|by intros [-> ->]].
Qed.

Lemma Forall_iff_pointwise (P Q : A → Prop) (l : list A) :
  Forall (λ x, P x ↔ Q x) l → Forall P l ↔ Forall Q l.
Proof. induction 1; [done|]. rewrite !Forall_cons. tauto. Qed.

Lemma assoc_cons (k k' : string) (v : A) o :
  assoc k ((k', v) :: o) = if decide (k' = k) then Some v else assoc k o.
Proof. done. Qed.

Lemma assoc_None (k : string) (o : list (string * A)) : k ∉ o.*1 → assoc k o = None.
Proof.
  induction o as [|[k' v] o IH]; [done|]. rewrite fmap_cons, not_elem_of_cons.
  intros [??]. rewrite assoc_cons, decide_False by done. auto.
Qed.

(** The value under a key of an object built from a shape, key by key. *)
Lemma assoc_omap_shape (h : string * B → option A) (shape : list (string * B)) k x :
  NoDup shape.*1 → (k, x) ∈ shape →
  assoc k (omap (λ ks, pair ks.1 <$> h ks) shape) = h (k, x).
Proof.
  induction shape as [|[k0 x0] shape IH]; [by intros _ ?%elem_of_nil|].
  rewrite fmap_cons, NoDup_cons, elem_of_cons. intros [Hk Hnd] [[= -> ->]|Hin].
  - cbn [omap list_omap fst]. destruct (h (k0, x0)) as [a|]; simpl.
    + by rewrite decide_True.
    + apply assoc_None.
      intros ((k' & a) & -> & ((k'' & x') & ? & Hh)%list_elem_of_omap)%list_elem_of_fmap.
      apply fmap_Some in Hh as (? & _ & [= <- _]). simpl in *.
      apply Hk, list_elem_of_fmap. by exists (k', x').
  - assert (k0 ≠ k) by (intros ->; apply Hk, list_elem_of_fmap; by exists (k, x)).
    cbn [omap list_omap fst]. destruct (h (k0, x0)) as [a|]; simpl;
      rewrite ?decide_False by done; by apply IH.
Qed.

(** A list parsed element by element, parsed again. *)
Lemma omap_parsed (f : A → option A) (c : A → bool) (l : list A) :
  Forall (λ w, c w = true → ∃ w', f w = Some w' ∧ c w' = true ∧ f w' = Some w') l →
  forallb c l = true →
  forallb c (omap f l) = true ∧ omap f (omap f l) = omap f l.
Proof.
  induction 1 as [|w l Hw _ IH]; [done|]. cbn [forallb].
  intros [Hc Hl]%andb_true_iff. destruct (Hw Hc) as (w' & Hf & Hc' & Hf').
  destruct (IH Hl) as [IH1 IH2]. cbn [omap list_omap]. rewrite Hf.
  cbn [forallb omap list_omap]. by rewrite Hc', IH1, Hf', IH2.
Qed.

End list_lemmas.

Section validation_lemmas.
Context `{BookConstant, EmailSyntax}.
Implicit Types (s : schema) (v : option json) (p : list segment) (w : json)
  (l : list json) (r : IBookReview) (rs : list IBookReview) (b : IBook).

Lemma checks_nil p x cs :
  cs ≫= check_issue p x = [] ↔ forallb (λ c, check_ok c x) cs = true.
Proof.
  rewrite bind_nil_Forall, forallb_Forall. apply Forall_iff_pointwise, Forall_true.
  intros c. unfold check_issue. by destruct (check_ok c x).
Qed.

(** The issues are empty exactly on the values that conform. *)
Lemma issues_nil_conforms s p v : issues s p v = [] ↔ conforms s v = true.
Proof.
  revert p v. induction s as [m cs|vs|item IH|shape IH|inner IH]
    using schema_ind; intros p v; simpl.
  - destruct v as [[]|]; try done. apply checks_nil.
  - destruct v as [[]|]; try done. rewrite bool_decide_eq_true.
    case_decide; naive_solver.
  - destruct v as [[]|]; try done. rewrite concat_imap_nil, forallb_lookup.
    by setoid_rewrite IH.
  - destruct v as [[]|]; try done. rewrite bind_nil_Forall, forallb_Forall.
    apply Forall_iff_pointwise. eapply Forall_impl; [done|]. naive_solver.
  - destruct v; [apply IH|done].
Qed.

(** A value that is present parses to a value. *)
Lemma output_Some s w : is_Some (output s (Some w)).
Proof.
  induction s as [m cs|vs|item IH|shape IH|inner IH] using schema_ind; simpl;
    try done; by destruct w.
Qed.

Lemma safeParse_Ok s w w' :
  safeParse s w = Ok w' ↔ conforms s (Some w) = true ∧ output s (Some w) = Some w'.
Proof.
  unfold safeParse. rewrite <-(issues_nil_conforms s []).
  destruct (output_Some s w) as [w0 ->].
  destruct (issues s [] (Some w)); naive_solver.
Qed.

Lemma safeParse_Err s w errors :
  safeParse s w = Err errors ↔ errors = issues s [] (Some w) ∧ conforms s (Some w) = false.
Proof.
  unfold safeParse. rewrite <-not_true_iff_false, <-(issues_nil_conforms s []).
  destruct (output_Some s w) as [w0 ->].
  destruct (issues s [] (Some w)); naive_solver.
Qed.

(** ** Parsing what a parse returned

    The value a parse returns conforms to the schema and parses to
    itself, when the shapes name each key once. *)

Lemma parsed_object shape o :
  NoDup shape.*1 →
  Forall (λ ks, ∀ v, conforms ks.2 v = true →
            conforms ks.2 (output ks.2 v) = true ∧
            output ks.2 (output ks.2 v) = output ks.2 v) shape →
  conforms (ZObject shape) (Some (JObj o)) = true →
  conforms (ZObject shape) (output (ZObject shape) (Some (JObj o))) = true ∧
  output (ZObject shape) (output (ZObject shape) (Some (JObj o))) =
    output (ZObject shape) (Some (JObj o)).
Proof.
  intros Hnd IH Hc. cbn [conforms output] in *.
  rewrite forallb_Forall, Forall_forall in Hc. rewrite Forall_forall in IH.
  set (h := λ ks : string * schema, output ks.2 (assoc ks.1 o)).
  set (o' := omap (λ ks, pair ks.1 <$> h ks) shape).
  assert (Forall (λ ks, assoc ks.1 o' = h ks ∧ conforms ks.2 (h ks) = true ∧
                        output ks.2 (h ks) = h ks) shape) as Hall.
  { apply Forall_forall. intros [k x] Hin. split; [by apply assoc_omap_shape|].
    by apply (IH _ Hin), (Hc _ Hin). }
  subst o' h. cbv beta in Hall. split.
  - apply forallb_Forall. eapply Forall_impl; [exact Hall|].
    by intros ks (-> & ? & _).
  - do 2 f_equal. apply list_omap_ext, Forall_Forall2_diag.
    eapply Forall_impl; [exact Hall|]. by intros ks (-> & _ & ->).
Qed.

Lemma parsed_array item l :
  (∀ v, conforms item v = true →
        conforms item (output item v) = true ∧
        output item (output item v) = output item v) →
  conforms (ZArray item) (Some (JArr l)) = true →
  conforms (ZArray item) (output (ZArray item) (Some (JArr l))) = true ∧
  output (ZArray item) (output (ZArray item) (Some (JArr l))) =
    output (ZArray item) (Some (JArr l)).
Proof.
  intros IH Hc. cbn [conforms output] in *.
  destruct (omap_parsed (λ w, output item (Some w)) (λ w, conforms item (Some w)) l)
    as [Hc' Ho']; [|done|by rewrite Hc', Ho'].
  apply Forall_true. intros w Hw. destruct (output_Some item w) as [w' Hw'].
  destruct (IH _ Hw) as [? Ho]. rewrite Hw' in *. eauto.
Qed.

Lemma parsed s v :
  wf_schema s = true → conforms s v = true →
  conforms s (output s v) = true ∧ output s (output s v) = output s v.
Proof.
  revert v. induction s as [m cs|vs|item IH|shape IH|inner IH] using schema_ind;
    intros v Hwf Hc; [done|done|..].
  - destruct v as [[]|]; try done. apply parsed_array; [|done]. intros v. by apply IH.
  - destruct v as [[]|]; try done. cbn [wf_schema] in Hwf.
    apply andb_true_iff in Hwf as [Hnd%bool_decide_eq_true Hwf%forallb_Forall].
    apply parsed_object; [done| |done].
    eapply Forall_impl; [apply Forall_and; split; [exact IH|exact Hwf]|].
    intros ks [Hks ?] v. by apply Hks.
  - destruct v as [w|]; [|done]. cbn [conforms output wf_schema] in *.
    destruct (output_Some inner w) as [w' Hw']. destruct (IH _ Hwf Hc) as [? Ho].
    by rewrite Hw' in *.
Qed.

Lemma safeParse_idempotent s w w' :
  wf_schema s = true → safeParse s w = Ok w' → safeParse s w' = Ok w'.
Proof.
  rewrite !safeParse_Ok. intros Hwf [Hc Ho].
  destruct (parsed s (Some w) Hwf Hc) as [Hc' Ho']. by rewrite Ho in *.
Qed.

(** ** What it is to conform, constructor by constructor *)

Lemma conforms_string m cs v :
  conforms (ZString m cs) v = true ↔
  ∃ x, v = Some (JStr x) ∧ Forall (λ c, check_ok c x = true) cs.
Proof.
  simpl. destruct v as [[]|]; try naive_solver. rewrite forallb_Forall. naive_solver.
Qed.

Lemma conforms_enum vs v :
  conforms (ZEnum vs) v = true ↔ ∃ x, v = Some (JStr x) ∧ x ∈ vs.
Proof.
  simpl. destruct v as [[]|]; try naive_solver.
  rewrite bool_decide_eq_true. naive_solver.
Qed.

Lemma conforms_array item v :
  conforms (ZArray item) v = true ↔
  ∃ l, v = Some (JArr l) ∧ Forall (λ w, conforms item (Some w) = true) l.
Proof.
  simpl. destruct v as [[]|]; try naive_solver. rewrite forallb_Forall. naive_solver.
Qed.

Lemma conforms_object shape v :
  conforms (ZObject shape) v = true ↔
  ∃ o, v = Some (JObj o) ∧ Forall (λ ks, conforms ks.2 (assoc ks.1 o) = true) shape.
Proof.
  simpl. destruct v as [[]|]; try naive_solver. rewrite forallb_Forall. naive_solver.
Qed.

Lemma conforms_optional s v :
  conforms (ZOptional s) v = true ↔ v = None ∨ conforms s v = true.
Proof. simpl. destruct v; naive_solver. Qed.

(** Making a schema optional accepts more. *)
Lemma conforms_optional_weaken s v :
  conforms s v = true → conforms (ZOptional s) v = true.
Proof. rewrite conforms_optional. auto. Qed.

(** ** Reviews *)

Lemma conforms_encode_review r :
  conforms create_review_schema (Some (encode_review r)) = is_email (email r).
Proof. simpl. by rewrite !andb_true_r. Qed.

Lemma review_output w :
  conforms create_review_schema (Some w) = true →
  ∃ r, output create_review_schema (Some w) = Some (encode_review r) ∧
       is_email (email r) = true.
Proof.
  intros (o & [= ->] & Hf)%conforms_object.
  rewrite !Forall_cons in Hf. cbn [fst snd] in Hf. destruct Hf as (He & Hc & _).
  apply conforms_string in He as (e & He & Hck), Hc as (c & Hc & _).
  apply Forall_cons in Hck as [Hck _].
  exists (mkReview e c). simpl. by rewrite He, Hc.
Qed.

Lemma reviews_output l :
  Forall (λ w, conforms create_review_schema (Some w) = true) l →
  ∃ rs, omap (λ w, output create_review_schema (Some w)) l = encode_review <$> rs ∧
        Forall (λ r, is_email (email r) = true) rs.
Proof. apply omap_decoded, review_output. Qed.

Lemma reviews_conform rs :
  forallb (λ w, conforms create_review_schema (Some w)) (encode_review <$> rs) =
  forallb (λ r, is_email (email r)) rs.
Proof.
  induction rs as [|r rs IH]; [done|].
  rewrite fmap_cons. cbn [forallb]. by rewrite conforms_encode_review, IH.
Qed.

Lemma reviews_output_encode rs :
  omap (λ w, output create_review_schema (Some w)) (encode_review <$> rs) =
  encode_review <$> rs.
Proof. induction rs as [|r rs IH]; [done|]. rewrite fmap_cons. simpl. by f_equal. Qed.

(** A review the create schema accepts, the update schema accepts. *)
Lemma update_review_weaker w :
  conforms create_review_schema (Some w) = true →
  conforms update_review_schema (Some w) = true.
Proof.
  intros (o & [= ->] & Hf)%conforms_object. apply conforms_object. exists o.
  split; [done|]. rewrite !Forall_cons in Hf. cbn [fst snd] in Hf.
  destruct Hf as (He & Hc & _).
  repeat constructor; cbn [fst snd]; by apply conforms_optional_weaken.
Qed.

(** ** Books *)

#[local] Opaque create_review_schema update_review_schema.

Lemma conforms_encode_book b :
  conforms createBookZodSchema (Some (request_of (encode_book b))) =
  bool_decide (genre b ∈ book_genres) && forallb (λ r, is_email (email r)) (reviews b).
Proof. simpl. by rewrite reviews_conform, !andb_true_r. Qed.

Lemma output_encode_book b :
  output createBookZodSchema (Some (request_of (encode_book b))) =
  Some (request_of (encode_book b)).
Proof. simpl. by rewrite reviews_output_encode. Qed.

(** The fields of a body the create schema accepts. *)
Lemma conforms_create_body o :
  conforms createBookZodSchema (Some (JObj o)) = true ↔
  ∃ bo t a g y l,
    assoc "body" o = Some (JObj bo) ∧
    assoc "title" bo = Some (JStr t) ∧ assoc "author" bo = Some (JStr a) ∧
    assoc "genre" bo = Some (JStr g) ∧ g ∈ book_genres ∧
    assoc "publication_date" bo = Some (JStr y) ∧
    assoc "reviews" bo = Some (JArr l) ∧
    Forall (λ w, conforms create_review_schema (Some w) = true) l.
Proof.
  unfold createBookZodSchema, z.object, z.string, z.enum, z.array.
  rewrite conforms_object.
  setoid_rewrite Forall_singleton. cbn [fst snd].
  setoid_rewrite conforms_object. repeat setoid_rewrite Forall_cons.
  cbn [fst snd].
  setoid_rewrite conforms_string. setoid_rewrite conforms_enum.
  setoid_rewrite conforms_array. naive_solver.
Qed.

(** The fields of a body the update schema accepts: each absent or of its
    type. *)
Lemma conforms_update_body o :
  conforms updateBookZodSchema (Some (JObj o)) = true ↔
  ∃ bo,
    assoc "body" o = Some (JObj bo) ∧
    (assoc "title" bo = None ∨ ∃ t, assoc "title" bo = Some (JStr t)) ∧
    (assoc "author" bo = None ∨ ∃ a, assoc "author" bo = Some (JStr a)) ∧
    (assoc "genre" bo = None ∨ ∃ g, assoc "genre" bo = Some (JStr g) ∧ g ∈ book_genres) ∧
    (assoc "publication_date" bo = None ∨
     ∃ y, assoc "publication_date" bo = Some (JStr y)) ∧
    (assoc "reviews" bo = None ∨
     ∃ l, assoc "reviews" bo = Some (JArr l) ∧
          Forall (λ w, conforms update_review_schema (Some w) = true) l).
Proof.
  unfold updateBookZodSchema, z.object, z.optional, z.string, z.enum, z.array.
  rewrite conforms_object.
  setoid_rewrite Forall_singleton. cbn [fst snd].
  setoid_rewrite conforms_object. repeat setoid_rewrite Forall_cons.
  cbn [fst snd].
  setoid_rewrite conforms_optional. setoid_rewrite conforms_string.
  setoid_rewrite conforms_enum. setoid_rewrite conforms_array. naive_solver.
Qed.

Lemma output_create_body o bo t a g y l :
  assoc "body" o = Some (JObj bo) →
  assoc "title" bo = Some (JStr t) → assoc "author" bo = Some (JStr a) →
  assoc "genre" bo = Some (JStr g) → assoc "publication_date" bo = Some (JStr y) →
  assoc "reviews" bo = Some (JArr l) →
  output createBookZodSchema (Some (JObj o)) =
  Some (request_of (JObj [
    ("title", JStr t); ("author", JStr a); ("genre", JStr g);
    ("publication_date", JStr y);
    ("reviews", JArr (omap (λ w, output create_review_schema (Some w)) l))])).
Proof. intros Hb Ht Ha Hg Hy Hr. simpl. rewrite Hb. simpl. by rewrite Ht, Ha, Hg, Hy, Hr. Qed.

Lemma conforms_object_inv shape w :
  conforms (ZObject shape) (Some w) = true → ∃ o, w = JObj o.
Proof. intros (o & [= ->] & _)%conforms_object. eauto. Qed.

#[local] Transparent create_review_schema update_review_schema.

End validation_lemmas.

(** * Properties of the schemas *)

Section validation_properties.
Context `{BookConstant, EmailSyntax}.
Implicit Types (b : IBook) (req out : json).

(** C39: the create schema accepts the encoding of a book exactly when
    its genre is one of the configured genres and the email of every review
    is a valid address, and the parse then returns the request unchanged. *)
Theorem createBookZodSchema_roundtrip b :
  safeParse createBookZodSchema (request_of (encode_book b)) =
    Ok (request_of (encode_book b)) ↔
  genre b ∈ book_genres ∧ Forall (λ r, is_email (email r) = true) (reviews b).
Proof.
  rewrite safeParse_Ok, conforms_encode_book, output_encode_book, andb_true_iff,
    bool_decide_eq_true, forallb_Forall. naive_solver.
Qed.

(** C38: whatever request the create schema accepts, the value the parse
    returns is the encoding of a book: title, author, publication date and
    comments are strings, the genre is a configured genre, every review
    email is a valid address, and no other key is left. *)
Theorem createBookZodSchema_sound req out :
  safeParse createBookZodSchema req = Ok out →
  ∃ t a g y rs,
    out = request_of (encode_book (new_book t a g y rs)) ∧
    g ∈ book_genres ∧ Forall (λ r, is_email (email r) = true) rs.
Proof.
  rewrite safeParse_Ok. intros [Hc Ho].
  destruct (conforms_object_inv _ _ Hc) as [o ->].
  apply conforms_create_body in Hc as (bo & t & a & g & y & l & ? & ? & ? & ? & ? & ? & ? & Hl).
  destruct (reviews_output l Hl) as (rs & Hrs & ?). exists t, a, g, y, rs.
  erewrite output_create_body, Hrs in Ho by done. by simplify_eq.
Qed.

(** Every request the create schema accepts the update schema
    accepts, and the update schema also accepts a body with no key. *)
Theorem update_accepts_what_create_accepts req :
  conforms createBookZodSchema (Some req) = true →
  conforms updateBookZodSchema (Some req) = true ∧
  conforms updateBookZodSchema (Some (request_of (JObj []))) = true.
Proof.
  intros Hc. split; [|done]. destruct (conforms_object_inv _ _ Hc) as [o ->].
  apply conforms_create_body in Hc as (bo & t & a & g & y & l & ? & ? & ? & ? & ? & ? & ? & Hl).
  apply conforms_update_body. exists bo. split_and!; eauto.
  right. exists l. split; [done|].
  eapply Forall_impl; [done|]. apply update_review_weaker.
Qed.

(** A create request whose body has no key is rejected with one
    issue per key of the schema, in the order of the schema, each at its
    path and with the message the schema declares for it. *)
Theorem createBookZodSchema_empty_body :
  safeParse createBookZodSchema (request_of (JObj [])) = Err [
    mkIssue (invalid_type "string" "undefined") [Key "body"; Key "title"]
      "Title is required !!";
    mkIssue (invalid_type "string" "undefined") [Key "body"; Key "author"]
      "Authore is required !!";
    mkIssue (invalid_type "enum" "undefined") [Key "body"; Key "genre"] "Required";
    mkIssue (invalid_type "string" "undefined") [Key "body"; Key "publication_date"]
      "Date is required !!";
    mkIssue (invalid_type "array" "undefined") [Key "body"; Key "reviews"] "Required"
  ].
Proof. reflexivity. Qed.

(** Neither schema looks at the four membership lists: a body with
    any value under [wishlist], [read_soon], [currently_reading] or
    [finished] parses as the body without it, so no email of a membership
    list is ever checked and the parsed value never carries one. *)
Theorem membership_lists_unvalidated n m w o :
  safeParse (BookValidation n) (request_of (JObj ((membership_path m, w) :: o))) =
  safeParse (BookValidation n) (request_of (JObj o)).
Proof. by destruct n, m. Qed.

(** What a schema of the module returns, it accepts and returns
    again: the parsed request conforms to the schema, and parsing it
    changes nothing more.  A handler that validates a request that was
    validated before sees the same request. *)
Theorem BookValidation_parse_idempotent n req out :
  safeParse (BookValidation n) req = Ok out →
  safeParse (BookValidation n) out = Ok out.
Proof. apply safeParse_idempotent. by destruct n. Qed.

End validation_properties.

(** * The schemas at sample requests *)

#[local] Existing Instances default_constant plain_email_syntax.

Definition dune : IBook :=
  new_book "Dune" "Frank Herbert" "Science Fiction" "1965-08-01"
    [mkReview "a@x.com" "A classic"].

(** The request of a client that also sends a wishlist. *)
Definition dune_request : json :=
  JObj [("body", JObj [
    ("wishlist", JArr [JStr "not an email"]);
    ("title", JStr "Dune"); ("author", JStr "Frank Herbert");
    ("genre", JStr "Science Fiction"); ("publication_date", JStr "1965-08-01");
    ("reviews", JArr [JObj [("comment", JStr "A classic"); ("email", JStr "a@x.com")]])
  ])].

Lemma createBookZodSchema_roundtrip_witness :
  safeParse createBookZodSchema (request_of (encode_book dune)) =
  Ok (request_of (encode_book dune)).
Proof.
  apply (createBookZodSchema_roundtrip dune). split; [set_solver|].
  by repeat constructor.
Defined.

Lemma createBookZodSchema_sound_witness :
  ∃ t a g y rs,
    request_of (encode_book dune) = request_of (encode_book (new_book t a g y rs)) ∧
    g ∈ book_genres ∧ Forall (λ r, is_email (email r) = true) rs.
Proof.
  apply (createBookZodSchema_sound dune_request). vm_compute. reflexivity.
Defined.

Lemma update_accepts_what_create_accepts_witness :
  conforms updateBookZodSchema (Some dune_request) = true ∧
  conforms updateBookZodSchema (Some (request_of (JObj []))) = true.
Proof.
  apply (update_accepts_what_create_accepts dune_request). vm_compute. reflexivity.
Defined.

(** The parse drops the key the schema does not know and orders the
    others as the shape does; what it returned parses to itself. *)
Lemma BookValidation_parse_idempotent_witness :
  safeParse createBookZodSchema dune_request = Ok (request_of (encode_book dune)) ∧
  safeParse createBookZodSchema (request_of (encode_book dune)) =
    Ok (request_of (encode_book dune)).
Proof.
  split; [vm_compute; reflexivity|].
  refine (BookValidation_parse_idempotent CreateBookZodSchema dune_request
            (request_of (encode_book dune)) _).
  vm_compute. reflexivity.
Defined.
