(* ===== verification/Patch.v ===== *)
(** * Patch: what the update schema lets through

    [updateBookZodSchema] makes every key of the body optional, and every
    key of a review.  A body it accepts holds any of the five keys, each
    of its type, and reviews of which the email, the comment or both may
    be missing: a [BookPatch].  The theorems say that the schema accepts
    exactly the encodings of the patches whose genre, if there is one, is
    configured and whose review emails, where there is one, are valid, and
    that what it returns is such an encoding. *)

From S2P Require Import Prelude Document Validation.

(** ** Encoding a patch *)

(** A key of an object, when its value is present. *)
Definition field (k : string) (v : option json) : list (string * json) :=
  from_option (λ x, [(k, x)]) [] v.

Record ReviewPatch : Type := mkReviewPatch {
  rp_email : option string;
  rp_comment : option string;
}.

Record BookPatch : Type := mkBookPatch {
  bp_title : option string;
  bp_author : option string;
  bp_genre : option string;
  bp_publication_date : option string;
  bp_reviews : option (list ReviewPatch);
}.

Definition encode_review_patch (r : ReviewPatch) : json :=
  JObj (field "email" (JStr <$> rp_email r) ++ field "comment" (JStr <$> rp_comment r)).

Definition encode_review_patches (l : list ReviewPatch) : json :=
  JArr (encode_review_patch <$> l).

Definition patch_body (p : BookPatch) : list (string * json) :=
  field "title" (JStr <$> bp_title p) ++
  field "author" (JStr <$> bp_author p) ++
  field "genre" (JStr <$> bp_genre p) ++
  field "publication_date" (JStr <$> bp_publication_date p) ++
  field "reviews" (encode_review_patches <$> bp_reviews p).

Definition encode_patch (p : BookPatch) : json := JObj (patch_body p).

(** The string under a key, when there is one. *)
Definition as_string (v : option json) : option string :=
  match v with
  | Some (JStr x) => Some x
  | _ => None
  end.

Section patch.
Context `{BookConstant, EmailSyntax}.

(** An email that is present is a valid address. *)
Definition valid_review_patch (r : ReviewPatch) : Prop :=
  from_option (λ e, is_email e = true) True (rp_email r).

(** A genre that is present is configured, and the reviews that are
    present are valid. *)
Definition valid_patch (p : BookPatch) : Prop :=
  from_option (λ g, g ∈ book_genres) True (bp_genre p) ∧
  from_option (Forall valid_review_patch) True (bp_reviews p).

#[export] Instance valid_review_patch_dec r : Decision (valid_review_patch r).
Proof. unfold valid_review_patch. destruct (rp_email r); simpl; apply _. Defined.

#[export] Instance valid_patch_dec p : Decision (valid_patch p).
Proof. unfold valid_patch. destruct (bp_genre p), (bp_reviews p); simpl; apply _. Defined.

End patch.

(** * Lemmas *)

Section field_lemmas.
Implicit Types (k : string) (v : option json) (o : list (string * json)).

Lemma assoc_app {A} k (o1 o2 : list (string * A)) :
  assoc k (o1 ++ o2) = from_option Some (assoc k o2) (assoc k o1).
Proof.
  induction o1 as [|[k' v] o1 IH]; [done|]. simpl. by case_decide.
Qed.

Lemma assoc_field k k' v :
  assoc k (field k' v) = if decide (k' = k) then v else None.
Proof. destruct v; simpl; by case_decide. Qed.

Lemma assoc_field_eq k v o :
  assoc k (field k v ++ o) = from_option Some (assoc k o) v.
Proof. by rewrite assoc_app, assoc_field, decide_True. Qed.

Lemma assoc_field_ne k k' v o : k' ≠ k → assoc k (field k' v ++ o) = assoc k o.
Proof. intros. by rewrite assoc_app, assoc_field, decide_False. Qed.

Lemma assoc_field_last k k' v : k' ≠ k → assoc k (field k' v) = None.
Proof. intros. by rewrite assoc_field, decide_False. Qed.

(** A value that is absent or a string is the string it holds. *)
Lemma as_string_spec v :
  v = None ∨ (∃ x, v = Some (JStr x)) → v = JStr <$> as_string v.
Proof. by intros [->|[x ->]]. Qed.

End field_lemmas.

Section patch_lemmas.
Context `{BookConstant, EmailSyntax}.
Implicit Types (r : ReviewPatch) (rs : list ReviewPatch) (p : BookPatch) (w : json)
  (l : list json).

(** ** Reviews *)

Lemma conforms_encode_review_patch r :
  conforms update_review_schema (Some (encode_review_patch r)) = true ↔
  valid_review_patch r.
Proof.
  destruct r as [[e|] [c|]]; unfold valid_review_patch; simpl;
    rewrite ?andb_true_r; done.
Qed.

Lemma output_encode_review_patch r :
  output update_review_schema (Some (encode_review_patch r)) =
  Some (encode_review_patch r).
Proof. by destruct r as [[e|] [c|]]. Qed.

(** A review the update schema accepts is returned as a patch. *)
Lemma review_patch_output w :
  conforms update_review_schema (Some w) = true →
  ∃ r, output update_review_schema (Some w) = Some (encode_review_patch r) ∧
       valid_review_patch r.
Proof.
  intros (o & [= ->] & Hf)%conforms_object.
  rewrite !Forall_cons in Hf. cbn [fst snd] in Hf. destruct Hf as (He & Hc & _).
  exists (mkReviewPatch (as_string (assoc "email" o)) (as_string (assoc "comment" o))).
  apply conforms_optional in He, Hc. unfold valid_review_patch, encode_review_patch.
  simpl. destruct He as [->|(e & -> & [He _]%Forall_cons)%conforms_string],
    Hc as [->|(c & -> & _)%conforms_string]; done.
Qed.

Lemma review_patches_output l :
  Forall (λ w, conforms update_review_schema (Some w) = true) l →
  ∃ rs, omap (λ w, output update_review_schema (Some w)) l = encode_review_patch <$> rs ∧
        Forall valid_review_patch rs.
Proof. apply omap_decoded, review_patch_output. Qed.

Lemma review_patches_conform rs :
  Forall (λ w, conforms update_review_schema (Some w) = true) (encode_review_patch <$> rs) ↔
  Forall valid_review_patch rs.
Proof. rewrite Forall_fmap. apply Forall_iff, conforms_encode_review_patch. Qed.

Lemma review_patches_output_encode rs :
  omap (λ w, output update_review_schema (Some w)) (encode_review_patch <$> rs) =
  encode_review_patch <$> rs.
Proof.
  induction rs as [|r rs IH]; [done|]. rewrite fmap_cons. cbn [omap list_omap].
  by rewrite output_encode_review_patch, IH.
Qed.

#[local] Opaque update_review_schema.

(** The reviews of a body the update schema accepts. *)
Lemma reviews_field_output v :
  v = None ∨
  (∃ l, v = Some (JArr l) ∧ Forall (λ w, conforms update_review_schema (Some w) = true) l) →
  ∃ ors : option (list ReviewPatch),
    output (z.optional (z.array update_review_schema)) v = encode_review_patches <$> ors ∧
    from_option (Forall valid_review_patch) True ors.
Proof.
  intros [->|(l & -> & Hl)]; [by exists None|].
  destruct (review_patches_output l Hl) as (rs & Hrs & ?). exists (Some rs).
  simpl. by rewrite Hrs.
Qed.

Lemma reviews_field_output_encode (ors : option (list ReviewPatch)) :
  output (z.optional (z.array update_review_schema)) (encode_review_patches <$> ors) =
  encode_review_patches <$> ors.
Proof. destruct ors as [rs|]; [|done]. simpl. by rewrite review_patches_output_encode. Qed.

(** ** Bodies *)

(** The value under each key of the body of a patch. *)
Lemma patch_body_keys p :
  assoc "title" (patch_body p) = JStr <$> bp_title p ∧
  assoc "author" (patch_body p) = JStr <$> bp_author p ∧
  assoc "genre" (patch_body p) = JStr <$> bp_genre p ∧
  assoc "publication_date" (patch_body p) = JStr <$> bp_publication_date p ∧
  assoc "reviews" (patch_body p) = encode_review_patches <$> bp_reviews p.
Proof.
  unfold patch_body.
  split_and!;
    repeat first [rewrite assoc_field_eq|rewrite assoc_field_ne by done
                 |rewrite assoc_field_last by done];
    by destruct (_ <$> _).
Qed.

(** What the update schema returns: the five keys that are present. *)
Lemma output_update_body o bo :
  assoc "body" o = Some (JObj bo) →
  output updateBookZodSchema (Some (JObj o)) =
  Some (request_of (JObj (
    field "title" (assoc "title" bo) ++ field "author" (assoc "author" bo) ++
    field "genre" (assoc "genre" bo) ++
    field "publication_date" (assoc "publication_date" bo) ++
    field "reviews"
      (output (z.optional (z.array update_review_schema)) (assoc "reviews" bo))))).
Proof.
  intros Hb. simpl. rewrite Hb. simpl.
  by destruct (assoc "title" bo), (assoc "author" bo), (assoc "genre" bo),
    (assoc "publication_date" bo), (assoc "reviews" bo) as [[]|].
Qed.

(** The update schema accepts the body of a patch that is valid. *)
Lemma conforms_encode_patch p :
  conforms updateBookZodSchema (Some (request_of (encode_patch p))) = true ↔
  valid_patch p.
Proof.
  unfold request_of, encode_patch, valid_patch. rewrite conforms_update_body.
  setoid_rewrite assoc_cons. rewrite decide_True by done.
  destruct (patch_body_keys p) as (Ht & Ha & Hg & Hy & Hr). split.
  - intros (bo & [= <-] & _ & _ & Hg' & _ & Hr'). rewrite Hg in Hg'. rewrite Hr in Hr'.
    split.
    + destruct (bp_genre p) as [g|]; [|done].
      by destruct Hg' as [|(? & [= <-] & ?)].
    + destruct (bp_reviews p) as [rs|]; [|done].
      destruct Hr' as [|(l & [= <-] & Hl)]; [done|]. by apply review_patches_conform.
  - intros [Hg' Hr']. eexists. split; [done|]. rewrite Ht, Ha, Hg, Hy, Hr.
    split_and!.
    + destruct (bp_title p); eauto.
    + destruct (bp_author p); eauto.
    + destruct (bp_genre p); eauto.
    + destruct (bp_publication_date p); eauto.
    + destruct (bp_reviews p) as [rs|]; [right|by left]. eexists. split; [done|].
      by apply review_patches_conform.
Qed.

Lemma output_encode_patch p :
  output updateBookZodSchema (Some (request_of (encode_patch p))) =
  Some (request_of (encode_patch p)).
Proof.
  unfold request_of at 1, encode_patch at 1.
  rewrite (output_update_body _ (patch_body p)) by done.
  destruct (patch_body_keys p) as (-> & -> & -> & -> & ->).
  by rewrite reviews_field_output_encode.
Qed.

End patch_lemmas.

(** * Properties of the update schema *)

Section patch_properties.
Context `{BookConstant, EmailSyntax}.
Implicit Types (p : BookPatch) (req out : json).

(** The update schema accepts the body of a patch exactly when the patch
    is valid, and the parse then returns the request unchanged. *)
Lemma update_parse_of_patch p :
  safeParse updateBookZodSchema (request_of (encode_patch p)) =
    Ok (request_of (encode_patch p)) ↔
  valid_patch p.
Proof. rewrite safeParse_Ok, conforms_encode_patch, output_encode_patch. naive_solver. Qed.

(** Whatever the update schema accepts, it returns the body of a valid
    patch. *)
Lemma update_parse_is_patch req out :
  safeParse updateBookZodSchema req = Ok out →
  ∃ p, out = request_of (encode_patch p) ∧ valid_patch p.
Proof.
  rewrite safeParse_Ok. intros [Hc Ho].
  destruct (conforms_object_inv _ _ Hc) as [o ->].
  apply conforms_update_body in Hc as (bo & Hb & Ht & Ha & Hg & Hy & Hr).
  rewrite (output_update_body _ _ Hb) in Ho. apply (inj Some) in Ho as <-.
  destruct (reviews_field_output _ Hr) as (ors & -> & ?).
  exists (mkBookPatch (as_string (assoc "title" bo)) (as_string (assoc "author" bo))
            (as_string (assoc "genre" bo)) (as_string (assoc "publication_date" bo)) ors).
  unfold encode_patch, patch_body, valid_patch. simpl.
  rewrite <-!as_string_spec by naive_solver. split; [done|]. split; [|done].
  by destruct Hg as [->|(g & -> & ?)].
Qed.

(** C40: the update schema lets through exactly the valid patches.
    Whatever request it accepts, the value the parse returns is the body
    of a patch: of the five keys it holds those that were present, title,
    author and publication date as strings, the genre as a configured
    genre, and the reviews with the email and the comment that were
    present, every email a valid address; a review may have neither, and
    no other key is left.  And the body of a patch is accepted exactly
    when the patch is valid, and is then returned unchanged. *)
Theorem updateBookZodSchema_accepts_patches :
  (∀ req out, safeParse updateBookZodSchema req = Ok out →
     ∃ p, out = request_of (encode_patch p) ∧ valid_patch p) ∧
  (∀ p, safeParse updateBookZodSchema (request_of (encode_patch p)) =
          Ok (request_of (encode_patch p)) ↔ valid_patch p).
Proof. split; [apply update_parse_is_patch|apply update_parse_of_patch]. Qed.

End patch_properties.

(** * A patch at the update schema *)

#[local] Existing Instances default_constant plain_email_syntax.

(** A new title and genre and two reviews, one without an email and one
    without a comment; the request also carries a wishlist. *)
Definition retitle : BookPatch :=
  mkBookPatch (Some "Emma, a novel") None (Some "Fiction") None
    (Some [mkReviewPatch None (Some "A delight"); mkReviewPatch (Some "a@x.com") None]).

Definition retitle_request : json :=
  request_of (JObj [
    ("title", JStr "Emma, a novel"); ("genre", JStr "Fiction");
    ("wishlist", JArr [JStr "not an email"]);
    ("reviews", JArr [JObj [("comment", JStr "A delight")];
                      JObj [("email", JStr "a@x.com"); ("stars", JStr "5")]])]).

(** The request is accepted, and what is returned is the patch. *)
Example retitle_parses :
  safeParse updateBookZodSchema retitle_request = Ok (request_of (encode_patch retitle)) ∧
  valid_patch retitle.
Proof. split; [vm_compute; reflexivity|by apply (bool_decide_unpack _)]. Qed.
