(* ===== verification/Boundary.v ===== *)
(** * Boundary: the requests the schemas let through, at the service

    The specification places the validation of requests in front of the
    service and states the invariants of the data the two keep together:
    the genre of a book is one of the configured genres, and the email of
    every review is a valid address.  book.validation.ts declares a
    schema for the body of a create and for the body of an update, and
    for nothing else.

    Here a request is [guarded] when its body has passed the schema the
    module declares for it, if it declares one.  The body of a create is
    the encoding of the book ([encode_book] of [Validation]); the body of
    an update holds the keys that are present in the partial payload
    ([encode_partial], with [field] of [Patch]).  The payload of an
    update is typed, as in the source: a review in it has its email, so a
    body with a review that lacks one, which the update schema accepts,
    is the body of no request here ([unchecked_reviews_reach_the_store]).
    The theorems follow the invariants through the runs of the machine
    and show where they stop holding. *)

From stdpp Require Import relations.
From S2P Require Import Prelude Document Query Update Collection Pagination.
From S2P Require Import Samples Listing Mutators Machine Concurrent Validation Patch.

(** ** The body of an update *)

Definition encode_list (l : list string) : json := JArr (JStr <$> l).

Definition encode_reviews (rs : list IBookReview) : json :=
  JArr (encode_review <$> rs).

Definition partial_body (p : PartialBook) : list (string * json) :=
  field "title" (JStr <$> p_title p) ++
  field "author" (JStr <$> p_author p) ++
  field "genre" (JStr <$> p_genre p) ++
  field "publication_date" (JStr <$> p_publication_date p) ++
  field "reviews" (encode_reviews <$> p_reviews p) ++
  field "wishlist" (encode_list <$> p_wishlist p) ++
  field "read_soon" (encode_list <$> p_read_soon p) ++
  field "currently_reading" (encode_list <$> p_currently_reading p) ++
  field "finished" (encode_list <$> p_finished p).

Definition encode_partial (p : PartialBook) : json := JObj (partial_body p).

Section boundary.
Context `{BookConstant, EmailSyntax}.

(** ** The invariants of the data (specification, 3) *)

Definition valid_review (r : IBookReview) : Prop := is_email (email r) = true.

Definition valid_genre (b : IBook) : Prop := genre b ∈ book_genres.

Definition valid_book (b : IBook) : Prop :=
  valid_genre b ∧ Forall valid_review (reviews b).

#[export] Instance valid_review_dec r : Decision (valid_review r).
Proof. unfold valid_review. apply _. Defined.

#[export] Instance valid_book_dec b : Decision (valid_book b).
Proof. unfold valid_book, valid_genre. apply _. Defined.

(** ** Guarded requests *)

(** The body of the request has passed the schema of its operation; an
    operation without a schema is let through. *)
Definition guarded (r : request) : Prop :=
  match r with
  | CreateBook b =>
      conforms createBookZodSchema (Some (request_of (encode_book b))) = true
  | UpdateBook _ p =>
      conforms updateBookZodSchema (Some (request_of (encode_partial p))) = true
  | _ => True
  end.

(** The reviews a request brings to a record are valid. *)
Definition brings_valid_reviews (r : request) : Prop :=
  match r with
  | AddReview _ review => valid_review review
  | _ => True
  end.

#[export] Instance guarded_dec r : Decision (guarded r).
Proof. destruct r; simpl; apply _. Defined.

#[export] Instance brings_valid_reviews_dec r : Decision (brings_valid_reviews r).
Proof. destruct r; simpl; apply _. Defined.

End boundary.

(** * Lemmas *)

Section body_lemmas.

(** The value under each key the update schema knows. *)
Lemma partial_body_keys p :
  assoc "title" (partial_body p) = JStr <$> p_title p ∧
  assoc "author" (partial_body p) = JStr <$> p_author p ∧
  assoc "genre" (partial_body p) = JStr <$> p_genre p ∧
  assoc "publication_date" (partial_body p) = JStr <$> p_publication_date p ∧
  assoc "reviews" (partial_body p) = encode_reviews <$> p_reviews p.
Proof.
  unfold partial_body.
  split_and!;
    repeat first [rewrite assoc_field_eq|rewrite assoc_field_ne by done
                 |rewrite assoc_field_last by done];
    by destruct (_ <$> _).
Qed.

End body_lemmas.

Section boundary_lemmas.
Context `{BookConstant, EmailSyntax}.
Implicit Types (b : IBook) (p : PartialBook) (r : request) (s : collection).

Lemma conforms_update_review review :
  conforms update_review_schema (Some (encode_review review)) = true ↔
  valid_review review.
Proof. unfold valid_review. simpl. by rewrite !andb_true_r. Qed.

(** What the update schema asks of a partial payload: a genre that is
    present is configured, reviews that are present have valid emails. *)
Lemma guarded_update i p :
  guarded (UpdateBook i p) ↔
  (∀ g, p_genre p = Some g → g ∈ book_genres) ∧
  (∀ rs, p_reviews p = Some rs → Forall valid_review rs).
Proof.
  unfold guarded, request_of, encode_partial. rewrite conforms_update_body.
  setoid_rewrite assoc_cons. rewrite decide_True by done.
  destruct (partial_body_keys p) as (Ht & Ha & Hg & Hy & Hr). split.
  - intros (bo & [= <-] & _ & _ & Hg' & _ & Hr'). rewrite Hg in Hg'. rewrite Hr in Hr'.
    split.
    + intros g Hp. rewrite Hp in Hg'. destruct Hg' as [|(? & [= <-] & ?)]; done.
    + intros rs Hp. rewrite Hp in Hr'. destruct Hr' as [|(l & [= <-] & Hl)]; [done|].
      apply Forall_fmap in Hl. eapply Forall_impl; [done|].
      intros review. apply conforms_update_review.
  - intros [Hg' Hr']. eexists. split; [done|]. rewrite Ht, Ha, Hg, Hy, Hr.
    split_and!.
    + destruct (p_title p); eauto.
    + destruct (p_author p); eauto.
    + destruct (p_genre p) as [g|]; eauto.
    + destruct (p_publication_date p); eauto.
    + destruct (p_reviews p) as [rs|]; [right|by left]. eexists. split; [done|].
      apply Forall_fmap. eapply Forall_impl; [by apply Hr'|].
      intros review. apply conforms_update_review.
Qed.

Lemma guarded_create b : guarded (CreateBook b) ↔ valid_book b.
Proof.
  unfold guarded, valid_book, valid_genre, valid_review.
  by rewrite conforms_encode_book, andb_true_iff, bool_decide_eq_true, forallb_Forall.
Qed.

End boundary_lemmas.

(** ** The invariants under a request *)

Section guarded_machine.
Context `{BookConstant, PaginationHelper, RegexEngine, FieldOrder, IdGenerator,
          EmailSyntax}.
Implicit Types (b : IBook) (r : request) (s : collection) (u : update_document).

(** The genre of a record changes under a partial update alone, the
    reviews under a partial update and a review. *)
Lemma update_of_genre r i u b :
  update_of r = Some (i, u) →
  genre (apply_update u b) =
  match r with UpdateBook _ p => default (genre b) (p_genre p) | _ => genre b end.
Proof. destruct r; intros [= <- <-]; by destruct b. Qed.

Lemma update_of_reviews r i u b :
  update_of r = Some (i, u) →
  reviews (apply_update u b) =
  match r with
  | UpdateBook _ p => default (reviews b) (p_reviews p)
  | AddReview _ review => reviews b ++ [review]
  | _ => reviews b
  end.
Proof. destruct r; intros [= <- <-]; by destruct b. Qed.

Lemma guarded_update_genre r i u b :
  update_of r = Some (i, u) → guarded r →
  valid_genre b → valid_genre (apply_update u b).
Proof.
  intros Hu Hr Hb. unfold valid_genre. rewrite (update_of_genre _ _ _ _ Hu).
  destruct r; try done. apply guarded_update in Hr as [Hg _].
  destruct (p_genre payload) eqn:E; [by apply Hg|done].
Qed.

Lemma guarded_update_reviews r i u b :
  update_of r = Some (i, u) → guarded r → brings_valid_reviews r →
  Forall valid_review (reviews b) → Forall valid_review (reviews (apply_update u b)).
Proof.
  intros Hu Hr Hv Hb. rewrite (update_of_reviews _ _ _ _ Hu). destruct r; try done.
  - apply guarded_update in Hr as [_ Hrs].
    destruct (p_reviews payload) eqn:E; [by apply Hrs|done].
  - apply Forall_app. split; [done|by constructor].
Qed.

(** A property of books that creates establish and updates keep holds of
    the collection after a request. *)
Lemma next_books (P : IBook → Prop) r s :
  (∀ b, r = CreateBook b → P b) →
  (∀ i u b, update_of r = Some (i, u) → P b → P (apply_update u b)) →
  Forall (P ∘ doc) s → Forall (P ∘ doc) (next r s).
Proof.
  intros Hc Hu Hs. destruct (update_of r) as [[i u]|] eqn:E.
  - rewrite (next_update _ _ _ _ E). apply Forall_update_id; [|done].
    intros d Hd. by eapply Hu.
  - destruct r; simplify_eq/=; [done..| |by apply Forall_delete_id].
    apply Forall_app. split; [done|]. constructor; [by apply Hc|done].
Qed.

Lemma guarded_next_genre r s :
  guarded r → Forall (valid_genre ∘ doc) s → Forall (valid_genre ∘ doc) (next r s).
Proof.
  intros Hr. apply next_books.
  - intros b ->. by apply guarded_create in Hr as [? _].
  - intros i u b Hu. by eapply guarded_update_genre.
Qed.

Lemma guarded_next_valid r s :
  guarded r ∧ brings_valid_reviews r →
  Forall (valid_book ∘ doc) s → Forall (valid_book ∘ doc) (next r s).
Proof.
  intros [Hr Hv]. apply next_books.
  - intros b ->. by apply guarded_create.
  - intros i u b Hu [??].
    split; [by eapply guarded_update_genre|by eapply guarded_update_reviews].
Qed.

End guarded_machine.

(** * Properties *)

Section boundary_properties.
Context `{BookConstant, PaginationHelper, RegexEngine, FieldOrder, IdGenerator,
          EmailSyntax}.
Implicit Types (r : request) (rs : list request) (s : collection).

(** C36: the schemas keep the genres valid, and the reviews as far as
    they see them. When every create and every update among the requests
    in flight has passed its schema, then along every execution of the
    server, whatever the interleaving, the genre of every record is a
    configured genre; when moreover the reviews that [addReview] brings
    have valid emails, which no schema checks, every review of every
    record has a valid email. *)
Theorem guarded_requests_keep_books_valid rs s c' :
  Forall guarded rs → Forall (valid_book ∘ doc) s →
  rtc cstep (arrivals rs, s) c' →
  Forall (valid_genre ∘ doc) c'.2 ∧
  (Forall brings_valid_reviews rs → Forall (valid_book ∘ doc) c'.2).
Proof.
  intros Hrs Hs Hc. split.
  - eapply proj2, (rtc_cstep_invariant _ guarded); eauto using guarded_next_genre.
    + simpl. by rewrite pending_arrivals.
    + eapply Forall_impl; [done|]. by intros d [? _].
  - intros Hv.
    eapply proj2, (rtc_cstep_invariant _ (λ r, guarded r ∧ brings_valid_reviews r));
      eauto using guarded_next_valid.
    simpl. rewrite pending_arrivals. by apply Forall_and.
Qed.

(** C37: a review reaches the store as it is sent. No schema stands
    before [addReview]: on a record that is there it is answered with the
    record whatever the review holds, and when every record was valid
    before, every record is valid afterwards exactly when the email of the
    review is an address. *)
Theorem addReview_keeps_valid_iff i review s d :
  lookup_id i s = Some d → Forall (valid_book ∘ doc) s →
  ∃ d' s', addReview i review s = Ok (Some d', s') ∧
    (Forall (valid_book ∘ doc) s' ↔ valid_review review).
Proof.
  intros Hd Hs. rewrite addReview_run. unfold updated. rewrite Hd. simpl.
  eexists _, _. split; [done|].
  split.
  - intros Hs'. pose proof (lookup_update_id i (apply_update (addReview_update review)) s) as Hl.
    rewrite Hd in Hl. apply lookup_id_Some in Hl as [Hin _].
    rewrite Forall_forall in Hs'. destruct (Hs' _ Hin) as [_ Hr]. simpl in Hr.
    by apply Forall_app in Hr as [_ [? _]%Forall_cons].
  - intros Hv. apply Forall_update_id; [|done]. intros d0 [Hg Hr]. split; simpl.
    + by destruct (doc d0).
    + apply Forall_app. by split; [|constructor].
Qed.

End boundary_properties.

(** * The boundary at the sample collections *)

#[local] Existing Instances default_constant default_helper literal_engine
  string_field_order long_id_generator plain_email_syntax.

(** A review by nobody, and the body of an update whose one review has
    neither email nor comment. *)
Definition anonymous_review : IBookReview := mkReview "nobody" "Dull".

Definition bare_review_body : json := JObj [("reviews", JArr [JObj []])].

(** Reviews reach the store unchecked. No schema stands before
    [addReview]: a review whose email is no address is appended to a
    record of a collection whose records were all valid.  The update
    schema makes the email of a review optional: it accepts a body whose
    review has no email at all, which is the body of no typed payload. *)
Example unchecked_reviews_reach_the_store :
  guarded (AddReview "b03" anonymous_review) ∧
  Forall (valid_book ∘ doc) club_store ∧
  ¬ Forall (valid_book ∘ doc) (next (AddReview "b03" anonymous_review) club_store) ∧
  conforms updateBookZodSchema (Some (request_of bare_review_body)) = true ∧
  ∀ p, encode_partial p ≠ bare_review_body.
Proof.
  split_and!; [done|by apply (bool_decide_unpack _)..|done|].
  intros p [= Hp]. pose proof (partial_body_keys p) as (_ & _ & _ & _ & Hr).
  rewrite Hp in Hr. destruct (p_reviews p) as [[|review [|??]]|]; by simplify_eq/=.
Qed.

Lemma addReview_keeps_valid_iff_witness :
  ∃ d' s', addReview "b03" anonymous_review club_store = Ok (Some d', s') ∧
    (Forall (valid_book ∘ doc) s' ↔ valid_review anonymous_review).
Proof.
  apply (addReview_keeps_valid_iff "b03" anonymous_review club_store (mkDoc "b03" club_book));
    [reflexivity|by apply (bool_decide_unpack _)].
Defined.

Lemma guarded_requests_keep_books_valid_witness :
  Forall (valid_genre ∘ doc) (exec eager_delete rush).2 ∧
  Forall (valid_book ∘ doc) (exec eager_delete rush).2.
Proof.
  destruct (guarded_requests_keep_books_valid club_evening [] (exec eager_delete rush))
    as [Hg Hv]; [by apply (bool_decide_unpack _)|done|apply exec_rtc|].
  split; [done|]. apply Hv. by apply (bool_decide_unpack _).
Defined.
